(** * Verification of the area fitter (areafit.h)

    A shallow embedding of [CAreaFitter]: the records of the source, the
    linked chains threaded through them, the explicit evaluation stack of
    [fitUnfittedAreas], and the entry point [fitAreas]. *)

From Stdlib Require Import ZArith QArith Lia.
From stdpp Require Import base tactics option list sets.

Local Open Scope Z_scope.

(** ** Machine integers

    [int] is a 32-bit two's complement integer. Arithmetic on sizes,
    coordinates and budgets wraps around. *)

Definition INT_MAX : Z := 2147483647.
Definition INT_MIN : Z := -2147483648.

Definition wrap32 (z : Z) : Z := (z + 2147483648) mod 4294967296 - 2147483648.

Definition add32 (a b : Z) : Z := wrap32 (a + b).
Definition sub32 (a b : Z) : Z := wrap32 (a - b).
Definition mul32 (a b : Z) : Z := wrap32 (a * b).

Definition is_int (z : Z) : Prop := INT_MIN <= z <= INT_MAX.

(** ** Records of the source *)

(** A pointer to a [CFitArea]: the fitter's [InitArea] or an element of its
    [Areas] array. A null pointer is [None]. *)
Inductive AreaPtr : Type :=
  | InitAreaPtr
  | AreasPtr (i : nat).

(** A pointer to a [COutArea]: an element of [fd -> BaseOutAreas] or one of
    the three [NewOutAreas] slots of a stack item. *)
Inductive OutAreaPtr : Type :=
  | BasePtr (i : nat)
  | NewPtr (d : nat) (k : nat).

Global Instance AreaPtr_eq_dec : EqDecision AreaPtr.
Proof. solve_decision. Defined.

Global Instance OutAreaPtr_eq_dec : EqDecision OutAreaPtr.
Proof. solve_decision. Defined.

Module CFitArea.
Record t : Type := mk {
  Object : Z;
  Width : Z;
  Height : Z;
  OutImage : Z;
  OutX : Z;
  OutY : Z;
  Next : option nat
}.

Definition set_Next (v : option nat) (a : t) : t :=
  mk (Object a) (Width a) (Height a) (OutImage a) (OutX a) (OutY a) v.

Definition set_Out (img x y : Z) (a : t) : t :=
  mk (Object a) (Width a) (Height a) img x y (Next a).

Definition default : t := mk 0 0 0 0 0 0 None.
End CFitArea.

Module COutImage.
Record t : Type := mk {
  Width : Z;
  Height : Z;
  Size : Z
}.

Definition zero : t := mk 0 0 0.
End COutImage.

Module COutArea.
Record t : Type := mk {
  OutImage : Z;
  x : Z;
  y : Z;
  Width : Z;
  Height : Z;
  Next : option OutAreaPtr
}.

Definition set_Next (v : option OutAreaPtr) (a : t) : t :=
  mk (OutImage a) (x a) (y a) (Width a) (Height a) v.

Definition set_OutImage (v : Z) (a : t) : t :=
  mk v (x a) (y a) (Width a) (Height a) (Next a).

(** Assignment of the five data fields; [Next] is left as it is. *)
Definition set_rect (img ax ay w h : Z) (a : t) : t :=
  mk img ax ay w h (Next a).

Definition default : t := mk 0 0 0 0 0 None.
End COutArea.

Global Instance CFitArea_inhabited : Inhabited CFitArea.t :=
  populate CFitArea.default.
Global Instance COutImage_inhabited : Inhabited COutImage.t :=
  populate COutImage.zero.
Global Instance COutArea_inhabited : Inhabited COutArea.t :=
  populate COutArea.default.
Global Instance OutAreaPtr_inhabited : Inhabited OutAreaPtr :=
  populate (BasePtr 0).

Module CGlobals.
Record t : Type := mk {
  FitCallsLimit : Z;
  FitCallsLeft : Z;
  BestOutSize : Z;
  BestOutImageCount : Z;
  BestFittedAreas : list CFitArea.t;
  BestOutImages : list COutImage.t
}.

Definition set_FitCallsLeft (v : Z) (g : t) : t :=
  mk (FitCallsLimit g) v (BestOutSize g) (BestOutImageCount g)
     (BestFittedAreas g) (BestOutImages g).

Definition set_Best (sz cnt : Z) (fa : list CFitArea.t)
    (oi : list COutImage.t) (g : t) : t :=
  mk (FitCallsLimit g) (FitCallsLeft g) sz cnt fa oi.
End CGlobals.

Module CFitData.
Record t : Type := mk {
  BaseOutAreas : list COutArea.t;
  OutImages : list COutImage.t;
  OutImageCount : Z;
  OutSize : Z;
  BestOutSize : Z;
  BestOutImageCount : Z
}.

Definition set_BaseOutAreas (v : list COutArea.t) (d : t) : t :=
  mk v (OutImages d) (OutImageCount d) (OutSize d) (BestOutSize d)
     (BestOutImageCount d).

Definition set_OutImages (v : list COutImage.t) (d : t) : t :=
  mk (BaseOutAreas d) v (OutImageCount d) (OutSize d) (BestOutSize d)
     (BestOutImageCount d).

Definition set_OutImageCount (v : Z) (d : t) : t :=
  mk (BaseOutAreas d) (OutImages d) v (OutSize d) (BestOutSize d)
     (BestOutImageCount d).

Definition set_OutSize (v : Z) (d : t) : t :=
  mk (BaseOutAreas d) (OutImages d) (OutImageCount d) v (BestOutSize d)
     (BestOutImageCount d).

Definition set_Best (sz cnt : Z) (d : t) : t :=
  mk (BaseOutAreas d) (OutImages d) (OutImageCount d) (OutSize d) sz cnt.
End CFitData.

(** [fd -> OutAreas] always points to the first element of
    [BaseOutAreas], the "initial" output area. *)
Definition OutAreas : OutAreaPtr := BasePtr 0.

(** [UnfittedAreas] always points to [InitArea]. *)
Definition UnfittedAreas : AreaPtr := InitAreaPtr.

Module CFitAreaStackItem.
Record t : Type := mk {
  CodeLoc : Z;
  Area : option nat;
  PrevArea : AreaPtr;
  NewOutAreas : list COutArea.t;
  PrevNewOutAreas : list OutAreaPtr;
  OutArea : option OutAreaPtr;
  PrevOutArea : OutAreaPtr;
  OutAreasTried : Z;
  OutAreaRemainRight : Z;
  OutAreaRemainBottom : Z;
  WasOutImageAdded : bool;
  DoOutImageRestore : bool;
  OutImageSave : COutImage.t;
  OutSizeSave : Z;
  MinAreaWidth : Z;
  MinAreaHeight : Z;
  c : nat;
  c1 : nat
}.

Definition set_CodeLoc (v : Z) (s : t) : t :=
  mk v (Area s) (PrevArea s) (NewOutAreas s) (PrevNewOutAreas s)
     (OutArea s) (PrevOutArea s) (OutAreasTried s) (OutAreaRemainRight s)
     (OutAreaRemainBottom s) (WasOutImageAdded s) (DoOutImageRestore s)
     (OutImageSave s) (OutSizeSave s) (MinAreaWidth s) (MinAreaHeight s)
     (c s) (c1 s).

Definition set_Area (v : option nat) (s : t) : t :=
  mk (CodeLoc s) v (PrevArea s) (NewOutAreas s) (PrevNewOutAreas s)
     (OutArea s) (PrevOutArea s) (OutAreasTried s) (OutAreaRemainRight s)
     (OutAreaRemainBottom s) (WasOutImageAdded s) (DoOutImageRestore s)
     (OutImageSave s) (OutSizeSave s) (MinAreaWidth s) (MinAreaHeight s)
     (c s) (c1 s).

Definition set_PrevArea (v : AreaPtr) (s : t) : t :=
  mk (CodeLoc s) (Area s) v (NewOutAreas s) (PrevNewOutAreas s)
     (OutArea s) (PrevOutArea s) (OutAreasTried s) (OutAreaRemainRight s)
     (OutAreaRemainBottom s) (WasOutImageAdded s) (DoOutImageRestore s)
     (OutImageSave s) (OutSizeSave s) (MinAreaWidth s) (MinAreaHeight s)
     (c s) (c1 s).

Definition set_NewOutAreas (v : list COutArea.t) (s : t) : t :=
  mk (CodeLoc s) (Area s) (PrevArea s) v (PrevNewOutAreas s)
     (OutArea s) (PrevOutArea s) (OutAreasTried s) (OutAreaRemainRight s)
     (OutAreaRemainBottom s) (WasOutImageAdded s) (DoOutImageRestore s)
     (OutImageSave s) (OutSizeSave s) (MinAreaWidth s) (MinAreaHeight s)
     (c s) (c1 s).

Definition set_PrevNewOutAreas (v : list OutAreaPtr) (s : t) : t :=
  mk (CodeLoc s) (Area s) (PrevArea s) (NewOutAreas s) v
     (OutArea s) (PrevOutArea s) (OutAreasTried s) (OutAreaRemainRight s)
     (OutAreaRemainBottom s) (WasOutImageAdded s) (DoOutImageRestore s)
     (OutImageSave s) (OutSizeSave s) (MinAreaWidth s) (MinAreaHeight s)
     (c s) (c1 s).

Definition set_OutArea (v : option OutAreaPtr) (s : t) : t :=
  mk (CodeLoc s) (Area s) (PrevArea s) (NewOutAreas s) (PrevNewOutAreas s)
     v (PrevOutArea s) (OutAreasTried s) (OutAreaRemainRight s)
     (OutAreaRemainBottom s) (WasOutImageAdded s) (DoOutImageRestore s)
     (OutImageSave s) (OutSizeSave s) (MinAreaWidth s) (MinAreaHeight s)
     (c s) (c1 s).

Definition set_PrevOutArea (v : OutAreaPtr) (s : t) : t :=
  mk (CodeLoc s) (Area s) (PrevArea s) (NewOutAreas s) (PrevNewOutAreas s)
     (OutArea s) v (OutAreasTried s) (OutAreaRemainRight s)
     (OutAreaRemainBottom s) (WasOutImageAdded s) (DoOutImageRestore s)
     (OutImageSave s) (OutSizeSave s) (MinAreaWidth s) (MinAreaHeight s)
     (c s) (c1 s).

Definition set_OutAreasTried (v : Z) (s : t) : t :=
  mk (CodeLoc s) (Area s) (PrevArea s) (NewOutAreas s) (PrevNewOutAreas s)
     (OutArea s) (PrevOutArea s) v (OutAreaRemainRight s)
     (OutAreaRemainBottom s) (WasOutImageAdded s) (DoOutImageRestore s)
     (OutImageSave s) (OutSizeSave s) (MinAreaWidth s) (MinAreaHeight s)
     (c s) (c1 s).

Definition set_Remain (r b : Z) (s : t) : t :=
  mk (CodeLoc s) (Area s) (PrevArea s) (NewOutAreas s) (PrevNewOutAreas s)
     (OutArea s) (PrevOutArea s) (OutAreasTried s) r b
     (WasOutImageAdded s) (DoOutImageRestore s)
     (OutImageSave s) (OutSizeSave s) (MinAreaWidth s) (MinAreaHeight s)
     (c s) (c1 s).

Definition set_WasOutImageAdded (v : bool) (s : t) : t :=
  mk (CodeLoc s) (Area s) (PrevArea s) (NewOutAreas s) (PrevNewOutAreas s)
     (OutArea s) (PrevOutArea s) (OutAreasTried s) (OutAreaRemainRight s)
     (OutAreaRemainBottom s) v (DoOutImageRestore s)
     (OutImageSave s) (OutSizeSave s) (MinAreaWidth s) (MinAreaHeight s)
     (c s) (c1 s).

Definition set_DoOutImageRestore (v : bool) (s : t) : t :=
  mk (CodeLoc s) (Area s) (PrevArea s) (NewOutAreas s) (PrevNewOutAreas s)
     (OutArea s) (PrevOutArea s) (OutAreasTried s) (OutAreaRemainRight s)
     (OutAreaRemainBottom s) (WasOutImageAdded s) v
     (OutImageSave s) (OutSizeSave s) (MinAreaWidth s) (MinAreaHeight s)
     (c s) (c1 s).

Definition set_Save (img : COutImage.t) (sz : Z) (s : t) : t :=
  mk (CodeLoc s) (Area s) (PrevArea s) (NewOutAreas s) (PrevNewOutAreas s)
     (OutArea s) (PrevOutArea s) (OutAreasTried s) (OutAreaRemainRight s)
     (OutAreaRemainBottom s) (WasOutImageAdded s) (DoOutImageRestore s)
     img sz (MinAreaWidth s) (MinAreaHeight s)
     (c s) (c1 s).

Definition set_MinArea (w h : Z) (s : t) : t :=
  mk (CodeLoc s) (Area s) (PrevArea s) (NewOutAreas s) (PrevNewOutAreas s)
     (OutArea s) (PrevOutArea s) (OutAreasTried s) (OutAreaRemainRight s)
     (OutAreaRemainBottom s) (WasOutImageAdded s) (DoOutImageRestore s)
     (OutImageSave s) (OutSizeSave s) w h
     (c s) (c1 s).

Definition set_c (v : nat) (s : t) : t :=
  mk (CodeLoc s) (Area s) (PrevArea s) (NewOutAreas s) (PrevNewOutAreas s)
     (OutArea s) (PrevOutArea s) (OutAreasTried s) (OutAreaRemainRight s)
     (OutAreaRemainBottom s) (WasOutImageAdded s) (DoOutImageRestore s)
     (OutImageSave s) (OutSizeSave s) (MinAreaWidth s) (MinAreaHeight s)
     v (c1 s).

Definition set_c1 (v : nat) (s : t) : t :=
  mk (CodeLoc s) (Area s) (PrevArea s) (NewOutAreas s) (PrevNewOutAreas s)
     (OutArea s) (PrevOutArea s) (OutAreasTried s) (OutAreaRemainRight s)
     (OutAreaRemainBottom s) (WasOutImageAdded s) (DoOutImageRestore s)
     (OutImageSave s) (OutSizeSave s) (MinAreaWidth s) (MinAreaHeight s)
     (c s) v.

(** The content of a stack item that was allocated and not yet written. *)
Definition default : t :=
  mk 0 None InitAreaPtr
     [COutArea.default; COutArea.default; COutArea.default]
     [BasePtr 0; BasePtr 0] None (BasePtr 0) 0 0 0 false false
     COutImage.zero 0 0 0 0%nat 0%nat.
End CFitAreaStackItem.

Global Instance CFitAreaStackItem_inhabited : Inhabited CFitAreaStackItem.t :=
  populate CFitAreaStackItem.default.

Module CAreaFitter.
Record t : Type := mk {
  MaxOutImageWidth : Z;
  MaxOutImageHeight : Z;
  MaxOutImageSize : Z;
  Globals : CGlobals.t;
  FitCallsLeft : Z;
  InitArea : CFitArea.t;
  Areas : list CFitArea.t;
  fd : CFitData.t;
  Stack : list CFitAreaStackItem.t;
  Depth : Z
}.

Definition set_Globals (v : CGlobals.t) (f : t) : t :=
  mk (MaxOutImageWidth f) (MaxOutImageHeight f) (MaxOutImageSize f) v
     (FitCallsLeft f) (InitArea f) (Areas f) (fd f) (Stack f) (Depth f).

Definition set_FitCallsLeft (v : Z) (f : t) : t :=
  mk (MaxOutImageWidth f) (MaxOutImageHeight f) (MaxOutImageSize f)
     (Globals f) v (InitArea f) (Areas f) (fd f) (Stack f) (Depth f).

Definition set_InitArea (v : CFitArea.t) (f : t) : t :=
  mk (MaxOutImageWidth f) (MaxOutImageHeight f) (MaxOutImageSize f)
     (Globals f) (FitCallsLeft f) v (Areas f) (fd f) (Stack f) (Depth f).

Definition set_Areas (v : list CFitArea.t) (f : t) : t :=
  mk (MaxOutImageWidth f) (MaxOutImageHeight f) (MaxOutImageSize f)
     (Globals f) (FitCallsLeft f) (InitArea f) v (fd f) (Stack f) (Depth f).

Definition set_fd (v : CFitData.t) (f : t) : t :=
  mk (MaxOutImageWidth f) (MaxOutImageHeight f) (MaxOutImageSize f)
     (Globals f) (FitCallsLeft f) (InitArea f) (Areas f) v (Stack f)
     (Depth f).

Definition set_Stack (v : list CFitAreaStackItem.t) (f : t) : t :=
  mk (MaxOutImageWidth f) (MaxOutImageHeight f) (MaxOutImageSize f)
     (Globals f) (FitCallsLeft f) (InitArea f) (Areas f) (fd f) v (Depth f).

Definition set_Depth (v : Z) (f : t) : t :=
  mk (MaxOutImageWidth f) (MaxOutImageHeight f) (MaxOutImageSize f)
     (Globals f) (FitCallsLeft f) (InitArea f) (Areas f) (fd f) (Stack f) v.
End CAreaFitter.

(** ** Access through pointers

    Reading an array out of range or through a null pointer is undefined
    in the source; the model reads the default value there and a write is
    dropped. The invariant of the search keeps every pointer it follows
    inside its array. *)

Section Access.
Import CAreaFitter.

Definition depth (f : CAreaFitter.t) : nat := Z.to_nat (Depth f).

(** [*s], the current stack item [Stack[Depth]]. *)
Definition s (f : CAreaFitter.t) : CFitAreaStackItem.t :=
  Stack f !!! depth f.

Definition upd_s (g : CFitAreaStackItem.t → CFitAreaStackItem.t)
    (f : CAreaFitter.t) : CAreaFitter.t :=
  set_Stack (alter g (depth f) (Stack f)) f.

Definition outArea (f : CAreaFitter.t) (p : OutAreaPtr) : COutArea.t :=
  match p with
  | BasePtr i => CFitData.BaseOutAreas (fd f) !!! i
  | NewPtr d k => CFitAreaStackItem.NewOutAreas (Stack f !!! d) !!! k
  end.

Definition upd_outArea (g : COutArea.t → COutArea.t) (p : OutAreaPtr)
    (f : CAreaFitter.t) : CAreaFitter.t :=
  match p with
  | BasePtr i =>
      set_fd (CFitData.set_BaseOutAreas
                (alter g i (CFitData.BaseOutAreas (fd f))) (fd f)) f
  | NewPtr d k =>
      set_Stack
        (alter (λ it, CFitAreaStackItem.set_NewOutAreas
                        (alter g k (CFitAreaStackItem.NewOutAreas it)) it)
               d (Stack f)) f
  end.

Definition area (f : CAreaFitter.t) (p : AreaPtr) : CFitArea.t :=
  match p with
  | InitAreaPtr => InitArea f
  | AreasPtr i => Areas f !!! i
  end.

Definition upd_area (g : CFitArea.t → CFitArea.t) (p : AreaPtr)
    (f : CAreaFitter.t) : CAreaFitter.t :=
  match p with
  | InitAreaPtr => set_InitArea (g (InitArea f)) f
  | AreasPtr i => set_Areas (alter g i (Areas f)) f
  end.

(** [fd -> OutImages[ i ]] for an [int] index. *)
Definition outImage (f : CAreaFitter.t) (i : Z) : COutImage.t :=
  CFitData.OutImages (fd f) !!! Z.to_nat i.

Definition set_outImage (i : Z) (v : COutImage.t) (f : CAreaFitter.t)
    : CAreaFitter.t :=
  set_fd (CFitData.set_OutImages
            (<[Z.to_nat i := v]> (CFitData.OutImages (fd f))) (fd f)) f.

Definition upd_fd (g : CFitData.t → CFitData.t) (f : CAreaFitter.t)
    : CAreaFitter.t :=
  set_fd (g (fd f)) f.
End Access.

(** [CBuffer::updateCapacity]: the buffer keeps its elements and has room
    for at least [n] of them afterwards; the new cells hold no defined
    value yet. *)
Definition updateCapacity {A} `{Inhabited A} (n : nat) (l : list A) : list A :=
  l ++ replicate (n - length l) inhabitant.

(** ** [checkAreaFitAgainstBest]

    The reference parameters are passed in and handed back in a record.
    [OutSize] is [fd -> OutSize]. *)

Module CheckFit.
Record t : Type := mk {
  result : bool;
  OutSize : Z;
  OutImage : COutImage.t;
  DoOutImageRestore : bool;
  OutImageSave : COutImage.t;
  OutSizeSave : Z;
  OutAreasTried : Z
}.
End CheckFit.

Definition checkAreaFitAgainstBest (MaxOutImageSize fdOutSize fdBestOutSize : Z)
    (NewWidth NewHeight : Z) (OutImage : COutImage.t)
    (DoOutImageRestore : bool) (OutImageSave : COutImage.t)
    (OutSizeSave OutAreasTried : Z) : CheckFit.t :=
  let '(DoUpdateSize, NewWidth) :=
    if COutImage.Width OutImage <? NewWidth then (true, NewWidth)
    else (false, COutImage.Width OutImage) in
  let '(DoUpdateSize, NewHeight) :=
    if COutImage.Height OutImage <? NewHeight then (true, NewHeight)
    else (DoUpdateSize, COutImage.Height OutImage) in
  if DoUpdateSize then
    let NewSize := mul32 NewWidth NewHeight in
    let NewOutSize := sub32 (add32 fdOutSize NewSize) (COutImage.Size OutImage) in
    if MaxOutImageSize <? NewSize then
      CheckFit.mk false fdOutSize OutImage DoOutImageRestore OutImageSave
        OutSizeSave OutAreasTried
    else if fdBestOutSize <=? NewOutSize then
      CheckFit.mk false fdOutSize OutImage DoOutImageRestore OutImageSave
        OutSizeSave (OutAreasTried + 1)
    else
      CheckFit.mk true NewOutSize (COutImage.mk NewWidth NewHeight NewSize)
        true OutImage fdOutSize (OutAreasTried + 1)
  else
    CheckFit.mk true fdOutSize OutImage false OutImageSave OutSizeSave
      (OutAreasTried + 1).

(** ** [insertOutArea] *)

Section InsertOutArea.
Import CAreaFitter.

(** The scan loop; [fuel] bounds the number of iterations, [None] is a
    scan that did not end within it. *)
Fixpoint insertOutArea_scan (fuel : nat) (f : CAreaFitter.t) (h : Z)
    (PrevScanOutArea : OutAreaPtr) (ScanOutArea : option OutAreaPtr)
    : option OutAreaPtr :=
  match ScanOutArea with
  | None => Some PrevScanOutArea
  | Some sc =>
      if h <? COutArea.Height (outArea f sc) then Some PrevScanOutArea
      else
        match fuel with
        | O => None
        | S fuel' =>
            insertOutArea_scan fuel' f h sc (COutArea.Next (outArea f sc))
        end
  end.

(** The number of [COutArea] cells there are: no chain is longer. *)
Definition outAreaCells (f : CAreaFitter.t) : nat :=
  (length (CFitData.BaseOutAreas (fd f)) + 3 * length (Stack f))%nat.

Definition insertOutArea (f : CAreaFitter.t) (OutArea : OutAreaPtr)
    : option (CAreaFitter.t * OutAreaPtr) :=
  PrevScanOutArea ←
    insertOutArea_scan (outAreaCells f) f
      (COutArea.Height (outArea f OutArea)) OutAreas
      (COutArea.Next (outArea f OutAreas));
  let f1 :=
    upd_outArea
      (COutArea.set_Next (COutArea.Next (outArea f PrevScanOutArea)))
      OutArea f in
  let f2 := upd_outArea (COutArea.set_Next (Some OutArea)) PrevScanOutArea f1 in
  Some (f2, PrevScanOutArea).
End InsertOutArea.

(** ** [fitUnfittedAreas]

    The function is a loop over an explicit stack with two resumption
    labels. A configuration holds the object, the two local variables
    [Area] and [OutArea], and the place where execution continues: the
    head of the outer loop ([CodeLoc1]), the head of the inner
    [while( true )] loop, the labels [CodeLoc2] and [CodeLoc3], or the end
    of the function. *)

Inductive Location : Type :=
  | AtCodeLoc1
  | AtRegionLoop
  | AtCodeLoc2
  | AtCodeLoc3
  | AtReturn.

Global Instance Location_eq_dec : EqDecision Location.
Proof. solve_decision. Defined.

Module Config.
Record t : Type := mk {
  fitter : CAreaFitter.t;
  Area : option nat;
  OutArea : option OutAreaPtr;
  loc : Location
}.
End Config.

Section FitUnfittedAreas.
Import CAreaFitter.

(** [Area -> field] and [OutArea -> field] for the local variables. *)
Definition areaOf (f : CAreaFitter.t) (Area : option nat) : CFitArea.t :=
  Areas f !!! default 0%nat Area.

Definition outAreaOf (f : CAreaFitter.t) (OutArea : option OutAreaPtr)
    : COutArea.t :=
  outArea f (default (BasePtr 0) OutArea).

Definition pushStack (f : CAreaFitter.t) : CAreaFitter.t :=
  let f1 := set_Depth (Depth f + 1) f in
  upd_s (λ it,
      CFitAreaStackItem.set_PrevArea UnfittedAreas
        (CFitAreaStackItem.set_Area
           (CFitArea.Next (area f1 UnfittedAreas)) it)) f1.

(** The pruning test of the two loops:
    [fd -> OutSize >= fd -> BestOutSize ||
     fd -> OutImageCount > fd -> BestOutImageCount]. *)
Definition worseThanBest (f : CAreaFitter.t) : bool :=
  (CFitData.BestOutSize (fd f) <=? CFitData.OutSize (fd f)) ||
  (CFitData.BestOutImageCount (fd f) <? CFitData.OutImageCount (fd f)).

(** After the outer loop: return to the item below, or finish and hand
    the unused calls back. *)
Definition leaveFrame (f : CAreaFitter.t) (Area : option nat)
    (OutArea : option OutAreaPtr) : Config.t :=
  if 0 <? Depth f then
    let f1 := set_Depth (Depth f - 1) f in
    Config.mk f1 (CFitAreaStackItem.Area (s f1))
      (CFitAreaStackItem.OutArea (s f1))
      (if CFitAreaStackItem.CodeLoc (s f1) =? 2 then AtCodeLoc2
       else AtCodeLoc3)
  else if 0 <? FitCallsLeft f then
    let g := Globals f in
    let f1 :=
      set_Globals
        (CGlobals.set_FitCallsLeft
           (add32 (CGlobals.FitCallsLeft g) (FitCallsLeft f)) g) f in
    Config.mk (set_FitCallsLeft 0 f1) Area OutArea AtReturn
  else Config.mk f Area OutArea AtReturn.

(** The attempt itself: the call is counted, the area is taken out of
    the unfitted chain, and the scan of the output areas starts. *)
Definition startArea (f : CAreaFitter.t) : Config.t :=
  let f1 := set_FitCallsLeft (sub32 (FitCallsLeft f) 1) f in
  let Area := CFitAreaStackItem.Area (s f1) in
  let f2 :=
    upd_area (CFitArea.set_Next (CFitArea.Next (areaOf f1 Area)))
      (CFitAreaStackItem.PrevArea (s f1)) f1 in
  let OutArea := COutArea.Next (outArea f2 OutAreas) in
  let f3 :=
    upd_s (λ it,
        CFitAreaStackItem.set_OutAreasTried 0
          (CFitAreaStackItem.set_PrevOutArea OutAreas it)) f2 in
  Config.mk f3 Area OutArea AtRegionLoop.

(** One pass through the head of the outer loop. *)
Definition atCodeLoc1 (f : CAreaFitter.t) (Area : option nat)
    (OutArea : option OutAreaPtr) : Config.t :=
  match CFitAreaStackItem.Area (s f) with
  | None => leaveFrame f Area OutArea
  | Some _ =>
      if worseThanBest f then leaveFrame f Area OutArea
      else if FitCallsLeft f =? 0 then
        let g := Globals f in
        if (CGlobals.BestOutSize g <? CFitData.BestOutSize (fd f)) ||
           (CGlobals.BestOutImageCount g <?
              CFitData.BestOutImageCount (fd f))
        then
          leaveFrame
            (upd_fd (CFitData.set_Best (CGlobals.BestOutSize g)
                       (CGlobals.BestOutImageCount g)) f)
            Area OutArea
        else if CGlobals.FitCallsLeft g =? 0 then
          Config.mk f Area OutArea AtReturn
        else if 512 <=? CGlobals.FitCallsLeft g then
          startArea
            (set_Globals
               (CGlobals.set_FitCallsLeft
                  (sub32 (CGlobals.FitCallsLeft g) 512) g)
               (set_FitCallsLeft 512 f))
        else
          startArea
            (set_Globals (CGlobals.set_FitCallsLeft 0 g)
               (set_FitCallsLeft (CGlobals.FitCallsLeft g) f))
      else startArea f
  end.

(** After the inner loop: the area goes back into the unfitted chain and
    the outer loop advances. *)
Definition afterRegionLoop (f : CAreaFitter.t) (Area : option nat)
    (OutArea : option OutAreaPtr) : Config.t :=
  let f1 :=
    upd_area (CFitArea.set_Next Area) (CFitAreaStackItem.PrevArea (s f)) f in
  let f2 :=
    upd_s (λ it,
        CFitAreaStackItem.set_Area (CFitArea.Next (areaOf f1 Area))
          (CFitAreaStackItem.set_PrevArea (AreasPtr (default 0%nat Area))
             it)) f1 in
  Config.mk f2 Area OutArea AtCodeLoc1.

(** The end of an inner loop pass, from [if( s -> WasOutImageAdded )]. *)
Definition regionTail (f : CAreaFitter.t) (Area : option nat)
    (OutArea : option OutAreaPtr) : Config.t :=
  if CFitAreaStackItem.WasOutImageAdded (s f) then
    let f1 :=
      upd_outArea (COutArea.set_Next (COutArea.Next (outAreaOf f OutArea)))
        (CFitAreaStackItem.PrevOutArea (s f)) f in
    let f2 :=
      upd_fd (λ d, CFitData.set_OutImageCount
                     (sub32 (CFitData.OutImageCount d) 1) d) f1 in
    afterRegionLoop f2 Area OutArea
  else if worseThanBest f then afterRegionLoop f Area OutArea
  else
    let f1 :=
      upd_s (CFitAreaStackItem.set_PrevOutArea
               (default (BasePtr 0) OutArea)) f in
    Config.mk f1 Area (COutArea.Next (outAreaOf f1 OutArea)) AtRegionLoop.

(** From [if( s -> DoOutImageRestore )]. *)
Definition restoreOutImage (f : CAreaFitter.t) (Area : option nat)
    (OutArea : option OutAreaPtr) : Config.t :=
  if CFitAreaStackItem.DoOutImageRestore (s f) then
    let f1 :=
      set_outImage (COutArea.OutImage (outAreaOf f OutArea))
        (CFitAreaStackItem.OutImageSave (s f)) f in
    let f2 :=
      upd_fd (CFitData.set_OutSize (CFitAreaStackItem.OutSizeSave (s f)))
        f1 in
    regionTail f2 Area OutArea
  else regionTail f Area OutArea.

(** From "Restore output area occupied by the current Area". *)
Definition restoreOutArea (f : CAreaFitter.t) (Area : option nat)
    (OutArea : option OutAreaPtr) : Config.t :=
  let f1 :=
    upd_outArea (COutArea.set_Next OutArea)
      (CFitAreaStackItem.PrevOutArea (s f)) f in
  restoreOutImage f1 Area OutArea.

(** The loop [while( s -> c > 0 )] that takes the new output areas out
    of the chain again; [n] is the value of [s -> c] on entry. *)
Fixpoint removeNewOutAreas (n : nat) (f : CAreaFitter.t) : CAreaFitter.t :=
  match n with
  | O => f
  | S m =>
      let f1 := upd_s (CFitAreaStackItem.set_c m) f in
      let P := CFitAreaStackItem.PrevNewOutAreas (s f1) !!! m in
      let f2 :=
        upd_outArea
          (COutArea.set_Next
             (COutArea.Next (outAreaOf f1 (COutArea.Next (outArea f1 P)))))
          P f1 in
      removeNewOutAreas m f2
  end.

(** The scan for the minimal width and height among the unfitted
    areas. *)
Fixpoint scanMinArea (fuel : nat) (f : CAreaFitter.t)
    (ScanArea : option nat) (MinAreaWidth MinAreaHeight : Z)
    : option (Z * Z) :=
  match ScanArea with
  | None => Some (MinAreaWidth, MinAreaHeight)
  | Some i =>
      match fuel with
      | O => None
      | S fuel' =>
          let a := Areas f !!! i in
          scanMinArea fuel' f (CFitArea.Next a)
            (if CFitArea.Width a <? MinAreaWidth then CFitArea.Width a
             else MinAreaWidth)
            (if CFitArea.Height a <? MinAreaHeight then CFitArea.Height a
             else MinAreaHeight)
      end
  end.

(** [s -> PrevNewOutAreas[ 0 ] = insertOutArea( &s -> NewOutAreas[ 0 ]);
    s -> c = 1;] after the fields of [NewOutAreas[ 0 ]] were assigned. *)
Definition addNewOutArea0 (img ax ay w h : Z) (f : CAreaFitter.t)
    : option CAreaFitter.t :=
  let p := NewPtr (depth f) 0 in
  let f1 := upd_outArea (COutArea.set_rect img ax ay w h) p f in
  '(f2, prev) ← insertOutArea f1 p;
  Some (upd_s (λ it,
      CFitAreaStackItem.set_c 1
        (CFitAreaStackItem.set_PrevNewOutAreas
           (<[0%nat := prev]> (CFitAreaStackItem.PrevNewOutAreas it)) it))
    f2).

(** [s -> PrevNewOutAreas[ s -> c ] = insertOutArea( &s -> NewOutAreas[ 1 ]);
    s -> c++;] after the fields of [NewOutAreas[ 1 ]] were assigned. *)
Definition addNewOutArea1 (img ax ay w h : Z) (f : CAreaFitter.t)
    : option CAreaFitter.t :=
  let p := NewPtr (depth f) 1 in
  let f1 := upd_outArea (COutArea.set_rect img ax ay w h) p f in
  '(f2, prev) ← insertOutArea f1 p;
  Some (upd_s (λ it,
      CFitAreaStackItem.set_c (S (CFitAreaStackItem.c it))
        (CFitAreaStackItem.set_PrevNewOutAreas
           (<[CFitAreaStackItem.c it := prev]>
              (CFitAreaStackItem.PrevNewOutAreas it)) it)) f2).

(** The new output areas of configuration 1 (right part as tall as the
    output area, bottom part as wide as the fit area). *)
Definition configuration1 (f : CAreaFitter.t) (Area : option nat)
    (OutArea : option OutAreaPtr) : option CAreaFitter.t :=
  f1 ←
    (let it := s f in
     let A := areaOf f Area in
     let O := outAreaOf f OutArea in
     if (CFitAreaStackItem.MinAreaWidth it <=?
           CFitAreaStackItem.OutAreaRemainRight it) &&
        (CFitAreaStackItem.MinAreaHeight it <=? COutArea.Height O)
     then
       addNewOutArea0 (COutArea.OutImage O)
         (add32 (COutArea.x O) (CFitArea.Width A)) (COutArea.y O)
         (CFitAreaStackItem.OutAreaRemainRight it) (COutArea.Height O) f
     else Some (upd_s (CFitAreaStackItem.set_c 0) f));
  let it := s f1 in
  let A := areaOf f1 Area in
  let O := outAreaOf f1 OutArea in
  if (CFitAreaStackItem.MinAreaWidth it <=? CFitArea.Width A) &&
     (CFitAreaStackItem.MinAreaHeight it <=?
        CFitAreaStackItem.OutAreaRemainBottom it)
  then
    addNewOutArea1 (COutArea.OutImage O)
      (COutArea.x O) (add32 (COutArea.y O) (CFitArea.Height A))
      (CFitArea.Width A) (CFitAreaStackItem.OutAreaRemainBottom it) f1
  else Some f1.

(** The new output areas of configuration 2 (right part as tall as the
    fit area, bottom part as wide as the output area). *)
Definition configuration2 (f : CAreaFitter.t) (Area : option nat)
    (OutArea : option OutAreaPtr) : option CAreaFitter.t :=
  f1 ←
    (let it := s f in
     let A := areaOf f Area in
     let O := outAreaOf f OutArea in
     if (CFitAreaStackItem.MinAreaWidth it <=?
           CFitAreaStackItem.OutAreaRemainRight it) &&
        (CFitAreaStackItem.MinAreaHeight it <=? CFitArea.Height A)
     then
       addNewOutArea0 (COutArea.OutImage O)
         (add32 (COutArea.x O) (CFitArea.Width A)) (COutArea.y O)
         (CFitAreaStackItem.OutAreaRemainRight it) (CFitArea.Height A) f
     else Some (upd_s (CFitAreaStackItem.set_c 0) f));
  let it := s f1 in
  let A := areaOf f1 Area in
  let O := outAreaOf f1 OutArea in
  if (CFitAreaStackItem.MinAreaWidth it <=? COutArea.Width O) &&
     (CFitAreaStackItem.MinAreaHeight it <=?
        CFitAreaStackItem.OutAreaRemainBottom it)
  then
    addNewOutArea1 (COutArea.OutImage O)
      (COutArea.x O) (add32 (COutArea.y O) (CFitArea.Height A))
      (COutArea.Width O) (CFitAreaStackItem.OutAreaRemainBottom it) f1
  else Some f1.

(** "All areas were fitted": the fit is stored in [Globals] when it is
    better than the best one there, otherwise the local bounds are taken
    from [Globals]. *)
Definition saveBestFit (f : CAreaFitter.t) : CAreaFitter.t :=
  let g := Globals f in
  let d := fd f in
  if (CFitData.OutSize d <? CGlobals.BestOutSize g) &&
     (CFitData.OutImageCount d <=? CGlobals.BestOutImageCount g)
  then
    let f1 :=
      upd_fd (CFitData.set_Best (CFitData.OutSize d)
                (CFitData.OutImageCount d)) f in
    set_Globals
      (CGlobals.set_Best (CFitData.OutSize d) (CFitData.OutImageCount d)
         (Areas f)
         ((λ i, CFitData.OutImages d !!! i) <$>
            seq 0 (Z.to_nat (CFitData.OutImageCount d))) g) f1
  else
    upd_fd (CFitData.set_Best (CGlobals.BestOutSize g)
              (CGlobals.BestOutImageCount g)) f.

(** The body of [if( checkAreaFitAgainstBest( ... ))] up to the first
    [pushStack], or up to the restore of the output image when the last
    area was fitted. *)
Definition placeArea (f : CAreaFitter.t) (Area : option nat)
    (OutArea : option OutAreaPtr) : option Config.t :=
  let O := outAreaOf f OutArea in
  let f1 :=
    upd_area
      (CFitArea.set_Out (COutArea.OutImage O) (COutArea.x O) (COutArea.y O))
      (AreasPtr (default 0%nat Area)) f in
  match CFitArea.Next (area f1 UnfittedAreas) with
  | None => Some (restoreOutImage (saveBestFit f1) Area OutArea)
  | Some first =>
      let a0 := Areas f1 !!! first in
      '(mw, mh) ←
        scanMinArea (length (Areas f1)) f1 (CFitArea.Next a0)
          (CFitArea.Width a0) (CFitArea.Height a0);
      let f2 := upd_s (CFitAreaStackItem.set_MinArea mw mh) f1 in
      let f3 :=
        upd_outArea
          (COutArea.set_Next (COutArea.Next (outAreaOf f2 OutArea)))
          (CFitAreaStackItem.PrevOutArea (s f2)) f2 in
      f4 ← configuration1 f3 Area OutArea;
      let f5 :=
        upd_s (λ it,
            CFitAreaStackItem.set_CodeLoc 2
              (CFitAreaStackItem.set_c1 (CFitAreaStackItem.c it) it)) f4 in
      Some (Config.mk (pushStack f5) Area OutArea AtCodeLoc1)
  end.

(** [s -> OutArea = OutArea] and the two [OutAreaRemain] fields. *)
Definition setRemain (f : CAreaFitter.t) (Area : option nat)
    (OutArea : option OutAreaPtr) : CAreaFitter.t :=
  let A := areaOf f Area in
  let O := outAreaOf f OutArea in
  upd_s (λ it,
      CFitAreaStackItem.set_Remain
        (sub32 (COutArea.Width O) (CFitArea.Width A))
        (sub32 (COutArea.Height O) (CFitArea.Height A))
        (CFitAreaStackItem.set_OutArea OutArea it)) f.

(** The call of [checkAreaFitAgainstBest] in the inner loop. *)
Definition checkFit (f : CAreaFitter.t) (Area : option nat)
    (OutArea : option OutAreaPtr) : CheckFit.t :=
  let A := areaOf f Area in
  let O := outAreaOf f OutArea in
  let it := s f in
  checkAreaFitAgainstBest (MaxOutImageSize f)
    (CFitData.OutSize (fd f)) (CFitData.BestOutSize (fd f))
    (add32 (COutArea.x O) (CFitArea.Width A))
    (add32 (COutArea.y O) (CFitArea.Height A))
    (outImage f (COutArea.OutImage O))
    (CFitAreaStackItem.DoOutImageRestore it)
    (CFitAreaStackItem.OutImageSave it)
    (CFitAreaStackItem.OutSizeSave it)
    (CFitAreaStackItem.OutAreasTried it).

(** What the call assigns through its reference parameters. *)
Definition commitFit (f : CAreaFitter.t) (OutArea : option OutAreaPtr)
    (r : CheckFit.t) : CAreaFitter.t :=
  let O := outAreaOf f OutArea in
  let f2 :=
    upd_fd (CFitData.set_OutSize (CheckFit.OutSize r))
      (set_outImage (COutArea.OutImage O) (CheckFit.OutImage r) f) in
  upd_s (λ it,
      CFitAreaStackItem.set_OutAreasTried (CheckFit.OutAreasTried r)
        (CFitAreaStackItem.set_Save (CheckFit.OutImageSave r)
           (CheckFit.OutSizeSave r)
           (CFitAreaStackItem.set_DoOutImageRestore
              (CheckFit.DoOutImageRestore r) it))) f2.

(** An inner loop pass from [s -> OutArea = OutArea]. *)
Definition tryOutArea (f : CAreaFitter.t) (Area : option nat)
    (OutArea : option OutAreaPtr) : option Config.t :=
  let f1 := setRemain f Area OutArea in
  if (CFitAreaStackItem.OutAreaRemainRight (s f1) <? 0) ||
     (CFitAreaStackItem.OutAreaRemainBottom (s f1) <? 0)
  then
    let f2 :=
      upd_s (CFitAreaStackItem.set_PrevOutArea
               (default (BasePtr 0) OutArea)) f1 in
    Some (Config.mk f2 Area (COutArea.Next (outAreaOf f2 OutArea))
            AtRegionLoop)
  else
    let r := checkFit f1 Area OutArea in
    let f3 := commitFit f1 OutArea r in
    if CheckFit.result r then placeArea f3 Area OutArea
    else Some (regionTail f3 Area OutArea).

(** The head of the inner loop. *)
Definition atRegionLoop (f : CAreaFitter.t) (Area : option nat)
    (OutArea : option OutAreaPtr) : option Config.t :=
  match OutArea with
  | None =>
      if 0 <? CFitAreaStackItem.OutAreasTried (s f) then
        Some (afterRegionLoop f Area OutArea)
      else if CFitData.OutImageCount (fd f) =?
              CFitData.BestOutImageCount (fd f) then
        Some (afterRegionLoop f Area OutArea)
      else
        let p := NewPtr (depth f) 2 in
        let A := areaOf f Area in
        let f1 :=
          upd_outArea (λ o,
              COutArea.mk (COutArea.OutImage o) 0 0
                (if MaxOutImageWidth f <? CFitArea.Width A
                 then CFitArea.Width A else MaxOutImageWidth f)
                (if MaxOutImageHeight f <? CFitArea.Height A
                 then CFitArea.Height A else MaxOutImageHeight f)
                (COutArea.Next o)) p f in
        '(f2, prev) ← insertOutArea f1 p;
        let f3 := upd_s (CFitAreaStackItem.set_PrevOutArea prev) f2 in
        let n := CFitData.OutImageCount (fd f3) in
        let f4 := upd_outArea (COutArea.set_OutImage n) p f3 in
        let f5 :=
          upd_fd (λ d,
              CFitData.set_OutImages
                (updateCapacity (Z.to_nat (add32 n 1))
                   (CFitData.OutImages d)) d) f4 in
        let f6 := set_outImage n COutImage.zero f5 in
        let f7 := upd_fd (CFitData.set_OutImageCount (add32 n 1)) f6 in
        let f8 := upd_s (CFitAreaStackItem.set_WasOutImageAdded true) f7 in
        tryOutArea f8 Area (Some p)
  | Some _ =>
      tryOutArea (upd_s (CFitAreaStackItem.set_WasOutImageAdded false) f)
        Area OutArea
  end.

(** From the label [CodeLoc2]. *)
Definition atCodeLoc2 (f : CAreaFitter.t) (Area : option nat)
    (OutArea : option OutAreaPtr) : option Config.t :=
  let f1 := removeNewOutAreas (CFitAreaStackItem.c (s f)) f in
  if (CFitData.OutSize (fd f1) <? CFitData.BestOutSize (fd f1)) &&
     (CFitData.OutImageCount (fd f1) <=?
        CFitData.BestOutImageCount (fd f1))
  then
    f2 ← configuration2 f1 Area OutArea;
    if (0 <? CFitAreaStackItem.c (s f2) + CFitAreaStackItem.c1 (s f2))%nat
    then
      let f3 := upd_s (CFitAreaStackItem.set_CodeLoc 3) f2 in
      Some (Config.mk (pushStack f3) Area OutArea AtCodeLoc1)
    else Some (restoreOutArea f2 Area OutArea)
  else Some (restoreOutArea f1 Area OutArea).

(** From the label [CodeLoc3]. *)
Definition atCodeLoc3 (f : CAreaFitter.t) (Area : option nat)
    (OutArea : option OutAreaPtr) : option Config.t :=
  let f1 := removeNewOutAreas (CFitAreaStackItem.c (s f)) f in
  Some (restoreOutArea f1 Area OutArea).

(** One step: from one location to the next. *)
Definition step (cfg : Config.t) : option Config.t :=
  let f := Config.fitter cfg in
  let Area := Config.Area cfg in
  let OutArea := Config.OutArea cfg in
  match Config.loc cfg with
  | AtCodeLoc1 => Some (atCodeLoc1 f Area OutArea)
  | AtRegionLoop => atRegionLoop f Area OutArea
  | AtCodeLoc2 => atCodeLoc2 f Area OutArea
  | AtCodeLoc3 => atCodeLoc3 f Area OutArea
  | AtReturn => Some cfg
  end.

(** The function runs from [CodeLoc1] until it returns; [None] is a run
    that did not return within [fuel] steps. *)
Fixpoint run (fuel : nat) (cfg : Config.t) : option CAreaFitter.t :=
  match Config.loc cfg with
  | AtReturn => Some (Config.fitter cfg)
  | _ =>
      match fuel with
      | O => None
      | S fuel' => cfg' ← step cfg; run fuel' cfg'
      end
  end.

Definition fitUnfittedAreas (fuel : nat) (f : CAreaFitter.t)
    : option CAreaFitter.t :=
  run fuel (Config.mk f None None AtCodeLoc1).
End FitUnfittedAreas.

(** ** [fitAreas] *)

(** [FitQuality] is a [double]. The model keeps the exact rational value
    that the source's floating-point expression approximates, and the two
    outcomes of a division by zero. *)
Inductive double : Type :=
  | Finite (q : Q)
  | Infinite (negative : bool)
  | NaN.

(** [100.0 * MinOutSize / BestOutSize] *)
Definition fitQuality (MinOutSize BestOutSize : Z) : double :=
  if BestOutSize =? 0 then
    if MinOutSize =? 0 then NaN else Infinite (MinOutSize <? 0)
  else Finite (Qdiv (inject_Z (100 * MinOutSize)) (inject_Z BestOutSize)).

(** The comparison callbacks given to [qsort]. *)
Definition FitAreasInSortFn (a1 a2 : CFitArea.t) : Z :=
  sub32 (CFitArea.Width a2) (CFitArea.Width a1).

Definition FitAreasOutSortFn (a1 a2 : CFitArea.t) : Z :=
  if CFitArea.OutImage a2 <? CFitArea.OutImage a1 then 1
  else if CFitArea.OutImage a1 <? CFitArea.OutImage a2 then -1
  else if CFitArea.OutX a2 <? CFitArea.OutX a1 then 1
  else if CFitArea.OutX a1 <? CFitArea.OutX a2 then -1
  else sub32 (CFitArea.OutY a1) (CFitArea.OutY a2).

(** [CArray::setItemCount]: new items are not initialized. *)
Definition setItemCount {A} `{Inhabited A} (n : nat) (l : list A) : list A :=
  take n l ++ replicate (n - length l) inhabitant.

(** The loop that finds [MinOutSize] and raises [aMaxOutImageSize] to the
    size of the largest area: the pair is
    [(aMaxOutImageSize, MinOutSize)]. *)
Definition sizeLoop (AreasToFit : list CFitArea.t) (aMaxOutImageSize : Z)
    : Z * Z :=
  foldl (λ '(aMax, MinOutSize) a,
      let AreaSize := mul32 (CFitArea.Width a) (CFitArea.Height a) in
      (if aMax <? AreaSize then AreaSize else aMax,
       add32 MinOutSize AreaSize))
    (aMaxOutImageSize, 0) AreasToFit.

(** "Prepare the first FitData object": the output images start empty,
    and every one of them gets an output area in [BaseOutAreas], chained
    behind the initial one. *)
Definition initBaseOutAreas (OutImages : list COutImage.t)
    (OutImageCount : nat) (aMaxOutImageWidth aMaxOutImageHeight : Z)
    : list COutArea.t :=
  let '(base, PrevOutArea) :=
    foldl (λ '(base, PrevOutArea) i,
        let base1 := alter (COutArea.set_Next (Some (BasePtr (S i))))
                       PrevOutArea base in
        let im := OutImages !!! i in
        let base2 :=
          alter (COutArea.set_rect (Z.of_nat i) 0 0
                   (if COutImage.Width im =? 0 then aMaxOutImageWidth
                    else COutImage.Width im)
                   (if COutImage.Height im =? 0 then aMaxOutImageHeight
                    else COutImage.Height im)) (S i) base1 in
        (base2, S i))
      (replicate (S OutImageCount) COutArea.default, 0%nat)
      (seq 0 OutImageCount) in
  alter (COutArea.set_Next None) PrevOutArea base.

Definition initFitData (aMaxOutImageWidth aMaxOutImageHeight : Z)
    (MinOutImageCount : Z) : CFitData.t :=
  let n := Z.to_nat MinOutImageCount in
  let OutImages := replicate n COutImage.zero in
  CFitData.mk
    (initBaseOutAreas OutImages n aMaxOutImageWidth aMaxOutImageHeight)
    OutImages MinOutImageCount 0 2147483646 2147483647.

(** The constructor: a copy of the sorted areas, chained behind
    [InitArea], and an empty stack. [fd] is assigned by [fitAreas]. *)
Definition newAreaFitter (aMaxOutImageWidth aMaxOutImageHeight
    aMaxOutImageSize : Z) (aGlobals : CGlobals.t)
    (SortedAreas : list CFitArea.t) (FitData : CFitData.t) : CAreaFitter.t :=
  let f0 :=
    CAreaFitter.mk aMaxOutImageWidth aMaxOutImageHeight aMaxOutImageSize
      aGlobals 0 CFitArea.default SortedAreas FitData
      (replicate (length SortedAreas) CFitAreaStackItem.default) (-1) in
  let '(f1, PrevImgArea) :=
    foldl (λ '(f, PrevImgArea) i,
        (upd_area (CFitArea.set_Next (Some i)) PrevImgArea f, AreasPtr i))
      (f0, UnfittedAreas) (seq 0 (length SortedAreas)) in
  upd_area (CFitArea.set_Next None) PrevImgArea f1.

Module FitResult.
Record t : Type := mk {
  ok : bool;
  AreasToFit : list CFitArea.t;
  OutImages : list COutImage.t;
  FitQuality : double
}.
End FitResult.

Section FitAreas.
(** The C library's [qsort]: some sorting function. What the proofs
    need of it is stated where it is needed. *)
Variable qsort :
  (CFitArea.t → CFitArea.t → Z) → list CFitArea.t → list CFitArea.t.

(** [FitQuality] is the value the caller's variable held before the
    call; [fuel] bounds the steps of the search, and [None] is a call
    whose search did not return within it. *)
Definition fitAreas (fuel : nat) (AreasToFit : list CFitArea.t)
    (OutImages : list COutImage.t)
    (aMaxOutImageWidth aMaxOutImageHeight aMaxOutImageSize : Z)
    (MinOutImageCount FitCallsLimit : Z) (FitQuality : double)
    : option FitResult.t :=
  if (length AreasToFit <? 2)%nat then
    match AreasToFit with
    | a :: _ =>
        let a' := CFitArea.set_Out 0 0 0 a in
        let OutImages1 := setItemCount 1 OutImages in
        let OutImages2 :=
          <[0%nat := COutImage.mk (CFitArea.Width a') (CFitArea.Height a')
                      (mul32 (CFitArea.Width a') (CFitArea.Height a'))]>
            OutImages1 in
        Some (FitResult.mk true (<[0%nat := a']> AreasToFit) OutImages2
                (Finite 100))
    | [] => Some (FitResult.mk true AreasToFit [] (Finite 100))
    end
  else
    let AreasToFit1 := qsort FitAreasInSortFn AreasToFit in
    let aGlobals :=
      CGlobals.mk FitCallsLimit FitCallsLimit 2147483647 2147483647 [] [] in
    let '(aMaxOutImageSize1, MinOutSize) :=
      sizeLoop AreasToFit1 aMaxOutImageSize in
    let FitData :=
      initFitData aMaxOutImageWidth aMaxOutImageHeight MinOutImageCount in
    let fitter :=
      newAreaFitter aMaxOutImageWidth aMaxOutImageHeight aMaxOutImageSize1
        aGlobals AreasToFit1 FitData in
    fitter' ← fitUnfittedAreas fuel (pushStack fitter);
    let g := CAreaFitter.Globals fitter' in
    if CGlobals.BestOutSize g =? 2147483647 then
      Some (FitResult.mk false AreasToFit1 [] FitQuality)
    else
      Some (FitResult.mk true
              (qsort FitAreasOutSortFn (CGlobals.BestFittedAreas g))
              (CGlobals.BestOutImages g)
              (fitQuality MinOutSize (CGlobals.BestOutSize g))).
End FitAreas.

(** A sorting function for the examples: insertion into a sorted list,
    before the first element that compares greater. *)
Fixpoint sortInsert {A} (cmp : A → A → Z) (a : A) (l : list A) : list A :=
  match l with
  | [] => [a]
  | b :: l' => if cmp a b <? 0 then a :: l else b :: sortInsert cmp a l'
  end.

Definition insertionSort {A} (cmp : A → A → Z) (l : list A) : list A :=
  foldr (sortInsert cmp) [] l.

Definition mkArea (w h : Z) : CFitArea.t := CFitArea.mk 0 w h 0 0 0 None.

Definition exampleAreas : list CFitArea.t :=
  [mkArea 50 30; mkArea 250 60; mkArea 30 260; mkArea 80 80].

(** * Predicates used in the statements *)

(** ** Chains

    A chain is read off the [Next] fields: the cells that follow [p], in
    order, up to the null pointer. *)

Fixpoint chain {P} (next : P → option P) (p : P) (L : list P) : Prop :=
  match L with
  | [] => next p = None
  | q :: L' => next p = Some q ∧ chain next q L'
  end.

(** The last cell of the chain that starts with [p] and goes on with [L]. *)
Definition lastOf {P} (p : P) (L : list P) : P := default p (last L).
Global Arguments lastOf : simpl never.

(** [p -> Next] for the two kinds of cells. *)
Definition outNext (f : CAreaFitter.t) (p : OutAreaPtr) : option OutAreaPtr :=
  COutArea.Next (outArea f p).

Definition areaNext (f : CAreaFitter.t) (p : AreaPtr) : option AreaPtr :=
  AreasPtr <$> CFitArea.Next (area f p).

(** The chain of available output areas behind the initial one. *)
Definition outChain (f : CAreaFitter.t) (L : list OutAreaPtr) : Prop :=
  chain (outNext f) OutAreas L.

(** The chain of unfitted areas behind [InitArea], by index in [Areas]. *)
Definition areaChain (f : CAreaFitter.t) (U : list nat) : Prop :=
  chain (areaNext f) UnfittedAreas (AreasPtr <$> U).

(** A pointer into the arrays as they are allocated. *)
Definition validOutPtr (f : CAreaFitter.t) (p : OutAreaPtr) : Prop :=
  match p with
  | BasePtr i => (i < length (CFitData.BaseOutAreas (CAreaFitter.fd f)))%nat
  | NewPtr d k =>
      (d < length (CAreaFitter.Stack f))%nat ∧
      (k < 3)%nat ∧
      length (CFitAreaStackItem.NewOutAreas (CAreaFitter.Stack f !!! d)) = 3%nat
  end.

Definition validAreaPtr (f : CAreaFitter.t) (p : AreaPtr) : Prop :=
  match p with
  | InitAreaPtr => True
  | AreasPtr i => (i < length (CAreaFitter.Areas f))%nat
  end.

(** Every [COutArea] cell there is. *)
Definition allOutPtrs (f : CAreaFitter.t) : list OutAreaPtr :=
  (BasePtr <$> seq 0 (length (CFitData.BaseOutAreas (CAreaFitter.fd f)))) ++
  (d ← seq 0 (length (CAreaFitter.Stack f)); NewPtr d <$> seq 0 3).

(** The five data fields of an output area. *)
Definition outRect (o : COutArea.t) : Z * Z * Z * Z * Z :=
  (COutArea.OutImage o, COutArea.x o, COutArea.y o, COutArea.Width o,
   COutArea.Height o).

(** Heights along a chain do not decrease. *)
Fixpoint ascending (l : list Z) : Prop :=
  match l with
  | a :: l' =>
      match l' with
      | b :: _ => a <= b
      | [] => True
      end ∧ ascending l'
  | [] => True
  end.

Definition heightsOf (f : CAreaFitter.t) (L : list OutAreaPtr) : list Z :=
  (λ p, COutArea.Height (outArea f p)) <$> L.

(** ** Rectangles

    A rectangle is (image, x, y, width, height). Two rectangles are
    separated when they lie in different images or a vertical or
    horizontal line passes between them. *)

Definition Rect : Type := Z * Z * Z * Z * Z.

Definition sep (r1 r2 : Rect) : Prop :=
  let '(i1, x1, y1, w1, h1) := r1 in
  let '(i2, x2, y2, w2, h2) := r2 in
  i1 ≠ i2 ∨ x1 + w1 <= x2 ∨ x2 + w2 <= x1 ∨ y1 + h1 <= y2 ∨ y2 + h2 <= y1.

Fixpoint allSep (R : list Rect) : Prop :=
  match R with
  | [] => True
  | r :: R' => Forall (sep r) R' ∧ allSep R'
  end.

(** [r1] lies within [r2]. *)
Definition inside (r1 r2 : Rect) : Prop :=
  let '(i1, x1, y1, w1, h1) := r1 in
  let '(i2, x2, y2, w2, h2) := r2 in
  i1 = i2 ∧ x2 <= x1 ∧ y2 <= y1 ∧ x1 + w1 <= x2 + w2 ∧ y1 + h1 <= y2 + h2
  ∧ 0 <= w1 ∧ 0 <= h1.

(** The rectangle a fit area occupies. *)
Definition areaRect (a : CFitArea.t) : Rect :=
  (CFitArea.OutImage a, CFitArea.OutX a, CFitArea.OutY a, CFitArea.Width a,
   CFitArea.Height a).

(** The usual overlap test of two placed areas. *)
Definition overlap (a b : CFitArea.t) : bool :=
  (CFitArea.OutX a <? CFitArea.OutX b + CFitArea.Width b) &&
  (CFitArea.OutX b <? CFitArea.OutX a + CFitArea.Width a) &&
  (CFitArea.OutY a <? CFitArea.OutY b + CFitArea.Height b) &&
  (CFitArea.OutY b <? CFitArea.OutY a + CFitArea.Height a).

(** P1 of the specification for one area. *)
Definition contained (OutImages : list COutImage.t) (a : CFitArea.t) : Prop :=
  0 <= CFitArea.OutX a ∧ 0 <= CFitArea.OutY a ∧ 0 <= CFitArea.OutImage a ∧
  ∃ im, OutImages !! Z.to_nat (CFitArea.OutImage a) = Some im ∧
    CFitArea.OutX a + CFitArea.Width a <= COutImage.Width im ∧
    CFitArea.OutY a + CFitArea.Height a <= COutImage.Height im.

(** P2 of the specification for a list of areas. *)
Definition noOverlap (l : list CFitArea.t) : Prop :=
  ∀ (i j : nat) a b, i ≠ j → l !! i = Some a → l !! j = Some b →
    CFitArea.OutImage a = CFitArea.OutImage b → overlap a b = false.

(** ** Observing a stack item

    The fields of [Stack[ e ]] other than the [NewOutAreas] cells, which
    are read through [outArea]. *)

Definition frameScalars (it : CFitAreaStackItem.t) : CFitAreaStackItem.t :=
  CFitAreaStackItem.set_NewOutAreas [] it.

Definition item (f : CAreaFitter.t) (e : nat) : CFitAreaStackItem.t :=
  frameScalars (CAreaFitter.Stack f !!! e).

(** An update of the scalar fields of a stack item. *)
Definition scalarUpdate (g : CFitAreaStackItem.t → CFitAreaStackItem.t)
    : Prop :=
  ∀ it, frameScalars (g it) = g (frameScalars it) ∧
        CFitAreaStackItem.NewOutAreas (g it) = CFitAreaStackItem.NewOutAreas it.

(** An update of a fit area that keeps what the caller gave. *)
Definition keepsArea (g : CFitArea.t → CFitArea.t) : Prop :=
  ∀ a, CFitArea.Object (g a) = CFitArea.Object a ∧
       CFitArea.Width (g a) = CFitArea.Width a ∧
       CFitArea.Height (g a) = CFitArea.Height a.

(** ** The invariant of the search *)

(** What stays as it is during the search. [BW] and [BH] bound every
    coordinate that occurs. *)
Record Shape (BW BH : Z) (f : CAreaFitter.t) : Prop := {
  sh_stack : length (CAreaFitter.Stack f) = length (CAreaFitter.Areas f);
  sh_frames :
    ∀ d, (d < length (CAreaFitter.Stack f))%nat →
      validOutPtr f (NewPtr d 0) ∧
      length (CFitAreaStackItem.PrevNewOutAreas (item f d)) = 2%nat;
  sh_base : (1 <= length (CFitData.BaseOutAreas (CAreaFitter.fd f)))%nat;
  sh_areas :
    Forall (λ a, 0 <= CFitArea.Width a <= BW ∧ 0 <= CFitArea.Height a <= BH)
      (CAreaFitter.Areas f);
  sh_maxw : 0 <= CAreaFitter.MaxOutImageWidth f <= BW;
  sh_maxh : 0 <= CAreaFitter.MaxOutImageHeight f <= BH;
  sh_bw : BW <= INT_MAX;
  sh_bh : BH <= INT_MAX;
  sh_count :
    Z.of_nat (length (CFitData.BaseOutAreas (CAreaFitter.fd f))) +
    Z.of_nat (length (CAreaFitter.Areas f)) <= INT_MAX
}.

(** The state a stack item found on entry: the unfitted chain, the chain
    of output areas, the output images and their summed size. *)
Record Ghost : Type := mkGhost {
  gU : list nat;
  gL : list OutAreaPtr;
  gImgs : list COutImage.t;
  gOutSize : Z
}.

(** The areas taken and the output areas occupied by the stack items
    below level [e]. *)
Definition placedBelow (f : CAreaFitter.t) (e : nat) : list nat :=
  (λ d, default 0%nat (CFitAreaStackItem.Area (item f d)))
    <$> seq 0 e.

Definition hostsBelow (f : CAreaFitter.t) (e : nat) : list OutAreaPtr :=
  (λ d, default (BasePtr 0)
          (CFitAreaStackItem.OutArea (item f d)))
    <$> seq 0 e.

(** A cell that an item at level [e] may find in the chain: a base cell
    other than the initial one, or a slot of an item below. *)
Definition ptrLevel (e : nat) (p : OutAreaPtr) : Prop :=
  match p with
  | BasePtr i => (1 <= i)%nat
  | NewPtr d _ => (d < e)%nat
  end.

Definition regionOK (BW BH : Z) (count : nat) (o : COutArea.t) : Prop :=
  0 <= COutArea.x o ∧ 0 <= COutArea.y o ∧
  0 <= COutArea.Width o ∧ 0 <= COutArea.Height o ∧
  COutArea.x o + COutArea.Width o <= BW ∧
  COutArea.y o + COutArea.Height o <= BH ∧
  0 <= COutArea.OutImage o < Z.of_nat count.

Definition imageOK (BW BH : Z) (im : COutImage.t) : Prop :=
  0 <= COutImage.Width im <= BW ∧ 0 <= COutImage.Height im <= BH ∧
  COutImage.Size im = mul32 (COutImage.Width im) (COutImage.Height im).

Definition sumSizes (imgs : list COutImage.t) : Z :=
  foldr (λ im acc, COutImage.Size im + acc) 0 imgs.

(** What the caller gave of an area. *)
Definition areaDims (a : CFitArea.t) : Z * Z * Z :=
  (CFitArea.Object a, CFitArea.Width a, CFitArea.Height a).

(** The geometry at level [e]: the cells are distinct and of the right
    kind, the output areas are inside the bounds, the placed areas are
    inside their images, and all of them are separated from each other. *)
Record Geo (BW BH : Z) (f : CAreaFitter.t) (e : nat) (G : Ghost) : Prop := {
  geo_cells : NoDup (OutAreas :: gL G ++ hostsBelow f e);
  geo_areas : NoDup (gU G ++ placedBelow f e);
  geo_all :
    ∀ i, (i < length (CAreaFitter.Areas f))%nat ↔ i ∈ gU G ++ placedBelow f e;
  geo_ptrs :
    Forall (λ p, validOutPtr f p ∧ ptrLevel e p) (gL G ++ hostsBelow f e);
  geo_regions :
    Forall (λ p, regionOK BW BH (length (gImgs G)) (outArea f p)) (gL G);
  geo_placed :
    Forall (λ i, contained (gImgs G) (CAreaFitter.Areas f !!! i))
      (placedBelow f e);
  geo_sep :
    allSep (((λ p, outRect (outArea f p)) <$> gL G) ++
            ((λ i, areaRect (CAreaFitter.Areas f !!! i)) <$> placedBelow f e));
  geo_images : Forall (imageOK BW BH) (gImgs G);
  geo_size : gOutSize G = wrap32 (sumSizes (gImgs G));
  geo_count :
    (length (gImgs G) + 1
     <= length (CFitData.BaseOutAreas (CAreaFitter.fd f)) + e)%nat
}.

(** The output images in use. *)
Definition images (f : CAreaFitter.t) : list COutImage.t :=
  take (Z.to_nat (CFitData.OutImageCount (CAreaFitter.fd f)))
    (CFitData.OutImages (CAreaFitter.fd f)).

(** The mutable state as the lists it represents. *)
Record View (f : CAreaFitter.t) (U : list nat) (L : list OutAreaPtr)
    (imgs : list COutImage.t) (osz : Z) : Prop := {
  view_areas : areaChain f U;
  view_out : outChain f L;
  view_images : images f = imgs;
  view_count :
    CFitData.OutImageCount (CAreaFitter.fd f) = Z.of_nat (length imgs);
  view_size : CFitData.OutSize (CAreaFitter.fd f) = osz
}.

(** Where a stack item stands in its two loops: the area it took out
    ([tA], between [tUa] and [tUb] in the unfitted chain) and the output
    area it tries ([tH], between [tLa] and [tLb]). *)
Record Trial : Type := mkTrial {
  tA : nat;
  tUa : list nat;
  tUb : list nat;
  tH : OutAreaPtr;
  tLa : list OutAreaPtr;
  tLb : list OutAreaPtr
}.

Record FrameArea (f : CAreaFitter.t) (e : nat) (G : Ghost) (t : Trial)
    : Prop := {
  fa_area : CFitAreaStackItem.Area (item f e) = Some (tA t);
  fa_prev :
    CFitAreaStackItem.PrevArea (item f e)
    = lastOf UnfittedAreas (AreasPtr <$> tUa t);
  fa_split : gU G = tUa t ++ tA t :: tUb t;
  fa_next : CFitArea.Next (CAreaFitter.Areas f !!! tA t) = head (tUb t)
}.

(** The images the item works with: those it found, and one more when it
    added an output image. *)
Definition imagesWith (was : bool) (G : Ghost) : list COutImage.t :=
  if was then gImgs G ++ [COutImage.zero] else gImgs G.

Record FrameHost (BW BH : Z) (f : CAreaFitter.t) (e : nat) (G : Ghost)
    (t : Trial) : Prop := {
  fh_prev :
    CFitAreaStackItem.PrevOutArea (item f e)
    = lastOf OutAreas (tLa t);
  fh_split :
    if CFitAreaStackItem.WasOutImageAdded (item f e)
    then tH t = NewPtr e 2 ∧ gL G = tLa t ++ tLb t
    else gL G = tLa t ++ tH t :: tLb t;
  fh_valid : validOutPtr f (tH t);
  fh_level : ptrLevel (S e) (tH t);
  fh_region :
    regionOK BW BH
      (length (imagesWith
                 (CFitAreaStackItem.WasOutImageAdded
                    (item f e)) G))
      (outArea f (tH t));
  fh_fresh :
    CFitAreaStackItem.WasOutImageAdded (item f e) = true →
    COutArea.OutImage (outArea f (tH t)) = Z.of_nat (length (gImgs G))
}.

(** The chain [L'] is [L0] with the first [c] new output areas of the
    item at level [e] inserted, each behind the cell that
    [PrevNewOutAreas] keeps for it. *)
Fixpoint Inserted (f : CAreaFitter.t) (e : nat) (c : nat)
    (L0 L' : list OutAreaPtr) : Prop :=
  match c with
  | O => L' = L0
  | S c' =>
      ∃ Lm A B k,
        Inserted f e c' L0 Lm ∧ Lm = A ++ B ∧ L' = A ++ NewPtr e k :: B ∧
        (k < 2)%nat ∧
        CFitAreaStackItem.PrevNewOutAreas (item f e) !!! c'
        = lastOf OutAreas A
  end.

(** The images and the summed size after the area was placed, against
    those before ([imgs], [osz]): when the image grew, the old image and
    size are saved in the item. *)
Definition Grown (it : CFitAreaStackItem.t) (j : nat)
    (imgs : list COutImage.t) (osz : Z) (imgs' : list COutImage.t)
    (osz' : Z) : Prop :=
  if CFitAreaStackItem.DoOutImageRestore it then
    imgs' = <[j := imgs' !!! j]> imgs ∧
    CFitAreaStackItem.OutImageSave it = imgs !!! j ∧
    CFitAreaStackItem.OutSizeSave it = osz
  else imgs' = imgs ∧ osz' = osz.

(** A suspended item at level [e]: [G] is what it found on entry, [Gc]
    what the item above it found. *)
Record Susp (BW BH : Z) (f : CAreaFitter.t) (e : nat) (G Gc : Ghost)
    (t : Trial) : Prop := {
  su_area : FrameArea f e G t;
  su_host : FrameHost BW BH f e G t;
  su_out : CFitAreaStackItem.OutArea (item f e) = Some (tH t);
  su_next : outNext f (tH t) = head (tLb t);
  su_unfitted : gU Gc = tUa t ++ tUb t;
  su_inserted :
    Inserted f e (CFitAreaStackItem.c (item f e))
      (tLa t ++ tLb t) (gL Gc);
  su_c : (CFitAreaStackItem.c (item f e) <= 2)%nat;
  su_grown :
    Grown (item f e)
      (Z.to_nat (COutArea.OutImage (outArea f (tH t))))
      (imagesWith
         (CFitAreaStackItem.WasOutImageAdded (item f e)) G)
      (gOutSize G) (gImgs Gc) (gOutSize Gc);
  su_placed :
    areaRect (CAreaFitter.Areas f !!! tA t)
    = (COutArea.OutImage (outArea f (tH t)), COutArea.x (outArea f (tH t)),
       COutArea.y (outArea f (tH t)),
       CFitArea.Width (CAreaFitter.Areas f !!! tA t),
       CFitArea.Height (CAreaFitter.Areas f !!! tA t));
  su_fits :
    CFitArea.Width (CAreaFitter.Areas f !!! tA t)
    <= COutArea.Width (outArea f (tH t)) ∧
    CFitArea.Height (CAreaFitter.Areas f !!! tA t)
    <= COutArea.Height (outArea f (tH t));
  su_remain :
    CFitAreaStackItem.OutAreaRemainRight (item f e)
    = COutArea.Width (outArea f (tH t))
      - CFitArea.Width (CAreaFitter.Areas f !!! tA t) ∧
    CFitAreaStackItem.OutAreaRemainBottom (item f e)
    = COutArea.Height (outArea f (tH t))
      - CFitArea.Height (CAreaFitter.Areas f !!! tA t);
  su_room : (S e < length (CAreaFitter.Stack f))%nat
}.

(** [f'] differs from [f] in nothing that the items below level [e]
    rely on. *)
Record Stable (e : nat) (f f' : CAreaFitter.t) : Prop := {
  st_stack : length (CAreaFitter.Stack f') = length (CAreaFitter.Stack f);
  st_areas : length (CAreaFitter.Areas f') = length (CAreaFitter.Areas f);
  st_base :
    length (CFitData.BaseOutAreas (CAreaFitter.fd f'))
    = length (CFitData.BaseOutAreas (CAreaFitter.fd f));
  st_valid : ∀ p, validOutPtr f' p ↔ validOutPtr f p;
  st_item : ∀ d, (d < e)%nat → item f' d = item f d;
  st_rect :
    ∀ p, ptrLevel e p → outRect (outArea f' p) = outRect (outArea f p);
  st_next : ∀ p, p ∈ hostsBelow f e → outNext f' p = outNext f p;
  st_placed :
    ∀ i, i ∈ placedBelow f e →
      CAreaFitter.Areas f' !!! i = CAreaFitter.Areas f !!! i;
  st_dims :
    ∀ i, areaDims (CAreaFitter.Areas f' !!! i)
         = areaDims (CAreaFitter.Areas f !!! i);
  st_maxw :
    CAreaFitter.MaxOutImageWidth f' = CAreaFitter.MaxOutImageWidth f;
  st_maxh :
    CAreaFitter.MaxOutImageHeight f' = CAreaFitter.MaxOutImageHeight f;
  st_prevs :
    ∀ d, length (CFitAreaStackItem.PrevNewOutAreas (item f' d))
         = length (CFitAreaStackItem.PrevNewOutAreas (item f d))
}.

(** The suspended items, from the one just below the current item down:
    [Gs] are the states they found on entry, [G] the one the current item
    found. *)
Fixpoint Below (BW BH : Z) (f : CAreaFitter.t) (Gs : list Ghost) (G : Ghost)
    : Prop :=
  match Gs with
  | [] => True
  | G1 :: Gs' =>
      (∃ t, Susp BW BH f (length Gs') G1 G t) ∧
      Geo BW BH f (length Gs') G1 ∧
      Below BW BH f Gs' G1
  end.

(** A complete fit as it is stored in [Globals]. *)
Record Solution (BW BH : Z) (f : CAreaFitter.t) (areas : list CFitArea.t)
    (imgs : list COutImage.t) (size : Z) : Prop := {
  sol_length : length areas = length (CAreaFitter.Areas f);
  sol_contained : Forall (contained imgs) areas;
  sol_sep : allSep (areaRect <$> areas);
  sol_same : areaDims <$> areas = areaDims <$> CAreaFitter.Areas f;
  sol_images : Forall (imageOK BW BH) imgs;
  sol_size : size = wrap32 (sumSizes imgs);
  sol_count :
    (length imgs
     <= length (CFitData.BaseOutAreas (CAreaFitter.fd f))
        + length (CAreaFitter.Areas f))%nat
}.

Definition GlobalsOK (BW BH : Z) (f : CAreaFitter.t) : Prop :=
  CGlobals.BestOutSize (CAreaFitter.Globals f) ≠ 2147483647 →
  Solution BW BH f (CGlobals.BestFittedAreas (CAreaFitter.Globals f))
    (CGlobals.BestOutImages (CAreaFitter.Globals f))
    (CGlobals.BestOutSize (CAreaFitter.Globals f)).

(** What holds of the current item [s] at each location. *)
Definition Top (BW BH : Z) (cfg : Config.t) (G : Ghost) : Prop :=
  let f := Config.fitter cfg in
  let e := depth f in
  match Config.loc cfg with
  | AtCodeLoc1 =>
      ∃ Ua Ub,
        gU G = Ua ++ Ub ∧
        View f (gU G) (gL G) (gImgs G) (gOutSize G) ∧
        CFitAreaStackItem.Area (item f e) = head Ub ∧
        CFitAreaStackItem.PrevArea (item f e)
        = lastOf UnfittedAreas (AreasPtr <$> Ua)
  | AtRegionLoop =>
      ∃ a Ua Ub La Lb,
        Config.Area cfg = Some a ∧
        FrameArea f e G (mkTrial a Ua Ub (BasePtr 0) La Lb) ∧
        View f (Ua ++ Ub) (gL G) (gImgs G) (gOutSize G) ∧
        gL G = La ++ Lb ∧
        Config.OutArea cfg = head Lb ∧
        CFitAreaStackItem.PrevOutArea (item f e) = lastOf OutAreas La
  | AtCodeLoc2 | AtCodeLoc3 =>
      ∃ Gc t,
        Susp BW BH f e G Gc t ∧
        Geo BW BH f (S e) Gc ∧
        View f (gU Gc) (gL Gc) (gImgs Gc) (gOutSize Gc) ∧
        Config.Area cfg = Some (tA t) ∧
        Config.OutArea cfg = Some (tH t)
  | AtReturn => True
  end.

(** The invariant of [fitUnfittedAreas]. *)
Definition Inv (BW BH : Z) (cfg : Config.t) : Prop :=
  let f := Config.fitter cfg in
  Shape BW BH f ∧ GlobalsOK BW BH f ∧
  (Config.loc cfg = AtReturn ∨
   ∃ Gs G,
     CAreaFitter.Depth f = Z.of_nat (length Gs) ∧
     (length Gs < length (CAreaFitter.Stack f))%nat ∧
     Below BW BH f Gs G ∧
     Geo BW BH f (length Gs) G ∧
     Top BW BH cfg G).

(** The outcome of a step that stays with the current item: nothing below
    it changed and the item is again at one of the locations. *)
Record Kept (BW BH : Z) (D : nat) (G : Ghost) (f : CAreaFitter.t)
    (cfg' : Config.t) : Prop := {
  kept_stable : Stable D f (Config.fitter cfg');
  kept_depth : CAreaFitter.Depth (Config.fitter cfg') = CAreaFitter.Depth f;
  kept_globals : GlobalsOK BW BH (Config.fitter cfg');
  kept_top : Top BW BH cfg' G
}.

(** The outcome of a step that ends in [pushStack]: the current item is
    suspended and a new one starts with the state [G']. *)
Record Pushed (BW BH : Z) (D : nat) (G : Ghost) (f : CAreaFitter.t)
    (cfg' : Config.t) : Prop := {
  pushed_ghost : Ghost;
  pushed_trial : Trial;
  pushed_stable : Stable D f (Config.fitter cfg');
  pushed_depth :
    CAreaFitter.Depth (Config.fitter cfg') = CAreaFitter.Depth f + 1;
  pushed_room : (S D < length (CAreaFitter.Stack f))%nat;
  pushed_globals : GlobalsOK BW BH (Config.fitter cfg');
  pushed_susp :
    Susp BW BH (Config.fitter cfg') D G pushed_ghost pushed_trial;
  pushed_geo : Geo BW BH (Config.fitter cfg') (S D) pushed_ghost;
  pushed_top : Top BW BH cfg' pushed_ghost
}.

(** What neither the links of the chains nor the stack items are part
    of. *)
Definition fixedPart (f : CAreaFitter.t) :=
  (CAreaFitter.Areas f, CAreaFitter.InitArea f, CAreaFitter.Globals f,
   CAreaFitter.FitCallsLeft f, CAreaFitter.Depth f,
   CAreaFitter.MaxOutImageWidth f, CAreaFitter.MaxOutImageHeight f,
   CAreaFitter.MaxOutImageSize f,
   CFitData.set_BaseOutAreas [] (CAreaFitter.fd f)).

(** The fields that [fixedPart] determines. *)
Record Fixed (f f' : CAreaFitter.t) : Prop := {
  fx_Areas : CAreaFitter.Areas f' = CAreaFitter.Areas f;
  fx_Globals : CAreaFitter.Globals f' = CAreaFitter.Globals f;
  fx_FitCallsLeft : CAreaFitter.FitCallsLeft f' = CAreaFitter.FitCallsLeft f;
  fx_Depth : CAreaFitter.Depth f' = CAreaFitter.Depth f;
  fx_depth : depth f' = depth f;
  fx_MaxOutImageSize :
    CAreaFitter.MaxOutImageSize f' = CAreaFitter.MaxOutImageSize f;
  fx_OutImages :
    CFitData.OutImages (CAreaFitter.fd f')
    = CFitData.OutImages (CAreaFitter.fd f);
  fx_OutImageCount :
    CFitData.OutImageCount (CAreaFitter.fd f')
    = CFitData.OutImageCount (CAreaFitter.fd f);
  fx_OutSize :
    CFitData.OutSize (CAreaFitter.fd f') = CFitData.OutSize (CAreaFitter.fd f);
  fx_BestOutSize :
    CFitData.BestOutSize (CAreaFitter.fd f')
    = CFitData.BestOutSize (CAreaFitter.fd f);
  fx_BestOutImageCount :
    CFitData.BestOutImageCount (CAreaFitter.fd f')
    = CFitData.BestOutImageCount (CAreaFitter.fd f);
  fx_images : images f' = images f;
  fx_area : ∀ p, area f' p = area f p;
  fx_areaNext : ∀ p, areaNext f' p = areaNext f p
}.

(** [f1] is [f] after the new output areas of the item at level [D] were
    taken out of the chain. *)
Record Unwound (D : nat) (t : Trial) (f f1 : CAreaFitter.t) : Prop := {
  uw_stable : Stable D f f1;
  uw_fixed : fixedPart f1 = fixedPart f;
  uw_item : item f1 D = CFitAreaStackItem.set_c 0 (item f D);
  uw_rect : ∀ p, outRect (outArea f1 p) = outRect (outArea f p);
  uw_chain : outChain f1 (tLa t ++ tLb t);
  uw_next : outNext f1 (tH t) = head (tLb t)
}.

(** The item at level [D] has placed its area [tA t] in the corner of the
    output area [tH t]; the output images are those of the state. *)
Record Placed (BW BH : Z) (f : CAreaFitter.t) (D : nat) (G : Ghost)
    (t : Trial) : Prop := {
  pl_area : FrameArea f D G t;
  pl_host : FrameHost BW BH f D G t;
  pl_out : CFitAreaStackItem.OutArea (item f D) = Some (tH t);
  pl_next : outNext f (tH t) = head (tLb t);
  pl_areas : areaChain f (tUa t ++ tUb t);
  pl_count :
    CFitData.OutImageCount (CAreaFitter.fd f)
    = Z.of_nat (length (images f));
  pl_grown :
    Grown (item f D)
      (Z.to_nat (COutArea.OutImage (outArea f (tH t))))
      (imagesWith
         (CFitAreaStackItem.WasOutImageAdded (item f D)) G)
      (gOutSize G) (images f) (CFitData.OutSize (CAreaFitter.fd f));
  pl_placed :
    areaRect (CAreaFitter.Areas f !!! tA t)
    = (COutArea.OutImage (outArea f (tH t)), COutArea.x (outArea f (tH t)),
       COutArea.y (outArea f (tH t)),
       CFitArea.Width (CAreaFitter.Areas f !!! tA t),
       CFitArea.Height (CAreaFitter.Areas f !!! tA t));
  pl_fits :
    CFitArea.Width (CAreaFitter.Areas f !!! tA t)
    <= COutArea.Width (outArea f (tH t)) ∧
    CFitArea.Height (CAreaFitter.Areas f !!! tA t)
    <= COutArea.Height (outArea f (tH t));
  pl_remain :
    CFitAreaStackItem.OutAreaRemainRight (item f D)
    = COutArea.Width (outArea f (tH t))
      - CFitArea.Width (CAreaFitter.Areas f !!! tA t) ∧
    CFitAreaStackItem.OutAreaRemainBottom (item f D)
    = COutArea.Height (outArea f (tH t))
      - CFitArea.Height (CAreaFitter.Areas f !!! tA t);
  pl_contained :
    Forall (λ i, contained (images f) (CAreaFitter.Areas f !!! i))
      (placedBelow f D ++ [tA t]);
  pl_images : Forall (imageOK BW BH) (images f);
  pl_size :
    CFitData.OutSize (CAreaFitter.fd f) = wrap32 (sumSizes (images f))
}.

(** A stack item without the fields that are assigned between the
    placement of the area and the jump to the next item. *)
Definition unlinkedItem (it : CFitAreaStackItem.t) : CFitAreaStackItem.t :=
  CFitAreaStackItem.set_CodeLoc 0
    (CFitAreaStackItem.set_MinArea 0 0
       (CFitAreaStackItem.set_c1 0
          (CFitAreaStackItem.set_c 0
             (CFitAreaStackItem.set_PrevNewOutAreas [] it)))).

(** [f'] is [f] with the new output areas [N] of the item at level [D]
    linked into the chain, which is [L'] now. *)
Record Linked (D : nat) (t : Trial) (f f' : CAreaFitter.t)
    (N L' : list OutAreaPtr) : Prop := {
  lk_stable : Stable D f f';
  lk_fixed : fixedPart f' = fixedPart f;
  lk_item : unlinkedItem (item f' D) = unlinkedItem (item f D);
  lk_inserted : Inserted f' D (length N) (tLa t ++ tLb t) L';
  lk_chain : outChain f' L';
  lk_perm : L' ≡ₚ N ++ (tLa t ++ tLb t);
  lk_nodup : NoDup (OutAreas :: L');
  lk_host : tH t ∉ OutAreas :: L';
  lk_rect : ∀ p, p ∉ N → outRect (outArea f' p) = outRect (outArea f p);
  lk_next : outNext f' (tH t) = outNext f (tH t)
}.

(** Two stack items that differ in the fields left out by
    [unlinkedItem] at most. *)
Record SameItem (it it' : CFitAreaStackItem.t) : Prop := {
  si_Area : CFitAreaStackItem.Area it' = CFitAreaStackItem.Area it;
  si_PrevArea :
    CFitAreaStackItem.PrevArea it' = CFitAreaStackItem.PrevArea it;
  si_OutArea : CFitAreaStackItem.OutArea it' = CFitAreaStackItem.OutArea it;
  si_PrevOutArea :
    CFitAreaStackItem.PrevOutArea it' = CFitAreaStackItem.PrevOutArea it;
  si_OutAreasTried :
    CFitAreaStackItem.OutAreasTried it' = CFitAreaStackItem.OutAreasTried it;
  si_OutAreaRemainRight :
    CFitAreaStackItem.OutAreaRemainRight it'
    = CFitAreaStackItem.OutAreaRemainRight it;
  si_OutAreaRemainBottom :
    CFitAreaStackItem.OutAreaRemainBottom it'
    = CFitAreaStackItem.OutAreaRemainBottom it;
  si_WasOutImageAdded :
    CFitAreaStackItem.WasOutImageAdded it'
    = CFitAreaStackItem.WasOutImageAdded it;
  si_DoOutImageRestore :
    CFitAreaStackItem.DoOutImageRestore it'
    = CFitAreaStackItem.DoOutImageRestore it;
  si_OutImageSave :
    CFitAreaStackItem.OutImageSave it' = CFitAreaStackItem.OutImageSave it;
  si_OutSizeSave :
    CFitAreaStackItem.OutSizeSave it' = CFitAreaStackItem.OutSizeSave it
}.

(** The item at level [D] has found that its area [tA t] fits into the
    output area [tH t], and [checkAreaFitAgainstBest] has accepted the
    placement: the output image covers it. *)
Record Checked (BW BH : Z) (f : CAreaFitter.t) (D : nat) (G : Ghost)
    (t : Trial) : Prop := {
  ck_area : FrameArea f D G t;
  ck_host : FrameHost BW BH f D G t;
  ck_out : CFitAreaStackItem.OutArea (item f D) = Some (tH t);
  ck_areas : areaChain f (tUa t ++ tUb t);
  ck_chain : outChain f (tLa t ++ tH t :: tLb t);
  ck_count :
    CFitData.OutImageCount (CAreaFitter.fd f)
    = Z.of_nat (length (images f));
  ck_grown :
    Grown (item f D)
      (Z.to_nat (COutArea.OutImage (outArea f (tH t))))
      (imagesWith
         (CFitAreaStackItem.WasOutImageAdded (item f D)) G)
      (gOutSize G) (images f) (CFitData.OutSize (CAreaFitter.fd f));
  ck_fits :
    CFitArea.Width (CAreaFitter.Areas f !!! tA t)
    <= COutArea.Width (outArea f (tH t)) ∧
    CFitArea.Height (CAreaFitter.Areas f !!! tA t)
    <= COutArea.Height (outArea f (tH t));
  ck_remain :
    CFitAreaStackItem.OutAreaRemainRight (item f D)
    = COutArea.Width (outArea f (tH t))
      - CFitArea.Width (CAreaFitter.Areas f !!! tA t) ∧
    CFitAreaStackItem.OutAreaRemainBottom (item f D)
    = COutArea.Height (outArea f (tH t))
      - CFitArea.Height (CAreaFitter.Areas f !!! tA t);
  ck_contained :
    Forall (λ i, contained (images f) (CAreaFitter.Areas f !!! i))
      (placedBelow f D);
  ck_covers :
    ∃ im,
      images f !! Z.to_nat (COutArea.OutImage (outArea f (tH t))) = Some im ∧
      COutArea.x (outArea f (tH t))
      + CFitArea.Width (CAreaFitter.Areas f !!! tA t)
      <= COutImage.Width im ∧
      COutArea.y (outArea f (tH t))
      + CFitArea.Height (CAreaFitter.Areas f !!! tA t)
      <= COutImage.Height im;
  ck_images : Forall (imageOK BW BH) (images f);
  ck_size :
    CFitData.OutSize (CAreaFitter.fd f) = wrap32 (sumSizes (images f))
}.

(** ** States for the examples *)

(** The fitter of a call with two areas and two output images 100 x 100,
    as [fitUnfittedAreas] finds it. *)
Definition exampleFitter : CAreaFitter.t :=
  pushStack
    (newAreaFitter 100 100 10000
       (CGlobals.mk 10 10 2147483647 2147483647 [] [])
       [mkArea 20 20; mkArea 10 10] (initFitData 100 100 2)).

(** The same with a new output area 50 x 100 in the first slot of the
    first stack item, not linked yet. *)
Definition exampleFitterNew : CAreaFitter.t :=
  upd_outArea (COutArea.set_rect 0 50 0 50 100) (NewPtr 0 0) exampleFitter.

(** ** The state [fitAreas] starts the search with *)

(** The cell in front of [Areas[ i ]] in the chain that the constructor
    builds. *)
Definition cellBefore (i : nat) : AreaPtr :=
  match i with
  | O => UnfittedAreas
  | S j => AreasPtr j
  end.

(** What the first stack item finds: all [n] areas unfitted, one output
    area for each of the [m] output images, which are empty. *)
Definition initGhost (n m : nat) : Ghost :=
  mkGhost (seq 0 n) (BasePtr <$> seq 1 m) (replicate m COutImage.zero) 0.

(** ** Sums of sizes *)

(** The sizes of the areas, each computed as [int], added up. *)
Definition sumAreaSizes (l : list CFitArea.t) : Z :=
  foldr (λ a acc, mul32 (CFitArea.Width a) (CFitArea.Height a) + acc) 0 l.

(** ** The call budget *)

(** The two counters: the fitter's own and the shared one in
    [Globals]. *)
Definition calls (f : CAreaFitter.t) : Z * Z :=
  (CAreaFitter.FitCallsLeft f,
   CGlobals.FitCallsLeft (CAreaFitter.Globals f)).

(** A step that takes a call from the budget: [FitCallsLeft--] is in the
    part of the outer loop that leads into the inner loop, and nowhere
    else. *)
Definition isAttempt (cfg cfg' : Config.t) : bool :=
  match Config.loc cfg, Config.loc cfg' with
  | AtCodeLoc1, AtRegionLoop => true
  | _, _ => false
  end.

(** The configuration after [k] steps and the number of calls taken on
    the way, added to [n]. *)
Fixpoint stepsCounting (k : nat) (cfg : Config.t) (n : Z)
    : option (Config.t * Z) :=
  match k with
  | O => Some (cfg, n)
  | S k' =>
      cfg' ← step cfg;
      stepsCounting k' cfg' (if isAttempt cfg cfg' then n + 1 else n)
  end.

(** The budget is accounted for: what is left in the two counters and
    what was taken add up to the limit, and the fitter holds no more
    than one slice. *)
Definition budgetOK (limit : Z) (f : CAreaFitter.t) (n : Z) : Prop :=
  0 <= n ∧ 0 <= CAreaFitter.FitCallsLeft f <= 512 ∧
  0 <= CGlobals.FitCallsLeft (CAreaFitter.Globals f) ∧
  CGlobals.FitCallsLeft (CAreaFitter.Globals f)
  + CAreaFitter.FitCallsLeft f + n = limit.

(** ** Scaling *)

(** An input area with its width and height multiplied by [k]. *)
Definition scaleSize (k : Z) (a : CFitArea.t) : CFitArea.t :=
  CFitArea.mk (CFitArea.Object a) (k * CFitArea.Width a)
    (k * CFitArea.Height a) (CFitArea.OutImage a) (CFitArea.OutX a)
    (CFitArea.OutY a) (CFitArea.Next a).

(** A placed area with its size and its position multiplied by [k]. *)
Definition scaleArea (k : Z) (a : CFitArea.t) : CFitArea.t :=
  CFitArea.mk (CFitArea.Object a) (k * CFitArea.Width a)
    (k * CFitArea.Height a) (CFitArea.OutImage a) (k * CFitArea.OutX a)
    (k * CFitArea.OutY a) (CFitArea.Next a).

(** An output image with its width and height multiplied by [k]; its
    size is then multiplied by [k * k]. *)
Definition scaleImage (k : Z) (im : COutImage.t) : COutImage.t :=
  COutImage.mk (k * COutImage.Width im) (k * COutImage.Height im)
    (k * k * COutImage.Size im).


Definition scaleCheck (k : Z) (r : CheckFit.t) : CheckFit.t :=
  CheckFit.mk (CheckFit.result r) (k * k * CheckFit.OutSize r)
    (scaleImage k (CheckFit.OutImage r)) (CheckFit.DoOutImageRestore r)
    (scaleImage k (CheckFit.OutImageSave r))
    (k * k * CheckFit.OutSizeSave r) (CheckFit.OutAreasTried r).

(** ** What the caller gave *)

(** Object, width and height of every area, in the order of [Areas]. *)
Definition given (f : CAreaFitter.t) : list (Z * Z * Z) :=
  areaDims <$> CAreaFitter.Areas f.

(** ** The best fit so far *)

(** The two numbers by which fits are compared. *)
Definition best (f : CAreaFitter.t) : Z * Z :=
  (CGlobals.BestOutSize (CAreaFitter.Globals f),
   CGlobals.BestOutImageCount (CAreaFitter.Globals f)).

(** ** The limit on the size of an output image *)

(** No output image that the fitter holds is larger than [M], the value
    of [MaxOutImageSize]: not in the buffer of [fd], not among the images
    that the stack items saved for a restore, and not in the best fit
    stored in [Globals]. *)
Definition sizesOK (M : Z) (f : CAreaFitter.t) : Prop :=
  CAreaFitter.MaxOutImageSize f = M ∧
  Forall (λ im, COutImage.Size im <= M)
    (CFitData.OutImages (CAreaFitter.fd f)) ∧
  Forall (λ it, COutImage.Size (CFitAreaStackItem.OutImageSave it) <= M)
    (CAreaFitter.Stack f) ∧
  Forall (λ im, COutImage.Size im <= M)
    (CGlobals.BestOutImages (CAreaFitter.Globals f)).

(** ** The fit stored in [Globals] *)

(** The best fit as [Globals] holds it: its size, its number of images,
    the areas and the images. *)
Definition stored (f : CAreaFitter.t)
    : Z * Z * list CFitArea.t * list COutImage.t :=
  let g := CAreaFitter.Globals f in
  (CGlobals.BestOutSize g, CGlobals.BestOutImageCount g,
   CGlobals.BestFittedAreas g, CGlobals.BestOutImages g).

(** From [f] to [f'] the stored fit is the same, or it was replaced by
    one of a smaller size that uses no more images. *)
Definition improved (f f' : CAreaFitter.t) : Prop :=
  stored f' = stored f ∨
  ((best f').1 < (best f).1 ∧ (best f').2 <= (best f).2).

(** ** The scan for the smallest width and height *)

Definition minWidth (f : CAreaFitter.t) (m : Z) (U : list nat) : Z :=
  foldl (λ m i, Z.min m (CFitArea.Width (CAreaFitter.Areas f !!! i))) m U.

Definition minHeight (f : CAreaFitter.t) (m : Z) (U : list nat) : Z :=
  foldl (λ m i, Z.min m (CFitArea.Height (CAreaFitter.Areas f !!! i))) m U.

(** ** Counting

    The number of cells of [BaseOutAreas]. *)
Definition baseCells (f : CAreaFitter.t) : nat :=
  length (CFitData.BaseOutAreas (CAreaFitter.fd f)).

(** The unit squares that a rectangle covers, each by its image and its
    lower corner. *)
Definition cellsOf (r : Rect) : list (Z * Z * Z) :=
  let '(i, x, y, w, h) := r in
  p ← seqZ x w; (λ q, (i, p, q)) <$> seqZ y h.

Definition allCells (R : list Rect) : list (Z * Z * Z) := R ≫= cellsOf.

(** The whole of output image [k]. *)
Definition imageRect (k : nat) (im : COutImage.t) : Rect :=
  (Z.of_nat k, 0, 0, COutImage.Width im, COutImage.Height im).

(** The summed sizes of areas and of images as numbers, without the
    wrap-around of [int]. *)
Definition exactAreaSum (l : list CFitArea.t) : Z :=
  foldr (λ a acc, CFitArea.Width a * CFitArea.Height a + acc) 0 l.

Definition exactImageSum (imgs : list COutImage.t) : Z :=
  foldr (λ im acc, COutImage.Width im * COutImage.Height im + acc) 0 imgs.

Definition rectSum (R : list Rect) : Z :=
  foldr (λ r acc, let '(_, _, _, w, h) := r in w * h + acc) 0 R.

(** The summed size of what the caller gave: (object, width, height). *)
Definition dimsSum (D : list (Z * Z * Z)) : Z :=
  foldr (λ d acc, d.1.2 * d.2 + acc) 0 D.

(** ** The number of output images

    The part of the invariant that names the states the stack items
    found: [Gs] for the suspended items, [G] for the current one. *)
Definition Ghosts (BW BH : Z) (cfg : Config.t) (Gs : list Ghost) (G : Ghost)
    : Prop :=
  let f := Config.fitter cfg in
  CAreaFitter.Depth f = Z.of_nat (length Gs) ∧
  (length Gs < length (CAreaFitter.Stack f))%nat ∧
  Below BW BH f Gs G ∧
  Geo BW BH f (length Gs) G ∧
  Top BW BH cfg G.

(** The fit stored in [Globals], if there is one, has [m] output images
    or more. *)
Definition bestOK (m : nat) (f : CAreaFitter.t) : Prop :=
  CGlobals.BestOutSize (CAreaFitter.Globals f) = 2147483647 ∨
  (m <= length (CGlobals.BestOutImages (CAreaFitter.Globals f)))%nat.

(** The invariant, with [m] output images or more in every state that a
    stack item found. *)
Definition InvFrom (BW BH : Z) (m : nat) (cfg : Config.t) : Prop :=
  let f := Config.fitter cfg in
  Shape BW BH f ∧ GlobalsOK BW BH f ∧ bestOK m f ∧
  (Config.loc cfg = AtReturn ∨
   ∃ Gs G, Ghosts BW BH cfg Gs G ∧
     Forall (λ G', (m <= length (gImgs G'))%nat) (G :: Gs)).

(** * The containers

    ** [CBuffer]

    [Data] points nowhere, to the local storage of the object, or to a
    block of the allocator. The model keeps the content of the local
    storage and of the block; a cell that was allocated and not written
    holds no defined value, for which the model takes [inhabitant]. The
    allocator is taken to succeed. *)

Module CBuffer.
Inductive Storage : Type :=
  | Null
  | Local
  | Heap.

Section Buffer.
Context {T : Type} `{Inhabited T}.

(** [LocalStorageSize], the number of elements stored locally. *)
Variable LocalStorageSize : Z.

Record t : Type := mk {
  Data : Storage;
  Capacity : Z;
  LocalStorage : list T;
  block : list T
}.

(** [CBuffer()] *)
Definition new : t :=
  mk Null 0 (replicate (Z.to_nat LocalStorageSize) inhabitant) [].

(** What [Data] points to. *)
Definition cells (b : t) : list T :=
  match Data b with
  | Null => []
  | Local => LocalStorage b
  | Heap => block b
  end.

(** [Data[ i ]] *)
Definition get (b : t) (i : Z) : T := cells b !!! Z.to_nat i.

(** [Data[ i ] = v] *)
Definition set (i : Z) (v : T) (b : t) : t :=
  match Data b with
  | Null => b
  | Local =>
      mk Local (Capacity b) (<[Z.to_nat i := v]> (LocalStorage b)) (block b)
  | Heap =>
      mk Heap (Capacity b) (LocalStorage b) (<[Z.to_nat i := v]> (block b))
  end.

Definition allocinit (aCapacity : Z) (b : t) : t :=
  if aCapacity <=? LocalStorageSize then
    mk Local aCapacity (LocalStorage b) (block b)
  else
    mk Heap aCapacity (LocalStorage b)
      (replicate (Z.to_nat aCapacity) inhabitant).

Definition freeData (b : t) : t :=
  match Data b with
  | Heap => mk Heap (Capacity b) (LocalStorage b) []
  | _ => b
  end.

Definition alloc (aCapacity : Z) (b : t) : t :=
  allocinit aCapacity (freeData b).

Definition free (b : t) : t :=
  let b1 := freeData b in
  mk Null 0 (LocalStorage b1) (block b1).

Definition getCapacity (b : t) : Z := Capacity b.

Definition increaseCapacity (NewCapacity : Z) (b : t) : t :=
  match Data b with
  | Null => allocinit NewCapacity b
  | Local =>
      if LocalStorageSize <? NewCapacity then
        mk Heap NewCapacity (LocalStorage b)
          (take (Z.to_nat (Capacity b)) (LocalStorage b) ++
           replicate (Z.to_nat NewCapacity - Z.to_nat (Capacity b))
             inhabitant)
      else mk Local NewCapacity (LocalStorage b) (block b)
  | Heap =>
      mk Heap NewCapacity (LocalStorage b)
        (take (Z.to_nat NewCapacity) (block b) ++
         replicate (Z.to_nat NewCapacity - length (block b)) inhabitant)
  end.

Definition setCapacity (NewCapacity : Z) (b : t) : t :=
  if NewCapacity <=? Capacity b then
    mk (Data b) NewCapacity (LocalStorage b) (block b)
  else increaseCapacity NewCapacity b.

(** The loop [while( NewCapacity < ReqCapacity )] of [updateCapacity];
    [fuel] bounds its iterations. *)
Fixpoint growCapacity (fuel : nat) (NewCapacity ReqCapacity : Z)
    : option Z :=
  if NewCapacity <? ReqCapacity then
    match fuel with
    | O => None
    | S fuel' =>
        growCapacity fuel'
          (add32 NewCapacity (add32 (NewCapacity ÷ 2) 1)) ReqCapacity
    end
  else Some NewCapacity.

Definition updateCapacity (fuel : nat) (ReqCapacity : Z) (b : t)
    : option t :=
  if ReqCapacity <=? Capacity b then Some b
  else
    NewCapacity ← growCapacity fuel (Capacity b) ReqCapacity;
    Some (increaseCapacity NewCapacity b).

(** [memcpy( Data, Source, n * sizeof( T ))] *)
Definition memcpy (Source : list T) (n : Z) (b : t) : t :=
  let new l := take (Z.to_nat n) Source ++ drop (Z.to_nat n) l in
  match Data b with
  | Null => b
  | Local => mk Local (Capacity b) (new (LocalStorage b)) (block b)
  | Heap => mk Heap (Capacity b) (LocalStorage b) (new (block b))
  end.

Definition copy (Source : t) (b : t) : t :=
  let b1 := alloc (Capacity Source) b in
  memcpy (cells Source) (Capacity b1) b1.
End Buffer.

Global Arguments t : clear implicits.
End CBuffer.

(** ** [CArrayBase] with the allocator [CArrayAllocator]

    The allocator neither constructs nor destructs: [allocateItem( p )]
    does nothing and [allocateItem( p, Source )] assigns. *)

Module CArrayBase.
Section ArrayBase.
Context {T : Type} `{Inhabited T} `{EqDecision T}.
Variable LocalStorageSize : Z.

Record t : Type := mk {
  ItemCount : Z;
  Items : CBuffer.t T
}.

(** [CArrayBase()] *)
Definition new : t := mk 0 (CBuffer.new LocalStorageSize).

(** [operator []] *)
Definition index (a : t) (Index : Z) : T := CBuffer.get (Items a) Index.

Definition getItemCount (a : t) : Z := ItemCount a.

Definition setItemCount (fuel : nat) (NewCount : Z) (a : t) : option t :=
  if ItemCount a <? NewCount then
    b ← CBuffer.updateCapacity LocalStorageSize fuel NewCount (Items a);
    Some (mk NewCount b)
  else Some (mk NewCount (Items a)).

(** The test and the call that [add] and [insert] start with. *)
Definition makeRoom (a : t) : CBuffer.t T :=
  if ItemCount a =? CBuffer.getCapacity (Items a) then
    CBuffer.increaseCapacity LocalStorageSize
      (add32 (mul32 (ItemCount a) 2) 1) (Items a)
  else Items a.

(** [add()]: the new item is [a[ ItemCount - 1 ]] of the result. *)
Definition add (a : t) : t :=
  mk (add32 (ItemCount a) 1) (makeRoom a).

(** [add( Source )] *)
Definition addCopy (Source : T) (a : t) : t :=
  mk (add32 (ItemCount a) 1)
     (CBuffer.set (ItemCount a) Source (makeRoom a)).

(** [memmove( &Items[ Index + 1 ], &Items[ Index ],
    ( ItemCount - Index ) * sizeof( StorageType ))] on the cells. *)
Definition shiftUp (Index n : nat) (l : list T) : list T :=
  take (S Index) l ++ take n (drop Index l) ++ drop (S Index + n) l.

Definition moveUp (Index n : Z) (b : CBuffer.t T) : CBuffer.t T :=
  let f := shiftUp (Z.to_nat Index) (Z.to_nat n) in
  match CBuffer.Data b with
  | CBuffer.Null => b
  | CBuffer.Local =>
      CBuffer.mk CBuffer.Local (CBuffer.Capacity b)
        (f (CBuffer.LocalStorage b)) (CBuffer.block b)
  | CBuffer.Heap =>
      CBuffer.mk CBuffer.Heap (CBuffer.Capacity b) (CBuffer.LocalStorage b)
        (f (CBuffer.block b))
  end.

(** [insert( Index, Source )] *)
Definition insert (Index : Z) (Source : T) (a : t) : t :=
  let b := moveUp Index (sub32 (ItemCount a) Index) (makeRoom a) in
  mk (add32 (ItemCount a) 1) (CBuffer.set Index Source b).

(** The loop of [find] from [i], with [n] items still to look at. *)
Fixpoint findFrom (a : t) (Source : T) (n : nat) (i : Z) : Z :=
  match n with
  | O => -1
  | S n' =>
      if decide (index a i = Source) then i
      else findFrom a Source n' (add32 i 1)
  end.

Definition find (Source : T) (a : t) : Z :=
  findFrom a Source (Z.to_nat (ItemCount a)) 0.

Definition addUnique (Source : T) (a : t) : t :=
  if find Source a =? -1 then addCopy Source a else a.

Definition clear (a : t) : t := mk 0 (Items a).

(** The loop [while( ItemCount < NewCount )] of [operator =] and
    [operator +=]: item [i] of [Source] goes to the end, [n] times. *)
Fixpoint copyItems (Source : t) (n : nat) (i : Z) (a : t) : t :=
  match n with
  | O => a
  | S n' =>
      copyItems Source n' (add32 i 1)
        (mk (add32 (ItemCount a) 1)
            (CBuffer.set (ItemCount a) (index Source i) (Items a)))
  end.

(** [operator =] *)
Definition assign (fuel : nat) (Source : t) (a : t) : option t :=
  let NewCount := ItemCount Source in
  b ← CBuffer.updateCapacity LocalStorageSize fuel NewCount (Items a);
  Some (copyItems Source (Z.to_nat NewCount) 0 (mk 0 b)).

(** [operator +=] *)
Definition append (fuel : nat) (Source : t) (a : t) : option t :=
  if ItemCount Source =? 0 then Some a
  else
    let NewCount := add32 (ItemCount a) (ItemCount Source) in
    b ← CBuffer.updateCapacity LocalStorageSize fuel NewCount (Items a);
    Some (copyItems Source (Z.to_nat (sub32 NewCount (ItemCount a))) 0
            (mk (ItemCount a) b)).
End ArrayBase.

Global Arguments t : clear implicits.
End CArrayBase.

(** ** What the containers stand for *)

(** A buffer whose [Capacity] cells are there. *)
Definition bufferOK {T} (LocalStorageSize : Z) (b : CBuffer.t T) : Prop :=
  0 <= CBuffer.Capacity b ∧
  length (CBuffer.LocalStorage b) = Z.to_nat LocalStorageSize ∧
  match CBuffer.Data b with
  | CBuffer.Null => CBuffer.Capacity b = 0
  | CBuffer.Local => CBuffer.Capacity b <= LocalStorageSize
  | CBuffer.Heap => CBuffer.Capacity b <= Z.of_nat (length (CBuffer.block b))
  end.

(** The first [Capacity] cells. *)
Definition content {T} (b : CBuffer.t T) : list T :=
  take (Z.to_nat (CBuffer.Capacity b)) (CBuffer.cells b).

(** The items of an array, and an array whose items are there. *)
Definition items {T} (a : CArrayBase.t T) : list T :=
  take (Z.to_nat (CArrayBase.ItemCount a))
    (CBuffer.cells (CArrayBase.Items a)).

Definition arrayOK {T} (LocalStorageSize : Z) (a : CArrayBase.t T) : Prop :=
  bufferOK LocalStorageSize (CArrayBase.Items a) ∧
  0 <= CArrayBase.ItemCount a <= CBuffer.Capacity (CArrayBase.Items a).

(** The capacities that the loop of [updateCapacity] goes through from
    0. *)
Fixpoint grown (j : nat) : Z :=
  match j with
  | O => 0
  | S j' => grown j' + grown j' ÷ 2 + 1
  end.

(** ** The state of the search on a larger scale

    Every width, height and coordinate is multiplied by [k] and every
    size by [k * k]. The two values that stand for "no fit yet" in
    [BestOutSize], [0x7FFFFFFE] and [0x7FFFFFFF], stay as they are. *)

Definition scaleBest (k v : Z) : Z :=
  if 2147483646 <=? v then v else k * k * v.

Definition scaleOutArea (k : Z) (o : COutArea.t) : COutArea.t :=
  COutArea.mk (COutArea.OutImage o) (k * COutArea.x o) (k * COutArea.y o)
    (k * COutArea.Width o) (k * COutArea.Height o) (COutArea.Next o).

Definition scaleItem (k : Z) (it : CFitAreaStackItem.t)
    : CFitAreaStackItem.t :=
  CFitAreaStackItem.mk (CFitAreaStackItem.CodeLoc it)
    (CFitAreaStackItem.Area it) (CFitAreaStackItem.PrevArea it)
    (scaleOutArea k <$> CFitAreaStackItem.NewOutAreas it)
    (CFitAreaStackItem.PrevNewOutAreas it) (CFitAreaStackItem.OutArea it)
    (CFitAreaStackItem.PrevOutArea it) (CFitAreaStackItem.OutAreasTried it)
    (k * CFitAreaStackItem.OutAreaRemainRight it)
    (k * CFitAreaStackItem.OutAreaRemainBottom it)
    (CFitAreaStackItem.WasOutImageAdded it)
    (CFitAreaStackItem.DoOutImageRestore it)
    (scaleImage k (CFitAreaStackItem.OutImageSave it))
    (k * k * CFitAreaStackItem.OutSizeSave it)
    (k * CFitAreaStackItem.MinAreaWidth it)
    (k * CFitAreaStackItem.MinAreaHeight it)
    (CFitAreaStackItem.c it) (CFitAreaStackItem.c1 it).

Definition scaleFitData (k : Z) (d : CFitData.t) : CFitData.t :=
  CFitData.mk (scaleOutArea k <$> CFitData.BaseOutAreas d)
    (scaleImage k <$> CFitData.OutImages d) (CFitData.OutImageCount d)
    (k * k * CFitData.OutSize d) (scaleBest k (CFitData.BestOutSize d))
    (CFitData.BestOutImageCount d).

Definition scaleGlobals (k : Z) (g : CGlobals.t) : CGlobals.t :=
  CGlobals.mk (CGlobals.FitCallsLimit g) (CGlobals.FitCallsLeft g)
    (scaleBest k (CGlobals.BestOutSize g)) (CGlobals.BestOutImageCount g)
    (scaleArea k <$> CGlobals.BestFittedAreas g)
    (scaleImage k <$> CGlobals.BestOutImages g).

(** The area with the index [i]: its position is multiplied by [k] when
    the search has assigned it ([P i]), and is what the caller left in
    it otherwise. *)
Definition scaleAreaAt (k : Z) (P : nat → bool) (i : nat) (a : CFitArea.t)
    : CFitArea.t :=
  if P i then scaleArea k a else scaleSize k a.

Definition scaleFitter (k : Z) (P : nat → bool) (f : CAreaFitter.t)
    : CAreaFitter.t :=
  CAreaFitter.mk (k * CAreaFitter.MaxOutImageWidth f)
    (k * CAreaFitter.MaxOutImageHeight f)
    (k * k * CAreaFitter.MaxOutImageSize f)
    (scaleGlobals k (CAreaFitter.Globals f)) (CAreaFitter.FitCallsLeft f)
    (CAreaFitter.InitArea f) (imap (scaleAreaAt k P) (CAreaFitter.Areas f))
    (scaleFitData k (CAreaFitter.fd f))
    (scaleItem k <$> CAreaFitter.Stack f) (CAreaFitter.Depth f).

Definition scaleConfig (k : Z) (P : nat → bool) (cfg : Config.t)
    : Config.t :=
  Config.mk (scaleFitter k P (Config.fitter cfg)) (Config.Area cfg)
    (Config.OutArea cfg) (Config.loc cfg).

(** The areas with an assigned position, after the one more. *)
Definition withArea (A : option nat) (P : nat → bool) (i : nat) : bool :=
  if decide (i = default 0%nat A) then true else P i.

(** Every area has an assigned position. *)
Definition allPlaced (P : nat → bool) (f : CAreaFitter.t) : Prop :=
  ∀ i, (i < length (CAreaFitter.Areas f))%nat → P i = true.

(** ** What has to be representable

    The sizes on the larger scale stay below the two values that stand
    for "no fit yet". *)
Definition bestBelow (k v : Z) : Prop :=
  2147483646 <= v ∨ k * k * v < 2147483646.

Definition sizesBelow (k : Z) (f : CAreaFitter.t) : Prop :=
  k * k * CFitData.OutSize (CAreaFitter.fd f) < 2147483646 ∧
  Forall (λ it, k * k * CFitAreaStackItem.OutSizeSave it < 2147483646)
    (CAreaFitter.Stack f) ∧
  bestBelow k (CFitData.BestOutSize (CAreaFitter.fd f)) ∧
  bestBelow k (CGlobals.BestOutSize (CAreaFitter.Globals f)).

(** The two differences that [s -> OutAreaRemainRight] and
    [s -> OutAreaRemainBottom] are assigned. *)
Definition remainOK (k : Z) (f : CAreaFitter.t) (Area : option nat)
    (OutArea : option OutAreaPtr) : Prop :=
  let a := areaOf f Area in
  let o := outAreaOf f OutArea in
  is_int (k * (COutArea.Width o - CFitArea.Width a)) ∧
  is_int (k * (COutArea.Height o - CFitArea.Height a)).

(** The corner of the area opposite to its position. *)
Definition cornerOK (k : Z) (f : CAreaFitter.t) (Area : option nat)
    (OutArea : option OutAreaPtr) : Prop :=
  let a := areaOf f Area in
  let o := outAreaOf f OutArea in
  is_int (k * (COutArea.x o + CFitArea.Width a)) ∧
  is_int (k * (COutArea.y o + CFitArea.Height a)).

(** The size of the output image that covers the area, and the summed
    size of the output images with it. *)
Definition growthOK (k : Z) (f : CAreaFitter.t) (Area : option nat)
    (OutArea : option OutAreaPtr) : Prop :=
  let a := areaOf f Area in
  let o := outAreaOf f OutArea in
  let im := outImage f (COutArea.OutImage o) in
  let W := Z.max (COutArea.x o + CFitArea.Width a) (COutImage.Width im) in
  let H := Z.max (COutArea.y o + CFitArea.Height a) (COutImage.Height im) in
  let S := CFitData.OutSize (CAreaFitter.fd f) in
  is_int (k * k * (W * H)) ∧ is_int (k * k * (S + W * H)) ∧
  is_int (k * k * (S + W * H - COutImage.Size im)) ∧
  k * k * (S + W * H - COutImage.Size im) < 2147483646.

(** An inner loop pass from [s -> OutArea = OutArea]: the two
    differences, and what the check and the placement compute when the
    area is not too large for the output area. *)
Definition tryOK (k : Z) (P : nat → bool) (f : CAreaFitter.t)
    (Area : option nat) (OutArea : option OutAreaPtr) : Prop :=
  let f1 := setRemain f Area OutArea in
  remainOK k f Area OutArea ∧
  ((CFitAreaStackItem.OutAreaRemainRight (s f1) <? 0) ||
   (CFitAreaStackItem.OutAreaRemainBottom (s f1) <? 0) = false →
   cornerOK k f Area OutArea ∧ growthOK k f Area OutArea ∧
   OutArea ≠ Some (NewPtr (depth f) 0) ∧
   (CFitArea.Next (CAreaFitter.InitArea f) = None →
    allPlaced (withArea Area P) f)).

(** The head of the inner loop at the end of the chain, from "Add new
    output image": the output area of the new image is inserted into the
    chain and the image is added behind those in use. *)
Definition addOutImage (f : CAreaFitter.t) (Area : option nat)
    : option CAreaFitter.t :=
  let p := NewPtr (depth f) 2 in
  let A := areaOf f Area in
  let f1 :=
    upd_outArea (λ o,
        COutArea.mk (COutArea.OutImage o) 0 0
          (if CAreaFitter.MaxOutImageWidth f <? CFitArea.Width A
           then CFitArea.Width A else CAreaFitter.MaxOutImageWidth f)
          (if CAreaFitter.MaxOutImageHeight f <? CFitArea.Height A
           then CFitArea.Height A else CAreaFitter.MaxOutImageHeight f)
          (COutArea.Next o)) p f in
  '(f2, prev) ← insertOutArea f1 p;
  let f3 := upd_s (CFitAreaStackItem.set_PrevOutArea prev) f2 in
  let n := CFitData.OutImageCount (CAreaFitter.fd f3) in
  let f4 := upd_outArea (COutArea.set_OutImage n) p f3 in
  let f5 :=
    upd_fd (λ d,
        CFitData.set_OutImages
          (updateCapacity (Z.to_nat (add32 n 1))
             (CFitData.OutImages d)) d) f4 in
  let f6 := set_outImage n COutImage.zero f5 in
  let f7 := upd_fd (CFitData.set_OutImageCount (add32 n 1)) f6 in
  Some (upd_s (CFitAreaStackItem.set_WasOutImageAdded true) f7).

(** The head of the inner loop. *)
Definition loopOK (k : Z) (P : nat → bool) (f : CAreaFitter.t)
    (Area : option nat) (OutArea : option OutAreaPtr) : Prop :=
  match OutArea with
  | Some _ =>
      tryOK k P (upd_s (CFitAreaStackItem.set_WasOutImageAdded false) f)
        Area OutArea
  | None =>
      ∀ f8, addOutImage f Area = Some f8 →
        tryOK k P f8 Area (Some (NewPtr (depth f) 2))
  end.

(** A step of the search computes nothing that is not representable on
    the larger scale. *)
Definition stepOK (k : Z) (P : nat → bool) (cfg : Config.t) : Prop :=
  let f := Config.fitter cfg in
  match Config.loc cfg with
  | AtRegionLoop => loopOK k P f (Config.Area cfg) (Config.OutArea cfg)
  | AtCodeLoc2 =>
      cornerOK k f (Config.Area cfg) (Config.OutArea cfg) ∧
      Config.OutArea cfg ≠ Some (NewPtr (depth f) 0)
  | _ => True
  end.

(** From [f] to [f'] no rectangle of an output area and no width or
    height of an area has changed. *)
Definition sameRects (f f' : CAreaFitter.t) : Prop :=
  (∀ q, outRect (outArea f' q) = outRect (outArea f q)) ∧
  (∀ i, areaDims (CAreaFitter.Areas f' !!! i)
        = areaDims (CAreaFitter.Areas f !!! i)) ∧
  depth f' = depth f.

(** ** The areas with an assigned position *)

(** The areas that the stack items hold. *)
Definition frameAreas (f : CAreaFitter.t) : list (option nat) :=
  CFitAreaStackItem.Area <$> CAreaFitter.Stack f.

(** From [f] to [f'] no stack item holds another area and the depth is
    the same. *)
Definition sameFrames (f f' : CAreaFitter.t) : Prop :=
  frameAreas f' = frameAreas f ∧
  CAreaFitter.Depth f' = CAreaFitter.Depth f.

(** What a step from the inner loop, from [CodeLoc2] or from [CodeLoc3]
    leaves: the current item at the head of one of its loops, or a new
    item above it. *)
Definition Outcome (f : CAreaFitter.t) (cfg' : Config.t) : Prop :=
  let f' := Config.fitter cfg' in
  (CAreaFitter.Depth f' = CAreaFitter.Depth f ∧
   (Config.loc cfg' = AtCodeLoc1 ∨ Config.loc cfg' = AtRegionLoop) ∧
   take (depth f) (frameAreas f') = take (depth f) (frameAreas f)) ∨
  (CAreaFitter.Depth f' = CAreaFitter.Depth f + 1 ∧
   Config.loc cfg' = AtCodeLoc1 ∧
   take (S (depth f)) (frameAreas f') = take (S (depth f)) (frameAreas f)).

(** The positions of the areas that the suspended stack items hold are
    assigned. *)
Definition placedIn (P : nat → bool) (cfg : Config.t) : Prop :=
  let f := Config.fitter cfg in
  (∀ i, i ∈ placedBelow f (depth f) → P i = true) ∧
  match Config.loc cfg with
  | AtCodeLoc2 | AtCodeLoc3 =>
      P (default 0%nat (CFitAreaStackItem.Area (item f (depth f)))) = true
  | _ => True
  end.

(** The room for the summed size of the output images on the larger
    scale: there are never more output images than cells of
    [BaseOutAreas] and areas together. *)
Definition roomFor (k BW BH : Z) (f : CAreaFitter.t) : Prop :=
  0 < k ∧ k * BW <= INT_MAX ∧ k * BH <= INT_MAX ∧
  Z.of_nat (baseCells f + length (CAreaFitter.Areas f))
  * (k * BW) * (k * BH) < 2147483646.

(** * Properties *)

(** ** Machine integers *)

Lemma wrap32_id z : is_int z → wrap32 z = z.
Proof.
  unfold is_int, INT_MIN, INT_MAX, wrap32. intros Hz.
  rewrite Z.mod_small by lia. lia.
Qed.

Lemma wrap32_is_int z : is_int (wrap32 z).
Proof.
  unfold is_int, INT_MIN, INT_MAX, wrap32.
  pose proof (Z.mod_pos_bound (z + 2147483648) 4294967296). lia.
Qed.

Lemma add32_id a b : is_int (a + b) → add32 a b = a + b.
Proof. apply wrap32_id. Qed.

Lemma sub32_id a b : is_int (a - b) → sub32 a b = a - b.
Proof. apply wrap32_id. Qed.

Lemma mul32_id a b : is_int (a * b) → mul32 a b = a * b.
Proof. apply wrap32_id. Qed.

(** ** [checkAreaFitAgainstBest] *)

(** C4. With the candidate corner ([NewWidth], [NewHeight]) and the image's
    current dimensions, a dimension "grew" when the corner lies beyond the
    image. When one grew and the new image size exceeds [MaxOutImageSize],
    the function returns [false] and leaves the tried counter alone; when
    the new summed size reaches [fd -> BestOutSize], it returns [false] and
    counts the area as tried; otherwise it returns [true], counts the area
    as tried and commits the grown image and the new summed size, saving
    the old ones. When no dimension grew it returns [true], counts the area
    as tried, changes nothing and asks for no restore. *)
Theorem checkAreaFitAgainstBest_cases
    (MaxOutImageSize fdOutSize fdBestOutSize NewWidth NewHeight : Z)
    (OutImage : COutImage.t) (DoOutImageRestore : bool)
    (OutImageSave : COutImage.t) (OutSizeSave OutAreasTried : Z) :
  let grew :=
    (COutImage.Width OutImage <? NewWidth) ||
    (COutImage.Height OutImage <? NewHeight) in
  let W := Z.max NewWidth (COutImage.Width OutImage) in
  let H := Z.max NewHeight (COutImage.Height OutImage) in
  let NewSize := mul32 W H in
  let NewOutSize := sub32 (add32 fdOutSize NewSize) (COutImage.Size OutImage) in
  let r :=
    checkAreaFitAgainstBest MaxOutImageSize fdOutSize fdBestOutSize NewWidth
      NewHeight OutImage DoOutImageRestore OutImageSave OutSizeSave
      OutAreasTried in
  (grew = true → MaxOutImageSize < NewSize →
     r = CheckFit.mk false fdOutSize OutImage DoOutImageRestore OutImageSave
           OutSizeSave OutAreasTried) ∧
  (grew = true → NewSize <= MaxOutImageSize → fdBestOutSize <= NewOutSize →
     r = CheckFit.mk false fdOutSize OutImage DoOutImageRestore OutImageSave
           OutSizeSave (OutAreasTried + 1)) ∧
  (grew = true → NewSize <= MaxOutImageSize → NewOutSize < fdBestOutSize →
     r = CheckFit.mk true NewOutSize (COutImage.mk W H NewSize) true OutImage
           fdOutSize (OutAreasTried + 1)) ∧
  (grew = false →
     r = CheckFit.mk true fdOutSize OutImage false OutImageSave OutSizeSave
           (OutAreasTried + 1)).
Proof.
  cbv zeta. unfold checkAreaFitAgainstBest.
  destruct (Z.ltb_spec (COutImage.Width OutImage) NewWidth) as [Hw|Hw];
    destruct (Z.ltb_spec (COutImage.Height OutImage) NewHeight) as [Hh|Hh];
    cbn [orb];
    rewrite ?(Z.max_l NewWidth) by lia; rewrite ?(Z.max_r NewWidth) by lia;
    rewrite ?(Z.max_l NewHeight) by lia; rewrite ?(Z.max_r NewHeight) by lia;
    repeat split; intros; try discriminate; try reflexivity;
    repeat match goal with
      | |- context [?a <? ?b] => destruct (Z.ltb_spec a b); try lia
      | |- context [?a <=? ?b] => destruct (Z.leb_spec a b); try lia
      end; reflexivity.
Qed.

(** The three outcomes with a grown image at concrete values, and the one
    without: an image 10x10 of size 100 among images of summed size 100. *)
Lemma checkAreaFitAgainstBest_cases_witness :
  checkAreaFitAgainstBest 150 100 1000 20 5 (COutImage.mk 10 10 100) false
    COutImage.zero 0 0
  = CheckFit.mk false 100 (COutImage.mk 10 10 100) false COutImage.zero 0 0
  ∧ checkAreaFitAgainstBest 500 100 200 20 5 (COutImage.mk 10 10 100) false
      COutImage.zero 0 0
    = CheckFit.mk false 100 (COutImage.mk 10 10 100) false COutImage.zero 0 1
  ∧ checkAreaFitAgainstBest 500 100 1000 20 5 (COutImage.mk 10 10 100) false
      COutImage.zero 0 0
    = CheckFit.mk true 200 (COutImage.mk 20 10 200) true
        (COutImage.mk 10 10 100) 100 1
  ∧ checkAreaFitAgainstBest 500 100 1000 5 5 (COutImage.mk 10 10 100) true
      COutImage.zero 0 0
    = CheckFit.mk true 100 (COutImage.mk 10 10 100) false COutImage.zero 0 1.
Proof.
  pose proof (checkAreaFitAgainstBest_cases 150 100 1000 20 5
                (COutImage.mk 10 10 100) false COutImage.zero 0 0) as H1.
  pose proof (checkAreaFitAgainstBest_cases 500 100 200 20 5
                (COutImage.mk 10 10 100) false COutImage.zero 0 0) as H2.
  pose proof (checkAreaFitAgainstBest_cases 500 100 1000 20 5
                (COutImage.mk 10 10 100) false COutImage.zero 0 0) as H3.
  pose proof (checkAreaFitAgainstBest_cases 500 100 1000 5 5
                (COutImage.mk 10 10 100) true COutImage.zero 0 0) as H4.
  cbv zeta in H1, H2, H3, H4.
  destruct H1 as (H1 & _), H2 as (_ & H2 & _), H3 as (_ & _ & H3 & _),
    H4 as (_ & _ & _ & H4).
  split; [apply H1; [reflexivity | vm_compute; reflexivity] |].
  split; [apply H2; [reflexivity | vm_compute; discriminate
                    | vm_compute; discriminate] |].
  split; [apply H3; [reflexivity | vm_compute; discriminate
                    | vm_compute; reflexivity] |].
  apply H4; reflexivity.
Defined.

(** ** The trivial calls of [fitAreas] *)

Section Trivial.
Variable qsort :
  (CFitArea.t → CFitArea.t → Z) → list CFitArea.t → list CFitArea.t.

(** C6. With no input area the output list is cleared; with exactly one,
    the area is placed at (image 0, 0, 0) and the output list is a single
    image of the area's width and height. In both cases the quality is
    100 and the call returns [true], whatever the other arguments are. *)
Theorem fitAreas_zero_or_one (fuel : nat) (a : CFitArea.t)
    (OutImages : list COutImage.t)
    (aMaxOutImageWidth aMaxOutImageHeight aMaxOutImageSize : Z)
    (MinOutImageCount FitCallsLimit : Z) (FitQuality : double) :
  fitAreas qsort fuel [] OutImages aMaxOutImageWidth aMaxOutImageHeight
    aMaxOutImageSize MinOutImageCount FitCallsLimit FitQuality
  = Some (FitResult.mk true [] [] (Finite 100))
  ∧ fitAreas qsort fuel [a] OutImages aMaxOutImageWidth aMaxOutImageHeight
      aMaxOutImageSize MinOutImageCount FitCallsLimit FitQuality
    = Some (FitResult.mk true
              [CFitArea.mk (CFitArea.Object a) (CFitArea.Width a)
                 (CFitArea.Height a) 0 0 0 (CFitArea.Next a)]
              [COutImage.mk (CFitArea.Width a) (CFitArea.Height a)
                 (mul32 (CFitArea.Width a) (CFitArea.Height a))]
              (Finite 100)).
Proof.
  split; [reflexivity |].
  unfold fitAreas. cbn.
  destruct OutImages as [|im ims]; reflexivity.
Qed.

(** C10. A call with at most one input area returns [true] and its result
    does not depend on the three limits; a single area is placed at
    (image 0, 0, 0) on an image of exactly its width and height, however
    the limits compare with it. *)
Theorem fitAreas_trivial_ignores_limits (fuel : nat)
    (AreasToFit : list CFitArea.t) (OutImages : list COutImage.t)
    (w h sz w' h' sz' : Z) (MinOutImageCount FitCallsLimit : Z)
    (FitQuality : double) :
  (length AreasToFit <= 1)%nat →
  fitAreas qsort fuel AreasToFit OutImages w h sz MinOutImageCount
    FitCallsLimit FitQuality
  = fitAreas qsort fuel AreasToFit OutImages w' h' sz' MinOutImageCount
      FitCallsLimit FitQuality
  ∧ ∃ r,
      fitAreas qsort fuel AreasToFit OutImages w h sz MinOutImageCount
        FitCallsLimit FitQuality = Some r
      ∧ FitResult.ok r = true
      ∧ ∀ a, AreasToFit = [a] →
          (CFitArea.OutImage <$> FitResult.AreasToFit r) = [0]
          ∧ (CFitArea.OutX <$> FitResult.AreasToFit r) = [0]
          ∧ (CFitArea.OutY <$> FitResult.AreasToFit r) = [0]
          ∧ (COutImage.Width <$> FitResult.OutImages r) = [CFitArea.Width a]
          ∧ (COutImage.Height <$> FitResult.OutImages r)
            = [CFitArea.Height a].
Proof.
  intros Hlen.
  destruct AreasToFit as [|a [|b l]]; cbn in Hlen; [| |lia].
  - split; [reflexivity |]. eexists. split; [reflexivity |].
    split; [reflexivity |]. intros a Ha. discriminate.
  - split; [reflexivity |]. unfold fitAreas. cbn.
    eexists. split; [reflexivity |]. split; [reflexivity |].
    intros a' Ha'. injection Ha' as ->.
    destruct OutImages as [|im ims]; cbn; repeat split; reflexivity.
Qed.
End Trivial.

(** An area 400x500 with limits 300, 300 and 1000: wider, taller and
    larger than every limit. *)
Lemma fitAreas_trivial_ignores_limits_witness :
  (length [mkArea 400 500] <= 1)%nat
  ∧ fitAreas insertionSort 0 [mkArea 400 500] [] 300 300 1000 1 10000 NaN
    = fitAreas insertionSort 0 [mkArea 400 500] [] 1 1 1 1 10000 NaN.
Proof.
  split; [cbn; lia |].
  apply (fitAreas_trivial_ignores_limits insertionSort 0 [mkArea 400 500] []
           300 300 1000 1 1 1 1 10000 NaN).
  cbn; lia.
Defined.

(** ** Chains under updates of [Next] *)

Section Chain.
Context {P : Type} `{EqDecision P}.
Implicit Types (next : P → option P) (p q : P) (L : list P).

Lemma chain_ext next next' p L :
  (∀ q, q ∈ p :: L → next' q = next q) → chain next p L → chain next' p L.
Proof.
  revert p. induction L as [|q L IH]; intros p Heq; cbn.
  - intros <-. apply Heq. left.
  - intros [Hp HL]. split.
    + rewrite <- Hp. apply Heq. left.
    + apply IH; [|done]. intros r Hr. apply Heq. by right.
Qed.

Lemma chain_inj next p L L' : chain next p L → chain next p L' → L = L'.
Proof.
  revert p L'. induction L as [|q L IH]; intros p [|q' L']; cbn; try congruence.
  - intros ? [? _]. congruence.
  - intros [? _] ?. congruence.
  - intros [H1 H2] [H3 H4]. assert (q = q') as <- by congruence.
    f_equal. by eapply IH.
Qed.

Lemma lastOf_nil p : lastOf p [] = p.
Proof. done. Qed.

Lemma lastOf_cons p q L : lastOf p (q :: L) = lastOf q L.
Proof.
  unfold lastOf. destruct L as [|r L]; [done|].
  rewrite last_cons. destruct (last (r :: L)) eqn:E; [done|].
  by rewrite last_cons in E; destruct (last L).
Qed.

Lemma lastOf_snoc p L q : lastOf p (L ++ [q]) = q.
Proof. unfold lastOf. by rewrite last_snoc. Qed.

Lemma lastOf_elem p L : lastOf p L ∈ p :: L.
Proof.
  revert p. induction L as [|q L IH]; intros p.
  - left.
  - rewrite lastOf_cons. right. apply IH.
Qed.

(** The cell after the first part of a chain. *)
Lemma chain_app_next next p L1 L2 :
  chain next p (L1 ++ L2) → next (lastOf p L1) = head L2.
Proof.
  revert p. induction L1 as [|q L1 IH]; intros p; cbn.
  - destruct L2; cbn; [done | by intros [? _]].
  - intros [_ H]. rewrite lastOf_cons. by apply IH.
Qed.

Lemma chain_app_tail next p L1 L2 :
  chain next p (L1 ++ L2) → chain next (lastOf p L1) L2.
Proof.
  revert p. induction L1 as [|q L1 IH]; intros p; cbn; [done|].
  intros [_ H]. rewrite lastOf_cons. by apply IH.
Qed.

(** [n -> Next = pred -> Next; pred -> Next = n]: the cell [n] enters the
    chain behind [pred]. *)
Lemma chain_insert next next' p L1 L2 n :
  chain next p (L1 ++ L2) →
  NoDup (p :: L1 ++ L2) → n ∉ p :: L1 ++ L2 →
  next' (lastOf p L1) = Some n →
  next' n = next (lastOf p L1) →
  (∀ q, q ≠ lastOf p L1 → q ≠ n → next' q = next q) →
  chain next' p (L1 ++ n :: L2).
Proof.
  revert p. induction L1 as [|q L1 IH]; intros p Hc Hnd Hn Hpred Hnew Hoth.
  - cbn in *. rewrite lastOf_nil in *. split; [done|].
    apply NoDup_cons in Hnd as [Hp Hnd].
    destruct L2 as [|r L2]; cbn in *; [congruence|].
    destruct Hc as [Hc1 Hc2]. split; [congruence|].
    eapply chain_ext; [|done]. intros x Hx. apply Hoth.
    + intros ->. done.
    + intros ->. apply Hn. by right.
  - cbn in Hc. destruct Hc as [Hc1 Hc2]. rewrite lastOf_cons in *.
    apply NoDup_cons in Hnd as [Hp Hnd]. cbn. split.
    + rewrite Hoth; [done | |].
      * intros ->. apply Hp.
        pose proof (lastOf_elem q L1) as Hin.
        change (q :: L1 ++ L2) with ((q :: L1) ++ L2). set_solver.
      * intros ->. apply Hn. left.
    + apply IH; try done. intros Hin. apply Hn. by right.
Qed.

(** [pred -> Next = pred -> Next -> Next]: the cell behind [pred] leaves
    the chain and keeps its own [Next]. *)
Lemma chain_remove next next' p L1 L2 n :
  chain next p (L1 ++ n :: L2) →
  NoDup (p :: L1 ++ n :: L2) →
  next' (lastOf p L1) = next n →
  (∀ q, q ≠ lastOf p L1 → next' q = next q) →
  chain next' p (L1 ++ L2) ∧ next' n = head L2.
Proof.
  revert p. induction L1 as [|q L1 IH]; intros p Hc Hnd Hpred Hoth.
  - cbn in *. rewrite lastOf_nil in *. destruct Hc as [Hc1 Hc2].
    apply NoDup_cons in Hnd as [Hp Hnd].
    apply NoDup_cons in Hnd as [Hn Hnd].
    assert (next' n = next n) as Hnn.
    { apply Hoth. intros ->. apply Hp. left. }
    destruct L2 as [|r L2]; cbn in *.
    + split; congruence.
    + destruct Hc2 as [Hc2 Hc3]. split; [|congruence]. split; [congruence|].
      eapply chain_ext; [|done]. intros x Hx. apply Hoth.
      intros ->. apply Hp. by right.
  - cbn in Hc. destruct Hc as [Hc1 Hc2]. rewrite lastOf_cons in *.
    apply NoDup_cons in Hnd as [Hp Hnd].
    destruct (IH q) as [IH1 IH2]; try done.
    split; [|done]. cbn. split; [|done].
    rewrite Hoth; [done|]. intros ->. apply Hp.
    pose proof (lastOf_elem q L1) as Hin.
    change (q :: L1 ++ n :: L2) with ((q :: L1) ++ n :: L2). set_solver.
Qed.

(** [pred -> Next = n] for a cell [n] that still points behind [pred]. *)
Lemma chain_restore next next' p L1 L2 n :
  chain next p (L1 ++ L2) →
  NoDup (p :: L1 ++ L2) → n ∉ p :: L1 ++ L2 →
  next n = head L2 →
  next' (lastOf p L1) = Some n →
  (∀ q, q ≠ lastOf p L1 → next' q = next q) →
  chain next' p (L1 ++ n :: L2).
Proof.
  intros Hc Hnd Hn Hnn Hpred Hoth.
  eapply chain_insert; try done.
  - rewrite Hoth.
    + rewrite Hnn. symmetry. by eapply chain_app_next.
    + intros ->. apply Hn. pose proof (lastOf_elem p L1).
      change (p :: L1 ++ L2) with ((p :: L1) ++ L2). set_solver.
  - intros q Hq _. by apply Hoth.
Qed.

Lemma NoDup_middle p L1 L2 n :
  NoDup (p :: L1 ++ n :: L2) ↔ NoDup (p :: L1 ++ L2) ∧ n ∉ p :: L1 ++ L2.
Proof.
  assert (p :: L1 ++ n :: L2 ≡ₚ n :: p :: L1 ++ L2) as ->.
  { rewrite <- Permutation_middle. apply perm_swap. }
  rewrite (NoDup_cons n). tauto.
Qed.
End Chain.

(** ** Reading after writing through a pointer *)

Lemma outArea_upd_outArea f g p q :
  validOutPtr f p →
  outArea (upd_outArea g p f) q
  = if decide (q = p) then g (outArea f p) else outArea f q.
Proof.
  intros Hp. destruct p as [i|d k], q as [j|e l]; cbn in *.
  - rewrite list_lookup_total_alter.
    repeat case_decide; try done; naive_solver.
  - by rewrite decide_False by done.
  - by rewrite decide_False by done.
  - destruct Hp as (Hd & Hk & Hlen).
    rewrite list_lookup_total_alter.
    destruct (decide (d = e)) as [->|Hne].
    + rewrite decide_True by done. cbn.
      rewrite list_lookup_total_alter. rewrite Hlen.
      repeat case_decide; try done; try naive_solver; lia.
    + rewrite decide_False by naive_solver.
      rewrite decide_False by naive_solver. done.
Qed.

Lemma outNext_upd_outArea f v p q :
  validOutPtr f p →
  outNext (upd_outArea (COutArea.set_Next v) p f) q
  = if decide (q = p) then v else outNext f q.
Proof.
  intros Hp. unfold outNext. rewrite outArea_upd_outArea by done.
  by case_decide.
Qed.

Lemma outRect_upd_Next f v p q :
  validOutPtr f p →
  outRect (outArea (upd_outArea (COutArea.set_Next v) p f) q)
  = outRect (outArea f q).
Proof.
  intros Hp. rewrite outArea_upd_outArea by done.
  case_decide; by subst.
Qed.

Lemma validOutPtr_upd_outArea f g p q :
  validOutPtr (upd_outArea g p f) q ↔ validOutPtr f q.
Proof.
  destruct p as [i|d k], q as [j|e l]; cbn; rewrite ?length_alter; try done.
  rewrite list_lookup_total_alter.
  case_decide as Hd; [|done]. destruct Hd as [-> Hd]. cbn.
  by rewrite length_alter.
Qed.

Lemma outAreaCells_upd_outArea f g p :
  outAreaCells (upd_outArea g p f) = outAreaCells f.
Proof.
  unfold outAreaCells. destruct p; cbn; by rewrite ?length_alter.
Qed.

(** ** [insertOutArea] *)

(** What the scan returns, when it returns: the last cell of the longest
    head of the chain whose heights do not exceed [h]. *)
Lemma insertOutArea_scan_Some fuel f h prev L r :
  chain (outNext f) prev L →
  insertOutArea_scan fuel f h prev (outNext f prev) = Some r →
  ∃ L1 L2,
    L = L1 ++ L2 ∧ r = lastOf prev L1 ∧
    Forall (λ q, COutArea.Height (outArea f q) <= h) L1 ∧
    (∀ q, head L2 = Some q → h < COutArea.Height (outArea f q)).
Proof.
  revert fuel prev. induction L as [|q L IH]; intros fuel prev Hc Hs.
  - cbn in Hc. rewrite Hc in Hs. destruct fuel; cbn in Hs;
      injection Hs as <-; exists [], []; repeat split; try done; constructor.
  - cbn in Hc. destruct Hc as [Hc1 Hc2]. rewrite Hc1 in Hs.
    assert (insertOutArea_scan fuel f h prev (Some q)
            = if h <? COutArea.Height (outArea f q) then Some prev
              else match fuel with
                   | O => None
                   | S fuel' => insertOutArea_scan fuel' f h q (outNext f q)
                   end) as Heq by (by destruct fuel).
    rewrite Heq in Hs. clear Heq.
    destruct (Z.ltb_spec h (COutArea.Height (outArea f q))) as [Hlt|Hge].
    + injection Hs as <-. exists [], (q :: L).
      repeat split; [constructor|]. intros ? [= <-]. done.
    + destruct fuel as [|fuel]; [done|].
      destruct (IH _ _ Hc2 Hs) as (L1 & L2 & -> & -> & HL1 & HL2).
      exists (q :: L1), L2. rewrite lastOf_cons.
      repeat split; [by constructor | done].
Qed.

(** With as much fuel as the chain is long, the scan returns. *)
Lemma insertOutArea_scan_is_Some fuel f h prev L :
  chain (outNext f) prev L → (length L <= fuel)%nat →
  is_Some (insertOutArea_scan fuel f h prev (outNext f prev)).
Proof.
  revert fuel prev. induction L as [|q L IH]; intros fuel prev Hc Hlen.
  - cbn in Hc. rewrite Hc. by destruct fuel.
  - cbn in Hc. destruct Hc as [Hc1 Hc2]. rewrite Hc1.
    destruct fuel as [|fuel]; cbn in *; [lia|].
    case_match; [done|]. apply (IH _ _ Hc2). lia.
Qed.

Lemma elem_of_allOutPtrs f p : validOutPtr f p → p ∈ allOutPtrs f.
Proof.
  unfold allOutPtrs. destruct p as [i|d k]; cbn.
  - intros Hi. apply elem_of_app. left. apply list_elem_of_fmap.
    exists i. split; [done|]. apply elem_of_seq. lia.
  - intros (Hd & Hk & _). apply elem_of_app. right.
    apply list_elem_of_bind. exists d. split.
    + assert (k = 0 ∨ k = 1 ∨ k = 2)%nat as [-> | [-> | ->]] by lia;
        set_solver.
    + apply elem_of_seq. lia.
Qed.

Lemma length_allOutPtrs f : length (allOutPtrs f) = outAreaCells f.
Proof.
  unfold allOutPtrs, outAreaCells.
  rewrite length_app, length_fmap, length_seq. f_equal.
  assert (∀ n j, length (d ← seq j n; NewPtr d <$> seq 0 3) = (3 * n)%nat)
    as Hlen; [|apply Hlen].
  induction n as [|n IH]; intros j; cbn; [done|].
  cbn in IH. rewrite (IH (S j)). lia.
Qed.

(** Pigeonhole: a chain without repetition is no longer than the number of
    cells. *)
Lemma chain_length_cells f L :
  NoDup L → Forall (validOutPtr f) L → (length L <= outAreaCells f)%nat.
Proof.
  intros Hnd Hv. rewrite <- length_allOutPtrs.
  apply submseteq_length, NoDup_submseteq; [done|].
  intros p Hp. apply elem_of_allOutPtrs.
  rewrite Forall_forall in Hv. by apply Hv.
Qed.

Lemma ascending_insert (hs1 hs2 : list Z) (h : Z) :
  ascending (hs1 ++ hs2) →
  Forall (λ a, a <= h) hs1 →
  (∀ b, head hs2 = Some b → h < b) →
  ascending (hs1 ++ h :: hs2).
Proof.
  induction hs1 as [|a hs1 IH]; intros Hs H1 H2.
  - cbn. split; [|done]. destruct hs2 as [|b hs2]; [done|].
    specialize (H2 b eq_refl). lia.
  - apply Forall_cons in H1 as [Ha H1]. cbn in Hs. destruct Hs as [Hs1 Hs2].
    cbn. split; [|by apply IH].
    destruct hs1 as [|a' hs1]; cbn in *; [done|done].
Qed.

(** The effect of [insertOutArea] on a chain, when it returns. *)
Lemma insertOutArea_Some f p L f' prev :
  outChain f L → NoDup (OutAreas :: L) → p ∉ OutAreas :: L →
  validOutPtr f p → Forall (validOutPtr f) (OutAreas :: L) →
  insertOutArea f p = Some (f', prev) →
  ∃ L1 L2,
    L = L1 ++ L2 ∧ prev = lastOf OutAreas L1 ∧
    f' = upd_outArea (COutArea.set_Next (Some p)) prev
           (upd_outArea (COutArea.set_Next (outNext f prev)) p f) ∧
    outChain f' (L1 ++ p :: L2) ∧
    Forall (λ q, COutArea.Height (outArea f q)
                 <= COutArea.Height (outArea f p)) L1 ∧
    (∀ q, head L2 = Some q →
       COutArea.Height (outArea f p) < COutArea.Height (outArea f q)).
Proof.
  intros Hc Hnd Hp Hvp Hv Hins. unfold insertOutArea in Hins.
  destruct (insertOutArea_scan _ _ _ _ _) as [r|] eqn:Hscan; [|done].
  cbn in Hins. injection Hins as <- <-.
  destruct (insertOutArea_scan_Some _ _ _ _ _ _ Hc Hscan)
    as (L1 & L2 & -> & -> & HL1 & HL2).
  exists L1, L2. repeat split; try done.
  assert (validOutPtr f (lastOf OutAreas L1)) as Hvr.
  { rewrite Forall_forall in Hv. apply Hv.
    pose proof (lastOf_elem OutAreas L1) as Hin.
    change (OutAreas :: L1 ++ L2) with ((OutAreas :: L1) ++ L2).
    apply elem_of_app. by left. }
  assert (lastOf OutAreas L1 ≠ p) as Hne.
  { intros <-. apply Hp. pose proof (lastOf_elem OutAreas L1) as Hin.
    change (OutAreas :: L1 ++ L2) with ((OutAreas :: L1) ++ L2).
    apply elem_of_app. by left. }
  eapply chain_insert; try done.
  - rewrite outNext_upd_outArea by (by apply validOutPtr_upd_outArea).
    by rewrite decide_True.
  - rewrite outNext_upd_outArea by (by apply validOutPtr_upd_outArea).
    rewrite decide_False by done.
    rewrite outNext_upd_outArea by done. by rewrite decide_True.
  - intros q Hq1 Hq2.
    rewrite outNext_upd_outArea by (by apply validOutPtr_upd_outArea).
    rewrite decide_False by done.
    rewrite outNext_upd_outArea by done. by rewrite decide_False.
Qed.

(** C8. [insertOutArea] puts the area into the chain just before the
    first area that is strictly taller, so behind the areas of equal
    height; it returns the cell that now precedes the inserted one; no
    data field of any area changes; and a chain that was ascending by
    height still is. *)
Theorem insertOutArea_sorted (f : CAreaFitter.t) (p : OutAreaPtr)
    (L : list OutAreaPtr) :
  outChain f L → NoDup (OutAreas :: L) → p ∉ OutAreas :: L →
  validOutPtr f p → Forall (validOutPtr f) (OutAreas :: L) →
  ∃ f' prev L1 L2,
    insertOutArea f p = Some (f', prev) ∧
    L = L1 ++ L2 ∧
    outChain f' (L1 ++ p :: L2) ∧
    Forall (λ q, COutArea.Height (outArea f q)
                 <= COutArea.Height (outArea f p)) L1 ∧
    (∀ q, head L2 = Some q →
       COutArea.Height (outArea f p) < COutArea.Height (outArea f q)) ∧
    prev = lastOf OutAreas L1 ∧ outNext f' prev = Some p ∧
    (∀ q, outRect (outArea f' q) = outRect (outArea f q)) ∧
    (ascending (heightsOf f L) → ascending (heightsOf f' (L1 ++ p :: L2))).
Proof.
  intros Hc Hnd Hp Hvp Hv.
  assert (is_Some (insertOutArea f p)) as [[f' prev] Hins].
  { unfold insertOutArea.
    destruct (insertOutArea_scan_is_Some (outAreaCells f) f
                (COutArea.Height (outArea f p)) OutAreas L Hc) as [r Hr].
    - apply NoDup_cons in Hnd as [_ Hnd]. apply Forall_cons in Hv as [_ Hv].
      by apply chain_length_cells.
    - unfold outNext in Hr. rewrite Hr. cbn. eauto. }
  destruct (insertOutArea_Some _ _ _ _ _ Hc Hnd Hp Hvp Hv Hins)
    as (L1 & L2 & -> & -> & -> & Hc' & HL1 & HL2).
  assert (validOutPtr f (lastOf OutAreas L1)) as Hvr.
  { rewrite Forall_forall in Hv. apply Hv.
    pose proof (lastOf_elem OutAreas L1) as Hin.
    change (OutAreas :: L1 ++ L2) with ((OutAreas :: L1) ++ L2).
    apply elem_of_app. by left. }
  set (f' := upd_outArea (COutArea.set_Next (Some p)) (lastOf OutAreas L1)
               (upd_outArea
                  (COutArea.set_Next (outNext f (lastOf OutAreas L1))) p f))
    in *.
  assert (∀ q, outRect (outArea f' q) = outRect (outArea f q)) as Hrect.
  { intros q. unfold f'.
    rewrite outRect_upd_Next by (by apply validOutPtr_upd_outArea).
    by rewrite outRect_upd_Next. }
  exists f', (lastOf OutAreas L1), L1, L2. split; [exact Hins|].
  repeat split; try done.
  - unfold f'.
    rewrite outNext_upd_outArea by (by apply validOutPtr_upd_outArea).
    by rewrite decide_True.
  - intros Hasc. unfold heightsOf in *.
    assert (∀ K : list OutAreaPtr,
      (λ q, COutArea.Height (outArea f' q)) <$> K
      = (λ q, COutArea.Height (outArea f q)) <$> K) as Hmap.
    { intros K. apply list_fmap_ext. intros _ q _.
      specialize (Hrect q). unfold outRect in Hrect. congruence. }
    rewrite Hmap, fmap_app, fmap_cons. rewrite fmap_app in Hasc.
    apply ascending_insert; [done| |].
    + by apply Forall_fmap.
    + intros b Hb. destruct L2 as [|q L2]; [done|].
      cbn in Hb. injection Hb as <-. by apply HL2.
Qed.

(** The output areas of two images 100 x 100 and a new one of the same
    height: it goes behind both. *)
Lemma insertOutArea_sorted_witness :
  ∃ f' prev L1 L2,
    insertOutArea exampleFitterNew (NewPtr 0 0) = Some (f', prev) ∧
    [BasePtr 1; BasePtr 2] = L1 ++ L2 ∧
    outChain f' (L1 ++ NewPtr 0 0 :: L2) ∧
    Forall (λ q, COutArea.Height (outArea exampleFitterNew q)
                 <= COutArea.Height (outArea exampleFitterNew (NewPtr 0 0)))
      L1 ∧
    (∀ q, head L2 = Some q →
       COutArea.Height (outArea exampleFitterNew (NewPtr 0 0))
       < COutArea.Height (outArea exampleFitterNew q)) ∧
    prev = lastOf OutAreas L1 ∧ outNext f' prev = Some (NewPtr 0 0) ∧
    (∀ q, outRect (outArea f' q) = outRect (outArea exampleFitterNew q)) ∧
    (ascending (heightsOf exampleFitterNew [BasePtr 1; BasePtr 2]) →
     ascending (heightsOf f' (L1 ++ NewPtr 0 0 :: L2))).
Proof.
  apply (insertOutArea_sorted exampleFitterNew (NewPtr 0 0)
           [BasePtr 1; BasePtr 2]).
  - vm_compute. repeat split.
  - apply (bool_decide_unpack _). vm_compute. exact I.
  - apply (bool_decide_unpack _). vm_compute. exact I.
  - vm_compute. repeat split; lia.
  - repeat constructor; vm_compute; lia.
Defined.

(** ** What each update leaves alone *)

(** Projections of records built by the simple updates compute. *)
Declare Reduction fred :=
  cbn [CAreaFitter.MaxOutImageWidth CAreaFitter.MaxOutImageHeight
       CAreaFitter.MaxOutImageSize CAreaFitter.Globals
       CAreaFitter.FitCallsLeft CAreaFitter.InitArea CAreaFitter.Areas
       CAreaFitter.fd CAreaFitter.Depth CAreaFitter.Stack
       CAreaFitter.set_Globals CAreaFitter.set_FitCallsLeft
       CAreaFitter.set_InitArea CAreaFitter.set_Areas CAreaFitter.set_fd
       CAreaFitter.set_Stack CAreaFitter.set_Depth
       upd_s upd_fd set_outImage
       CFitData.BaseOutAreas CFitData.OutImages CFitData.OutImageCount
       CFitData.OutSize CFitData.BestOutSize CFitData.BestOutImageCount
       CFitData.set_BaseOutAreas CFitData.set_OutImages
       CFitData.set_OutImageCount CFitData.set_OutSize CFitData.set_Best
       CGlobals.FitCallsLimit CGlobals.FitCallsLeft CGlobals.BestOutSize
       CGlobals.BestOutImageCount CGlobals.BestFittedAreas
       CGlobals.BestOutImages CGlobals.set_FitCallsLeft CGlobals.set_Best
       CFitAreaStackItem.CodeLoc CFitAreaStackItem.Area
       CFitAreaStackItem.PrevArea CFitAreaStackItem.NewOutAreas
       CFitAreaStackItem.PrevNewOutAreas CFitAreaStackItem.OutArea
       CFitAreaStackItem.PrevOutArea CFitAreaStackItem.OutAreasTried
       CFitAreaStackItem.OutAreaRemainRight
       CFitAreaStackItem.OutAreaRemainBottom
       CFitAreaStackItem.WasOutImageAdded CFitAreaStackItem.DoOutImageRestore
       CFitAreaStackItem.OutImageSave CFitAreaStackItem.OutSizeSave
       CFitAreaStackItem.MinAreaWidth CFitAreaStackItem.MinAreaHeight
       CFitAreaStackItem.c CFitAreaStackItem.c1
       CFitAreaStackItem.set_CodeLoc CFitAreaStackItem.set_Area
       CFitAreaStackItem.set_PrevArea CFitAreaStackItem.set_NewOutAreas
       CFitAreaStackItem.set_PrevNewOutAreas CFitAreaStackItem.set_OutArea
       CFitAreaStackItem.set_PrevOutArea CFitAreaStackItem.set_OutAreasTried
       CFitAreaStackItem.set_Remain CFitAreaStackItem.set_WasOutImageAdded
       CFitAreaStackItem.set_DoOutImageRestore CFitAreaStackItem.set_Save
       CFitAreaStackItem.set_MinArea CFitAreaStackItem.set_c
       CFitAreaStackItem.set_c1
       COutArea.OutImage COutArea.x COutArea.y COutArea.Width COutArea.Height
       COutArea.Next COutArea.set_Next COutArea.set_OutImage
       COutArea.set_rect
       CFitArea.Object CFitArea.Width CFitArea.Height CFitArea.OutImage
       CFitArea.OutX CFitArea.OutY CFitArea.Next CFitArea.set_Next
       CFitArea.set_Out
       COutImage.Width COutImage.Height COutImage.Size
       CheckFit.result CheckFit.OutSize CheckFit.OutImage
       CheckFit.DoOutImageRestore CheckFit.OutImageSave CheckFit.OutSizeSave
       CheckFit.OutAreasTried
       Config.fitter Config.Area Config.OutArea Config.loc
       gU gL gImgs gOutSize tA tUa tUb tH tLa tLb
       frameScalars].

Ltac fcbn :=
  let g := lazymatch goal with |- ?G => G end in
  let g' := eval fred in g in
  change g'.

Ltac fcbn_in H :=
  let T := type of H in
  let T' := eval fred in T in
  change T' in H.

Ltac fcbn_all :=
  repeat match goal with
    | H : ?T |- _ => let T' := eval fred in T in progress change T' in H
    end;
  fcbn.

Ltac solve_scalarUpdate := intros ?; split; reflexivity.
Ltac solve_keepsArea := intros ?; repeat split; reflexivity.

(** *** [upd_s] *)

Lemma depth_upd_s g f : depth (upd_s g f) = depth f.
Proof. reflexivity. Qed.

Lemma length_Stack_upd_s g f :
  length (CAreaFitter.Stack (upd_s g f)) = length (CAreaFitter.Stack f).
Proof. fcbn. apply length_alter. Qed.

Lemma item_upd_s_eq g f e :
  scalarUpdate g → e = depth f → (e < length (CAreaFitter.Stack f))%nat →
  item (upd_s g f) e = g (item f e).
Proof.
  intros Hg -> Hlen. unfold item. fcbn.
  rewrite list_lookup_total_alter_eq by done. apply Hg.
Qed.

Lemma item_upd_s_ne g f e : e ≠ depth f → item (upd_s g f) e = item f e.
Proof.
  intros Hne. unfold item. fcbn.
  by rewrite list_lookup_total_alter_ne.
Qed.

Lemma outArea_upd_s g f p : scalarUpdate g → outArea (upd_s g f) p = outArea f p.
Proof.
  intros Hg. destruct p as [i|d k]; [done|]. unfold outArea. fcbn.
  rewrite list_lookup_total_alter. case_decide as Hd; [|done].
  destruct Hd as [<- _]. by rewrite (proj2 (Hg _)).
Qed.

Lemma outNext_upd_s g f p : scalarUpdate g → outNext (upd_s g f) p = outNext f p.
Proof. intros Hg. unfold outNext. by rewrite outArea_upd_s. Qed.

Lemma validOutPtr_upd_s g f p :
  scalarUpdate g → validOutPtr (upd_s g f) p ↔ validOutPtr f p.
Proof.
  intros Hg. destruct p as [i|d k]; [done|]. unfold validOutPtr. fcbn.
  rewrite length_alter, list_lookup_total_alter.
  case_decide as Hd; [|done]. destruct Hd as [<- _].
  by rewrite (proj2 (Hg _)).
Qed.

Lemma area_upd_s g f p : area (upd_s g f) p = area f p.
Proof. by destruct p. Qed.

Lemma areaNext_upd_s g f p : areaNext (upd_s g f) p = areaNext f p.
Proof. by destruct p. Qed.

Lemma images_upd_s g f : images (upd_s g f) = images f.
Proof. reflexivity. Qed.

(** *** [upd_outArea] *)

Lemma Depth_upd_outArea g p f :
  CAreaFitter.Depth (upd_outArea g p f) = CAreaFitter.Depth f.
Proof. by destruct p. Qed.

Lemma depth_upd_outArea g p f : depth (upd_outArea g p f) = depth f.
Proof. by destruct p. Qed.

Lemma length_Stack_upd_outArea g p f :
  length (CAreaFitter.Stack (upd_outArea g p f))
  = length (CAreaFitter.Stack f).
Proof. destruct p; [done|]. cbn. apply length_alter. Qed.

Lemma item_upd_outArea g p f e : item (upd_outArea g p f) e = item f e.
Proof.
  destruct p as [i|d k]; [done|]. unfold item. cbn.
  rewrite list_lookup_total_alter.
  case_decide as Hd; [destruct Hd as [-> _]|]; reflexivity.
Qed.

Lemma Areas_upd_outArea g p f :
  CAreaFitter.Areas (upd_outArea g p f) = CAreaFitter.Areas f.
Proof. by destruct p. Qed.

Lemma area_upd_outArea g p f q : area (upd_outArea g p f) q = area f q.
Proof. by destruct p, q. Qed.

Lemma areaNext_upd_outArea g p f q :
  areaNext (upd_outArea g p f) q = areaNext f q.
Proof. by destruct p, q. Qed.

Lemma Globals_upd_outArea g p f :
  CAreaFitter.Globals (upd_outArea g p f) = CAreaFitter.Globals f.
Proof. by destruct p. Qed.

Lemma FitCallsLeft_upd_outArea g p f :
  CAreaFitter.FitCallsLeft (upd_outArea g p f) = CAreaFitter.FitCallsLeft f.
Proof. by destruct p. Qed.

Lemma MaxOutImageWidth_upd_outArea g p f :
  CAreaFitter.MaxOutImageWidth (upd_outArea g p f)
  = CAreaFitter.MaxOutImageWidth f.
Proof. by destruct p. Qed.

Lemma MaxOutImageHeight_upd_outArea g p f :
  CAreaFitter.MaxOutImageHeight (upd_outArea g p f)
  = CAreaFitter.MaxOutImageHeight f.
Proof. by destruct p. Qed.

Lemma MaxOutImageSize_upd_outArea g p f :
  CAreaFitter.MaxOutImageSize (upd_outArea g p f)
  = CAreaFitter.MaxOutImageSize f.
Proof. by destruct p. Qed.

Lemma OutImages_upd_outArea g p f :
  CFitData.OutImages (CAreaFitter.fd (upd_outArea g p f))
  = CFitData.OutImages (CAreaFitter.fd f).
Proof. by destruct p. Qed.

Lemma OutImageCount_upd_outArea g p f :
  CFitData.OutImageCount (CAreaFitter.fd (upd_outArea g p f))
  = CFitData.OutImageCount (CAreaFitter.fd f).
Proof. by destruct p. Qed.

Lemma OutSize_upd_outArea g p f :
  CFitData.OutSize (CAreaFitter.fd (upd_outArea g p f))
  = CFitData.OutSize (CAreaFitter.fd f).
Proof. by destruct p. Qed.

Lemma BestOutSize_upd_outArea g p f :
  CFitData.BestOutSize (CAreaFitter.fd (upd_outArea g p f))
  = CFitData.BestOutSize (CAreaFitter.fd f).
Proof. by destruct p. Qed.

Lemma BestOutImageCount_upd_outArea g p f :
  CFitData.BestOutImageCount (CAreaFitter.fd (upd_outArea g p f))
  = CFitData.BestOutImageCount (CAreaFitter.fd f).
Proof. by destruct p. Qed.

Lemma length_BaseOutAreas_upd_outArea g p f :
  length (CFitData.BaseOutAreas (CAreaFitter.fd (upd_outArea g p f)))
  = length (CFitData.BaseOutAreas (CAreaFitter.fd f)).
Proof. destruct p; [|done]. cbn. apply length_alter. Qed.

Lemma images_upd_outArea g p f : images (upd_outArea g p f) = images f.
Proof. by destruct p. Qed.

(** *** [upd_area] *)

Lemma Depth_upd_area g p f :
  CAreaFitter.Depth (upd_area g p f) = CAreaFitter.Depth f.
Proof. by destruct p. Qed.

Lemma depth_upd_area g p f : depth (upd_area g p f) = depth f.
Proof. by destruct p. Qed.

Lemma Stack_upd_area g p f :
  CAreaFitter.Stack (upd_area g p f) = CAreaFitter.Stack f.
Proof. by destruct p. Qed.

Lemma item_upd_area g p f e : item (upd_area g p f) e = item f e.
Proof. by destruct p. Qed.

Lemma outArea_upd_area g p f q : outArea (upd_area g p f) q = outArea f q.
Proof. by destruct p, q. Qed.

Lemma outNext_upd_area g p f q : outNext (upd_area g p f) q = outNext f q.
Proof. by destruct p, q. Qed.

Lemma validOutPtr_upd_area g p f q :
  validOutPtr (upd_area g p f) q ↔ validOutPtr f q.
Proof. by destruct p, q. Qed.

Lemma fd_upd_area g p f : CAreaFitter.fd (upd_area g p f) = CAreaFitter.fd f.
Proof. by destruct p. Qed.

Lemma images_upd_area g p f : images (upd_area g p f) = images f.
Proof. by destruct p. Qed.

Lemma Globals_upd_area g p f :
  CAreaFitter.Globals (upd_area g p f) = CAreaFitter.Globals f.
Proof. by destruct p. Qed.

Lemma FitCallsLeft_upd_area g p f :
  CAreaFitter.FitCallsLeft (upd_area g p f) = CAreaFitter.FitCallsLeft f.
Proof. by destruct p. Qed.

Lemma MaxOutImageWidth_upd_area g p f :
  CAreaFitter.MaxOutImageWidth (upd_area g p f)
  = CAreaFitter.MaxOutImageWidth f.
Proof. by destruct p. Qed.

Lemma MaxOutImageHeight_upd_area g p f :
  CAreaFitter.MaxOutImageHeight (upd_area g p f)
  = CAreaFitter.MaxOutImageHeight f.
Proof. by destruct p. Qed.

Lemma MaxOutImageSize_upd_area g p f :
  CAreaFitter.MaxOutImageSize (upd_area g p f)
  = CAreaFitter.MaxOutImageSize f.
Proof. by destruct p. Qed.

Lemma length_Areas_upd_area g p f :
  length (CAreaFitter.Areas (upd_area g p f)) = length (CAreaFitter.Areas f).
Proof. destruct p; [done|]. cbn. apply length_alter. Qed.

Lemma area_upd_area g p f q :
  validAreaPtr f p →
  area (upd_area g p f) q = if decide (q = p) then g (area f p) else area f q.
Proof.
  destruct p as [|i], q as [|j]; cbn; intros Hv; try done.
  rewrite list_lookup_total_alter.
  repeat case_decide; try done; naive_solver.
Qed.

Lemma Areas_lookup_upd_area g p f i :
  validAreaPtr f p →
  CAreaFitter.Areas (upd_area g p f) !!! i
  = if decide (AreasPtr i = p) then g (CAreaFitter.Areas f !!! i)
    else CAreaFitter.Areas f !!! i.
Proof.
  intros Hv. change (CAreaFitter.Areas (upd_area g p f) !!! i)
    with (area (upd_area g p f) (AreasPtr i)).
  rewrite area_upd_area by done. case_decide; [by subst|done].
Qed.

Lemma areaNext_upd_area v p f q :
  validAreaPtr f p →
  areaNext (upd_area (CFitArea.set_Next v) p f) q
  = if decide (q = p) then AreasPtr <$> v else areaNext f q.
Proof.
  intros Hv. unfold areaNext. rewrite area_upd_area by done.
  by case_decide.
Qed.

(** *** The other updates *)

Lemma item_upd_fd g f e : item (upd_fd g f) e = item f e.
Proof. reflexivity. Qed.

Lemma outArea_upd_fd g f p :
  CFitData.BaseOutAreas (g (CAreaFitter.fd f))
  = CFitData.BaseOutAreas (CAreaFitter.fd f) →
  outArea (upd_fd g f) p = outArea f p.
Proof. intros Hg. destruct p; [|done]. unfold outArea. fcbn. by rewrite Hg. Qed.

Lemma outArea_set_outImage i v f p : outArea (set_outImage i v f) p = outArea f p.
Proof. by destruct p. Qed.

Lemma item_set_outImage i v f e : item (set_outImage i v f) e = item f e.
Proof. reflexivity. Qed.

Lemma depth_upd_fd g f : depth (upd_fd g f) = depth f.
Proof. reflexivity. Qed.

Lemma depth_set_outImage i v f : depth (set_outImage i v f) = depth f.
Proof. reflexivity. Qed.

Lemma depth_set_Globals v f : depth (CAreaFitter.set_Globals v f) = depth f.
Proof. reflexivity. Qed.

Lemma depth_set_FitCallsLeft v f :
  depth (CAreaFitter.set_FitCallsLeft v f) = depth f.
Proof. reflexivity. Qed.

Lemma item_set_Globals v f e : item (CAreaFitter.set_Globals v f) e = item f e.
Proof. reflexivity. Qed.

Lemma item_set_FitCallsLeft v f e :
  item (CAreaFitter.set_FitCallsLeft v f) e = item f e.
Proof. reflexivity. Qed.

Lemma outArea_set_Globals v f p :
  outArea (CAreaFitter.set_Globals v f) p = outArea f p.
Proof. by destruct p. Qed.

Lemma outArea_set_FitCallsLeft v f p :
  outArea (CAreaFitter.set_FitCallsLeft v f) p = outArea f p.
Proof. by destruct p. Qed.

Lemma outNext_upd_fd g f p :
  CFitData.BaseOutAreas (g (CAreaFitter.fd f))
  = CFitData.BaseOutAreas (CAreaFitter.fd f) →
  outNext (upd_fd g f) p = outNext f p.
Proof. intros Hg. unfold outNext. by rewrite outArea_upd_fd. Qed.

Lemma outNext_set_outImage i v f p :
  outNext (set_outImage i v f) p = outNext f p.
Proof. by destruct p. Qed.

Lemma areaNext_upd_fd g f p : areaNext (upd_fd g f) p = areaNext f p.
Proof. by destruct p. Qed.

Lemma areaNext_set_outImage i v f p :
  areaNext (set_outImage i v f) p = areaNext f p.
Proof. by destruct p. Qed.

Lemma validOutPtr_upd_fd g f p :
  CFitData.BaseOutAreas (g (CAreaFitter.fd f))
  = CFitData.BaseOutAreas (CAreaFitter.fd f) →
  validOutPtr (upd_fd g f) p ↔ validOutPtr f p.
Proof. intros Hg. destruct p; [|done]. unfold validOutPtr. fcbn. by rewrite Hg. Qed.

Lemma validOutPtr_set_outImage i v f p :
  validOutPtr (set_outImage i v f) p ↔ validOutPtr f p.
Proof. by destruct p. Qed.

(** ** Stability of what lies below the current item *)

Lemma hostsBelow_ext f f' e :
  (∀ d, (d < e)%nat → item f' d = item f d) →
  hostsBelow f' e = hostsBelow f e.
Proof.
  intros H. unfold hostsBelow. apply list_fmap_ext.
  intros i d Hd. apply lookup_seq in Hd as [-> Hd]. by rewrite H.
Qed.

Lemma placedBelow_ext f f' e :
  (∀ d, (d < e)%nat → item f' d = item f d) →
  placedBelow f' e = placedBelow f e.
Proof.
  intros H. unfold placedBelow. apply list_fmap_ext.
  intros i d Hd. apply lookup_seq in Hd as [-> Hd]. by rewrite H.
Qed.

Lemma hostsBelow_S f e :
  hostsBelow f (S e)
  = hostsBelow f e
    ++ [default (BasePtr 0) (CFitAreaStackItem.OutArea (item f e))].
Proof. unfold hostsBelow. by rewrite seq_S, fmap_app. Qed.

Lemma placedBelow_S f e :
  placedBelow f (S e)
  = placedBelow f e ++ [default 0%nat (CFitAreaStackItem.Area (item f e))].
Proof. unfold placedBelow. by rewrite seq_S, fmap_app. Qed.

Lemma length_placedBelow f e : length (placedBelow f e) = e.
Proof. unfold placedBelow. by rewrite length_fmap, length_seq. Qed.

Lemma elem_of_hostsBelow f e d :
  (d < e)%nat →
  default (BasePtr 0) (CFitAreaStackItem.OutArea (item f d)) ∈ hostsBelow f e.
Proof.
  intros Hd. unfold hostsBelow. apply list_elem_of_fmap.
  exists d. split; [done|]. apply elem_of_seq. lia.
Qed.

Lemma elem_of_placedBelow f e d :
  (d < e)%nat →
  default 0%nat (CFitAreaStackItem.Area (item f d)) ∈ placedBelow f e.
Proof.
  intros Hd. unfold placedBelow. apply list_elem_of_fmap.
  exists d. split; [done|]. apply elem_of_seq. lia.
Qed.

Lemma hostsBelow_mono f e e' p :
  (e' <= e)%nat → p ∈ hostsBelow f e' → p ∈ hostsBelow f e.
Proof.
  intros Hle. unfold hostsBelow. rewrite !list_elem_of_fmap.
  intros (d & -> & Hd). exists d. split; [done|].
  apply elem_of_seq in Hd. apply elem_of_seq. lia.
Qed.

Lemma placedBelow_mono f e e' i :
  (e' <= e)%nat → i ∈ placedBelow f e' → i ∈ placedBelow f e.
Proof.
  intros Hle. unfold placedBelow. rewrite !list_elem_of_fmap.
  intros (d & -> & Hd). exists d. split; [done|].
  apply elem_of_seq in Hd. apply elem_of_seq. lia.
Qed.

Lemma ptrLevel_mono e e' p : (e' <= e)%nat → ptrLevel e' p → ptrLevel e p.
Proof. destruct p; cbn; lia. Qed.

Lemma Stable_refl e f : Stable e f f.
Proof. by split. Qed.

Lemma Stable_mono e e' f f' : (e' <= e)%nat → Stable e f f' → Stable e' f f'.
Proof.
  intros Hle [st_stack st_areas st_base st_valid st_item st_rect st_next st_placed st_dims st_maxw st_maxh st_prevs].
  split; try done.
  - intros d Hd. apply st_item. lia.
  - intros p Hp. apply st_rect. by eapply ptrLevel_mono.
  - intros p Hp. apply st_next. by eapply hostsBelow_mono.
  - intros i Hi. apply st_placed. by eapply placedBelow_mono.
Qed.

Lemma Stable_trans e f1 f2 f3 : Stable e f1 f2 → Stable e f2 f3 → Stable e f1 f3.
Proof.
  intros H12 H23.
  pose proof (hostsBelow_ext _ _ _ (st_item _ _ _ H12)) as Hh.
  pose proof (placedBelow_ext _ _ _ (st_item _ _ _ H12)) as Hp.
  destruct H12 as [a1 a2 a3 a4 a5 a6 a7 a8 a9 a10 a11 a12].
  destruct H23 as [b1 b2 b3 b4 b5 b6 b7 b8 b9 b10 b11 b12].
  split.
  - congruence.
  - congruence.
  - congruence.
  - intros p. by rewrite b4.
  - intros d Hd. rewrite b5, a5; done.
  - intros p Hl. rewrite b6, a6; done.
  - intros p Hin. rewrite b7, a7; [done|done|by rewrite Hh].
  - intros i Hin. rewrite b8, a8; [done|done|by rewrite Hp].
  - intros i. by rewrite b9.
  - congruence.
  - congruence.
  - intros d. by rewrite b12.
Qed.

(** *** The updates are stable *)

Lemma Stable_upd_s e f g :
  scalarUpdate g → (e <= depth f)%nat →
  (∀ it, length (CFitAreaStackItem.PrevNewOutAreas (g it))
         = length (CFitAreaStackItem.PrevNewOutAreas it)) →
  Stable e f (upd_s g f).
Proof.
  intros Hg He Hlen. split; try done.
  - apply length_Stack_upd_s.
  - intros p. by apply validOutPtr_upd_s.
  - intros d Hd. apply item_upd_s_ne. lia.
  - intros p _. by rewrite outArea_upd_s.
  - intros p _. by apply outNext_upd_s.
  - intros d. destruct (decide (d = depth f ∧
                                 (d < length (CAreaFitter.Stack f))%nat))
      as [[-> Hd]|Hn].
    + rewrite item_upd_s_eq by done. apply Hlen.
    + unfold item. fcbn. rewrite list_lookup_total_alter.
      by rewrite decide_False by naive_solver.
Qed.

Lemma Stable_upd_outArea_Next e f v p :
  validOutPtr f p → p ∉ hostsBelow f e →
  Stable e f (upd_outArea (COutArea.set_Next v) p f).
Proof.
  intros Hv Hp. split.
  - apply length_Stack_upd_outArea.
  - by rewrite Areas_upd_outArea.
  - apply length_BaseOutAreas_upd_outArea.
  - intros q. apply validOutPtr_upd_outArea.
  - intros d _. apply item_upd_outArea.
  - intros q _. by apply outRect_upd_Next.
  - intros q Hq. rewrite outNext_upd_outArea by done.
    rewrite decide_False; [done|]. by intros ->.
  - intros i _. by rewrite Areas_upd_outArea.
  - intros i. by rewrite Areas_upd_outArea.
  - apply MaxOutImageWidth_upd_outArea.
  - apply MaxOutImageHeight_upd_outArea.
  - intros d. by rewrite item_upd_outArea.
Qed.

Lemma Stable_upd_outArea_own e f g d k :
  validOutPtr f (NewPtr d k) → (e <= d)%nat →
  NewPtr d k ∉ hostsBelow f e →
  Stable e f (upd_outArea g (NewPtr d k) f).
Proof.
  intros Hv Hd Hh. split.
  - apply length_Stack_upd_outArea.
  - by rewrite Areas_upd_outArea.
  - apply length_BaseOutAreas_upd_outArea.
  - intros q. apply validOutPtr_upd_outArea.
  - intros d' _. apply item_upd_outArea.
  - intros q Hq. rewrite outArea_upd_outArea by done.
    rewrite decide_False; [done|]. intros ->. cbn in Hq. lia.
  - intros q Hq. unfold outNext. rewrite outArea_upd_outArea by done.
    rewrite decide_False; [done|]. by intros ->.
  - intros i _. by rewrite Areas_upd_outArea.
  - intros i. by rewrite Areas_upd_outArea.
  - apply MaxOutImageWidth_upd_outArea.
  - apply MaxOutImageHeight_upd_outArea.
  - intros d'. by rewrite item_upd_outArea.
Qed.

Lemma Stable_upd_area e f g p :
  validAreaPtr f p → keepsArea g →
  (∀ i, p = AreasPtr i → i ∉ placedBelow f e) →
  Stable e f (upd_area g p f).
Proof.
  intros Hv Hg Hp. split.
  - by rewrite Stack_upd_area.
  - apply length_Areas_upd_area.
  - by rewrite fd_upd_area.
  - intros q. apply validOutPtr_upd_area.
  - intros d _. apply item_upd_area.
  - intros q _. by rewrite outArea_upd_area.
  - intros q _. apply outNext_upd_area.
  - intros i Hi. rewrite Areas_lookup_upd_area by done.
    rewrite decide_False; [done|]. intros <-. by eapply Hp.
  - intros i. rewrite Areas_lookup_upd_area by done.
    case_decide; [|done]. unfold areaDims.
    destruct (Hg (CAreaFitter.Areas f !!! i)) as (-> & -> & ->). done.
  - apply MaxOutImageWidth_upd_area.
  - apply MaxOutImageHeight_upd_area.
  - intros d. by rewrite item_upd_area.
Qed.

Lemma Stable_same e f f' :
  CAreaFitter.Stack f' = CAreaFitter.Stack f →
  CAreaFitter.Areas f' = CAreaFitter.Areas f →
  CFitData.BaseOutAreas (CAreaFitter.fd f')
  = CFitData.BaseOutAreas (CAreaFitter.fd f) →
  CAreaFitter.MaxOutImageWidth f' = CAreaFitter.MaxOutImageWidth f →
  CAreaFitter.MaxOutImageHeight f' = CAreaFitter.MaxOutImageHeight f →
  Stable e f f'.
Proof.
  intros HS HA HB HW HH.
  assert (∀ p, outArea f' p = outArea f p) as Hout.
  { intros [i|d k]; unfold outArea; congruence. }
  assert (∀ d, item f' d = item f d) as Hitem.
  { intros d. unfold item. congruence. }
  split.
  - congruence.
  - congruence.
  - congruence.
  - intros [i|d k]; unfold validOutPtr; by rewrite ?HS, ?HB.
  - intros d _. apply Hitem.
  - intros p _. by rewrite Hout.
  - intros p _. unfold outNext. by rewrite Hout.
  - intros i _. by rewrite HA.
  - intros i. by rewrite HA.
  - done.
  - done.
  - intros d. by rewrite Hitem.
Qed.

Lemma Stable_upd_fd e f g :
  (∀ d, CFitData.BaseOutAreas (g d) = CFitData.BaseOutAreas d) →
  Stable e f (upd_fd g f).
Proof. intros Hg. apply Stable_same; try done. fcbn. apply Hg. Qed.

Lemma Stable_set_outImage e f i v : Stable e f (set_outImage i v f).
Proof. by apply Stable_same. Qed.

Lemma Stable_set_Globals e f v : Stable e f (CAreaFitter.set_Globals v f).
Proof. by apply Stable_same. Qed.

Lemma Stable_set_FitCallsLeft e f v :
  Stable e f (CAreaFitter.set_FitCallsLeft v f).
Proof. by apply Stable_same. Qed.

Lemma Stable_set_Depth e f v : Stable e f (CAreaFitter.set_Depth v f).
Proof. by apply Stable_same. Qed.

(** *** What is stable *)

Lemma Shape_stable BW BH e f f' :
  Stable e f f' → Shape BW BH f → Shape BW BH f'.
Proof.
  intros [st_stack st_areas st_base st_valid st_item st_rect st_next st_placed st_dims st_maxw st_maxh st_prevs]
    [sh_stack sh_frames sh_base sh_areas sh_maxw sh_maxh sh_bw sh_bh sh_count].
  split; try done.
  - congruence.
  - intros d Hd. rewrite st_stack in Hd. destruct (sh_frames d Hd).
    split; [by apply st_valid | by rewrite st_prevs].
  - by rewrite st_base.
  - apply Forall_lookup. intros i a Hi.
    assert (i < length (CAreaFitter.Areas f))%nat as Hlt.
    { rewrite <- st_areas. by eapply lookup_lt_Some. }
    apply list_lookup_lookup_total_lt in Hlt as Hf.
    rewrite Forall_lookup in sh_areas. specialize (sh_areas _ _ Hf).
    apply list_lookup_total_correct in Hi. specialize (st_dims i).
    rewrite Hi in st_dims. unfold areaDims in st_dims.
    injection st_dims as _ -> ->. done.
  - by rewrite st_maxw.
  - by rewrite st_maxh.
  - by rewrite st_base, st_areas.
Qed.

Lemma Geo_stable BW BH e e' f f' G :
  Stable e f f' → (e' <= e)%nat → Geo BW BH f e' G → Geo BW BH f' e' G.
Proof.
  intros Hst Hle HG.
  apply (Stable_mono _ _ _ _ Hle) in Hst.
  pose proof (hostsBelow_ext _ _ _ (st_item _ _ _ Hst)) as Hh.
  pose proof (placedBelow_ext _ _ _ (st_item _ _ _ Hst)) as Hp.
  destruct Hst as
    [st_stack st_areas st_base st_valid st_item st_rect st_next st_placed
    st_dims st_maxw st_maxh st_prevs].
  destruct HG as
    [geo_cells geo_areas geo_all geo_ptrs geo_regions geo_placed geo_sep
    geo_images geo_size geo_count].
  assert (∀ p, p ∈ gL G → outRect (outArea f' p) = outRect (outArea f p))
    as Hrect.
  { intros p Hin. apply st_rect. rewrite Forall_forall in geo_ptrs.
    apply geo_ptrs. apply elem_of_app. by left. }
  split; rewrite ?Hh, ?Hp; try done.
  - by rewrite st_areas.
  - eapply Forall_impl; [done|]. intros p [? ?]. split; [|done].
    by apply st_valid.
  - rewrite Forall_forall in geo_regions |- *. intros p Hin.
    specialize (geo_regions p Hin). specialize (Hrect p Hin).
    unfold regionOK, outRect in *. injection Hrect as -> -> -> -> ->. done.
  - rewrite Forall_forall in geo_placed |- *. intros i Hin.
    rewrite st_placed by done. by apply geo_placed.
  - assert (((λ p, outRect (outArea f' p)) <$> gL G)
            = ((λ p, outRect (outArea f p)) <$> gL G)) as ->.
    { apply list_fmap_ext. intros _ p Hin%list_elem_of_lookup_2. by apply Hrect. }
    assert (((λ i, areaRect (CAreaFitter.Areas f' !!! i)) <$> placedBelow f e')
            = ((λ i, areaRect (CAreaFitter.Areas f !!! i))
                 <$> placedBelow f e')) as ->; [|done].
    apply list_fmap_ext. intros _ i Hin%list_elem_of_lookup_2.
    by rewrite st_placed.
  - by rewrite st_base.
Qed.

(** ** Separated rectangles *)

Lemma sep_sym r1 r2 : sep r1 r2 → sep r2 r1.
Proof.
  destruct r1 as [[[[i1 x1] y1] w1] h1], r2 as [[[[i2 x2] y2] w2] h2].
  unfold sep. intros [?|[?|[?|[?|?]]]]; auto; left; congruence.
Qed.

Lemma sep_inside r1 r r2 : inside r1 r → sep r r2 → sep r1 r2.
Proof.
  destruct r1 as [[[[i1 x1] y1] w1] h1], r2 as [[[[i2 x2] y2] w2] h2],
    r as [[[[i x] y] w] h].
  unfold sep, inside. intros (-> & ? & ? & ? & ? & ? & ?).
  intros [?|[?|[?|[?|?]]]]; [by left | right; lia ..].
Qed.

Lemma allSep_cons r R : allSep (r :: R) ↔ Forall (sep r) R ∧ allSep R.
Proof. done. Qed.

Lemma allSep_app R1 R2 :
  allSep (R1 ++ R2) ↔
  allSep R1 ∧ allSep R2 ∧ Forall (λ r1, Forall (sep r1) R2) R1.
Proof.
  induction R1 as [|r R1 IH]; cbn.
  - split; [intros ?; repeat split; [done|constructor] | by intros (_ & ? & _)].
  - rewrite Forall_app, IH, Forall_cons. naive_solver.
Qed.

Lemma allSep_Permutation R1 R2 : R1 ≡ₚ R2 → allSep R1 → allSep R2.
Proof.
  induction 1 as [|r R1 R2 HP IH|r1 r2 R|R1 R2 R3 H12 IH12 H23 IH23]; cbn.
  - done.
  - intros [H1 H2]. split; [by rewrite <- HP | by apply IH].
  - intros [H1 [H2 H3]]. apply Forall_cons in H1 as [H11 H12].
    repeat split; try done. constructor; [by apply sep_sym | done].
  - auto.
Qed.

Global Instance allSep_proper : Proper ((≡ₚ) ==> iff) allSep.
Proof. intros R1 R2 HP. split; apply allSep_Permutation; done. Qed.

Lemma allSep_submseteq R1 R2 : R1 ⊆+ R2 → allSep R2 → allSep R1.
Proof.
  intros (R & HP)%submseteq_Permutation. rewrite HP.
  rewrite allSep_app. by intros (? & _).
Qed.

(** The parts of a rectangle take its place among separated ones. *)
Lemma allSep_replace r R C :
  allSep (r :: R) → Forall (λ c, inside c r) C → allSep C → allSep (C ++ R).
Proof.
  intros [Hr HR] HC HCsep. apply allSep_app. repeat split; try done.
  eapply Forall_impl; [exact HC|]. intros c Hc. cbn in Hc.
  eapply Forall_impl; [exact Hr|]. intros r2 Hr2. by eapply sep_inside.
Qed.

(** A fit area in the corner of an output area and the two new output
    areas of either configuration. *)
Lemma allSep_configuration1 (i x y W H w h : Z) :
  0 <= w <= W → 0 <= h <= H →
  allSep [(i, x, y, w, h); (i, x + w, y, W - w, H); (i, x, y + h, w, H - h)]
  ∧ Forall (λ c, inside c (i, x, y, W, H))
      [(i, x, y, w, h); (i, x + w, y, W - w, H); (i, x, y + h, w, H - h)].
Proof.
  intros Hw Hh. split.
  - cbn. repeat split; repeat constructor; unfold sep; lia.
  - repeat constructor; unfold inside; lia.
Qed.

Lemma allSep_configuration2 (i x y W H w h : Z) :
  0 <= w <= W → 0 <= h <= H →
  allSep [(i, x, y, w, h); (i, x + w, y, W - w, h); (i, x, y + h, W, H - h)]
  ∧ Forall (λ c, inside c (i, x, y, W, H))
      [(i, x, y, w, h); (i, x + w, y, W - w, h); (i, x, y + h, W, H - h)].
Proof.
  intros Hw Hh. split.
  - cbn. repeat split; repeat constructor; unfold sep; lia.
  - repeat constructor; unfold inside; lia.
Qed.

(** Separated areas do not overlap. *)
Lemma sep_overlap a b :
  sep (areaRect a) (areaRect b) → CFitArea.OutImage a = CFitArea.OutImage b →
  overlap a b = false.
Proof.
  unfold sep, areaRect, overlap. intros Hsep Himg.
  destruct Hsep as [?|[?|[?|[?|?]]]]; [done| | | |];
    repeat match goal with
      | |- context [?u <? ?v] => destruct (Z.ltb_spec u v); try lia
      end; reflexivity.
Qed.

Lemma allSep_lookup R i j r1 r2 :
  allSep R → i ≠ j → R !! i = Some r1 → R !! j = Some r2 → sep r1 r2.
Proof.
  revert i j. induction R as [|r R IH]; intros i j Hs Hne Hi Hj; [done|].
  destruct Hs as [Hr HR]. rewrite Forall_forall in Hr.
  destruct i as [|i], j as [|j]; cbn in *; try done.
  - injection Hi as ->. apply Hr. by eapply list_elem_of_lookup_2.
  - injection Hj as ->. apply sep_sym, Hr. by eapply list_elem_of_lookup_2.
  - eapply (IH i j); try done. congruence.
Qed.

Lemma allSep_noOverlap l : allSep (areaRect <$> l) → noOverlap l.
Proof.
  intros Hs i j a b Hne Ha Hb Himg. apply sep_overlap; [|done].
  eapply (allSep_lookup _ i j); try done; rewrite list_lookup_fmap.
  - by rewrite Ha.
  - by rewrite Hb.
Qed.

Lemma noOverlap_Permutation l1 l2 :
  l1 ≡ₚ l2 → allSep (areaRect <$> l1) → allSep (areaRect <$> l2).
Proof. intros HP. by rewrite HP. Qed.

(** ** The suspended items are stable *)

Lemma outRect_fields o o' :
  outRect o' = outRect o →
  COutArea.OutImage o' = COutArea.OutImage o ∧
  COutArea.x o' = COutArea.x o ∧ COutArea.y o' = COutArea.y o ∧
  COutArea.Width o' = COutArea.Width o ∧
  COutArea.Height o' = COutArea.Height o.
Proof. unfold outRect. intros [= -> -> -> -> ->]. done. Qed.

Lemma Inserted_ext f f' e c L0 L' :
  CFitAreaStackItem.PrevNewOutAreas (item f' e)
  = CFitAreaStackItem.PrevNewOutAreas (item f e) →
  Inserted f e c L0 L' → Inserted f' e c L0 L'.
Proof.
  intros Hi. revert L'. induction c as [|c IH]; intros L'; cbn [Inserted];
    [done|].
  intros (Lm & A & B & k & H1 & H2 & H3 & H4 & H5).
  exists Lm, A, B, k. rewrite Hi. repeat split; try done. by apply IH.
Qed.

Lemma Susp_stable BW BH e d f f' G Gc t :
  Stable e f f' → (d < e)%nat →
  Susp BW BH f d G Gc t → Susp BW BH f' d G Gc t.
Proof.
  intros Hst Hd HS.
  pose proof (st_item _ _ _ Hst d Hd) as Hi.
  destruct HS as [[fa_area fa_prev fa_split fa_next]
    [fh_prev fh_split fh_valid fh_level fh_region fh_fresh]
    su_out su_next su_unfitted su_inserted su_c su_grown su_placed su_fits
    su_remain su_room].
  assert (tA t ∈ placedBelow f e) as HA.
  { pose proof (elem_of_placedBelow f e d Hd) as Hin.
    by rewrite fa_area in Hin. }
  assert (tH t ∈ hostsBelow f e) as HH.
  { pose proof (elem_of_hostsBelow f e d Hd) as Hin.
    by rewrite su_out in Hin. }
  pose proof (st_placed _ _ _ Hst _ HA) as Ha.
  pose proof (st_next _ _ _ Hst _ HH) as Hn.
  assert (ptrLevel e (tH t)) as Hlev.
  { eapply ptrLevel_mono; [|done]. lia. }
  destruct (outRect_fields _ _ (st_rect _ _ _ Hst _ Hlev))
    as (Hr1 & Hr2 & Hr3 & Hr4 & Hr5).
  split.
  - split; rewrite ?Hi, ?Ha; done.
  - split; rewrite ?Hi; try done.
    + by apply (st_valid _ _ _ Hst).
    + unfold regionOK. rewrite Hr1, Hr2, Hr3, Hr4, Hr5. done.
    + rewrite Hr1. done.
  - by rewrite Hi.
  - by rewrite Hn.
  - done.
  - rewrite Hi. eapply Inserted_ext; [|done]. by rewrite Hi.
  - by rewrite Hi.
  - by rewrite Hi, Hr1.
  - by rewrite Ha, Hr1, Hr2, Hr3.
  - by rewrite Ha, Hr4, Hr5.
  - by rewrite Hi, Ha, Hr4, Hr5.
  - by rewrite (st_stack _ _ _ Hst).
Qed.

Lemma Below_stable BW BH f f' Gs G :
  Stable (length Gs) f f' → Below BW BH f Gs G → Below BW BH f' Gs G.
Proof.
  revert G. induction Gs as [|G1 Gs IH]; intros G Hst; cbn [Below];
    [done|].
  intros ((t & HS) & HG & HB). cbn [length] in Hst. split; [|split].
  - exists t. eapply Susp_stable; [done| |done]. lia.
  - eapply Geo_stable; [done| |done]. lia.
  - apply IH; [|done]. eapply Stable_mono; [|done]. lia.
Qed.

Lemma areaDims_stable e f f' :
  Stable e f f' →
  areaDims <$> CAreaFitter.Areas f' = areaDims <$> CAreaFitter.Areas f.
Proof.
  intros Hst. apply list_eq. intros i. rewrite !list_lookup_fmap.
  destruct (decide (i < length (CAreaFitter.Areas f))%nat) as [Hlt|Hge].
  - rewrite (list_lookup_lookup_total_lt (CAreaFitter.Areas f)) by done.
    rewrite (list_lookup_lookup_total_lt (CAreaFitter.Areas f'))
      by (by rewrite (st_areas _ _ _ Hst)).
    cbn. f_equal. apply (st_dims _ _ _ Hst).
  - rewrite !lookup_ge_None_2; [done| |]; rewrite ?(st_areas _ _ _ Hst); lia.
Qed.

Lemma GlobalsOK_stable BW BH e f f' :
  Stable e f f' → CAreaFitter.Globals f' = CAreaFitter.Globals f →
  GlobalsOK BW BH f → GlobalsOK BW BH f'.
Proof.
  intros Hst HG Hok. unfold GlobalsOK. rewrite HG. intros Hne.
  destruct (Hok Hne). split; try done.
  - by rewrite (st_areas _ _ _ Hst).
  - by rewrite (areaDims_stable _ _ _ Hst).
  - by rewrite (st_areas _ _ _ Hst), (st_base _ _ _ Hst).
Qed.

(** ** Linking and unlinking in the two chains *)

Global Instance AreasPtr_inj : Inj (=) (=) AreasPtr.
Proof. by intros i j [= ->]. Qed.

Lemma NoDup_area_ptrs (U : list nat) :
  NoDup U → NoDup (UnfittedAreas :: (AreasPtr <$> U)).
Proof.
  intros HU. apply NoDup_cons. split.
  - intros (i & Hi & _)%list_elem_of_fmap. discriminate Hi.
  - apply (NoDup_fmap_2 AreasPtr). exact HU.
Qed.

Lemma lastOf_area_valid f (U : list nat) :
  Forall (λ i, (i < length (CAreaFitter.Areas f))%nat) U →
  validAreaPtr f (lastOf UnfittedAreas (AreasPtr <$> U)).
Proof.
  intros HU. pose proof (lastOf_elem UnfittedAreas (AreasPtr <$> U)) as Hin.
  apply elem_of_cons in Hin as [->|Hin]; [done|].
  apply list_elem_of_fmap in Hin as (i & -> & Hi).
  rewrite Forall_forall in HU. by apply HU.
Qed.

Lemma lastOf_area_in (U : list nat) i :
  lastOf UnfittedAreas (AreasPtr <$> U) = AreasPtr i → i ∈ U.
Proof.
  intros Heq. pose proof (lastOf_elem UnfittedAreas (AreasPtr <$> U)) as Hin.
  rewrite Heq in Hin. apply elem_of_cons in Hin as [?|Hin]; [done|].
  by apply (list_elem_of_fmap_inj AreasPtr) in Hin.
Qed.

Lemma lastOf_area_snoc (U : list nat) a :
  lastOf UnfittedAreas (AreasPtr <$> (U ++ [a])) = AreasPtr a.
Proof.
  rewrite fmap_app. change (AreasPtr <$> [a]) with [AreasPtr a].
  apply lastOf_snoc.
Qed.

Lemma areaChain_nil f : areaChain f [] ↔ CFitArea.Next (area f UnfittedAreas) = None.
Proof.
  unfold areaChain, areaNext. cbn.
  destruct (CFitArea.Next (CAreaFitter.InitArea f)); naive_solver.
Qed.

Lemma areaChain_head f U :
  areaChain f U → CFitArea.Next (area f UnfittedAreas) = head U.
Proof.
  unfold areaChain, areaNext. destruct U as [|i U]; cbn.
  - destruct (CFitArea.Next (CAreaFitter.InitArea f)); naive_solver.
  - intros [H _]. destruct (CFitArea.Next (CAreaFitter.InitArea f));
      naive_solver.
Qed.

Lemma areaChain_restore f Ua Ub a :
  areaChain f (Ua ++ Ub) → NoDup (Ua ++ a :: Ub) →
  Forall (λ i, (i < length (CAreaFitter.Areas f))%nat) Ua →
  CFitArea.Next (CAreaFitter.Areas f !!! a) = head Ub →
  areaChain
    (upd_area (CFitArea.set_Next (Some a))
       (lastOf UnfittedAreas (AreasPtr <$> Ua)) f)
    (Ua ++ a :: Ub).
Proof.
  intros Hc Hnd Hv Hn. unfold areaChain in *.
  rewrite fmap_app, fmap_cons. rewrite fmap_app in Hc.
  assert (NoDup (Ua ++ Ub) ∧ a ∉ Ua ++ Ub) as [Hnd' Ha].
  { apply NoDup_app in Hnd as (H1 & H2 & H3).
    apply NoDup_cons in H3 as [H3 H4]. split.
    - apply NoDup_app. repeat split; try done. intros x Hx Hx'.
      apply (H2 x Hx). by right.
    - intros [Hin|Hin]%elem_of_app; [|done]. apply (H2 a Hin). left. }
  pose proof (lastOf_area_valid f Ua Hv) as Hvp.
  eapply chain_restore; try done.
  - rewrite <- fmap_app. by apply NoDup_area_ptrs.
  - rewrite <- fmap_app. intros [?|Hin]%elem_of_cons; [done|].
    by apply (list_elem_of_fmap_inj AreasPtr) in Hin.
  - unfold areaNext. cbn. rewrite Hn. by destruct Ub.
  - rewrite areaNext_upd_area by done. by rewrite decide_True.
  - intros q Hq. rewrite areaNext_upd_area by done. by rewrite decide_False.
Qed.

Lemma areaChain_remove f Ua Ub a :
  areaChain f (Ua ++ a :: Ub) → NoDup (Ua ++ a :: Ub) →
  Forall (λ i, (i < length (CAreaFitter.Areas f))%nat) Ua →
  let f' :=
    upd_area (CFitArea.set_Next (CFitArea.Next (CAreaFitter.Areas f !!! a)))
      (lastOf UnfittedAreas (AreasPtr <$> Ua)) f in
  areaChain f' (Ua ++ Ub) ∧
  CFitArea.Next (CAreaFitter.Areas f' !!! a) = head Ub.
Proof.
  intros Hc Hnd Hv f'. unfold areaChain in *.
  rewrite fmap_app. rewrite fmap_app, fmap_cons in Hc.
  pose proof (lastOf_area_valid f Ua Hv) as Hvp.
  destruct (chain_remove (areaNext f) (areaNext f') UnfittedAreas
              (AreasPtr <$> Ua) (AreasPtr <$> Ub) (AreasPtr a)) as [H1 H2];
    try done.
  - rewrite <- fmap_cons, <- fmap_app. by apply NoDup_area_ptrs.
  - unfold f'. rewrite areaNext_upd_area by done. by rewrite decide_True.
  - intros q Hq. unfold f'. rewrite areaNext_upd_area by done.
    by rewrite decide_False.
  - split; [done|]. unfold areaNext in H2. cbn in H2.
    destruct (CFitArea.Next (CAreaFitter.Areas f' !!! a)), Ub; naive_solver.
Qed.

Lemma outChain_remove f La Lb h :
  outChain f (La ++ h :: Lb) → NoDup (OutAreas :: La ++ h :: Lb) →
  validOutPtr f (lastOf OutAreas La) →
  let f' :=
    upd_outArea (COutArea.set_Next (outNext f h)) (lastOf OutAreas La) f in
  outChain f' (La ++ Lb) ∧ outNext f' h = head Lb.
Proof.
  intros Hc Hnd Hv f'. unfold outChain in *.
  eapply chain_remove; try done.
  - unfold f'. rewrite outNext_upd_outArea by done. by rewrite decide_True.
  - intros q Hq. unfold f'. rewrite outNext_upd_outArea by done.
    by rewrite decide_False.
Qed.

Lemma outChain_restore f La Lb h :
  outChain f (La ++ Lb) → NoDup (OutAreas :: La ++ Lb) →
  h ∉ OutAreas :: La ++ Lb → outNext f h = head Lb →
  validOutPtr f (lastOf OutAreas La) →
  outChain (upd_outArea (COutArea.set_Next (Some h)) (lastOf OutAreas La) f)
    (La ++ h :: Lb).
Proof.
  intros Hc Hnd Hh Hn Hv. unfold outChain in *.
  eapply chain_restore; try done.
  - rewrite outNext_upd_outArea by done. by rewrite decide_True.
  - intros q Hq. rewrite outNext_upd_outArea by done. by rewrite decide_False.
Qed.

Lemma outChain_head f L : outChain f L → outNext f OutAreas = head L.
Proof. unfold outChain. destruct L; cbn; naive_solver. Qed.

Lemma lastOf_out_in (L1 L2 : list OutAreaPtr) :
  lastOf OutAreas L1 ∈ OutAreas :: L1 ++ L2.
Proof.
  pose proof (lastOf_elem OutAreas L1) as Hin.
  change (OutAreas :: L1 ++ L2) with ((OutAreas :: L1) ++ L2).
  apply elem_of_app. by left.
Qed.

(** ** Consequences of the geometry *)

Section GeoFacts.
Context (BW BH : Z) (f : CAreaFitter.t) (e : nat) (G : Ghost).
Context (HG : Geo BW BH f e G).

Lemma geo_NoDup_U : NoDup (gU G).
Proof. pose proof (geo_areas _ _ _ _ _ HG) as H. by apply NoDup_app in H as (? & _). Qed.

Lemma geo_U_valid :
  Forall (λ i, (i < length (CAreaFitter.Areas f))%nat) (gU G).
Proof.
  apply Forall_forall. intros i Hi. apply (geo_all _ _ _ _ _ HG).
  apply elem_of_app. by left.
Qed.

Lemma geo_U_not_placed i : i ∈ gU G → i ∉ placedBelow f e.
Proof.
  intros Hi. pose proof (geo_areas _ _ _ _ _ HG) as H.
  apply NoDup_app in H as (_ & H & _). by apply H.
Qed.

Lemma geo_NoDup_L : NoDup (OutAreas :: gL G).
Proof.
  pose proof (geo_cells _ _ _ _ _ HG) as H.
  change (OutAreas :: gL G ++ hostsBelow f e)
    with ((OutAreas :: gL G) ++ hostsBelow f e) in H.
  by apply NoDup_app in H as (? & _).
Qed.

Lemma geo_L_not_host p : p ∈ OutAreas :: gL G → p ∉ hostsBelow f e.
Proof.
  intros Hp. pose proof (geo_cells _ _ _ _ _ HG) as H.
  change (OutAreas :: gL G ++ hostsBelow f e)
    with ((OutAreas :: gL G) ++ hostsBelow f e) in H.
  apply NoDup_app in H as (_ & H & _). by apply H.
Qed.

Lemma geo_L_valid p : p ∈ gL G → validOutPtr f p ∧ ptrLevel e p.
Proof.
  intros Hp. pose proof (geo_ptrs _ _ _ _ _ HG) as H.
  rewrite Forall_forall in H. apply H. apply elem_of_app. by left.
Qed.

Lemma geo_host_level p : p ∈ hostsBelow f e → validOutPtr f p ∧ ptrLevel e p.
Proof.
  intros Hp. pose proof (geo_ptrs _ _ _ _ _ HG) as H.
  rewrite Forall_forall in H. apply H. apply elem_of_app. by right.
Qed.
End GeoFacts.

(** ** The blocks of [fitUnfittedAreas] *)

(** Observations of a state that is given as a sequence of updates. *)
Ltac obs_side :=
  first
    [ assumption
    | solve_scalarUpdate
    | solve_keepsArea
    | reflexivity
    | lia
    | rewrite ?validOutPtr_upd_outArea, ?validOutPtr_upd_area;
      rewrite ?validOutPtr_upd_s by solve_scalarUpdate;
      rewrite ?validOutPtr_upd_outArea, ?validOutPtr_upd_area;
      assumption
    | rewrite ?length_Stack_upd_s, ?length_Stack_upd_outArea,
        ?Stack_upd_area, ?length_Areas_upd_area, ?Areas_upd_outArea;
      first [assumption | lia] ].

Ltac obs :=
  repeat first
    [ rewrite item_upd_outArea
    | rewrite item_upd_area
    | rewrite item_upd_fd
    | rewrite item_set_outImage
    | rewrite item_upd_s_eq by obs_side
    | rewrite item_upd_s_ne by obs_side
    | rewrite outArea_upd_area
    | rewrite outArea_set_outImage
    | rewrite outArea_upd_s by obs_side
    | rewrite outNext_upd_area
    | rewrite outNext_upd_s by obs_side
    | rewrite area_upd_outArea
    | rewrite area_upd_s
    | rewrite areaNext_upd_s
    | rewrite areaNext_upd_outArea
    | rewrite Areas_upd_outArea
    | rewrite length_Stack_upd_s
    | rewrite length_Stack_upd_outArea
    | rewrite Stack_upd_area
    | rewrite length_Areas_upd_area
    | rewrite length_BaseOutAreas_upd_outArea
    | rewrite depth_upd_s
    | rewrite depth_upd_fd
    | rewrite depth_set_outImage
    | rewrite depth_set_Globals
    | rewrite depth_set_FitCallsLeft
    | rewrite item_set_Globals
    | rewrite item_set_FitCallsLeft
    | rewrite outArea_set_Globals
    | rewrite outArea_set_FitCallsLeft
    | rewrite outNext_set_outImage
    | rewrite outNext_upd_fd by reflexivity
    | rewrite outArea_upd_fd by reflexivity
    | rewrite areaNext_upd_fd
    | rewrite areaNext_set_outImage
    | rewrite depth_upd_outArea
    | rewrite depth_upd_area
    | rewrite Depth_upd_outArea
    | rewrite Depth_upd_area
    | rewrite fd_upd_area
    | rewrite images_upd_s
    | rewrite images_upd_outArea
    | rewrite images_upd_area
    | rewrite OutImages_upd_outArea
    | rewrite OutImageCount_upd_outArea
    | rewrite OutSize_upd_outArea
    | rewrite BestOutSize_upd_outArea
    | rewrite BestOutImageCount_upd_outArea
    | rewrite Globals_upd_outArea
    | rewrite Globals_upd_area
    | rewrite MaxOutImageWidth_upd_outArea
    | rewrite MaxOutImageHeight_upd_outArea
    | rewrite MaxOutImageSize_upd_outArea
    | rewrite MaxOutImageWidth_upd_area
    | rewrite MaxOutImageHeight_upd_area
    | rewrite MaxOutImageSize_upd_area
    | progress fcbn ].

(** The current item through [item]. *)
Lemma s_item f : frameScalars (s f) = item f (depth f).
Proof. reflexivity. Qed.

Ltac to_item :=
  repeat match goal with
    | |- context [?F (s ?f)] =>
        progress change (F (s f)) with (F (item f (depth f)))
    end.

Section Blocks.
Context (BW BH : Z).

Lemma View_upd_s f g U L imgs osz :
  scalarUpdate g → View f U L imgs osz → View (upd_s g f) U L imgs osz.
Proof.
  intros Hg [H1 H2 H3 H4 H5]. split; [exact H1| |exact H3|exact H4|exact H5].
  unfold outChain in *. eapply chain_ext; [|done]. intros q _.
  by apply outNext_upd_s.
Qed.

(** After the inner loop. *)
Lemma afterRegionLoop_kept f G D t O :
  Shape BW BH f → GlobalsOK BW BH f →
  depth f = D → (D < length (CAreaFitter.Stack f))%nat →
  Geo BW BH f D G →
  FrameArea f D G t →
  View f (tUa t ++ tUb t) (gL G) (gImgs G) (gOutSize G) →
  Kept BW BH D G f (afterRegionLoop f (Some (tA t)) O).
Proof.
  destruct t as [a Ua Ub h La Lb].
  intros HS HGl HD Hlen HG [Ha Hp Hsplit Hnext] [Hca Hco Him Hcnt Hsz].
  cbn [tA tUa tUb] in *.
  pose proof (geo_NoDup_U _ _ _ _ _ HG) as HndU.
  pose proof (geo_U_valid _ _ _ _ _ HG) as HvU.
  rewrite Hsplit in HndU, HvU.
  assert (Forall (λ i, (i < length (CAreaFitter.Areas f))%nat) Ua) as HvUa.
  { by apply Forall_app in HvU as [? _]. }
  assert (a ∉ Ua) as HaUa.
  { apply NoDup_app in HndU as (_ & H & _). intros Hin. apply (H a Hin). left. }
  unfold afterRegionLoop.
  change (CFitAreaStackItem.PrevArea (s f))
    with (CFitAreaStackItem.PrevArea (item f (depth f))).
  rewrite HD, Hp.
  set (p := lastOf UnfittedAreas (AreasPtr <$> Ua)).
  assert (validAreaPtr f p) as Hvp by (by apply lastOf_area_valid).
  assert (p ≠ AreasPtr a) as Hpa.
  { intros Heq. by apply lastOf_area_in in Heq. }
  set (f1 := upd_area (CFitArea.set_Next (Some a)) p f).
  assert (areaOf f1 (Some a) = CAreaFitter.Areas f !!! a) as Hao.
  { unfold areaOf, f1. cbn [default]. rewrite Areas_lookup_upd_area by done.
    by rewrite decide_False. }
  rewrite Hao, Hnext.
  assert (Stable D f f1) as Hst1.
  { apply Stable_upd_area; [done|solve_keepsArea|].
    intros i Hpi. apply (geo_U_not_placed _ _ _ _ _ HG). rewrite Hsplit.
    apply elem_of_app. left. by apply lastOf_area_in. }
  split.
  - fcbn. eapply Stable_trans; [exact Hst1|].
    apply Stable_upd_s; [solve_scalarUpdate | unfold f1; obs; lia | done].
  - fcbn. unfold f1. by obs.
  - fcbn. apply (GlobalsOK_stable BW BH D f1); [|reflexivity|].
    + apply Stable_upd_s; [solve_scalarUpdate | unfold f1; obs; lia | done].
    + apply (GlobalsOK_stable BW BH D f); [exact Hst1| |done].
      unfold f1. by obs.
  - unfold Top. fcbn. exists (Ua ++ [a]), Ub.
    rewrite <- app_assoc. cbn [app]. split; [done|].
    assert (depth f1 = D) as HD1 by (unfold f1; by obs).
    rewrite depth_upd_s, HD1.
    rewrite item_upd_s_eq;
      [|solve_scalarUpdate|done|unfold f1; by rewrite Stack_upd_area].
    fcbn. split; [|split; [done|by rewrite lastOf_area_snoc]].
    apply View_upd_s; [solve_scalarUpdate|]. rewrite Hsplit.
    split.
    + by apply areaChain_restore.
    + unfold outChain in *. eapply chain_ext; [|done]. intros q _.
      unfold f1. by obs.
    + unfold f1. by obs.
    + unfold f1. by obs.
    + unfold f1. by obs.
Qed.

Lemma Kept_trans f f1 D G cfg' :
  Stable D f f1 → CAreaFitter.Depth f1 = CAreaFitter.Depth f →
  Kept BW BH D G f1 cfg' → Kept BW BH D G f cfg'.
Proof.
  intros Hst HD [H1 H2 H3 H4]. split; try done.
  - by eapply Stable_trans.
  - congruence.
Qed.

Lemma FrameArea_keep f f' D G t :
  item f' D = item f D → CAreaFitter.Areas f' = CAreaFitter.Areas f →
  FrameArea f D G t → FrameArea f' D G t.
Proof. intros Hi Ha [fa_area fa_prev fa_split fa_next]. split; rewrite ?Hi, ?Ha; done. Qed.

Lemma FrameHost_keep f f' D G t :
  item f' D = item f D →
  (validOutPtr f' (tH t) ↔ validOutPtr f (tH t)) →
  outRect (outArea f' (tH t)) = outRect (outArea f (tH t)) →
  FrameHost BW BH f D G t → FrameHost BW BH f' D G t.
Proof.
  intros Hi Hv Hr [fh_prev fh_split fh_valid fh_level fh_region fh_fresh].
  destruct (outRect_fields _ _ Hr) as (Hr1 & Hr2 & Hr3 & Hr4 & Hr5).
  split; rewrite ?Hi; try done.
  - by apply Hv.
  - unfold regionOK. by rewrite Hr1, Hr2, Hr3, Hr4, Hr5.
  - by rewrite Hr1.
Qed.

Lemma take_app_one {A} (l : list A) (imgs : list A) x n :
  n = length imgs → take (S n) l = imgs ++ [x] → take n l = imgs.
Proof.
  intros -> H.
  replace (length imgs) with (min (length imgs) (S (length imgs))) at 1 by lia.
  rewrite <- take_take, H. by rewrite take_app_length.
Qed.

Lemma Shape_depth_int f D :
  Shape BW BH f → (D <= length (CAreaFitter.Areas f))%nat →
  ∀ n : nat, (n <= length (CFitData.BaseOutAreas (CAreaFitter.fd f)) + D)%nat →
  is_int (Z.of_nat n).
Proof.
  intros HS HD n Hn. pose proof (sh_count _ _ _ HS).
  unfold is_int, INT_MIN, INT_MAX in *. lia.
Qed.

(** The end of an inner loop pass. *)
Lemma regionTail_kept f G D t :
  Shape BW BH f → GlobalsOK BW BH f →
  depth f = D → (D < length (CAreaFitter.Stack f))%nat →
  Geo BW BH f D G →
  FrameArea f D G t → FrameHost BW BH f D G t →
  View f (tUa t ++ tUb t) (tLa t ++ tH t :: tLb t)
    (imagesWith (CFitAreaStackItem.WasOutImageAdded (item f D)) G)
    (gOutSize G) →
  Kept BW BH D G f (regionTail f (Some (tA t)) (Some (tH t))).
Proof.
  destruct t as [a Ua Ub h La Lb].
  intros HS HGl HD Hlen HG HFA HFH [Hca Hco Him Hcnt Hsz].
  pose proof HFH as [Hprev Hsplit Hvh Hlev Hreg Hfresh].
  cbn [tA tUa tUb tH tLa tLb] in *.
  pose proof (geo_NoDup_L _ _ _ _ _ HG) as HndL.
  unfold regionTail. to_item. rewrite HD.
  destruct (CFitAreaStackItem.WasOutImageAdded (item f D)) eqn:Hwas.
  - (* the added output image is taken back *)
    destruct Hsplit as [-> HL]. rewrite Hprev.
    change (COutArea.Next (outAreaOf f (Some (NewPtr D 2))))
      with (outNext f (NewPtr D 2)).
    assert (NewPtr D 2 ∉ OutAreas :: gL G) as Hfr.
    { intros [?|Hin]%elem_of_cons; [done|].
      apply (geo_L_valid _ _ _ _ _ HG) in Hin as [_ Hl]. cbn in Hl. lia. }
    assert (validOutPtr f (lastOf OutAreas La)) as Hvp.
    { pose proof (lastOf_out_in La Lb) as Hin. rewrite <- HL in Hin.
      apply elem_of_cons in Hin as [->|Hin].
      - cbn. by destruct HS.
      - by apply (geo_L_valid _ _ _ _ _ HG). }
    assert (NoDup (OutAreas :: La ++ NewPtr D 2 :: Lb)) as Hnd.
    { rewrite HL in HndL, Hfr. by apply NoDup_middle. }
    destruct (outChain_remove f La Lb (NewPtr D 2) Hco Hnd Hvp) as [Hc1 Hn1].
    set (f1 := upd_outArea (COutArea.set_Next (outNext f (NewPtr D 2)))
                 (lastOf OutAreas La) f) in *.
    set (f2 := upd_fd _ f1).
    assert (Stable D f f1) as Hst1.
    { apply Stable_upd_outArea_Next; [done|].
      apply (geo_L_not_host _ _ _ _ _ HG). rewrite HL. apply lastOf_out_in. }
    assert (Stable D f1 f2) as Hst2 by (by apply Stable_upd_fd).
    pose proof (Stable_trans _ _ _ _ Hst1 Hst2) as Hst.
    apply (Kept_trans f f2); [done | unfold f2, f1; by obs |].
    unfold imagesWith in Him, Hcnt. rewrite length_app in Hcnt.
    cbn [length] in Hcnt.
    pose proof (geo_count _ _ _ _ _ HG) as Hgc.
    pose proof (sh_stack _ _ _ HS) as Hss.
    apply (afterRegionLoop_kept f2 G D (mkTrial a Ua Ub (NewPtr D 2) La Lb)).
    + by eapply Shape_stable.
    + eapply GlobalsOK_stable; [exact Hst| |done]. unfold f2, f1. by obs.
    + unfold f2, f1. by obs.
    + unfold f2, f1. obs. done.
    + by eapply Geo_stable.
    + eapply FrameArea_keep; [| |exact HFA]; unfold f2, f1; by obs.
    + cbn [tUa tUb]. split.
      * unfold areaChain in *. eapply chain_ext; [|exact Hca]. intros q _.
        unfold f2, f1. by obs.
      * rewrite HL. unfold outChain in *. eapply chain_ext; [|exact Hc1].
        intros q _. unfold f2. by obs.
      * unfold images, f2, f1. obs. rewrite Hcnt.
        rewrite sub32_id.
        -- replace (Z.to_nat (Z.of_nat (length (gImgs G) + 1) - 1))
             with (length (gImgs G)) by lia.
           eapply take_app_one; [done|].
           unfold images in Him. rewrite Hcnt in Him.
           replace (S (length (gImgs G)))
             with (Z.to_nat (Z.of_nat (length (gImgs G) + 1))) by lia. done.
        -- pose proof (sh_count _ _ _ HS).
           unfold is_int, INT_MIN, INT_MAX in *. lia.
      * unfold f2, f1. obs. rewrite Hcnt. rewrite sub32_id; [lia|].
        pose proof (sh_count _ _ _ HS).
        unfold is_int, INT_MIN, INT_MAX in *. lia.
      * unfold f2, f1. by obs.
  - (* an output area of the chain *)
    unfold imagesWith in Him, Hcnt.
    destruct (worseThanBest f).
    + apply (afterRegionLoop_kept f G D (mkTrial a Ua Ub h La Lb));
        try done.
      cbn [tUa tUb]. rewrite Hsplit. by split.
    + split.
      * fcbn. apply Stable_upd_s; [solve_scalarUpdate | lia | done].
      * done.
      * fcbn. apply (GlobalsOK_stable BW BH D f); [|reflexivity|exact HGl].
        apply (Stable_upd_s D); [solve_scalarUpdate | lia | done].
      * unfold Top. fcbn. rewrite depth_upd_s, HD.
        exists a, Ua, Ub, (La ++ [h]), Lb.
        rewrite <- app_assoc. cbn [app].
        rewrite item_upd_s_eq by obs_side. fcbn.
        split; [done|]. split.
        { destruct HFA as [Ha Hp Hs Hn]. cbn [tA tUa tUb] in *.
          split; cbn [tA tUa tUb]; obs; done. }
        split.
        { apply View_upd_s; [solve_scalarUpdate|]. rewrite Hsplit.
          by split. }
        split; [done|]. split.
        { unfold outAreaOf. cbn [default id].
          rewrite outArea_upd_s by solve_scalarUpdate.
          change (COutArea.Next (outArea f h)) with (outNext f h).
          rewrite <- (lastOf_snoc OutAreas La h).
          apply (chain_app_next (outNext f) OutAreas (La ++ [h]) Lb).
          rewrite <- app_assoc. exact Hco. }
        by rewrite lastOf_snoc.
Qed.

Lemma images_set_outImage i v f :
  images (set_outImage i v f) = <[Z.to_nat i := v]> (images f).
Proof.
  unfold images, set_outImage. fcbn.
  destruct (decide (Z.to_nat i
                    < Z.to_nat (CFitData.OutImageCount (CAreaFitter.fd f)))%nat).
  - by rewrite take_insert_lt.
  - rewrite take_insert_ge by lia. rewrite list_insert_ge; [done|].
    rewrite length_take. lia.
Qed.

Lemma images_set_OutSize v f :
  images (upd_fd (CFitData.set_OutSize v) f) = images f.
Proof. reflexivity. Qed.

(** The output image is put back as it was before the area was placed. *)
Lemma restoreOutImage_kept f G D t :
  Shape BW BH f → GlobalsOK BW BH f →
  depth f = D → (D < length (CAreaFitter.Stack f))%nat →
  Geo BW BH f D G →
  FrameArea f D G t → FrameHost BW BH f D G t →
  areaChain f (tUa t ++ tUb t) → outChain f (tLa t ++ tH t :: tLb t) →
  CFitData.OutImageCount (CAreaFitter.fd f)
  = Z.of_nat (length (imagesWith
                        (CFitAreaStackItem.WasOutImageAdded (item f D)) G)) →
  Grown (item f D) (Z.to_nat (COutArea.OutImage (outArea f (tH t))))
    (imagesWith (CFitAreaStackItem.WasOutImageAdded (item f D)) G)
    (gOutSize G) (images f) (CFitData.OutSize (CAreaFitter.fd f)) →
  Kept BW BH D G f (restoreOutImage f (Some (tA t)) (Some (tH t))).
Proof.
  intros HS HGl HD Hlen HG HFA HFH Hca Hco Hcnt Hgr.
  unfold restoreOutImage, Grown in *. to_item. rewrite HD.
  destruct (CFitAreaStackItem.DoOutImageRestore (item f D)).
  - destruct Hgr as (Him & Hsave & Hsz).
    unfold outAreaOf. cbn [default id].
    set (j := COutArea.OutImage (outArea f (tH t))) in *.
    set (f1 := set_outImage j (CFitAreaStackItem.OutImageSave (item f D)) f).
    set (f2 := upd_fd (CFitData.set_OutSize
                         (CFitAreaStackItem.OutSizeSave (item f D))) f1).
    assert (Stable D f f2) as Hst.
    { eapply Stable_trans; [apply Stable_set_outImage|].
      by apply Stable_upd_fd. }
    apply (Kept_trans f f2); [done|reflexivity|].
    apply regionTail_kept.
    + by eapply Shape_stable.
    + by apply (GlobalsOK_stable BW BH D f).
    + done.
    + done.
    + by eapply Geo_stable.
    + by eapply FrameArea_keep; [| |exact HFA].
    + by eapply FrameHost_keep; [| | |exact HFH].
    + change (item f2 D) with (item f D).
      split.
      * done.
      * done.
      * unfold f2. rewrite images_set_OutSize. unfold f1.
        rewrite images_set_outImage, Him, list_insert_insert_eq.
        apply list_insert_id. rewrite Hsave.
        apply list_lookup_lookup_total_lt.
        destruct (fh_region _ _ _ _ _ _ HFH) as (_ & _ & _ & _ & _ & _ & Hj).
        fold j in Hj. lia.
      * done.
      * fcbn. done.
  - destruct Hgr as [Him Hsz]. by apply regionTail_kept.
Qed.
End Blocks.

(** ** Taking the new output areas out again *)

Lemma fixedPart_upd_s g f : fixedPart (upd_s g f) = fixedPart f.
Proof. reflexivity. Qed.

Lemma fixedPart_upd_outArea g p f : fixedPart (upd_outArea g p f) = fixedPart f.
Proof. by destruct p. Qed.

Lemma fixedPart_Fixed f f' : fixedPart f' = fixedPart f → Fixed f f'.
Proof.
  unfold fixedPart, CFitData.set_BaseOutAreas. intros H.
  injection H as H1 H2 H3 H4 H5 H6 H7 H8 H9 H10 H11 H12 H13.
  split; try done.
  - unfold depth. by rewrite H5.
  - unfold images. by rewrite H9, H10.
  - intros [|i]; cbn; congruence.
  - intros [|i]; unfold areaNext; cbn; congruence.
Qed.

Lemma set_c_same it :
  CFitAreaStackItem.set_c (CFitAreaStackItem.c it) it = it.
Proof. by destruct it. Qed.

Lemma removeNewOutAreas_spec e n :
  ∀ f L0 L',
  depth f = e → (e < length (CAreaFitter.Stack f))%nat →
  CFitAreaStackItem.c (item f e) = n →
  Inserted f e n L0 L' → outChain f L' →
  NoDup (OutAreas :: L') →
  (∀ p, p ∈ OutAreas :: L' → validOutPtr f p ∧ p ∉ hostsBelow f e) →
  let f' := removeNewOutAreas n f in
  outChain f' L0 ∧ Stable e f f' ∧ fixedPart f' = fixedPart f ∧
  item f' e = CFitAreaStackItem.set_c 0 (item f e) ∧
  (∀ p, outRect (outArea f' p) = outRect (outArea f p)) ∧
  (∀ p, p ∉ OutAreas :: L' → outNext f' p = outNext f p).
Proof.
  induction n as [|m IH]; intros f L0 L' HD Hlen Hc Hins Hco Hnd Hok.
  - cbn [removeNewOutAreas Inserted] in *. subst L'.
    split; [done|]. split; [apply Stable_refl|]. split; [done|].
    split; [by rewrite <- Hc, set_c_same | done].
  - cbn [removeNewOutAreas Inserted] in *.
    destruct Hins as (Lm & A & B & k & Hins & -> & -> & Hk & HP).
    to_item. rewrite depth_upd_s, HD.
    rewrite item_upd_s_eq by obs_side. fcbn. rewrite HP.
    rewrite outArea_upd_s by solve_scalarUpdate.
    pose proof (chain_app_next _ _ _ _ Hco) as Hnext. cbn [head] in Hnext.
    change (COutArea.Next (outArea f (lastOf OutAreas A)))
      with (outNext f (lastOf OutAreas A)).
    rewrite Hnext. unfold outAreaOf. cbn [default from_option id].
    rewrite outArea_upd_s by solve_scalarUpdate.
    change (COutArea.Next (outArea f (NewPtr e k)))
      with (outNext f (NewPtr e k)).
    set (f1 := upd_s (CFitAreaStackItem.set_c m) f).
    assert (outNext f (NewPtr e k) = outNext f1 (NewPtr e k)) as ->.
    { unfold f1. by rewrite outNext_upd_s by solve_scalarUpdate. }
    assert (outChain f1 (A ++ NewPtr e k :: B)) as Hco1.
    { unfold outChain in *. eapply chain_ext; [|exact Hco]. intros q _.
      unfold f1. by rewrite outNext_upd_s by solve_scalarUpdate. }
    assert (lastOf OutAreas A ∈ OutAreas :: A ++ NewPtr e k :: B) as HinP
      by apply lastOf_out_in.
    destruct (Hok _ HinP) as [HvP HhP].
    assert (validOutPtr f1 (lastOf OutAreas A)) as HvP1.
    { unfold f1. by rewrite validOutPtr_upd_s by solve_scalarUpdate. }
    destruct (outChain_remove f1 A B (NewPtr e k) Hco1 Hnd HvP1) as [Hc2 Hn2].
    set (f2 := upd_outArea _ (lastOf OutAreas A) f1) in *.
    assert (Stable e f f1) as Hst1.
    { apply Stable_upd_s; [solve_scalarUpdate | lia | done]. }
    assert (Stable e f1 f2) as Hst2.
    { apply Stable_upd_outArea_Next; [done|].
      by rewrite (hostsBelow_ext f f1 e (st_item _ _ _ Hst1)). }
    pose proof (Stable_trans _ _ _ _ Hst1 Hst2) as Hst.
    assert (item f2 e = CFitAreaStackItem.set_c m (item f e)) as Hi2.
    { unfold f2, f1. by obs. }
    apply NoDup_middle in Hnd as [Hnd Hnew].
    destruct (IH f2 L0 (A ++ B)) as (R1 & R2 & R3 & R4 & R5 & R6).
    + unfold f2, f1. by obs.
    + unfold f2, f1. by obs.
    + by rewrite Hi2.
    + eapply Inserted_ext; [|exact Hins]. by rewrite Hi2.
    + done.
    + done.
    + intros p Hp. split.
      * apply (st_valid _ _ _ Hst). apply Hok. set_solver.
      * rewrite (hostsBelow_ext f f2 e (st_item _ _ _ Hst)). apply Hok.
        set_solver.
    + split; [|split; [|split; [|split; [|split]]]].
      * done.
      * by eapply Stable_trans.
      * rewrite R3. unfold f2, f1.
        by rewrite fixedPart_upd_outArea, fixedPart_upd_s.
      * by rewrite R4, Hi2.
      * intros p. rewrite R5. unfold f2, f1.
        rewrite outRect_upd_Next by exact HvP1. by obs.
      * intros p Hp. rewrite R6 by set_solver. unfold f2.
        rewrite outNext_upd_outArea by exact HvP1.
        rewrite decide_False by (intros ->; set_solver).
        unfold f1. by obs.
Qed.

Section Unwind.
Context (BW BH : Z).

(** The host cell and its place in the chain of the item. *)
Lemma host_fresh f G D t :
  Shape BW BH f → Geo BW BH f D G → FrameHost BW BH f D G t →
  NoDup (OutAreas :: tLa t ++ tLb t) ∧
  (tH t ∉ OutAreas :: tLa t ++ tLb t) ∧
  validOutPtr f (lastOf OutAreas (tLa t)) ∧
  lastOf OutAreas (tLa t) ∉ hostsBelow f D.
Proof.
  intros HS HG [Hprev Hsplit Hvh Hlev Hreg Hfresh].
  pose proof (geo_NoDup_L _ _ _ _ _ HG) as HndL.
  assert (lastOf OutAreas (tLa t) ∈ OutAreas :: gL G) as Hin.
  { destruct (CFitAreaStackItem.WasOutImageAdded (item f D)).
    - destruct Hsplit as [_ ->]. apply lastOf_out_in.
    - rewrite Hsplit. apply lastOf_out_in. }
  assert (validOutPtr f (lastOf OutAreas (tLa t))) as Hv.
  { apply elem_of_cons in Hin as [->|Hin].
    - cbn. by destruct HS.
    - by apply (geo_L_valid _ _ _ _ _ HG). }
  pose proof (geo_L_not_host _ _ _ _ _ HG _ Hin) as Hnh.
  destruct (CFitAreaStackItem.WasOutImageAdded (item f D)).
  - destruct Hsplit as [Hh HL]. rewrite <- HL. repeat split; try done.
    rewrite Hh. intros [?|Hi]%elem_of_cons; [done|].
    apply (geo_L_valid _ _ _ _ _ HG) in Hi as [_ Hl]. cbn in Hl. lia.
  - rewrite Hsplit in HndL. apply NoDup_middle in HndL as [? ?].
    by repeat split.
Qed.

(** [s -> PrevOutArea -> Next = OutArea]: the host is in the chain
    again. *)
Lemma restoreOutArea_kept f G D t :
  Shape BW BH f → GlobalsOK BW BH f →
  depth f = D → (D < length (CAreaFitter.Stack f))%nat →
  Geo BW BH f D G →
  FrameArea f D G t → FrameHost BW BH f D G t →
  areaChain f (tUa t ++ tUb t) → outChain f (tLa t ++ tLb t) →
  outNext f (tH t) = head (tLb t) →
  CFitData.OutImageCount (CAreaFitter.fd f)
  = Z.of_nat (length (imagesWith
                        (CFitAreaStackItem.WasOutImageAdded (item f D)) G)) →
  Grown (item f D) (Z.to_nat (COutArea.OutImage (outArea f (tH t))))
    (imagesWith (CFitAreaStackItem.WasOutImageAdded (item f D)) G)
    (gOutSize G) (images f) (CFitData.OutSize (CAreaFitter.fd f)) →
  Kept BW BH D G f (restoreOutArea f (Some (tA t)) (Some (tH t))).
Proof.
  intros HS HGl HD Hlen HG HFA HFH Hca Hco Hnext Hcnt Hgr.
  destruct (host_fresh _ _ _ _ HS HG HFH) as (Hnd & Hh & Hv & Hnh).
  unfold restoreOutArea. to_item. rewrite HD, (fh_prev _ _ _ _ _ _ HFH).
  set (f1 := upd_outArea (COutArea.set_Next (Some (tH t)))
               (lastOf OutAreas (tLa t)) f).
  assert (Stable D f f1) as Hst by (by apply Stable_upd_outArea_Next).
  apply (Kept_trans _ _ f f1); [done | unfold f1; by obs |].
  assert (outRect (outArea f1 (tH t)) = outRect (outArea f (tH t))) as Hr.
  { unfold f1. by rewrite outRect_upd_Next. }
  assert (item f1 D = item f D) as Hi by (unfold f1; by obs).
  apply restoreOutImage_kept.
  - by eapply Shape_stable.
  - apply (GlobalsOK_stable BW BH D f); [done| |done]. unfold f1. by obs.
  - unfold f1. by obs.
  - unfold f1. by obs.
  - by eapply Geo_stable.
  - eapply FrameArea_keep; [exact Hi| |done]. unfold f1. by obs.
  - eapply FrameHost_keep; [exact Hi| |exact Hr|done].
    apply (st_valid _ _ _ Hst).
  - unfold areaChain in *. eapply chain_ext; [|exact Hca]. intros q _.
    unfold f1. by obs.
  - by apply outChain_restore.
  - rewrite Hi. unfold f1. by obs.
  - rewrite Hi. destruct (outRect_fields _ _ Hr) as (-> & _).
    unfold f1. by obs.
Qed.

Lemma Grown_length it j imgs osz imgs' osz' :
  Grown it j imgs osz imgs' osz' → length imgs' = length imgs.
Proof.
  unfold Grown. destruct (CFitAreaStackItem.DoOutImageRestore it).
  - intros (-> & _). by rewrite length_insert.
  - by intros [-> _].
Qed.

Lemma Unwound_kept f f1 G Gc D t :
  Shape BW BH f → GlobalsOK BW BH f →
  depth f = D → (D < length (CAreaFitter.Stack f))%nat →
  Geo BW BH f D G → Susp BW BH f D G Gc t →
  View f (gU Gc) (gL Gc) (gImgs Gc) (gOutSize Gc) →
  Unwound D t f f1 →
  Kept BW BH D G f (restoreOutArea f1 (Some (tA t)) (Some (tH t))).
Proof.
  intros HS HGl HD Hlen HG HSu [Hca Hco Him Hcnt Hsz] [Hst Hfx Hi Hr Hc Hn].
  apply fixedPart_Fixed in Hfx. destruct Hfx as
    [fx_Areas fx_Globals fx_FitCallsLeft fx_Depth fx_depth fx_MaxOutImageSize fx_OutImages fx_OutImageCount fx_OutSize fx_BestOutSize fx_BestOutImageCount fx_images fx_area fx_areaNext].
  destruct HSu as [HFA HFH Hout Hnext HU Hins Hc2 Hgr Hpl Hfit Hrem Hroom].
  apply (Kept_trans _ _ f f1); [done|done|].
  assert (FrameHost BW BH f1 D G t) as HFH1.
  { destruct HFH as
    [fh_prev fh_split fh_valid fh_level fh_region fh_fresh].
  split; rewrite ?Hi; fcbn; try done.
    - by apply (st_valid _ _ _ Hst).
    - destruct (outRect_fields _ _ (Hr (tH t))) as (H1 & H2 & H3 & H4 & H5).
      unfold regionOK. by rewrite H1, H2, H3, H4, H5.
    - destruct (outRect_fields _ _ (Hr (tH t))) as (-> & _). done. }
  apply restoreOutArea_kept; try done.
  - by eapply Shape_stable.
  - by apply (GlobalsOK_stable BW BH D f).
  - congruence.
  - by rewrite (st_stack _ _ _ Hst).
  - by eapply Geo_stable.
  - destruct HFA as
    [fa_area fa_prev fa_split fa_next].
  split; rewrite ?Hi, ?fx_Areas; fcbn; done.
  - unfold areaChain in *. rewrite <- HU. eapply chain_ext; [|exact Hca].
    intros q _. apply fx_areaNext.
  - rewrite Hi. fcbn. rewrite fx_OutImageCount, Hcnt.
    by rewrite (Grown_length _ _ _ _ _ _ Hgr).
  - destruct (outRect_fields _ _ (Hr (tH t))) as (-> & _).
    rewrite fx_images, fx_OutSize, Him, Hsz, Hi.
    unfold Grown in *. fcbn. done.
Qed.

Lemma removeNewOutAreas_unwound f G Gc D t :
  Shape BW BH f →
  depth f = D → (D < length (CAreaFitter.Stack f))%nat →
  Susp BW BH f D G Gc t → Geo BW BH f (S D) Gc →
  outChain f (gL Gc) →
  Unwound D t f (removeNewOutAreas (CFitAreaStackItem.c (s f)) f).
Proof.
  intros HS HD Hlen HSu HGc Hco.
  destruct HSu as [HFA HFH Hout Hnext HU Hins Hc2 Hgr Hpl Hfit Hrem Hroom].
  to_item. rewrite HD.
  assert (tH t ∈ hostsBelow f (S D)) as Hh.
  { pose proof (elem_of_hostsBelow f (S D) D) as Hin. rewrite Hout in Hin.
    apply Hin. lia. }
  destruct (removeNewOutAreas_spec D _ f _ _ HD Hlen eq_refl Hins Hco)
    as (R1 & R2 & R3 & R4 & R5 & R6).
  - by apply (geo_NoDup_L _ _ _ _ _ HGc).
  - intros p Hp. split.
    + apply elem_of_cons in Hp as [->|Hp].
      * cbn. by destruct HS.
      * by apply (geo_L_valid _ _ _ _ _ HGc).
    + intros Hin. apply (geo_L_not_host _ _ _ _ _ HGc _ Hp).
      eapply hostsBelow_mono; [|done]. lia.
  - split; try done. rewrite R6; [done|].
    intros Hin. by apply (geo_L_not_host _ _ _ _ _ HGc _ Hin).
Qed.

(** From the label [CodeLoc3]. *)
Lemma atCodeLoc3_kept f G Gc D t cfg' :
  Shape BW BH f → GlobalsOK BW BH f →
  depth f = D → (D < length (CAreaFitter.Stack f))%nat →
  Geo BW BH f D G → Susp BW BH f D G Gc t → Geo BW BH f (S D) Gc →
  View f (gU Gc) (gL Gc) (gImgs Gc) (gOutSize Gc) →
  atCodeLoc3 f (Some (tA t)) (Some (tH t)) = Some cfg' →
  Kept BW BH D G f cfg'.
Proof.
  intros HS HGl HD Hlen HG HSu HGc HV. unfold atCodeLoc3. intros [= <-].
  eapply Unwound_kept; try done.
  eapply removeNewOutAreas_unwound; try done. by destruct HV.
Qed.
End Unwind.

(** ** From the outcome of a block to the invariant *)

Section Outcome.
Context (BW BH : Z).

Lemma Kept_Inv cfg' f Gs G :
  Shape BW BH f →
  CAreaFitter.Depth f = Z.of_nat (length Gs) →
  (length Gs < length (CAreaFitter.Stack f))%nat →
  Below BW BH f Gs G → Geo BW BH f (length Gs) G →
  Kept BW BH (length Gs) G f cfg' → Inv BW BH cfg'.
Proof.
  intros HS HD Hlen HB HG [Hst Hd Hgl Htop].
  split; [by eapply Shape_stable|]. split; [done|]. right.
  exists Gs, G. split; [congruence|]. split.
  { by rewrite (st_stack _ _ _ Hst). }
  split; [by eapply Below_stable|]. split; [|done].
  by eapply Geo_stable.
Qed.

Lemma Pushed_Inv cfg' f Gs G :
  Shape BW BH f →
  CAreaFitter.Depth f = Z.of_nat (length Gs) →
  (length Gs < length (CAreaFitter.Stack f))%nat →
  Below BW BH f Gs G → Geo BW BH f (length Gs) G →
  Pushed BW BH (length Gs) G f cfg' → Inv BW BH cfg'.
Proof.
  intros HS HD Hlen HB HG [G' t Hst Hd Hroom Hgl Hsu Hgeo Htop].
  split; [by eapply Shape_stable|]. split; [done|]. right.
  exists (G :: Gs), G'. cbn [length Below]. split; [lia|]. split.
  { by rewrite (st_stack _ _ _ Hst). }
  split; [|by split].
  split; [by exists t|]. split; [by eapply Geo_stable|].
  by eapply Below_stable.
Qed.

(** ** The head of the outer loop *)

Lemma GlobalsOK_budget f v w :
  GlobalsOK BW BH f →
  GlobalsOK BW BH
    (CAreaFitter.set_Globals
       (CGlobals.set_FitCallsLeft v (CAreaFitter.Globals f))
       (CAreaFitter.set_FitCallsLeft w f)).
Proof.
  unfold GlobalsOK. fcbn. intros H Hne. destruct (H Hne). by split.
Qed.

Lemma GlobalsOK_set_Best f v w :
  GlobalsOK BW BH f → GlobalsOK BW BH (upd_fd (CFitData.set_Best v w) f).
Proof.
  unfold GlobalsOK. fcbn. intros H Hne. destruct (H Hne). by split.
Qed.

(** The area is taken out of the unfitted chain. *)
Lemma startArea_kept f G D Ua a Ub :
  Shape BW BH f → GlobalsOK BW BH f →
  depth f = D → (D < length (CAreaFitter.Stack f))%nat →
  Geo BW BH f D G →
  gU G = Ua ++ a :: Ub →
  View f (gU G) (gL G) (gImgs G) (gOutSize G) →
  CFitAreaStackItem.Area (item f D) = Some a →
  CFitAreaStackItem.PrevArea (item f D)
  = lastOf UnfittedAreas (AreasPtr <$> Ua) →
  Kept BW BH D G f (startArea f).
Proof.
  intros HS HGl HD Hlen HG Hsplit [Hca Hco Him Hcnt Hsz] Harea Hprev.
  pose proof (geo_NoDup_U _ _ _ _ _ HG) as HndU.
  pose proof (geo_U_valid _ _ _ _ _ HG) as HvU.
  rewrite Hsplit in HndU, HvU, Hca.
  assert (Forall (λ i, (i < length (CAreaFitter.Areas f))%nat) Ua) as HvUa.
  { by apply Forall_app in HvU as [? _]. }
  unfold startArea.
  set (f1 := CAreaFitter.set_FitCallsLeft _ f).
  change (CFitAreaStackItem.Area (s f1))
    with (CFitAreaStackItem.Area (item f (depth f))).
  change (CFitAreaStackItem.PrevArea (s f1))
    with (CFitAreaStackItem.PrevArea (item f (depth f))).
  rewrite HD, Harea, Hprev. unfold areaOf. cbn [default from_option id].
  change (CAreaFitter.Areas f1) with (CAreaFitter.Areas f).
  destruct (areaChain_remove f1 Ua Ub a Hca HndU HvUa) as [Hca2 Hn2].
  change (CAreaFitter.Areas f1) with (CAreaFitter.Areas f) in Hca2, Hn2.
  set (p := lastOf UnfittedAreas (AreasPtr <$> Ua)) in *.
  set (f2 := upd_area _ p f1) in *.
  assert (validAreaPtr f p) as Hvp by (by apply lastOf_area_valid).
  assert (Stable D f f2) as Hst.
  { eapply Stable_trans; [apply (Stable_set_FitCallsLeft D f)|].
    apply Stable_upd_area; [done|solve_keepsArea|].
    intros i Hpi. apply (geo_U_not_placed _ _ _ _ _ HG). rewrite Hsplit.
    apply elem_of_app. left. by apply lastOf_area_in. }
  assert (depth f2 = D) as HD2 by (unfold f2; by obs).
  assert (D < length (CAreaFitter.Stack f2))%nat as Hlen2.
  { by rewrite (st_stack _ _ _ Hst). }
  assert (outNext f2 OutAreas = head (gL G)) as Hhead.
  { unfold f2. rewrite outNext_upd_area. by apply outChain_head. }
  split.
  - fcbn. eapply Stable_trans; [exact Hst|].
    apply Stable_upd_s; [solve_scalarUpdate | lia | done].
  - fcbn. unfold f2. by obs.
  - fcbn. apply (GlobalsOK_stable BW BH D f2); [|reflexivity|].
    + apply Stable_upd_s; [solve_scalarUpdate | lia | done].
    + apply (GlobalsOK_stable BW BH D f); [exact Hst| |done].
      unfold f2. by obs.
  - unfold Top. fcbn. rewrite depth_upd_s, HD2.
    exists a, Ua, Ub, [], (gL G).
    rewrite item_upd_s_eq by obs_side. fcbn.
    assert (item f2 D = item f D) as Hi2 by (unfold f2; by obs).
    split; [done|]. split.
    { split; cbn [tA tUa tUb]; rewrite ?item_upd_s_eq by obs_side; fcbn;
        rewrite ?Hi2; try done. }
    split.
    { apply View_upd_s; [solve_scalarUpdate|]. split.
      - done.
      - unfold outChain in *. eapply chain_ext; [|exact Hco]. intros q _.
        unfold f2. by obs.
      - unfold f2. by obs.
      - unfold f2. by obs.
      - unfold f2. by obs. }
    split; [done|]. split; [|done].
    change (COutArea.Next (outArea f2 OutAreas)) with (outNext f2 OutAreas).
    done.
Qed.

(** After the outer loop. *)
Lemma leaveFrame_Inv f A O :
  Inv BW BH (Config.mk f A O AtCodeLoc1) → Inv BW BH (leaveFrame f A O).
Proof.
  intros (HS & HGl & [Hloc|(Gs & G & HD & Hlen & HB & HG & Htop)]);
    [discriminate Hloc|].
  cbn [Config.fitter] in *. unfold leaveFrame.
  destruct (0 <? CAreaFitter.Depth f) eqn:E.
  - destruct Gs as [|G1 Gs]; [cbn in HD; lia|].
    cbn [length Below] in *.
    destruct HB as ((t & HSu) & HG1 & HB).
    destruct Htop as (Ua & Ub & Hsplit & HV & _).
    set (f1 := CAreaFitter.set_Depth _ f).
    assert (depth f1 = length Gs) as HD1.
    { unfold depth, f1. fcbn. lia. }
    assert (∀ e, Stable e f f1) as Hst
      by (intros e; apply Stable_set_Depth).
    to_item. rewrite HD1.
    apply (Susp_stable BW BH (S (length Gs)) _ f f1) in HSu;
      [|done|lia].
    rewrite (fa_area _ _ _ _ (su_area _ _ _ _ _ _ _ HSu)).
    rewrite (su_out _ _ _ _ _ _ _ HSu).
    split; [by apply (Shape_stable BW BH 0 f)|]. split.
    { by apply (GlobalsOK_stable BW BH 0 f). }
    right. exists Gs, G1. cbn [Config.fitter].
    split; [unfold f1; fcbn; lia|]. split.
    { rewrite (st_stack _ _ _ (Hst 0%nat)). lia. }
    split; [by eapply Below_stable|].
    split; [by apply (Geo_stable BW BH (length Gs) _ f)|].
    assert (Top BW BH
              (Config.mk f1 (Some (tA t)) (Some (tH t)) AtCodeLoc2) G1)
      as HT.
    { unfold Top. cbn [Config.fitter Config.loc]. rewrite HD1.
      exists G, t. split; [done|]. split.
      { by apply (Geo_stable BW BH (S (length Gs)) _ f). }
      split; [|done]. destruct HV. by split. }
    by destruct (_ =? 2).
  - destruct (0 <? CAreaFitter.FitCallsLeft f).
    + split; [|split; [|by left]].
      * apply (Shape_stable BW BH 0 f); [|done].
        eapply (Stable_trans 0); [apply Stable_set_Globals|].
        apply Stable_set_FitCallsLeft.
      * by apply GlobalsOK_budget.
    + split; [done|]. split; [done|by left].
Qed.

(** A change of the counters and bounds leaves the invariant at the head
    of the outer loop as it is. *)
Lemma Inv_neutral f f' A O :
  CAreaFitter.Stack f' = CAreaFitter.Stack f →
  fixedPart (CAreaFitter.set_Globals (CAreaFitter.Globals f)
               (CAreaFitter.set_FitCallsLeft (CAreaFitter.FitCallsLeft f)
                  (upd_fd (CFitData.set_Best
                             (CFitData.BestOutSize (CAreaFitter.fd f))
                             (CFitData.BestOutImageCount (CAreaFitter.fd f)))
                     f')))
  = fixedPart f →
  CFitData.BaseOutAreas (CAreaFitter.fd f')
  = CFitData.BaseOutAreas (CAreaFitter.fd f) →
  GlobalsOK BW BH f' →
  Inv BW BH (Config.mk f A O AtCodeLoc1) →
  Inv BW BH (Config.mk f' A O AtCodeLoc1).
Proof.
  intros Hstack Hfx Hbase HGl'
    (HS & HGl & [Hloc|(Gs & G & HD & Hlen & HB & HG & Htop)]);
    [discriminate Hloc|].
  cbn [Config.fitter] in *.
  unfold fixedPart in Hfx. fcbn_in Hfx.
  injection Hfx as HA HI HDp HW HH HM H6 H5 H4.
  assert (∀ e, Stable e f f') as Hst by (intros e; by apply Stable_same).
  assert (∀ e, item f' e = item f e) as Hi.
  { intros e. unfold item. by rewrite Hstack. }
  apply (Kept_Inv _ f Gs G); try done.
  split; try done. unfold Top in *. cbn [Config.fitter Config.loc] in *.
  destruct Htop as (Ua & Ub & Hsplit & HV & Harea & Hprev).
  assert (depth f' = depth f) as Hd by (unfold depth; by rewrite HDp).
  exists Ua, Ub. rewrite Hd, Hi. split; [done|]. split; [|done].
  destruct HV as [V1 V2 V3 V4 V5]. split.
  - unfold areaChain in *. eapply chain_ext; [|exact V1]. intros q _.
    unfold areaNext. destruct q; cbn; congruence.
  - unfold outChain in *. eapply chain_ext; [|exact V2]. intros q _.
    unfold outNext. destruct q; cbn; congruence.
  - unfold images in *. by rewrite H6, H5.
  - by rewrite H5.
  - by rewrite H4.
Qed.

Lemma atCodeLoc1_Inv f A O :
  Inv BW BH (Config.mk f A O AtCodeLoc1) → Inv BW BH (atCodeLoc1 f A O).
Proof.
  intros HI.
  pose proof HI as (HS & HGl & [Hloc|(Gs & G & HD & Hlen & HB & HG & Htop)]);
    [discriminate Hloc|].
  cbn [Config.fitter] in *. unfold Top in Htop.
  cbn [Config.fitter Config.loc] in Htop.
  destruct Htop as (Ua & Ub & Hsplit & HV & Harea & Hprev).
  assert (depth f = length Gs) as Hd by (unfold depth; lia).
  rewrite Hd in *.
  unfold atCodeLoc1. to_item. rewrite Hd, Harea.
  destruct Ub as [|a Ub]; cbn [head]; [by apply leaveFrame_Inv|].
  destruct (worseThanBest f); [by apply leaveFrame_Inv|].
  assert (∀ f', Kept BW BH (length Gs) G f (startArea f') →
                Inv BW BH (startArea f')) as Hfin.
  { intros f' HK. by apply (Kept_Inv _ f Gs G). }
  destruct (CAreaFitter.FitCallsLeft f =? 0).
  - destruct (_ || _).
    + apply leaveFrame_Inv. apply (Inv_neutral f); try done.
      by apply GlobalsOK_set_Best.
    + destruct (_ =? 0).
      { split; [done|]. split; [done|by left]. }
      assert (∀ v w,
        Kept BW BH (length Gs) G f
          (startArea
             (CAreaFitter.set_Globals
                (CGlobals.set_FitCallsLeft v (CAreaFitter.Globals f))
                (CAreaFitter.set_FitCallsLeft w f)))) as Hrefill.
      { intros v w.
        set (f' := CAreaFitter.set_Globals _ _).
        assert (Stable (length Gs) f f') as Hst by (by apply Stable_same).
        apply (Kept_trans _ _ f f'); [done|done|].
        apply (startArea_kept f' G (length Gs) Ua a Ub); try done.
        - by eapply Shape_stable.
        - by apply GlobalsOK_budget.
        - by eapply Geo_stable.
        - destruct HV. by split. }
      destruct (512 <=? _); apply Hfin, Hrefill.
  - apply Hfin. by apply (startArea_kept f G (length Gs) Ua a Ub).
Qed.
End Outcome.

(** ** Linking new output areas into the chain *)

Lemma upd_s_ext g1 g2 f : g1 (s f) = g2 (s f) → upd_s g1 f = upd_s g2 f.
Proof.
  intros H. unfold upd_s. f_equal. apply list_eq. intros i.
  rewrite !list_lookup_alter. case_decide as Hi; [|done]. subst i.
  unfold s in H. destruct (CAreaFitter.Stack f !! depth f) as [it|] eqn:E;
    [|done].
  cbn. f_equal. by rewrite (list_lookup_total_correct _ _ _ E) in H.
Qed.

(** [Inserted] reads the first [c] cells of [PrevNewOutAreas] only. *)
Lemma Inserted_ext_lt f f' e c L0 L' :
  (∀ i, (i < c)%nat →
     CFitAreaStackItem.PrevNewOutAreas (item f' e) !!! i
     = CFitAreaStackItem.PrevNewOutAreas (item f e) !!! i) →
  Inserted f e c L0 L' → Inserted f' e c L0 L'.
Proof.
  revert L'. induction c as [|c IH]; intros L' Hi; cbn [Inserted]; [done|].
  intros (Lm & A & B & k & H1 & H2 & H3 & H4 & H5).
  exists Lm, A, B, k. rewrite Hi by lia. repeat split; try done.
  apply IH; [|done]. intros i Hlt. apply Hi. lia.
Qed.

Lemma Linked_refl D t f :
  outChain f (tLa t ++ tLb t) → NoDup (OutAreas :: tLa t ++ tLb t) →
  tH t ∉ OutAreas :: tLa t ++ tLb t →
  Linked D t f f [] (tLa t ++ tLb t).
Proof. intros Hc Hnd Hh. by split; [apply Stable_refl|..]. Qed.

Lemma outArea_set_rect f p q img ax ay w h :
  validOutPtr f p →
  outArea (upd_outArea (COutArea.set_rect img ax ay w h) p f) q
  = if decide (q = p) then COutArea.mk img ax ay w h (outNext f p)
    else outArea f q.
Proof. intros Hv. by rewrite outArea_upd_outArea. Qed.

Lemma outNext_set_rect f p q img ax ay w h :
  validOutPtr f p →
  outNext (upd_outArea (COutArea.set_rect img ax ay w h) p f) q = outNext f q.
Proof.
  intros Hv. unfold outNext. rewrite outArea_set_rect by done.
  case_decide; by subst.
Qed.

Lemma insertOutArea_item f p f' prev :
  insertOutArea f p = Some (f', prev) →
  depth f' = depth f ∧ (∀ e, item f' e = item f e) ∧
  length (CAreaFitter.Stack f') = length (CAreaFitter.Stack f).
Proof.
  unfold insertOutArea.
  destruct (insertOutArea_scan _ _ _ _ _) as [r|]; [|done].
  cbn. intros [= <- <-].
  split; [by obs | split; [intros e; by obs | by obs]].
Qed.

Lemma SameItem_eq it it' : unlinkedItem it' = unlinkedItem it → SameItem it it'.
Proof.
  intros H. split.
  - exact (f_equal CFitAreaStackItem.Area H).
  - exact (f_equal CFitAreaStackItem.PrevArea H).
  - exact (f_equal CFitAreaStackItem.OutArea H).
  - exact (f_equal CFitAreaStackItem.PrevOutArea H).
  - exact (f_equal CFitAreaStackItem.OutAreasTried H).
  - exact (f_equal CFitAreaStackItem.OutAreaRemainRight H).
  - exact (f_equal CFitAreaStackItem.OutAreaRemainBottom H).
  - exact (f_equal CFitAreaStackItem.WasOutImageAdded H).
  - exact (f_equal CFitAreaStackItem.DoOutImageRestore H).
  - exact (f_equal CFitAreaStackItem.OutImageSave H).
  - exact (f_equal CFitAreaStackItem.OutSizeSave H).
Qed.

Section Link.
Context (BW BH : Z).

(** The cells an item may link: those of its chain and its own. *)
Lemma cells_base f D G t :
  Shape BW BH f → Geo BW BH f D G → FrameHost BW BH f D G t →
  (D < length (CAreaFitter.Stack f))%nat →
  (∀ q, q ∈ tLa t ++ tLb t →
     validOutPtr f q ∧ ptrLevel D q ∧ (q ∉ hostsBelow f D)) ∧
  (validOutPtr f OutAreas ∧ OutAreas ∉ hostsBelow f D) ∧
  (∀ k, (k < 3)%nat →
     validOutPtr f (NewPtr D k) ∧ (NewPtr D k ∉ hostsBelow f D) ∧
     (NewPtr D k ∉ OutAreas :: tLa t ++ tLb t)) ∧
  (∀ k, (k < 2)%nat → tH t ≠ NewPtr D k).
Proof.
  intros HS HG HFH Hlen.
  assert (∀ q, q ∈ tLa t ++ tLb t → q ∈ gL G) as Hsub.
  { intros q Hq. destruct HFH as [_ Hsplit _ _ _ _].
    destruct (CFitAreaStackItem.WasOutImageAdded (item f D)).
    - destruct Hsplit as [_ ->]. done.
    - rewrite Hsplit. set_solver. }
  assert (∀ q, q ∈ tLa t ++ tLb t →
     validOutPtr f q ∧ ptrLevel D q ∧ q ∉ hostsBelow f D) as H1.
  { intros q Hq%Hsub. destruct (geo_L_valid _ _ _ _ _ HG _ Hq).
    repeat split; try done.
    apply (geo_L_not_host _ _ _ _ _ HG). by right. }
  assert (∀ k, NewPtr D k ∉ hostsBelow f D) as Hnh.
  { intros k Hin. apply (geo_host_level _ _ _ _ _ HG) in Hin as [_ Hl].
    cbn in Hl. lia. }
  split; [done|]. split; [|split].
  - split; [cbn; by destruct HS|].
    apply (geo_L_not_host _ _ _ _ _ HG). by left.
  - intros k Hk. split; [|split; [done|]].
    + destruct (sh_frames _ _ _ HS D Hlen) as [(? & ? & ?) _]. by repeat split.
    + intros [?|Hin]%elem_of_cons; [done|].
      apply H1 in Hin as (_ & Hl & _). cbn in Hl. lia.
  - intros k Hk Heq. destruct HFH as [_ Hsplit _ _ _ _].
    destruct (CFitAreaStackItem.WasOutImageAdded (item f D)).
    + destruct Hsplit as [Hh _]. rewrite Hh in Heq. injection Heq. lia.
    + assert (tH t ∈ gL G) as Hin by (rewrite Hsplit; set_solver).
      apply (geo_L_valid _ _ _ _ _ HG) in Hin as [_ Hl].
      rewrite Heq in Hl. cbn in Hl. lia.
Qed.

(** One new output area: its fields are assigned, [insertOutArea] links
    it, and the cell it was put behind is kept. *)
Lemma linkNew f0 f G D t N L k n img ax ay w h f2 prev :
  Shape BW BH f0 → Geo BW BH f0 D G → FrameHost BW BH f0 D G t →
  depth f = D → (D < length (CAreaFitter.Stack f0))%nat →
  Linked D t f0 f N L →
  Forall (λ p, ∃ j, p = NewPtr D j ∧ (j < 2)%nat) N →
  NewPtr D k ∉ N → (k < 2)%nat → n = length N → (n < 2)%nat →
  insertOutArea
    (upd_outArea (COutArea.set_rect img ax ay w h) (NewPtr D k) f)
    (NewPtr D k) = Some (f2, prev) →
  let f' :=
    upd_s (λ it,
        CFitAreaStackItem.set_c (S n)
          (CFitAreaStackItem.set_PrevNewOutAreas
             (<[n := prev]> (CFitAreaStackItem.PrevNewOutAreas it)) it))
      f2 in
  ∃ L', Linked D t f0 f' (NewPtr D k :: N) L' ∧
    CFitAreaStackItem.c (item f' D) = S n ∧
    outRect (outArea f' (NewPtr D k)) = (img, ax, ay, w, h) ∧
    (∀ q, q ≠ NewPtr D k → outRect (outArea f' q) = outRect (outArea f q)) ∧
    depth f' = D.
Proof.
  intros HS HG HFH HD Hlen HL HN HkN Hk Hn Hn2 Hins.
  destruct (cells_base _ _ _ _ HS HG HFH Hlen)
    as (Hbase & [HvO HhO] & Hnew & Hhk).
  destruct HL as [Hst Hfx Hit Hinsd Hco Hperm Hnd Hh Hrect Hnext].
  pose proof (hostsBelow_ext f0 f D (st_item _ _ _ Hst)) as Hhosts.
  pose proof (sh_frames _ _ _ HS D Hlen) as [_ Hprevs].
  assert (D < length (CAreaFitter.Stack f))%nat as Hlenf.
  { by rewrite (st_stack _ _ _ Hst). }
  assert (∀ q, q ∈ OutAreas :: L → validOutPtr f q ∧ q ∉ hostsBelow f D)
    as Hcells.
  { intros q Hq. rewrite Hhosts, (st_valid _ _ _ Hst).
    apply elem_of_cons in Hq as [->|Hq]; [done|].
    rewrite Hperm in Hq. apply elem_of_app in Hq as [Hq|Hq].
    - rewrite Forall_forall in HN. destruct (HN _ Hq) as (j & -> & Hj).
      destruct (Hnew j) as (? & ? & _); [lia|done].
    - by destruct (Hbase _ Hq) as (? & _ & ?). }
  assert (validOutPtr f (NewPtr D k) ∧ (NewPtr D k ∉ hostsBelow f D) ∧
          (NewPtr D k ∉ OutAreas :: L)) as (Hvp & Hhp & Hfp).
  { destruct (Hnew k) as (H1 & H2 & H3); [lia|].
    rewrite Hhosts, (st_valid _ _ _ Hst). split; [done|]. split; [done|].
    intros [?|Hq]%elem_of_cons; [done|]. rewrite Hperm in Hq.
    apply elem_of_app in Hq as [Hq|Hq]; [done|]. apply H3. by right. }
  set (p := NewPtr D k) in *.
  set (fa := upd_outArea (COutArea.set_rect img ax ay w h) p f) in *.
  assert (Stable D f fa) as Hsta.
  { apply Stable_upd_outArea_own; [done|lia|done]. }
  assert (∀ q, outNext fa q = outNext f q) as Hna.
  { intros q. by apply outNext_set_rect. }
  assert (outChain fa L) as Hca.
  { unfold outChain in *. eapply chain_ext; [|exact Hco]. intros q _.
    apply Hna. }
  assert (validOutPtr fa p) as Hvpa by (by apply (st_valid _ _ _ Hsta)).
  assert (Forall (validOutPtr fa) (OutAreas :: L)) as Hvall.
  { apply Forall_forall. intros q Hq. apply (st_valid _ _ _ Hsta).
    by apply Hcells. }
  destruct (insertOutArea_Some fa p L f2 prev Hca Hnd Hfp Hvpa Hvall Hins)
    as (A & B & HLeq & -> & -> & Hc2 & _ & _).
  subst L.
  set (r := lastOf OutAreas A) in *.
  assert (r ∈ OutAreas :: A ++ B) as Hrin by apply lastOf_out_in.
  destruct (Hcells _ Hrin) as [Hvr Hhr].
  assert (r ≠ p) as Hrp by (intros Heq; by rewrite Heq in Hrin).
  set (f1 := upd_outArea (COutArea.set_Next (outNext fa r)) p fa) in *.
  set (f2 := upd_outArea (COutArea.set_Next (Some p)) r f1) in *.
  assert (Stable D fa f1) as Hst1.
  { apply Stable_upd_outArea_Next; [done|].
    by rewrite (hostsBelow_ext f fa D (st_item _ _ _ Hsta)). }
  pose proof (Stable_trans _ _ _ _ Hsta Hst1) as Hsta1.
  assert (Stable D f1 f2) as Hst2.
  { apply Stable_upd_outArea_Next; [by apply (st_valid _ _ _ Hsta1)|].
    by rewrite (hostsBelow_ext f f1 D (st_item _ _ _ Hsta1)). }
  pose proof (Stable_trans _ _ _ _ Hsta1 Hst2) as Hsta2.
  assert (depth f2 = D) as HD2 by (unfold f2, f1, fa; by obs).
  assert (D < length (CAreaFitter.Stack f2))%nat as Hlen2.
  { by rewrite (st_stack _ _ _ Hsta2). }
  assert (item f2 D = item f D) as Hi2 by (unfold f2, f1, fa; by obs).
  assert (∀ q, outArea f2 q
               = if decide (q = r) then COutArea.set_Next (Some p) (outArea f r)
                 else if decide (q = p)
                      then COutArea.mk img ax ay w h (outNext f r)
                      else outArea f q) as Hout2.
  { intros q. unfold f2.
    rewrite outArea_upd_outArea by (by apply (st_valid _ _ _ Hsta1)).
    case_decide as Hq.
    - unfold f1. rewrite outArea_upd_outArea by done.
      rewrite decide_False by done. unfold fa.
      rewrite outArea_set_rect by done. by rewrite decide_False.
    - unfold f1. rewrite outArea_upd_outArea by done.
      case_decide; [|unfold fa; rewrite outArea_set_rect by done;
                      by rewrite decide_False].
      unfold fa at 2. rewrite outArea_set_rect by done.
      rewrite decide_True by done. cbn. by rewrite Hna. }
  intros f'.
  assert (Stable D f2 f') as Hst3.
  { apply Stable_upd_s; [solve_scalarUpdate | lia |].
    intros it. cbn. by rewrite length_insert. }
  assert (item f' D
          = CFitAreaStackItem.set_c (S n)
              (CFitAreaStackItem.set_PrevNewOutAreas
                 (<[n := r]> (CFitAreaStackItem.PrevNewOutAreas (item f D)))
                 (item f D))) as Hi'.
  { unfold f'. rewrite item_upd_s_eq by obs_side. by rewrite Hi2. }
  assert (∀ q, outArea f' q = outArea f2 q) as Hout'.
  { intros q. unfold f'. by rewrite outArea_upd_s by solve_scalarUpdate. }
  exists (A ++ p :: B). split; [split|].
  - eapply Stable_trans; [exact Hst|]. eapply Stable_trans; [exact Hsta2|].
    exact Hst3.
  - rewrite <- Hfx. unfold f', f2, f1, fa.
    by rewrite fixedPart_upd_s, !fixedPart_upd_outArea.
  - rewrite Hi', <- Hit. reflexivity.
  - cbn [length Inserted]. exists (A ++ B), A, B, k. rewrite <- Hn.
    split; [|split; [done|split; [done|split; [done|]]]].
    + rewrite Hn. eapply Inserted_ext_lt; [|exact Hinsd].
      intros i Hi. rewrite Hi'. fcbn.
      rewrite list_lookup_total_insert_ne by lia. done.
    + rewrite Hi'. fcbn. apply list_lookup_total_insert_eq.
      rewrite (st_prevs _ _ _ Hst D), Hprevs. done.
  - unfold outChain in *. eapply chain_ext; [|exact Hc2]. intros q _.
    unfold f'. by rewrite outNext_upd_s by solve_scalarUpdate.
  - rewrite <- Permutation_middle. cbn. by rewrite Hperm.
  - by apply NoDup_middle.
  - intros Hin. assert (tH t ∈ p :: OutAreas :: A ++ B) as Hin'.
    { clear -Hin. set_solver. }
    apply elem_of_cons in Hin' as [Heq|Hin']; [by apply (Hhk k)|done].
  - intros q Hq. rewrite <- Hrect by (clear -Hq; set_solver).
    rewrite Hout', Hout2. repeat case_decide; subst; try done.
    clear -Hq. set_solver.
  - rewrite <- Hnext. unfold outNext. rewrite Hout', Hout2.
    rewrite decide_False by (intros Heq; rewrite Heq in Hh; done).
    rewrite decide_False by (by apply Hhk). done.
  - split; [by rewrite Hi'|]. split; [|split].
    + rewrite Hout', Hout2. rewrite decide_False by done.
      by rewrite decide_True.
    + intros q Hq. rewrite Hout', Hout2.
      case_decide; [by subst|]. by rewrite decide_False.
    + unfold f'. by obs.
Qed.

(** The two steps of a configuration: the first new output area is
    linked or [c] is set to 0, then the second one is linked or not. *)
Lemma configure_linked f f1 f4 G D t i0 x0 y0 w0 h0 i1 x1 y1 w1 h1 :
  Shape BW BH f → Geo BW BH f D G → FrameHost BW BH f D G t →
  depth f = D → (D < length (CAreaFitter.Stack f))%nat →
  outChain f (tLa t ++ tLb t) →
  (f1 = upd_s (CFitAreaStackItem.set_c 0) f ∨
   addNewOutArea0 i0 x0 y0 w0 h0 f = Some f1) →
  (∀ N1 L1, Linked D t f f1 N1 L1 → tH t ∉ N1 →
     f4 = f1 ∨ addNewOutArea1 i1 x1 y1 w1 h1 f1 = Some f4) →
  ∃ N L', Linked D t f f4 N L' ∧
    CFitAreaStackItem.c (item f4 D) = length N ∧ depth f4 = D ∧
    (N = [] ∨ N = [NewPtr D 0] ∨ N = [NewPtr D 1] ∨
     N = [NewPtr D 1; NewPtr D 0]) ∧
    (NewPtr D 0 ∈ N →
       outRect (outArea f4 (NewPtr D 0)) = (i0, x0, y0, w0, h0)) ∧
    (NewPtr D 1 ∈ N →
       outRect (outArea f4 (NewPtr D 1)) = (i1, x1, y1, w1, h1)).
Proof.
  intros HS HG HFH HD Hlen Hco HA HB.
  destruct (host_fresh _ _ _ _ _ _ HS HG HFH) as (Hnd & Hh & _ & _).
  pose proof (Linked_refl D t f Hco Hnd Hh) as HL0.
  assert (∃ N1 L1, Linked D t f f1 N1 L1 ∧
            CFitAreaStackItem.c (item f1 D) = length N1 ∧ depth f1 = D ∧
            (N1 = [] ∨ N1 = [NewPtr D 0]) ∧
            (NewPtr D 0 ∈ N1 →
               outRect (outArea f1 (NewPtr D 0)) = (i0, x0, y0, w0, h0)))
    as (N1 & L1 & HL1 & Hc1 & HD1 & HN1 & Hr1).
  { destruct HA as [->|HA].
    - exists [], (tLa t ++ tLb t).
      assert (Stable D f (upd_s (CFitAreaStackItem.set_c 0) f)) as Hst.
      { apply Stable_upd_s; [solve_scalarUpdate | lia | done]. }
      split; [|split; [|split; [by obs|split; [by left|set_solver]]]].
      + destruct HL0 as
        [lk_stable lk_fixed lk_item lk_inserted lk_chain lk_perm lk_nodup
        lk_host lk_rect lk_next].
      split; try done.
        * by rewrite item_upd_s_eq by obs_side.
        * unfold outChain in *. eapply chain_ext; [|exact Hco].
          intros q _. by rewrite outNext_upd_s by solve_scalarUpdate.
        * intros p _. by rewrite outArea_upd_s by solve_scalarUpdate.
        * by rewrite outNext_upd_s by solve_scalarUpdate.
      + by rewrite item_upd_s_eq by obs_side.
    - unfold addNewOutArea0 in HA. rewrite HD in HA.
      destruct (insertOutArea _ _) as [[f2 prev]|] eqn:Hins; [|done].
      cbn in HA. injection HA as <-.
      assert (NewPtr D 0 ∉ ([] : list OutAreaPtr)) as Hni by set_solver.
      destruct (linkNew f f G D t [] (tLa t ++ tLb t) 0 0 i0 x0 y0 w0 h0
                  f2 prev HS HG HFH HD Hlen HL0 (Forall_nil_2 _) Hni
                  ltac:(lia) eq_refl ltac:(lia) Hins)
        as (L1 & HL1 & Hc1 & Hr1 & _ & HD1).
      exists [NewPtr D 0], L1.
      split; [done|]. split; [done|]. split; [done|]. split; [by right|done]. }
  assert (D < length (CAreaFitter.Stack f1))%nat as Hlen1.
  { by rewrite (st_stack _ _ _ (lk_stable _ _ _ _ _ _ HL1)). }
  assert (tH t ∉ N1) as HhN1.
  { destruct (cells_base _ _ _ _ HS HG HFH Hlen) as (_ & _ & _ & Hhk).
    destruct HN1 as [->| ->]; [set_solver|].
    intros Hin%list_elem_of_singleton. by apply (Hhk 0%nat); [lia|]. }
  destruct (HB N1 L1 HL1 HhN1) as [->|HB'].
  - exists N1, L1.
    split; [done|]. split; [done|]. split; [done|]. split; [|split].
    + destruct HN1 as [->| ->]; auto.
    + done.
    + intros Hin. destruct HN1 as [->| ->]; set_solver.
  - unfold addNewOutArea1 in HB'. rewrite HD1 in HB'.
    destruct (insertOutArea _ _) as [[f2 prev]|] eqn:Hins; [|done].
    cbn in HB'. injection HB' as <-.
    set (n := length N1) in *.
    rewrite (upd_s_ext _ (λ it,
        CFitAreaStackItem.set_c (S n)
          (CFitAreaStackItem.set_PrevNewOutAreas
             (<[n := prev]> (CFitAreaStackItem.PrevNewOutAreas it)) it))).
    2:{ assert (CFitAreaStackItem.c (s f2) = n) as ->; [|done].
        rewrite <- Hc1.
        change (CFitAreaStackItem.c (s f2))
          with (CFitAreaStackItem.c (item f2 (depth f2))).
        destruct (insertOutArea_item _ _ _ _ Hins) as (-> & -> & _).
        obs. by rewrite HD1. }
    assert (Forall (λ p, ∃ j, p = NewPtr D j ∧ (j < 2)%nat) N1) as HF1.
    { destruct HN1 as [->| ->]; repeat constructor.
      exists 0%nat. split; [done|lia]. }
    assert (NewPtr D 1 ∉ N1) as Hni.
    { destruct HN1 as [->| ->]; set_solver. }
    assert (n < 2)%nat as Hn2.
    { unfold n. destruct HN1 as [->| ->]; cbn; lia. }
    destruct (linkNew f f1 G D t N1 L1 1 n i1 x1 y1 w1 h1 f2 prev
                HS HG HFH HD1 Hlen HL1 HF1 Hni ltac:(lia) eq_refl Hn2 Hins)
      as (L4 & HL4 & Hc4 & Hr4 & Hoth & HD4).
    exists (NewPtr D 1 :: N1), L4.
    split; [done|]. split; [done|]. split; [done|]. split; [|split].
    + destruct HN1 as [->| ->]; auto.
    + intros Hin. rewrite Hoth by done. apply Hr1. set_solver.
    + done.
Qed.
End Link.

(** ** The geometry the next item finds *)

Section Child.
Context (BW BH : Z).

(** The host is separated from the other output areas and from the
    areas that are placed. *)
Lemma host_sep f D G t :
  Geo BW BH f D G → FrameHost BW BH f D G t →
  allSep (outRect (outArea f (tH t))
          :: ((λ p, outRect (outArea f p)) <$> (tLa t ++ tLb t))
             ++ ((λ i, areaRect (CAreaFitter.Areas f !!! i))
                   <$> placedBelow f D)).
Proof.
  intros HG [Hprev Hsplit Hvh Hlev Hreg Hfresh].
  pose proof (geo_sep _ _ _ _ _ HG) as Hsep.
  destruct (CFitAreaStackItem.WasOutImageAdded (item f D)).
  - destruct Hsplit as [Hh HL]. rewrite HL in Hsep.
    split; [|done]. specialize (Hfresh eq_refl).
    apply Forall_app. split.
    + pose proof (geo_regions _ _ _ _ _ HG) as Hr. rewrite HL in Hr.
      apply Forall_fmap. eapply Forall_impl; [exact Hr|].
      intros p (_ & _ & _ & _ & _ & _ & Hp). cbn.
      unfold sep, outRect. left. lia.
    + pose proof (geo_placed _ _ _ _ _ HG) as Hp.
      apply Forall_fmap. eapply Forall_impl; [exact Hp|].
      intros i (_ & _ & H0 & im & Him & _). cbn.
      apply lookup_lt_Some in Him.
      unfold sep, outRect, areaRect. left. lia.
  - rewrite Hsplit in Hsep. revert Hsep.
    rewrite fmap_app, fmap_cons, (fmap_app _ (tLa t)).
    rewrite <- !app_assoc. cbn [app].
    by rewrite <- Permutation_middle.
Qed.

Lemma regionOK_inside n o o' :
  regionOK BW BH n o → inside (outRect o') (outRect o) → regionOK BW BH n o'.
Proof. unfold regionOK, inside, outRect. intros ? (-> & ?). lia. Qed.

Lemma regionOK_mono n n' o :
  (n <= n')%nat → regionOK BW BH n o → regionOK BW BH n' o.
Proof. unfold regionOK. lia. Qed.

Lemma length_imagesWith was G :
  (length (gImgs G) <= length (imagesWith was G) <= length (gImgs G) + 1)%nat.
Proof. destruct was; cbn; rewrite ?length_app; cbn; lia. Qed.

(** The state the item above finds when [tA t] is placed in [tH t] and
    the new output areas [N] are linked. *)
Lemma Geo_child f D G t N L' :
  Shape BW BH f → Geo BW BH f D G → Placed BW BH f D G t →
  (D < length (CAreaFitter.Stack f))%nat →
  L' ≡ₚ N ++ (tLa t ++ tLb t) → NoDup (OutAreas :: L') →
  Forall (λ p, ∃ j, p = NewPtr D j ∧ (j < 2)%nat) N →
  allSep (areaRect (CAreaFitter.Areas f !!! tA t)
          :: ((λ p, outRect (outArea f p)) <$> N)) →
  Forall (λ p, inside (outRect (outArea f p)) (outRect (outArea f (tH t))))
    N →
  Geo BW BH f (S D)
    (mkGhost (tUa t ++ tUb t) L' (images f)
       (CFitData.OutSize (CAreaFitter.fd f))).
Proof.
  intros HS HG HP Hlen Hperm Hnd HN HsepN HinN.
  destruct HP as [HFA HFH Hout Hnext Hca Hcnt Hgr Hpl Hfit Hrem Hcont Himgs
                    Hsz].
  destruct (cells_base _ _ _ _ _ _ HS HG HFH Hlen)
    as (Hbase & [HvO HhO] & Hnew & Hhk).
  destruct (host_fresh _ _ _ _ _ _ HS HG HFH) as (Hnd0 & Hh0 & _ & _).
  pose proof (host_sep _ _ _ _ HG HFH) as Hhsep.
  pose proof HFA as [Ha Hp Hsplit Hanext].
  pose proof HFH as [Hprev HLsplit Hvh Hlev Hreg Hfresh].
  assert (hostsBelow f (S D) = hostsBelow f D ++ [tH t]) as Hhosts.
  { by rewrite hostsBelow_S, Hout. }
  assert (placedBelow f (S D) = placedBelow f D ++ [tA t]) as Hplaced.
  { by rewrite placedBelow_S, Ha. }
  assert (tH t ∉ hostsBelow f D) as Hhh.
  { destruct (CFitAreaStackItem.WasOutImageAdded (item f D)).
    - destruct HLsplit as [-> _]. intros Hin.
      apply (geo_host_level _ _ _ _ _ HG) in Hin as [_ Hl]. cbn in Hl. lia.
    - apply (geo_L_not_host _ _ _ _ _ HG). rewrite HLsplit. set_solver. }
  assert (∀ q, q ∈ N → validOutPtr f q ∧ ptrLevel (S D) q ∧
                        (q ∉ hostsBelow f D) ∧ q ≠ tH t) as HNq.
  { intros q Hq. rewrite Forall_forall in HN.
    destruct (HN _ Hq) as (j & -> & Hj).
    destruct (Hnew j) as (? & ? & _); [lia|].
    split; [done|]. split; [cbn; lia|]. split; [done|].
    intros Heq. by apply (Hhk j). }
  assert (length (images f)
          = length (imagesWith
                      (CFitAreaStackItem.WasOutImageAdded (item f D)) G))
    as Hlenimg by (by eapply Grown_length).
  pose proof (length_imagesWith
                (CFitAreaStackItem.WasOutImageAdded (item f D)) G) as Hlw.
  assert (tA t < length (CAreaFitter.Areas f))%nat as Halt.
  { apply (geo_all _ _ _ _ _ HG). rewrite Hsplit. set_solver. }
  split; cbn [gU gL gImgs gOutSize].
  - (* cells *)
    rewrite Hhosts.
    change (OutAreas :: L' ++ hostsBelow f D ++ [tH t])
      with ((OutAreas :: L') ++ hostsBelow f D ++ [tH t]).
    apply NoDup_app. split; [done|]. split.
    + intros q Hq Hin. apply elem_of_app in Hin.
      apply elem_of_cons in Hq as [->|Hq].
      * destruct Hin as [Hin|Hin]; [done|]. apply Hh0. set_solver.
      * rewrite Hperm in Hq. apply elem_of_app in Hq as [Hq|Hq].
        -- destruct (HNq _ Hq) as (_ & _ & ? & ?). set_solver.
        -- destruct (Hbase _ Hq) as (_ & _ & ?).
           destruct Hin as [Hin|Hin]; [done|]. apply Hh0. set_solver.
    + apply NoDup_app. split; [|split].
      * pose proof (geo_cells _ _ _ _ _ HG) as Hc.
        apply NoDup_cons in Hc as [_ Hc]. by apply NoDup_app in Hc as (_ & _ & ?).
      * set_solver.
      * apply NoDup_singleton.
  - (* areas *)
    rewrite Hplaced. pose proof (geo_areas _ _ _ _ _ HG) as Hc.
    rewrite Hsplit in Hc.
    assert ((tUa t ++ tUb t) ++ placedBelow f D ++ [tA t]
            ≡ₚ (tUa t ++ tA t :: tUb t) ++ placedBelow f D) as ->; [|done].
    solve_Permutation.
  - intros i. rewrite (geo_all _ _ _ _ _ HG i), Hplaced, Hsplit.
    clear. set_solver.
  - (* pointers *)
    rewrite Hhosts. rewrite Hperm. rewrite !Forall_app. repeat split.
    + apply Forall_forall. intros q Hq. by destruct (HNq _ Hq) as (? & ? & _).
    + apply Forall_forall. intros q Hq.
      assert (q ∈ tLa t ++ tLb t) as Hq' by set_solver.
      destruct (Hbase _ Hq') as (? & ? & _). split; [done|].
      eapply ptrLevel_mono; [|done]. lia.
    + apply Forall_forall. intros q Hq.
      assert (q ∈ tLa t ++ tLb t) as Hq' by set_solver.
      destruct (Hbase _ Hq') as (? & ? & _). split; [done|].
      eapply ptrLevel_mono; [|done]. lia.
    + apply Forall_forall. intros q Hq.
      destruct (geo_host_level _ _ _ _ _ HG _ Hq). split; [done|].
      eapply ptrLevel_mono; [|done]. lia.
    + by repeat constructor.
  - (* regions *)
    rewrite Hperm. apply Forall_app. split.
    + rewrite Forall_forall in HinN. apply Forall_forall. intros q Hq.
      eapply regionOK_inside; [|by apply HinN]. by rewrite Hlenimg.
    + apply Forall_forall. intros q Hq.
      eapply (regionOK_mono (length (gImgs G))); [lia|].
      pose proof (geo_regions _ _ _ _ _ HG) as Hr.
      rewrite Forall_forall in Hr. apply Hr.
      destruct (CFitAreaStackItem.WasOutImageAdded (item f D)).
      * destruct HLsplit as [_ ->]. done.
      * rewrite HLsplit. set_solver.
  - by rewrite Hplaced.
  - (* separation *)
    rewrite Hplaced, Hperm.
    eapply (allSep_Permutation
              ((areaRect (CAreaFitter.Areas f !!! tA t)
                :: ((λ p, outRect (outArea f p)) <$> N))
               ++ (((λ p, outRect (outArea f p)) <$> (tLa t ++ tLb t))
                   ++ ((λ i, areaRect (CAreaFitter.Areas f !!! i))
                         <$> placedBelow f D)))).
    { rewrite !fmap_app.
      change ((λ i, areaRect (CAreaFitter.Areas f !!! i)) <$> [tA t])
        with [areaRect (CAreaFitter.Areas f !!! tA t)].
      solve_Permutation. }
    eapply allSep_replace; [exact Hhsep| |exact HsepN].
    constructor; [|by apply Forall_fmap].
    rewrite Hpl. unfold inside, outRect.
    pose proof (sh_areas _ _ _ HS) as Hdims.
    rewrite Forall_forall in Hdims.
    assert (CAreaFitter.Areas f !!! tA t ∈ CAreaFitter.Areas f) as Hin.
    { apply list_elem_of_lookup_total_2. done. }
    specialize (Hdims _ Hin). cbn in Hdims. lia.
  - done.
  - done.
  - pose proof (geo_count _ _ _ _ _ HG). lia.
Qed.
End Child.

(** ** The jump to the next stack item *)

Section Push.
Context (BW BH : Z).

Lemma Linked_upd_s D t f f4 N L' g :
  Linked D t f f4 N L' → depth f4 = D →
  (D < length (CAreaFitter.Stack f4))%nat →
  scalarUpdate g →
  (∀ it, unlinkedItem (g it) = unlinkedItem it) →
  (∀ it, CFitAreaStackItem.PrevNewOutAreas (g it)
         = CFitAreaStackItem.PrevNewOutAreas it) →
  Linked D t f (upd_s g f4) N L'.
Proof.
  intros [Hst Hfx Hit Hins Hco Hperm Hnd Hh Hrect Hnext] HD Hlt Hg Hun Hpr.
  assert (item (upd_s g f4) D = g (item f4 D)) as Hi.
  { by rewrite item_upd_s_eq by obs_side. }
  split.
  - eapply Stable_trans; [exact Hst|].
    apply Stable_upd_s; [done|lia|]. intros it. by rewrite Hpr.
  - by rewrite fixedPart_upd_s.
  - by rewrite Hi, Hun.
  - eapply Inserted_ext; [|exact Hins]. by rewrite Hi, Hpr.
  - unfold outChain in *. eapply chain_ext; [|exact Hco]. intros q _.
    by rewrite outNext_upd_s.
  - done.
  - done.
  - done.
  - intros p Hp. rewrite outArea_upd_s by done. by apply Hrect.
  - by rewrite outNext_upd_s.
Qed.

(** What holds of the placed area holds when new output areas are
    linked. *)
Lemma Placed_linked f f' G D t N L' :
  Placed BW BH f D G t → Linked D t f f' N L' → tH t ∉ N →
  Placed BW BH f' D G t.
Proof.
  intros [HFA HFH Hout Hnext Hca Hcnt Hgr Hpl Hfit Hrem Hcont Himgs Hsz]
    HL HhN.
  pose proof (SameItem_eq _ _ (lk_item _ _ _ _ _ _ HL)) as
    [si_Area si_PrevArea si_OutArea si_PrevOutArea si_OutAreasTried si_OutAreaRemainRight si_OutAreaRemainBottom si_WasOutImageAdded si_DoOutImageRestore si_OutImageSave si_OutSizeSave].
  pose proof (fixedPart_Fixed _ _ (lk_fixed _ _ _ _ _ _ HL)) as
    [fx_Areas fx_Globals fx_FitCallsLeft fx_Depth fx_depth fx_MaxOutImageSize fx_OutImages fx_OutImageCount fx_OutSize fx_BestOutSize fx_BestOutImageCount fx_images fx_area fx_areaNext].
  pose proof (lk_stable _ _ _ _ _ _ HL) as Hst.
  destruct (outRect_fields _ _ (lk_rect _ _ _ _ _ _ HL _ HhN))
    as (Hr1 & Hr2 & Hr3 & Hr4 & Hr5).
  split.
  - destruct HFA as
    [fa_area fa_prev fa_split fa_next].
  split; rewrite ?si_Area, ?si_PrevArea, ?fx_Areas; done.
  - destruct HFH as
    [fh_prev fh_split fh_valid fh_level fh_region fh_fresh].
  split;
      rewrite ?si_PrevOutArea, ?si_WasOutImageAdded; try done.
    + by apply (st_valid _ _ _ Hst).
    + unfold regionOK. by rewrite Hr1, Hr2, Hr3, Hr4, Hr5.
    + by rewrite Hr1.
  - by rewrite si_OutArea.
  - by rewrite (lk_next _ _ _ _ _ _ HL).
  - unfold areaChain in *. eapply chain_ext; [|exact Hca]. intros q _.
    apply fx_areaNext.
  - by rewrite fx_OutImageCount, fx_images.
  - rewrite Hr1, fx_images, fx_OutSize, si_WasOutImageAdded.
    unfold Grown in *.
    by rewrite si_DoOutImageRestore, si_OutImageSave, si_OutSizeSave.
  - by rewrite fx_Areas, Hr1, Hr2, Hr3.
  - by rewrite fx_Areas, Hr4, Hr5.
  - by rewrite si_OutAreaRemainRight, si_OutAreaRemainBottom, fx_Areas,
      Hr4, Hr5.
  - rewrite fx_images, fx_Areas.
    by rewrite (placedBelow_ext _ _ _ (st_item _ _ _ Hst)).
  - by rewrite fx_images.
  - by rewrite fx_OutSize, fx_images.
Qed.

Lemma new_cells_length D (N : list OutAreaPtr) :
  NoDup N → Forall (λ p, ∃ j, p = NewPtr D j ∧ (j < 2)%nat) N →
  (length N <= 2)%nat.
Proof.
  intros Hnd HN.
  assert (N ⊆+ [NewPtr D 0; NewPtr D 1]) as Hsub.
  { apply NoDup_submseteq; [done|]. intros p Hp.
    rewrite Forall_forall in HN. destruct (HN _ Hp) as (j & -> & Hj).
    assert (j = 0 ∨ j = 1)%nat as [-> | ->] by lia; set_solver. }
  by apply submseteq_length in Hsub.
Qed.

(** [pushStack] after a configuration. *)
Lemma push_Pushed f f4 G D t N L' g A O :
  Shape BW BH f → GlobalsOK BW BH f → Geo BW BH f D G →
  Placed BW BH f D G t →
  CAreaFitter.Depth f = Z.of_nat D →
  (S D < length (CAreaFitter.Stack f))%nat →
  Linked D t f f4 N L' →
  CFitAreaStackItem.c (item f4 D) = length N →
  Forall (λ p, ∃ j, p = NewPtr D j ∧ (j < 2)%nat) N →
  allSep (areaRect (CAreaFitter.Areas f !!! tA t)
          :: ((λ p, outRect (outArea f4 p)) <$> N)) →
  Forall (λ p, inside (outRect (outArea f4 p)) (outRect (outArea f (tH t))))
    N →
  scalarUpdate g →
  (∀ it, unlinkedItem (g it) = unlinkedItem it) →
  (∀ it, CFitAreaStackItem.PrevNewOutAreas (g it)
         = CFitAreaStackItem.PrevNewOutAreas it) →
  (∀ it, CFitAreaStackItem.c (g it) = CFitAreaStackItem.c it) →
  Pushed BW BH D G f (Config.mk (pushStack (upd_s g f4)) A O AtCodeLoc1).
Proof.
  intros HS HGl HG HP HDz Hroom HL4 Hc HN Hsep Hins Hg Hun Hpr Hgc.
  assert (D < length (CAreaFitter.Stack f))%nat as Hlen by lia.
  destruct (cells_base _ _ _ _ _ _ HS HG (pl_host _ _ _ _ _ _ HP) Hlen)
    as (_ & _ & _ & Hhk).
  assert (tH t ∉ N) as HhN.
  { intros Hin. rewrite Forall_forall in HN.
    destruct (HN _ Hin) as (j & Hj & ?). by apply (Hhk j). }
  pose proof (fixedPart_Fixed _ _ (lk_fixed _ _ _ _ _ _ HL4)) as Hfx4.
  assert (depth f4 = D) as HD4.
  { rewrite (fx_depth _ _ Hfx4). unfold depth. lia. }
  assert (D < length (CAreaFitter.Stack f4))%nat as Hlen4.
  { rewrite (st_stack _ _ _ (lk_stable _ _ _ _ _ _ HL4)). lia. }
  pose proof (Linked_upd_s _ _ _ _ _ _ g HL4 HD4 Hlen4 Hg Hun Hpr) as HL.
  set (f5 := upd_s g f4) in *.
  pose proof (fixedPart_Fixed _ _ (lk_fixed _ _ _ _ _ _ HL)) as Hfx.
  pose proof (lk_stable _ _ _ _ _ _ HL) as Hst.
  pose proof (Placed_linked _ _ _ _ _ _ _ HP HL HhN) as HP5.
  assert (∀ p, outArea f5 p = outArea f4 p) as Hout5.
  { intros p. unfold f5. by rewrite outArea_upd_s. }
  assert (NoDup N) as HndN.
  { pose proof (lk_nodup _ _ _ _ _ _ HL) as Hnd.
    apply NoDup_cons in Hnd as [_ Hnd].
    rewrite (lk_perm _ _ _ _ _ _ HL) in Hnd.
    by apply NoDup_app in Hnd as (? & _). }
  set (Gc := mkGhost (tUa t ++ tUb t) L' (images f5)
               (CFitData.OutSize (CAreaFitter.fd f5))).
  assert (Geo BW BH f5 (S D) Gc) as HGc.
  { apply (Geo_child BW BH f5 D G t N L'); try done.
    - by eapply Shape_stable.
    - by eapply Geo_stable.
    - by rewrite (st_stack _ _ _ Hst).
    - apply (lk_perm _ _ _ _ _ _ HL).
    - apply (lk_nodup _ _ _ _ _ _ HL).
    - rewrite (fx_Areas _ _ Hfx).
      erewrite (list_fmap_ext _ (λ p, outRect (outArea f4 p)) N);
        [done|]. intros _ p _. by rewrite Hout5.
    - eapply Forall_impl; [exact Hins|]. intros p Hp. cbv beta in *.
      by rewrite (lk_rect _ _ _ _ _ _ HL _ HhN), Hout5. }
  assert (Susp BW BH f5 D G Gc t) as HSu.
  { destruct HP5 as
    [pl_area pl_host pl_out pl_next pl_areas pl_count pl_grown pl_placed
    pl_fits pl_remain pl_contained pl_images pl_size].
  split; try done.
    - assert (CFitAreaStackItem.c (item f5 D) = length N) as ->.
      { unfold f5. rewrite item_upd_s_eq by obs_side. by rewrite Hgc. }
      apply (lk_inserted _ _ _ _ _ _ HL).
    - unfold f5. rewrite item_upd_s_eq by obs_side. rewrite Hgc, Hc.
      by apply (new_cells_length D).
    - by rewrite (st_stack _ _ _ Hst). }
  assert (CAreaFitter.Depth f5 = Z.of_nat D) as HDz5.
  { by rewrite (fx_Depth _ _ Hfx). }
  unfold pushStack. rewrite HDz5.
  set (f6 := CAreaFitter.set_Depth (Z.of_nat D + 1) f5).
  assert (depth f6 = S D) as HD6 by (unfold depth, f6; fcbn; lia).
  set (f7 := upd_s _ f6).
  assert (Stable (S D) f5 f7) as Hst7.
  { eapply Stable_trans; [apply (Stable_set_Depth _ f5)|].
    apply Stable_upd_s; [solve_scalarUpdate | lia | done]. }
  assert (S D < length (CAreaFitter.Stack f6))%nat as Hlen6.
  { unfold f6. fcbn. by rewrite (st_stack _ _ _ Hst). }
  apply (Build_Pushed BW BH D G f _ Gc t); cbn [Config.fitter].
  - eapply Stable_trans; [exact Hst|].
    eapply Stable_mono; [|exact Hst7]. lia.
  - unfold f7, f6. fcbn. lia.
  - done.
  - apply (GlobalsOK_stable BW BH D f); [|by rewrite <- (fx_Globals _ _ Hfx)|done].
    eapply Stable_trans; [exact Hst|].
    eapply Stable_mono; [|exact Hst7]. lia.
  - eapply Susp_stable; [exact Hst7|lia|done].
  - eapply Geo_stable; [exact Hst7|lia|done].
  - unfold Top. cbn [Config.fitter Config.loc].
    assert (depth f7 = S D) as -> by (unfold f7; by rewrite depth_upd_s).
    exists [], (tUa t ++ tUb t). cbn [gU gL gImgs gOutSize Gc].
    unfold f7. rewrite item_upd_s_eq by obs_side. fcbn.
    split; [done|]. split; [|split; [|done]].
    + apply View_upd_s; [solve_scalarUpdate|].
      destruct HP5 as
        [pl_area pl_host pl_out pl_next pl_areas pl_count pl_grown pl_placed
        pl_fits pl_remain pl_contained pl_images pl_size].
      split; try done.
      apply (lk_chain _ _ _ _ _ _ HL).
    + apply (areaChain_head f5). by destruct HP5.
Qed.

Ltac solve_Forall_list :=
  repeat match goal with
    | |- Forall _ [] => apply Forall_nil_2
    | |- Forall _ (_ :: _) => apply Forall_cons_2
    end;
  cbv beta; try assumption.

(** A configuration and the jump. *)
Lemma configure_Pushed f f1 f4 G D t g A O i0 x0 y0 w0 h0 i1 x1 y1 w1 h1 :
  Shape BW BH f → GlobalsOK BW BH f → Geo BW BH f D G →
  Placed BW BH f D G t →
  CAreaFitter.Depth f = Z.of_nat D →
  (S D < length (CAreaFitter.Stack f))%nat →
  outChain f (tLa t ++ tLb t) →
  (f1 = upd_s (CFitAreaStackItem.set_c 0) f ∨
   addNewOutArea0 i0 x0 y0 w0 h0 f = Some f1) →
  (∀ N1 L1, Linked D t f f1 N1 L1 → tH t ∉ N1 →
     f4 = f1 ∨ addNewOutArea1 i1 x1 y1 w1 h1 f1 = Some f4) →
  allSep [areaRect (CAreaFitter.Areas f !!! tA t); (i0, x0, y0, w0, h0);
          (i1, x1, y1, w1, h1)] →
  Forall (λ c, inside c (outRect (outArea f (tH t))))
    [(i0, x0, y0, w0, h0); (i1, x1, y1, w1, h1)] →
  scalarUpdate g →
  (∀ it, unlinkedItem (g it) = unlinkedItem it) →
  (∀ it, CFitAreaStackItem.PrevNewOutAreas (g it)
         = CFitAreaStackItem.PrevNewOutAreas it) →
  (∀ it, CFitAreaStackItem.c (g it) = CFitAreaStackItem.c it) →
  Pushed BW BH D G f (Config.mk (pushStack (upd_s g f4)) A O AtCodeLoc1).
Proof.
  intros HS HGl HG HP HDz Hroom Hco HA HB Hsep Hin Hg Hun Hpr Hgc.
  assert (depth f = D) as HD by (unfold depth; lia).
  assert (D < length (CAreaFitter.Stack f))%nat as Hlen by lia.
  destruct (configure_linked BW BH f f1 f4 G D t i0 x0 y0 w0 h0 i1 x1 y1 w1
              h1 HS HG (pl_host _ _ _ _ _ _ HP) HD Hlen Hco HA HB)
    as (N & L' & HL & Hc & HD4 & HN & Hr0 & Hr1).
  apply Forall_cons in Hin as [Hin0 Hin1].
  apply Forall_cons in Hin1 as [Hin1 _].
  destruct Hsep as (Ha01 & H01 & _).
  apply Forall_cons in Ha01 as [Ha0 Ha1].
  apply Forall_cons in Ha1 as [Ha1 _].
  apply Forall_cons in H01 as [H01 _].
  apply sep_sym in H01 as H10.
  assert (Forall (λ p, ∃ j, p = NewPtr D j ∧ (j < 2)%nat) N ∧
          allSep (areaRect (CAreaFitter.Areas f !!! tA t)
                  :: ((λ p, outRect (outArea f4 p)) <$> N)) ∧
          Forall (λ p, inside (outRect (outArea f4 p))
                         (outRect (outArea f (tH t)))) N)
    as (HFN & HsepN & HinN).
  { assert (∃ j, NewPtr D 0 = NewPtr D j ∧ (j < 2)%nat) as E0.
    { exists 0%nat. split; [done|lia]. }
    assert (∃ j, NewPtr D 1 = NewPtr D j ∧ (j < 2)%nat) as E1.
    { exists 1%nat. split; [done|lia]. }
    destruct HN as [->|[->|[->| ->]]]; cbn [fmap list_fmap allSep].
    - split; [solve_Forall_list|]. split; [|solve_Forall_list].
      split; [solve_Forall_list|exact I].
    - pose proof (Hr0 ltac:(left)) as H0. rewrite H0.
      split; [solve_Forall_list|]. split.
      + split; [solve_Forall_list|]. split; [solve_Forall_list|exact I].
      + solve_Forall_list. by rewrite H0.
    - pose proof (Hr1 ltac:(left)) as H1. rewrite H1.
      split; [solve_Forall_list|]. split.
      + split; [solve_Forall_list|]. split; [solve_Forall_list|exact I].
      + solve_Forall_list. by rewrite H1.
    - pose proof (Hr0 ltac:(right; left)) as H0.
      pose proof (Hr1 ltac:(left)) as H1. rewrite H0, H1.
      split; [solve_Forall_list|]. split.
      + split; [solve_Forall_list|]. split; [solve_Forall_list|].
        split; [solve_Forall_list|exact I].
      + solve_Forall_list; [by rewrite H1 | by rewrite H0]. }
  by apply (push_Pushed f f4 G D t N L').
Qed.
End Push.

(** ** The two configurations *)

Section Config.
Context (BW BH : Z).

(** The numbers of a placed area and its host. *)
Lemma Placed_numbers f D G t :
  Shape BW BH f → Geo BW BH f D G → Placed BW BH f D G t →
  let a := CAreaFitter.Areas f !!! tA t in
  let o := outArea f (tH t) in
  0 <= CFitArea.Width a <= COutArea.Width o ∧
  0 <= CFitArea.Height a <= COutArea.Height o ∧
  0 <= COutArea.x o ∧ 0 <= COutArea.y o ∧
  COutArea.x o + COutArea.Width o <= INT_MAX ∧
  COutArea.y o + COutArea.Height o <= INT_MAX ∧
  add32 (COutArea.x o) (CFitArea.Width a)
  = COutArea.x o + CFitArea.Width a ∧
  add32 (COutArea.y o) (CFitArea.Height a)
  = COutArea.y o + CFitArea.Height a.
Proof.
  intros HS HG HP a o.
  destruct (pl_fits _ _ _ _ _ _ HP) as [Hw Hh]. fold a o in Hw, Hh.
  destruct (fh_region _ _ _ _ _ _ (pl_host _ _ _ _ _ _ HP))
    as (Hx & Hy & HW & HH & HxW & HyH & _). fold o in Hx, Hy, HW, HH, HxW, HyH.
  assert (tA t < length (CAreaFitter.Areas f))%nat as Halt.
  { apply (geo_all _ _ _ _ _ HG).
    rewrite (fa_split _ _ _ _ (pl_area _ _ _ _ _ _ HP)). set_solver. }
  pose proof (sh_areas _ _ _ HS) as Hdims. rewrite Forall_forall in Hdims.
  assert (a ∈ CAreaFitter.Areas f) as Hin.
  { by apply list_elem_of_lookup_total_2. }
  specialize (Hdims _ Hin). cbn in Hdims.
  pose proof (sh_bw _ _ _ HS). pose proof (sh_bh _ _ _ HS).
  repeat split; try lia.
  - apply add32_id. unfold is_int, INT_MIN, INT_MAX in *. lia.
  - apply add32_id. unfold is_int, INT_MIN, INT_MAX in *. lia.
Qed.

(** The fields that the second step of a configuration reads are those
    of the state before the first. *)
Lemma Linked_reads f f1 D t N1 L1 :
  Linked D t f f1 N1 L1 → tH t ∉ N1 → depth f = D →
  outRect (outAreaOf f1 (Some (tH t))) = outRect (outArea f (tH t)) ∧
  areaOf f1 (Some (tA t)) = CAreaFitter.Areas f !!! tA t ∧
  SameItem (item f D) (s f1) ∧ depth f1 = D.
Proof.
  intros HL Hh HD.
  pose proof (fixedPart_Fixed _ _ (lk_fixed _ _ _ _ _ _ HL)) as
    [fx_Areas fx_Globals fx_FitCallsLeft fx_Depth fx_depth fx_MaxOutImageSize
     fx_OutImages fx_OutImageCount fx_OutSize fx_BestOutSize
     fx_BestOutImageCount fx_images fx_area fx_areaNext].
  assert (depth f1 = D) as HD1 by congruence.
  split; [apply (lk_rect _ _ _ _ _ _ HL _ Hh)|].
  split; [unfold areaOf; by rewrite fx_Areas|]. split; [|done].
  pose proof (SameItem_eq _ _ (lk_item _ _ _ _ _ _ HL)) as
    [si_Area si_PrevArea si_OutArea si_PrevOutArea si_OutAreasTried
     si_OutAreaRemainRight si_OutAreaRemainBottom si_WasOutImageAdded
     si_DoOutImageRestore si_OutImageSave si_OutSizeSave].
  rewrite <- HD1 in *. by split.
Qed.

Lemma configuration1_Pushed f f4 G D t A O :
  Shape BW BH f → GlobalsOK BW BH f → Geo BW BH f D G →
  Placed BW BH f D G t →
  CAreaFitter.Depth f = Z.of_nat D →
  (S D < length (CAreaFitter.Stack f))%nat →
  outChain f (tLa t ++ tLb t) →
  configuration1 f (Some (tA t)) (Some (tH t)) = Some f4 →
  Pushed BW BH D G f
    (Config.mk
       (pushStack
          (upd_s (λ it,
               CFitAreaStackItem.set_CodeLoc 2
                 (CFitAreaStackItem.set_c1 (CFitAreaStackItem.c it) it)) f4))
       A O AtCodeLoc1).
Proof.
  intros HS HGl HG HP HDz Hroom Hco Hcfg.
  assert (depth f = D) as HD by (unfold depth; lia).
  destruct (Placed_numbers _ _ _ _ HS HG HP)
    as (Hw & Hh & Hx & Hy & HxW & HyH & Hax & Hay).
  destruct (pl_remain _ _ _ _ _ _ HP) as [Hrr Hrb].
  pose proof (pl_placed _ _ _ _ _ _ HP) as Hpl.
  set (a := CAreaFitter.Areas f !!! tA t) in *.
  set (o := outArea f (tH t)) in *.
  unfold configuration1 in Hcfg.
  apply bind_Some in Hcfg as (f1 & HA & HB).
  apply (configure_Pushed BW BH f f1 f4 G D t _ A O
           (COutArea.OutImage o) (COutArea.x o + CFitArea.Width a)
           (COutArea.y o) (COutArea.Width o - CFitArea.Width a)
           (COutArea.Height o)
           (COutArea.OutImage o) (COutArea.x o)
           (COutArea.y o + CFitArea.Height a) (CFitArea.Width a)
           (COutArea.Height o - CFitArea.Height a)); try done.
  - clear HB. revert HA. to_item. rewrite HD. unfold outAreaOf, areaOf.
    cbn [default from_option id]. fold a o. rewrite Hrr, Hax.
    case_match; [intros ?; by right | intros [= <-]; by left].
  - intros N1 L1 HL1 HhN1. clear HA. revert HB.
    destruct (Linked_reads _ _ _ _ _ _ HL1 HhN1 HD) as
      (Hr & -> & HSI & HD1).
    pose proof (si_OutAreaRemainBottom _ _ HSI) as HRB.
    destruct (outRect_fields _ _ Hr) as (-> & -> & -> & _ & _).
    rewrite HRB.
    fold a o. rewrite Hrb, Hay.
    case_match; [intros ?; by right | intros [= <-]; by left].
  - fold a o. rewrite Hpl.
    by destruct (allSep_configuration1 (COutArea.OutImage o) (COutArea.x o)
                   (COutArea.y o) (COutArea.Width o) (COutArea.Height o)
                   (CFitArea.Width a) (CFitArea.Height a) Hw Hh).
  - destruct (allSep_configuration1 (COutArea.OutImage o) (COutArea.x o)
                (COutArea.y o) (COutArea.Width o) (COutArea.Height o)
                (CFitArea.Width a) (CFitArea.Height a) Hw Hh) as [_ Hin].
    fold o. by apply Forall_cons in Hin as [_ Hin].
Qed.

Lemma configuration2_Pushed f f4 G D t A O :
  Shape BW BH f → GlobalsOK BW BH f → Geo BW BH f D G →
  Placed BW BH f D G t →
  CAreaFitter.Depth f = Z.of_nat D →
  (S D < length (CAreaFitter.Stack f))%nat →
  outChain f (tLa t ++ tLb t) →
  configuration2 f (Some (tA t)) (Some (tH t)) = Some f4 →
  Pushed BW BH D G f
    (Config.mk (pushStack (upd_s (CFitAreaStackItem.set_CodeLoc 3) f4))
       A O AtCodeLoc1).
Proof.
  intros HS HGl HG HP HDz Hroom Hco Hcfg.
  assert (depth f = D) as HD by (unfold depth; lia).
  destruct (Placed_numbers _ _ _ _ HS HG HP)
    as (Hw & Hh & Hx & Hy & HxW & HyH & Hax & Hay).
  destruct (pl_remain _ _ _ _ _ _ HP) as [Hrr Hrb].
  pose proof (pl_placed _ _ _ _ _ _ HP) as Hpl.
  set (a := CAreaFitter.Areas f !!! tA t) in *.
  set (o := outArea f (tH t)) in *.
  unfold configuration2 in Hcfg.
  apply bind_Some in Hcfg as (f1 & HA & HB).
  apply (configure_Pushed BW BH f f1 f4 G D t _ A O
           (COutArea.OutImage o) (COutArea.x o + CFitArea.Width a)
           (COutArea.y o) (COutArea.Width o - CFitArea.Width a)
           (CFitArea.Height a)
           (COutArea.OutImage o) (COutArea.x o)
           (COutArea.y o + CFitArea.Height a) (COutArea.Width o)
           (COutArea.Height o - CFitArea.Height a)); try done.
  - clear HB. revert HA. to_item. rewrite HD. unfold outAreaOf, areaOf.
    cbn [default from_option id]. fold a o. rewrite Hrr, Hax.
    case_match; [intros ?; by right | intros [= <-]; by left].
  - intros N1 L1 HL1 HhN1. clear HA. revert HB.
    destruct (Linked_reads _ _ _ _ _ _ HL1 HhN1 HD) as
      (Hr & -> & HSI & HD1).
    pose proof (si_OutAreaRemainBottom _ _ HSI) as HRB.
    destruct (outRect_fields _ _ Hr) as (-> & -> & -> & -> & _).
    rewrite HRB.
    fold a o. rewrite Hrb, Hay.
    case_match; [intros ?; by right | intros [= <-]; by left].
  - fold a o. rewrite Hpl.
    by destruct (allSep_configuration2 (COutArea.OutImage o) (COutArea.x o)
                   (COutArea.y o) (COutArea.Width o) (COutArea.Height o)
                   (CFitArea.Width a) (CFitArea.Height a) Hw Hh).
  - destruct (allSep_configuration2 (COutArea.OutImage o) (COutArea.x o)
                (COutArea.y o) (COutArea.Width o) (COutArea.Height o)
                (CFitArea.Width a) (CFitArea.Height a) Hw Hh) as [_ Hin].
    fold o. by apply Forall_cons in Hin as [_ Hin].
Qed.
End Config.

(** ** From the label [CodeLoc2] *)

Section Loc2.
Context (BW BH : Z).

Lemma Pushed_trans f f1 D G cfg' :
  Stable D f f1 → CAreaFitter.Depth f1 = CAreaFitter.Depth f →
  Pushed BW BH D G f1 cfg' → Pushed BW BH D G f cfg'.
Proof.
  intros Hst HD [Gc t H1 H2 H3 H4 H5 H6 H7].
  apply (Build_Pushed BW BH D G f _ Gc t); try done.
  - by eapply Stable_trans.
  - congruence.
  - by rewrite <- (st_stack _ _ _ Hst).
Qed.

(** What a suspended item keeps is what it had when the area was
    placed. *)
Lemma Susp_Placed f D G Gc t :
  Susp BW BH f D G Gc t → Geo BW BH f (S D) Gc →
  View f (gU Gc) (gL Gc) (gImgs Gc) (gOutSize Gc) →
  Placed BW BH f D G t.
Proof.
  intros [HFA HFH Hout Hnext HU Hins Hc2 Hgr Hpl Hfit Hrem Hroom] HGc
    [Hca Hco Him Hcnt Hsz].
  split; try done.
  - by rewrite <- HU.
  - by rewrite Him.
  - by rewrite Him, Hsz.
  - rewrite Him. pose proof (geo_placed _ _ _ _ _ HGc) as Hp.
    by rewrite placedBelow_S, (fa_area _ _ _ _ HFA) in Hp.
  - rewrite Him. apply (geo_images _ _ _ _ _ HGc).
  - rewrite Him, Hsz. apply (geo_size _ _ _ _ _ HGc).
Qed.

Lemma Unwound_Linked f f1 D G t :
  Shape BW BH f → Geo BW BH f D G → FrameHost BW BH f D G t →
  outNext f (tH t) = head (tLb t) →
  Unwound D t f f1 → Linked D t f f1 [] (tLa t ++ tLb t).
Proof.
  intros HS HG HFH Hnext [Hst Hfx Hi Hr Hc Hn].
  destruct (host_fresh _ _ _ _ _ _ HS HG HFH) as (Hnd & Hh & _ & _).
  split; try done.
  - by rewrite Hi.
  - congruence.
Qed.

Lemma Unwound_set_c0 f f1 D t :
  Unwound D t f f1 → depth f1 = D →
  (D < length (CAreaFitter.Stack f1))%nat →
  Unwound D t f (upd_s (CFitAreaStackItem.set_c 0) f1).
Proof.
  intros [Hst Hfx Hi Hr Hc Hn] HD Hlen. split.
  - eapply Stable_trans; [exact Hst|].
    apply Stable_upd_s; [solve_scalarUpdate | lia | done].
  - by rewrite fixedPart_upd_s.
  - rewrite item_upd_s_eq by obs_side. by rewrite Hi.
  - intros p. by rewrite outArea_upd_s by solve_scalarUpdate.
  - unfold outChain in *. eapply chain_ext; [|exact Hc]. intros q _.
    by rewrite outNext_upd_s by solve_scalarUpdate.
  - by rewrite outNext_upd_s by solve_scalarUpdate.
Qed.

Lemma addNewOutArea0_c i x y w h f f' :
  (depth f < length (CAreaFitter.Stack f))%nat →
  addNewOutArea0 i x y w h f = Some f' → CFitAreaStackItem.c (s f') = 1%nat.
Proof.
  intros Hlen. unfold addNewOutArea0.
  destruct (insertOutArea _ _) as [[f2 prev]|] eqn:Hins; [|done].
  cbn. intros [= <-].
  destruct (insertOutArea_item _ _ _ _ Hins) as (Hd & Hi & Hl).
  change (CFitAreaStackItem.c (s ?g))
    with (CFitAreaStackItem.c (item g (depth g))).
  rewrite depth_upd_s, item_upd_s_eq; [done|solve_scalarUpdate|done|].
  rewrite Hd, Hl. revert Hlen. by obs.
Qed.

Lemma addNewOutArea1_c i x y w h f f' :
  (depth f < length (CAreaFitter.Stack f))%nat →
  addNewOutArea1 i x y w h f = Some f' →
  CFitAreaStackItem.c (s f') ≠ 0%nat.
Proof.
  intros Hlen. unfold addNewOutArea1.
  destruct (insertOutArea _ _) as [[f2 prev]|] eqn:Hins; [|done].
  cbn. intros [= <-].
  destruct (insertOutArea_item _ _ _ _ Hins) as (Hd & Hi & Hl).
  change (CFitAreaStackItem.c (s ?g))
    with (CFitAreaStackItem.c (item g (depth g))).
  rewrite depth_upd_s, item_upd_s_eq; [done|solve_scalarUpdate|done|].
  rewrite Hd, Hl. revert Hlen. by obs.
Qed.

Lemma addNewOutArea0_depth i x y w h f f' :
  addNewOutArea0 i x y w h f = Some f' →
  depth f' = depth f ∧
  length (CAreaFitter.Stack f') = length (CAreaFitter.Stack f).
Proof.
  unfold addNewOutArea0.
  destruct (insertOutArea _ _) as [[f2 prev]|] eqn:Hins; [|done].
  cbn. intros [= <-].
  destruct (insertOutArea_item _ _ _ _ Hins) as (Hd & Hi & Hl).
  rewrite depth_upd_s, length_Stack_upd_s, Hd, Hl. by obs.
Qed.

(** A configuration that leaves [c] at 0 has linked nothing. *)
Lemma configuration2_zero f A O f4 :
  (depth f < length (CAreaFitter.Stack f))%nat →
  configuration2 f A O = Some f4 → CFitAreaStackItem.c (s f4) = 0%nat →
  f4 = upd_s (CFitAreaStackItem.set_c 0) f.
Proof.
  intros Hlen Hcfg Hc. unfold configuration2 in Hcfg.
  apply bind_Some in Hcfg as (f1 & HA & HB).
  assert ((depth f1 < length (CAreaFitter.Stack f1))%nat ∧
          (f1 = upd_s (CFitAreaStackItem.set_c 0) f ∨
           CFitAreaStackItem.c (s f1) = 1%nat)) as [Hlen1 H1].
  { clear HB. revert HA. case_match.
    - intros HA. destruct (addNewOutArea0_depth _ _ _ _ _ _ _ HA) as [-> ->].
      split; [done|]. right. by eapply addNewOutArea0_c.
    - intros [= <-]. split; [|by left].
      by rewrite depth_upd_s, length_Stack_upd_s. }
  clear HA. revert HB. case_match.
  - intros HB. by apply addNewOutArea1_c in HB.
  - intros [= <-]. destruct H1 as [?|H1]; [done|]. congruence.
Qed.

Lemma atCodeLoc2_step f G Gc D t cfg' :
  Shape BW BH f → GlobalsOK BW BH f →
  CAreaFitter.Depth f = Z.of_nat D →
  (D < length (CAreaFitter.Stack f))%nat →
  Geo BW BH f D G → Susp BW BH f D G Gc t → Geo BW BH f (S D) Gc →
  View f (gU Gc) (gL Gc) (gImgs Gc) (gOutSize Gc) →
  atCodeLoc2 f (Some (tA t)) (Some (tH t)) = Some cfg' →
  Kept BW BH D G f cfg' ∨ Pushed BW BH D G f cfg'.
Proof.
  intros HS HGl HDz Hlen HG HSu HGc HV.
  assert (depth f = D) as HD by (unfold depth; lia).
  pose proof (removeNewOutAreas_unwound BW BH f G Gc D t HS HD Hlen HSu HGc
                (view_out _ _ _ _ _ HV)) as HU.
  unfold atCodeLoc2.
  set (f1 := removeNewOutAreas _ f) in *.
  pose proof (fixedPart_Fixed _ _ (uw_fixed _ _ _ _ HU)) as Hfx.
  pose proof (uw_stable _ _ _ _ HU) as Hst.
  assert (depth f1 = D) as HD1 by (by rewrite (fx_depth _ _ Hfx)).
  assert (D < length (CAreaFitter.Stack f1))%nat as Hlen1.
  { by rewrite (st_stack _ _ _ Hst). }
  case_match.
  - intros Hcfg. apply bind_Some in Hcfg as (f2 & Hcfg & Hres).
    revert Hres. case_match eqn:Hcc.
    + intros [= <-]. right.
      pose proof (Unwound_Linked f f1 D G t HS HG
                    (su_host _ _ _ _ _ _ _ HSu)
                    (su_next _ _ _ _ _ _ _ HSu) HU) as HL.
      assert (tH t ∉ ([] : list OutAreaPtr)) as Hni by set_solver.
      pose proof (Placed_linked BW BH f f1 G D t [] _
                    (Susp_Placed _ _ _ _ _ HSu HGc HV) HL Hni) as HP1.
      apply (Pushed_trans f f1); [done|apply (fx_Depth _ _ Hfx)|].
      apply (configuration2_Pushed BW BH f1 f2 G D t); try done.
      * by eapply Shape_stable.
      * apply (GlobalsOK_stable BW BH D f); [done| |done].
        apply (fx_Globals _ _ Hfx).
      * by eapply Geo_stable.
      * by rewrite (fx_Depth _ _ Hfx).
      * rewrite (st_stack _ _ _ Hst).
        apply (su_room _ _ _ _ _ _ _ HSu).
      * apply (uw_chain _ _ _ _ HU).
    + intros [= <-]. left.
      apply Nat.ltb_ge in Hcc.
      assert (CFitAreaStackItem.c (s f2) = 0%nat) as Hc0 by lia.
      rewrite (configuration2_zero f1 _ _ f2) by (done || lia).
      eapply Unwound_kept; try done.
      by apply Unwound_set_c0.
  - intros [= <-]. left. by eapply Unwound_kept.
Qed.
End Loc2.

(** ** The check of a placement and the output images *)

Lemma wrap32_wrap32_add a b : wrap32 (wrap32 a + b) = wrap32 (a + b).
Proof.
  unfold wrap32.
  replace (((a + 2147483648) mod 4294967296 - 2147483648 + b) + 2147483648)
    with ((a + 2147483648) mod 4294967296 + b) by lia.
  rewrite Zplus_mod_idemp_l. f_equal. f_equal. lia.
Qed.

Lemma wrap32_wrap32_sub a b : wrap32 (wrap32 a - b) = wrap32 (a - b).
Proof.
  replace (wrap32 a - b) with (wrap32 a + - b) by lia.
  by rewrite wrap32_wrap32_add.
Qed.

Lemma wrap32_add_wrap32 a b : wrap32 (a + wrap32 b) = wrap32 (a + b).
Proof. rewrite Z.add_comm, wrap32_wrap32_add. f_equal. lia. Qed.

Lemma sumSizes_app l1 l2 : sumSizes (l1 ++ l2) = sumSizes l1 + sumSizes l2.
Proof.
  unfold sumSizes. induction l1 as [|x l1 IH]; cbn; [done|]. rewrite IH. lia.
Qed.

Lemma sumSizes_insert (l : list COutImage.t) j v :
  (j < length l)%nat →
  sumSizes (<[j := v]> l)
  = sumSizes l + COutImage.Size v - COutImage.Size (l !!! j).
Proof.
  unfold sumSizes.
  revert j. induction l as [|x l IH]; intros [|j] Hj; cbn in *; try lia.
  rewrite IH by lia. cbv [lookup_total]. lia.

Qed.

(** The outcomes of [checkAreaFitAgainstBest]. *)
Lemma checkFit_result M osz best nw nh img dr save ssave tried :
  let r :=
    checkAreaFitAgainstBest M osz best nw nh img dr save ssave tried in
  let W := Z.max nw (COutImage.Width img) in
  let H := Z.max nh (COutImage.Height img) in
  (CheckFit.result r = false →
     CheckFit.OutSize r = osz ∧ CheckFit.OutImage r = img) ∧
  (CheckFit.result r = true →
     (CheckFit.DoOutImageRestore r = false ∧ CheckFit.OutSize r = osz ∧
      CheckFit.OutImage r = img ∧
      nw <= COutImage.Width img ∧ nh <= COutImage.Height img) ∨
     (CheckFit.DoOutImageRestore r = true ∧
      CheckFit.OutImageSave r = img ∧ CheckFit.OutSizeSave r = osz ∧
      CheckFit.OutImage r = COutImage.mk W H (mul32 W H) ∧
      CheckFit.OutSize r
      = sub32 (add32 osz (mul32 W H)) (COutImage.Size img))).
Proof.
  cbv zeta. unfold checkAreaFitAgainstBest.
  destruct (Z.ltb_spec (COutImage.Width img) nw) as [Hw|Hw];
    destruct (Z.ltb_spec (COutImage.Height img) nh) as [Hh|Hh];
    rewrite ?(Z.max_l nw) by lia; rewrite ?(Z.max_r nw) by lia;
    rewrite ?(Z.max_l nh) by lia; rewrite ?(Z.max_r nh) by lia;
    repeat case_match; cbn; split; intros; try done; auto 10.
Qed.

(** ** Placing the area *)

Lemma areaNext_set_Out f p q i x y :
  validAreaPtr f p →
  areaNext (upd_area (CFitArea.set_Out i x y) p f) q = areaNext f q.
Proof.
  intros Hv. unfold areaNext. rewrite area_upd_area by done.
  case_decide; by subst.
Qed.

Lemma indices_Permutation (l : list nat) n :
  NoDup l → (∀ i, (i < n)%nat ↔ i ∈ l) → l ≡ₚ seq 0 n.
Proof.
  intros Hnd Hall. apply NoDup_Permutation; [done|apply NoDup_seq|].
  intros i. rewrite <- Hall, elem_of_seq. lia.
Qed.

Lemma list_as_fmap {A} `{Inhabited A} (l : list A) :
  l = (λ i, l !!! i) <$> seq 0 (length l).
Proof.
  apply list_eq. intros i. rewrite list_lookup_fmap.
  destruct (decide (i < length l)%nat) as [Hlt|Hge].
  - rewrite lookup_seq_lt by done. cbn.
    by apply list_lookup_lookup_total_lt.
  - rewrite lookup_seq_ge by lia. cbn. apply lookup_ge_None_2. lia.
Qed.

Lemma take_as_fmap {A} `{Inhabited A} (l : list A) n :
  (n <= length l)%nat → (λ i, l !!! i) <$> seq 0 n = take n l.
Proof.
  intros Hn. rewrite (list_as_fmap (take n l)).
  rewrite length_take, Nat.min_l by done.
  apply list_fmap_ext. intros j i [-> Hj]%lookup_seq. cbn.
  rewrite lookup_total_take. by rewrite decide_True.
Qed.

Section Place.
Context (BW BH : Z).

(** The areas still to fit and those that are placed are all there
    are. *)
Lemma Geo_length f D G :
  Geo BW BH f D G → (length (gU G) + D)%nat = length (CAreaFitter.Areas f).
Proof.
  intros HG.
  pose proof (indices_Permutation _ _ (geo_areas _ _ _ _ _ HG)
                (geo_all _ _ _ _ _ HG)) as HP.
  apply Permutation_length in HP.
  by rewrite length_app, length_placedBelow, length_seq in HP.
Qed.

(** [Area -> OutImage = ...; Area -> OutX = ...; Area -> OutY = ...]. *)
Lemma Checked_Placed f D G t :
  Shape BW BH f → Geo BW BH f D G → Checked BW BH f D G t →
  let o := outArea f (tH t) in
  let fp :=
    upd_area
      (CFitArea.set_Out (COutArea.OutImage o) (COutArea.x o) (COutArea.y o))
      (AreasPtr (tA t)) f in
  Placed BW BH fp D G t ∧ outChain fp (tLa t ++ tH t :: tLb t) ∧
  Stable D f fp.
Proof.
  intros HS HG [HFA HFH Hout Hca Hco Hcnt Hgr Hfit Hrem Hcont Hcov Himgs Hsz]
    o fp.
  pose proof HFA as [Ha Hp Hsplit Hanext].
  assert (tA t ∈ gU G) as HaU by (rewrite Hsplit; set_solver).
  assert (validAreaPtr f (AreasPtr (tA t))) as Hva.
  { cbn. apply (geo_all _ _ _ _ _ HG). set_solver. }
  pose proof (geo_U_not_placed _ _ _ _ _ HG _ HaU) as Hnp.
  assert (Stable D f fp) as Hst.
  { apply Stable_upd_area; [done|solve_keepsArea|]. by intros i [= <-]. }
  assert (∀ i, CAreaFitter.Areas fp !!! i
               = if decide (i = tA t)
                 then CFitArea.set_Out (COutArea.OutImage o) (COutArea.x o)
                        (COutArea.y o) (CAreaFitter.Areas f !!! i)
                 else CAreaFitter.Areas f !!! i) as HA.
  { intros i. unfold fp. rewrite Areas_lookup_upd_area by done.
    repeat case_decide; try done; naive_solver. }
  assert (item fp D = item f D) as Hi by (unfold fp; by obs).
  assert (∀ p, outArea fp p = outArea f p) as Ho.
  { intros p. unfold fp. by obs. }
  assert (images fp = images f) as Him by (unfold fp; by obs).
  destruct (fh_region _ _ _ _ _ _ HFH) as (Hx & Hy & _ & _ & _ & _ & Hj).
  fold o in Hx, Hy, Hj.
  split; [|split; [|done]].
  - split.
    + destruct HFA as
      [fa_area fa_prev fa_split fa_next].
    split; rewrite ?Hi; try done.
      rewrite HA, decide_True by done. done.
    + destruct HFH as [fh_prev fh_split fh_valid fh_level fh_region fh_fresh].
      split; rewrite ?Hi, ?Ho; try done; by apply (st_valid _ _ _ Hst).
    + by rewrite Hi.
    + unfold fp. rewrite outNext_upd_area.
      rewrite <- (lastOf_snoc OutAreas (tLa t) (tH t)).
      apply (chain_app_next (outNext f) OutAreas (tLa t ++ [tH t]) (tLb t)).
      by rewrite <- app_assoc.
    + unfold areaChain in *. eapply chain_ext; [|exact Hca]. intros q _.
      unfold fp. by apply areaNext_set_Out.
    + rewrite Him. unfold fp. by obs.
    + rewrite Hi, Ho, Him. unfold fp. by obs.
    + by rewrite Ho, HA, decide_True.
    + by rewrite Ho, HA, decide_True.
    + by rewrite Hi, Ho, HA, decide_True.
    + rewrite Him, (placedBelow_ext _ _ _ (st_item _ _ _ Hst)).
      apply Forall_app. split.
      * rewrite Forall_forall in Hcont. apply Forall_forall. intros i Hin.
        rewrite HA, decide_False by (intros ->; done). by apply Hcont.
      * constructor; [|done]. rewrite HA, decide_True by done.
        destruct Hcov as (im & Hl & Hw & Hh).
        unfold contained. cbn. fold o. repeat split; try lia.
        exists im. by repeat split.
    + by rewrite Him.
    + rewrite Him. unfold fp. by obs.
  - unfold outChain in *. eapply chain_ext; [|exact Hco]. intros q _.
    unfold fp. by obs.
Qed.

(** When no area is left, the placed ones are a complete fit. *)
Lemma Placed_Solution f D G t :
  Shape BW BH f → Geo BW BH f D G → Placed BW BH f D G t →
  (D < length (CAreaFitter.Stack f))%nat →
  tUa t ++ tUb t = [] →
  Solution BW BH f (CAreaFitter.Areas f) (images f)
    (CFitData.OutSize (CAreaFitter.fd f)).
Proof.
  intros HS HG HP Hlen HU.
  destruct (host_fresh _ _ _ _ _ _ HS HG (pl_host _ _ _ _ _ _ HP))
    as (Hnd & _).
  assert (Geo BW BH f (S D)
            (mkGhost (tUa t ++ tUb t) (tLa t ++ tLb t) (images f)
               (CFitData.OutSize (CAreaFitter.fd f)))) as HGc.
  { by apply (Geo_child BW BH f D G t []). }
  rewrite HU in HGc.
  pose proof (indices_Permutation _ _ (geo_areas _ _ _ _ _ HGc)
                (geo_all _ _ _ _ _ HGc)) as Hperm.
  cbn [gU app] in Hperm.
  assert (CAreaFitter.Areas f
          ≡ₚ (λ i, CAreaFitter.Areas f !!! i) <$> placedBelow f (S D))
    as HA.
  { rewrite Hperm. by rewrite <- list_as_fmap. }
  split.
  - done.
  - apply Forall_forall. intros a Ha. rewrite HA in Ha.
    apply list_elem_of_fmap in Ha as (i & -> & Hi).
    pose proof (geo_placed _ _ _ _ _ HGc) as Hp. cbn [gImgs] in Hp.
    rewrite Forall_forall in Hp. by apply Hp.
  - rewrite HA, <- list_fmap_compose.
    pose proof (geo_sep _ _ _ _ _ HGc) as Hs.
    apply allSep_app in Hs as (_ & Hs & _). exact Hs.
  - done.
  - apply (geo_images _ _ _ _ _ HGc).
  - apply (geo_size _ _ _ _ _ HGc).
  - pose proof (geo_count _ _ _ _ _ HGc) as Hc. cbn [gImgs] in Hc.
    rewrite <- (sh_stack _ _ _ HS). lia.
Qed.

Lemma images_as_fmap f :
  CFitData.OutImageCount (CAreaFitter.fd f) = Z.of_nat (length (images f)) →
  (λ i, CFitData.OutImages (CAreaFitter.fd f) !!! i)
    <$> seq 0 (Z.to_nat (CFitData.OutImageCount (CAreaFitter.fd f)))
  = images f.
Proof.
  intros Hc. unfold images in *. apply take_as_fmap.
  rewrite length_take in Hc. lia.
Qed.

(** "All areas were fitted". *)
Lemma saveBestFit_GlobalsOK f :
  GlobalsOK BW BH f →
  CFitData.OutImageCount (CAreaFitter.fd f) = Z.of_nat (length (images f)) →
  Solution BW BH f (CAreaFitter.Areas f) (images f)
    (CFitData.OutSize (CAreaFitter.fd f)) →
  GlobalsOK BW BH (saveBestFit f).
Proof.
  intros HGl Hc HSol. unfold saveBestFit. case_match.
  - unfold GlobalsOK. fcbn. intros _. rewrite (images_as_fmap f Hc).
    destruct HSol. by split.
  - by apply GlobalsOK_set_Best.
Qed.

Lemma saveBestFit_same f :
  let f' := saveBestFit f in
  CAreaFitter.Stack f' = CAreaFitter.Stack f ∧
  CAreaFitter.Areas f' = CAreaFitter.Areas f ∧
  CAreaFitter.InitArea f' = CAreaFitter.InitArea f ∧
  CAreaFitter.Depth f' = CAreaFitter.Depth f ∧
  CAreaFitter.MaxOutImageWidth f' = CAreaFitter.MaxOutImageWidth f ∧
  CAreaFitter.MaxOutImageHeight f' = CAreaFitter.MaxOutImageHeight f ∧
  CFitData.BaseOutAreas (CAreaFitter.fd f')
  = CFitData.BaseOutAreas (CAreaFitter.fd f) ∧
  CFitData.OutImages (CAreaFitter.fd f')
  = CFitData.OutImages (CAreaFitter.fd f) ∧
  CFitData.OutImageCount (CAreaFitter.fd f')
  = CFitData.OutImageCount (CAreaFitter.fd f) ∧
  CFitData.OutSize (CAreaFitter.fd f') = CFitData.OutSize (CAreaFitter.fd f).
Proof. cbv zeta. unfold saveBestFit. by case_match. Qed.

(** The placement up to the jump to the next item, or up to the end of
    the inner loop pass when the last area was placed. *)
Lemma placeArea_step f G D t cfg' :
  Shape BW BH f → GlobalsOK BW BH f →
  CAreaFitter.Depth f = Z.of_nat D →
  (D < length (CAreaFitter.Stack f))%nat →
  Geo BW BH f D G → Checked BW BH f D G t →
  placeArea f (Some (tA t)) (Some (tH t)) = Some cfg' →
  Kept BW BH D G f cfg' ∨ Pushed BW BH D G f cfg'.
Proof.
  intros HS HGl HDz Hlen HG HC.
  assert (depth f = D) as HD by (unfold depth; lia).
  destruct (Checked_Placed _ _ _ _ HS HG HC) as (HP & Hco & Hst).
  unfold placeArea, outAreaOf. cbn [default from_option id].
  set (o := outArea f (tH t)) in *.
  set (fp := upd_area _ (AreasPtr (tA t)) f) in *.
  assert (Shape BW BH fp) as HSp by (by eapply Shape_stable).
  assert (Geo BW BH fp D G) as HGp by (by eapply Geo_stable).
  assert (GlobalsOK BW BH fp) as HGlp.
  { apply (GlobalsOK_stable BW BH D f); [done| |done]. unfold fp. by obs. }
  assert (CAreaFitter.Depth fp = CAreaFitter.Depth f) as HDp.
  { unfold fp. by obs. }
  assert (D < length (CAreaFitter.Stack fp))%nat as Hlenp.
  { by rewrite (st_stack _ _ _ Hst). }
  rewrite (areaChain_head fp _ (pl_areas _ _ _ _ _ _ HP)).
  destruct (tUa t ++ tUb t) as [|first U'] eqn:HU; cbn [head].
  - intros [= <-]. left.
    destruct (saveBestFit_same fp)
      as (E1 & E2 & E3 & E4 & E5 & E6 & E7 & E8 & E9 & E10).
    set (fs := saveBestFit fp) in *.
    assert (Stable D fp fs) as Hsts by (by apply Stable_same).
    assert (∀ e, item fs e = item fp e) as Hi.
    { intros e. unfold item. by rewrite E1. }
    assert (∀ p, outArea fs p = outArea fp p) as Ho.
    { intros [i|d k]; cbn; by rewrite ?E1, ?E7. }
    assert (images fs = images fp) as Him.
    { unfold images. by rewrite E8, E9. }
    apply (Kept_trans _ _ f fs);
      [by eapply Stable_trans | congruence |].
    destruct HP as
      [pl_area pl_host pl_out pl_next pl_areas pl_count pl_grown pl_placed
      pl_fits pl_remain pl_contained pl_images pl_size].
    apply restoreOutImage_kept.
    + by eapply Shape_stable.
    + apply saveBestFit_GlobalsOK; [done|done|].
      by eapply Placed_Solution.
    + unfold depth. rewrite E4, HDp. unfold depth in HD. done.
    + by rewrite E1.
    + by eapply Geo_stable.
    + eapply FrameArea_keep; [apply Hi|done|done].
    + eapply FrameHost_keep; [apply Hi| |by rewrite Ho|done].
      apply (st_valid _ _ _ Hsts).
    + rewrite HU. unfold areaChain in *. rewrite HU in pl_areas.
      eapply chain_ext; [|exact pl_areas]. intros q _.
      unfold areaNext, area. destruct q; by rewrite ?E2, ?E3.
    + unfold outChain in *. eapply chain_ext; [|exact Hco]. intros q _.
      unfold outNext. by rewrite Ho.
    + rewrite Hi, E9, pl_count. f_equal. by eapply Grown_length.
    + by rewrite Hi, Ho, Him, E10.
  - intros Hcfg. apply bind_Some in Hcfg as ([mw mh] & _ & Hcfg).
    cbv zeta in Hcfg.
    apply bind_Some in Hcfg as (f4 & Hcfg & [= <-]). right.
    revert Hcfg. cbn [default from_option id].
    to_item. rewrite depth_upd_s.
    assert (depth fp = D) as HDd by (unfold depth; by rewrite HDp, HDz, Nat2Z.id).
    rewrite HDd, item_upd_s_eq by obs_side. fcbn.
    rewrite outArea_upd_s by solve_scalarUpdate.
    rewrite (fh_prev _ _ _ _ _ _ (pl_host _ _ _ _ _ _ HP)).
    change (COutArea.Next (outArea fp (tH t))) with (outNext fp (tH t)).
    set (f2 := upd_s (CFitAreaStackItem.set_MinArea mw mh) fp).
    destruct (host_fresh _ _ _ _ _ _ HSp HGp (pl_host _ _ _ _ _ _ HP))
      as (Hnd & Hh & Hv & Hnh).
    assert (Stable D fp f2) as Hst2.
    { apply Stable_upd_s; [solve_scalarUpdate | lia | done]. }
    assert (outChain f2 (tLa t ++ tH t :: tLb t)) as Hco2.
    { unfold outChain in *. eapply chain_ext; [|exact Hco]. intros q _.
      unfold f2. by rewrite outNext_upd_s by solve_scalarUpdate. }
    assert (outNext fp (tH t) = outNext f2 (tH t)) as ->.
    { unfold f2. by rewrite outNext_upd_s by solve_scalarUpdate. }
    assert (validOutPtr f2 (lastOf OutAreas (tLa t))) as Hv2.
    { by apply (st_valid _ _ _ Hst2). }
    assert (NoDup (OutAreas :: tLa t ++ tH t :: tLb t)) as Hnd2.
    { by apply NoDup_middle. }
    destruct (outChain_remove f2 (tLa t) (tLb t) (tH t) Hco2 Hnd2 Hv2)
      as [Hc3 Hn3].
    set (f3 := upd_outArea _ (lastOf OutAreas (tLa t)) f2) in *.
    assert (Stable D f2 f3) as Hst3.
    { apply Stable_upd_outArea_Next; [done|].
      by rewrite (hostsBelow_ext fp f2 D (st_item _ _ _ Hst2)). }
    pose proof (Stable_trans _ _ _ _ Hst2 Hst3) as Hstp3.
    assert (Linked D t fp f3 [] (tLa t ++ tLb t)) as HL.
    { split; try done.
      - unfold f3, f2. by rewrite fixedPart_upd_outArea, fixedPart_upd_s.
      - unfold f3. rewrite item_upd_outArea. unfold f2.
        by rewrite item_upd_s_eq by obs_side.
      - intros p _. unfold f3. rewrite outRect_upd_Next by done.
        unfold f2. by rewrite outArea_upd_s by solve_scalarUpdate.
      - by rewrite Hn3, (pl_next _ _ _ _ _ _ HP). }
    assert (tH t ∉ ([] : list OutAreaPtr)) as Hni by set_solver.
    pose proof (Placed_linked BW BH fp f3 G D t [] _ HP HL Hni) as HP3.
    pose proof (fixedPart_Fixed _ _ (lk_fixed _ _ _ _ _ _ HL)) as Hfx.
    intros Hcfg.
    apply (Pushed_trans BW BH f f3).
    { by eapply Stable_trans. }
    { by rewrite (fx_Depth _ _ Hfx). }
    apply (configuration1_Pushed BW BH f3 f4 G D t); try done.
    + by eapply Shape_stable.
    + apply (GlobalsOK_stable BW BH D fp); [done| |done].
      apply (fx_Globals _ _ Hfx).
    + by eapply Geo_stable.
    + by rewrite (fx_Depth _ _ Hfx), HDp.
    + rewrite (st_stack _ _ _ Hstp3), (st_stack _ _ _ Hst).
      rewrite (sh_stack _ _ _ HS), <- (Geo_length _ _ _ HG).
      rewrite (fa_split _ _ _ _ (ck_area _ _ _ _ _ _ HC)).
      apply (f_equal length) in HU. rewrite length_app in *.
      cbn [length] in *. lia.
Qed.
End Place.

(** ** An inner loop pass *)

Lemma contained_mono imgs imgs' a :
  (∀ i im, imgs !! i = Some im →
     ∃ im', imgs' !! i = Some im' ∧
       COutImage.Width im <= COutImage.Width im' ∧
       COutImage.Height im <= COutImage.Height im') →
  contained imgs a → contained imgs' a.
Proof.
  intros Hm (Hx & Hy & Hi & im & Hl & Hw & Hh).
  destruct (Hm _ _ Hl) as (im' & Hl' & ? & ?).
  split; [done|]. split; [done|]. split; [done|].
  exists im'. split; [done|]. lia.
Qed.

Lemma images_grow (imgs : list COutImage.t) j new :
  COutImage.Width (imgs !!! j) <= COutImage.Width new →
  COutImage.Height (imgs !!! j) <= COutImage.Height new →
  ∀ i im, imgs !! i = Some im →
    ∃ im', <[j := new]> imgs !! i = Some im' ∧
      COutImage.Width im <= COutImage.Width im' ∧
      COutImage.Height im <= COutImage.Height im'.
Proof.
  intros Hw Hh i im Hl. destruct (decide (i = j)) as [->|Hne].
  - exists new. rewrite list_lookup_insert_eq by (by eapply lookup_lt_Some).
    rewrite (list_lookup_total_correct _ _ _ Hl) in Hw, Hh. done.
  - exists im. rewrite list_lookup_insert_ne by done.
    split; [done|]. lia.
Qed.

Lemma imagesWith_lookup was G i im :
  gImgs G !! i = Some im → imagesWith was G !! i = Some im.
Proof. destruct was; cbn; [apply lookup_app_l_Some | done]. Qed.

(** The state after [checkAreaFitAgainstBest] has returned [r]. *)
Lemma commitFit_facts f D a h r :
  depth f = D → (D < length (CAreaFitter.Stack f))%nat →
  let f1 := setRemain f (Some a) (Some h) in
  let f3 := commitFit f1 (Some h) r in
  Stable D f f3 ∧
  (CAreaFitter.Areas f3 = CAreaFitter.Areas f ∧
   CAreaFitter.Globals f3 = CAreaFitter.Globals f ∧
   CAreaFitter.Depth f3 = CAreaFitter.Depth f ∧
   CFitData.OutImageCount (CAreaFitter.fd f3)
   = CFitData.OutImageCount (CAreaFitter.fd f) ∧
   ∀ q, areaNext f3 q = areaNext f q) ∧
  (∀ p, outArea f3 p = outArea f p) ∧
  images f3
  = <[Z.to_nat (COutArea.OutImage (outArea f h)) := CheckFit.OutImage r]>
      (images f) ∧
  CFitData.OutSize (CAreaFitter.fd f3) = CheckFit.OutSize r ∧
  item f3 D
  = CFitAreaStackItem.set_OutAreasTried (CheckFit.OutAreasTried r)
      (CFitAreaStackItem.set_Save (CheckFit.OutImageSave r)
         (CheckFit.OutSizeSave r)
         (CFitAreaStackItem.set_DoOutImageRestore
            (CheckFit.DoOutImageRestore r)
            (CFitAreaStackItem.set_Remain
               (sub32 (COutArea.Width (outArea f h))
                  (CFitArea.Width (CAreaFitter.Areas f !!! a)))
               (sub32 (COutArea.Height (outArea f h))
                  (CFitArea.Height (CAreaFitter.Areas f !!! a)))
               (CFitAreaStackItem.set_OutArea (Some h) (item f D))))).
Proof.
  intros HD Hlen f1 f3.
  assert (Stable D f f1) as Hst1.
  { apply Stable_upd_s; [solve_scalarUpdate | lia | done]. }
  assert (depth f1 = D) as HD1 by (unfold f1, setRemain; by obs).
  assert (D < length (CAreaFitter.Stack f1))%nat as Hlen1.
  { by rewrite (st_stack _ _ _ Hst1). }
  assert (∀ p, outArea f1 p = outArea f p) as Ho1.
  { intros p. unfold f1, setRemain.
    by rewrite outArea_upd_s by solve_scalarUpdate. }
  unfold f3, commitFit. unfold outAreaOf. cbn [default from_option id].
  rewrite Ho1.
  set (j := COutArea.OutImage (outArea f h)).
  set (f2 := upd_fd _ (set_outImage j _ f1)).
  assert (Stable D f1 f2) as Hst2.
  { unfold f2. eapply Stable_trans; [apply Stable_set_outImage|].
    by apply Stable_upd_fd. }
  split; [|split; [|split; [|split; [|split]]]].
  - eapply Stable_trans; [exact Hst1|]. eapply Stable_trans; [exact Hst2|].
    apply Stable_upd_s; [solve_scalarUpdate | |done].
    unfold f2. obs. lia.
  - unfold f2, f1, setRemain. by repeat split.
  - intros p. rewrite outArea_upd_s by solve_scalarUpdate.
    unfold f2. by obs.
  - rewrite images_upd_s. unfold f2. rewrite images_set_OutSize.
    rewrite images_set_outImage. unfold f1, setRemain.
    by rewrite images_upd_s.
  - reflexivity.
  - rewrite item_upd_s_eq;
      [|solve_scalarUpdate|unfold f2; by obs|unfold f2; by obs].
    unfold f2. obs. unfold f1, setRemain.
    rewrite item_upd_s_eq by obs_side. reflexivity.
Qed.

Lemma setRemain_outAreaOf f A O O' :
  outAreaOf (setRemain f A O) O' = outAreaOf f O'.
Proof.
  unfold outAreaOf, setRemain. by rewrite outArea_upd_s by solve_scalarUpdate.
Qed.

Lemma setRemain_areaOf f A O A' : areaOf (setRemain f A O) A' = areaOf f A'.
Proof. reflexivity. Qed.

Lemma item_setRemain f A O :
  (depth f < length (CAreaFitter.Stack f))%nat →
  item (setRemain f A O) (depth (setRemain f A O))
  = CFitAreaStackItem.set_Remain
      (sub32 (COutArea.Width (outAreaOf f O)) (CFitArea.Width (areaOf f A)))
      (sub32 (COutArea.Height (outAreaOf f O)) (CFitArea.Height (areaOf f A)))
      (CFitAreaStackItem.set_OutArea O (item f (depth f))).
Proof.
  intros Hlen. unfold setRemain. rewrite depth_upd_s.
  by rewrite item_upd_s_eq by obs_side.
Qed.

Section Try.
Context (BW BH : Z).

Lemma imagesWith_OK f D G was :
  Shape BW BH f → Geo BW BH f D G →
  Forall (imageOK BW BH) (imagesWith was G) ∧
  gOutSize G = wrap32 (sumSizes (imagesWith was G)).
Proof.
  intros HS HG. pose proof (geo_images _ _ _ _ _ HG) as Hi.
  pose proof (geo_size _ _ _ _ _ HG) as Hs.
  destruct was; cbn [imagesWith]; [|done]. split.
  - apply Forall_app. split; [done|]. constructor; [|done].
    pose proof (sh_maxw _ _ _ HS). pose proof (sh_maxh _ _ _ HS).
    unfold imageOK. cbn. repeat split; try lia.
  - rewrite sumSizes_app. cbn. by rewrite Z.add_0_r.
Qed.

(** The numbers of an area and an output area it is tried in. *)
Lemma host_numbers f D G t :
  Shape BW BH f → Geo BW BH f D G →
  FrameArea f D G t → FrameHost BW BH f D G t →
  let a := CAreaFitter.Areas f !!! tA t in
  let o := outArea f (tH t) in
  (0 <= CFitArea.Width a <= BW ∧ 0 <= CFitArea.Height a <= BH) ∧
  regionOK BW BH
    (length (imagesWith (CFitAreaStackItem.WasOutImageAdded (item f D)) G))
    o ∧
  BW <= INT_MAX ∧ BH <= INT_MAX ∧
  sub32 (COutArea.Width o) (CFitArea.Width a)
  = COutArea.Width o - CFitArea.Width a ∧
  sub32 (COutArea.Height o) (CFitArea.Height a)
  = COutArea.Height o - CFitArea.Height a.
Proof.
  intros HS HG HFA HFH a o.
  assert (tA t < length (CAreaFitter.Areas f))%nat as Halt.
  { apply (geo_all _ _ _ _ _ HG). rewrite (fa_split _ _ _ _ HFA).
    clear. set_solver. }
  pose proof (sh_areas _ _ _ HS) as Hdims. rewrite Forall_forall in Hdims.
  assert (a ∈ CAreaFitter.Areas f) as Hin.
  { by apply list_elem_of_lookup_total_2. }
  specialize (Hdims _ Hin). cbn in Hdims.
  pose proof (fh_region _ _ _ _ _ _ HFH) as Hreg. fold o in Hreg.
  pose proof (sh_bw _ _ _ HS). pose proof (sh_bh _ _ _ HS).
  split; [done|]. split; [done|]. split; [done|]. split; [done|].
  destruct Hreg as (? & ? & ? & ? & ? & ? & ?).
  split; apply sub32_id; unfold is_int, INT_MIN, INT_MAX in *; lia.
Qed.

(** The call of [checkAreaFitAgainstBest] in numbers of the state before
    the pass. *)
Lemma checkFit_setRemain f D G t :
  Shape BW BH f → Geo BW BH f D G → depth f = D →
  (D < length (CAreaFitter.Stack f))%nat →
  FrameArea f D G t → FrameHost BW BH f D G t →
  CFitData.OutImageCount (CAreaFitter.fd f)
  = Z.of_nat (length (imagesWith
                        (CFitAreaStackItem.WasOutImageAdded (item f D)) G)) →
  let a := CAreaFitter.Areas f !!! tA t in
  let o := outArea f (tH t) in
  CFitArea.Width a <= COutArea.Width o →
  CFitArea.Height a <= COutArea.Height o →
  checkFit (setRemain f (Some (tA t)) (Some (tH t))) (Some (tA t))
    (Some (tH t))
  = checkAreaFitAgainstBest (CAreaFitter.MaxOutImageSize f)
      (CFitData.OutSize (CAreaFitter.fd f))
      (CFitData.BestOutSize (CAreaFitter.fd f))
      (COutArea.x o + CFitArea.Width a) (COutArea.y o + CFitArea.Height a)
      (images f !!! Z.to_nat (COutArea.OutImage o))
      (CFitAreaStackItem.DoOutImageRestore (item f D))
      (CFitAreaStackItem.OutImageSave (item f D))
      (CFitAreaStackItem.OutSizeSave (item f D))
      (CFitAreaStackItem.OutAreasTried (item f D)).
Proof.
  intros HS HG HD Hlen HFA HFH Hcnt a o Hw Hh.
  destruct (host_numbers _ _ _ _ HS HG HFA HFH)
    as ((Ha1 & Ha2) & Hreg & HBW & HBH & _ & _).
  fold a o in Ha1, Ha2, Hreg.
  destruct Hreg as (Hx & Hy & HW & HH & HxW & HyH & Hj).
  assert (Z.to_nat (COutArea.OutImage o)
          < Z.to_nat (CFitData.OutImageCount (CAreaFitter.fd f)))%nat as Hjc
    by lia.
  unfold checkFit.
  rewrite !setRemain_outAreaOf, !setRemain_areaOf.
  unfold outAreaOf, areaOf. cbn [default from_option id]. fold a o.
  to_item. rewrite !item_setRemain by lia. rewrite HD. fcbn.
  rewrite !add32_id by (unfold is_int, INT_MIN, INT_MAX in *; lia).
  f_equal. unfold outImage, images.
  change (CAreaFitter.fd (setRemain f (Some (tA t)) (Some (tH t))))
    with (CAreaFitter.fd f).
  rewrite lookup_total_take. by rewrite decide_True.
Qed.

(** The state after the check: the placement is accepted, or nothing has
    changed. *)
Lemma commitFit_Checked f G D t :
  Shape BW BH f → Geo BW BH f D G → depth f = D →
  (D < length (CAreaFitter.Stack f))%nat →
  FrameArea f D G t → FrameHost BW BH f D G t →
  View f (tUa t ++ tUb t) (tLa t ++ tH t :: tLb t)
    (imagesWith (CFitAreaStackItem.WasOutImageAdded (item f D)) G)
    (gOutSize G) →
  CFitArea.Width (CAreaFitter.Areas f !!! tA t)
  <= COutArea.Width (outArea f (tH t)) →
  CFitArea.Height (CAreaFitter.Areas f !!! tA t)
  <= COutArea.Height (outArea f (tH t)) →
  let f1 := setRemain f (Some (tA t)) (Some (tH t)) in
  let r := checkFit f1 (Some (tA t)) (Some (tH t)) in
  let f3 := commitFit f1 (Some (tH t)) r in
  (CheckFit.result r = true → Checked BW BH f3 D G t) ∧
  (CheckFit.result r = false →
     FrameArea f3 D G t ∧ FrameHost BW BH f3 D G t ∧
     View f3 (tUa t ++ tUb t) (tLa t ++ tH t :: tLb t)
       (imagesWith (CFitAreaStackItem.WasOutImageAdded (item f3 D)) G)
       (gOutSize G)).
Proof.
  intros HS HG HD Hlen HFA HFH [Hca Hco Him Hcnt Hsz] Hw Hh f1 r f3.
  destruct (host_numbers _ _ _ _ HS HG HFA HFH)
    as ((Ha1 & Ha2) & Hreg & HBW & HBH & Hsw & Hsh).
  destruct Hreg as (Hx & Hy & HW & HH & HxW & HyH & Hj).
  destruct (imagesWith_OK f D G
              (CFitAreaStackItem.WasOutImageAdded (item f D)) HS HG)
    as [Hok Hsum].
  pose proof (checkFit_setRemain f D G t HS HG HD Hlen HFA HFH Hcnt Hw Hh)
    as Hr.
  fold f1 r in Hr.
  destruct (commitFit_facts f D (tA t) (tH t) r HD Hlen)
    as (Hst3 & (EA & EG & ED & EC & EN) & Ho3 & Him3 & Hsz3 & Hi3).
  fold f1 f3 in Hst3, EA, EG, ED, EC, EN, Ho3, Him3, Hsz3, Hi3.
  set (a := CAreaFitter.Areas f !!! tA t) in *.
  set (o := outArea f (tH t)) in *.
  set (j := Z.to_nat (COutArea.OutImage o)) in *.
  set (imgs := imagesWith (CFitAreaStackItem.WasOutImageAdded (item f D)) G)
    in *.
  rewrite Him in *.
  assert (j < length imgs)%nat as Hjl by lia.
  assert (imgs !! j = Some (imgs !!! j)) as Hlj.
  { by apply list_lookup_lookup_total_lt. }
  assert (imageOK BW BH (imgs !!! j)) as Hokj.
  { rewrite Forall_forall in Hok. apply Hok.
    by eapply list_elem_of_lookup_2. }
  pose proof (checkFit_result (CAreaFitter.MaxOutImageSize f)
                (CFitData.OutSize (CAreaFitter.fd f))
                (CFitData.BestOutSize (CAreaFitter.fd f))
                (COutArea.x o + CFitArea.Width a)
                (COutArea.y o + CFitArea.Height a) (imgs !!! j)
                (CFitAreaStackItem.DoOutImageRestore (item f D))
                (CFitAreaStackItem.OutImageSave (item f D))
                (CFitAreaStackItem.OutSizeSave (item f D))
                (CFitAreaStackItem.OutAreasTried (item f D))) as Hres.
  cbv zeta in Hres. rewrite <- Hr in Hres. destruct Hres as [Hfalse Htrue].
  assert (FrameArea f3 D G t) as HFA3.
  { destruct HFA as
    [fa_area fa_prev fa_split fa_next].
  split; rewrite ?Hi3, ?EA; fcbn; done. }
  assert (FrameHost BW BH f3 D G t) as HFH3.
  { destruct HFH as
    [fh_prev fh_split fh_valid fh_level fh_region fh_fresh].
  split; rewrite ?Hi3, ?Ho3; fcbn; try done.
    by apply (st_valid _ _ _ Hst3). }
  assert (areaChain f3 (tUa t ++ tUb t)) as Hca3.
  { unfold areaChain in *. eapply chain_ext; [|exact Hca]. by intros q _. }
  assert (outChain f3 (tLa t ++ tH t :: tLb t)) as Hco3.
  { unfold outChain in *. eapply chain_ext; [|exact Hco]. intros q _.
    unfold outNext. by rewrite Ho3. }
  assert (CFitAreaStackItem.WasOutImageAdded (item f3 D)
          = CFitAreaStackItem.WasOutImageAdded (item f D)) as Hwas.
  { by rewrite Hi3. }
  split.
  - intros Hres.
    set (new := CheckFit.OutImage r) in *.
    assert (COutImage.Width (imgs !!! j) <= COutImage.Width new ∧
            COutImage.Height (imgs !!! j) <= COutImage.Height new ∧
            COutArea.x o + CFitArea.Width a <= COutImage.Width new ∧
            COutArea.y o + CFitArea.Height a <= COutImage.Height new ∧
            imageOK BW BH new ∧
            CheckFit.OutSize r = wrap32 (sumSizes (<[j := new]> imgs)) ∧
            Grown (item f3 D) j imgs (gOutSize G) (<[j := new]> imgs)
              (CheckFit.OutSize r))
      as (Hg1 & Hg2 & Hg3 & Hg4 & Hg5 & Hg6 & Hg7).
    { unfold Grown. rewrite Hi3. fcbn.
      destruct (Htrue Hres)
        as [(-> & Hos & Hoi & Hnw & Hnh)|(-> & Hsv & Hss & Hoi & Hos)];
        fold new in Hoi.
      - rewrite Hoi, Hos. rewrite list_insert_id by done.
        split; [lia|]. split; [lia|]. split; [lia|]. split; [lia|].
        split; [done|]. split; [by rewrite Hsz, Hsum|]. by split.
      - destruct Hokj as (Hk1 & Hk2 & Hk3).
        rewrite Hoi. cbn [COutImage.Width COutImage.Height].
        split; [lia|]. split; [lia|]. split; [lia|]. split; [lia|].
        split; [|split].
        + unfold imageOK. cbn. repeat split; lia.
        + rewrite Hos, sumSizes_insert by done. cbn [COutImage.Size].
          unfold sub32, add32. rewrite Hsz, Hsum.
          by rewrite wrap32_wrap32_add, wrap32_wrap32_sub.
        + rewrite Hsv, Hss, list_lookup_total_insert_eq by done.
          by rewrite Hsz. }
    split.
    + done.
    + done.
    + by rewrite Hi3.
    + done.
    + done.
    + by rewrite EC, Him3, length_insert.
    + rewrite Ho3, Hwas, Him3, Hsz3. exact Hg7.
    + by rewrite Ho3, EA.
    + rewrite Hi3, Ho3, EA. fcbn. by rewrite Hsw, Hsh.
    + rewrite Him3, EA, (placedBelow_ext _ _ _ (st_item _ _ _ Hst3)).
      eapply Forall_impl; [apply (geo_placed _ _ _ _ _ HG)|].
      intros i Hc. cbv beta in Hc.
      eapply contained_mono; [|exact Hc].
      intros k im Hk. apply (images_grow imgs j new Hg1 Hg2).
      by apply imagesWith_lookup.
    + rewrite Ho3, EA, Him3. exists new.
      rewrite list_lookup_insert_eq by done. by repeat split.
    + rewrite Him3. apply Forall_insert; done.
    + by rewrite Hsz3, Him3.
  - intros Hres. destruct (Hfalse Hres) as [Hos Hoi].
    split; [done|]. split; [done|]. rewrite Hwas. split.
    + done.
    + done.
    + rewrite Him3, Hoi. by apply list_insert_id.
    + by rewrite EC.
    + by rewrite Hsz3, Hos.
Qed.
End Try.

(** ** The inner loop *)

(** The images after [updateCapacity] and the assignment of an empty
    image behind those in use. *)
Lemma images_added {A} `{Inhabited A} (l : list A) (n : nat) (z : A) :
  length (take n l) = n →
  take (S n) (<[n := z]> (updateCapacity (S n) l)) = take n l ++ [z].
Proof.
  intros Hn. rewrite length_take in Hn.
  assert (n < length (updateCapacity (S n) l))%nat as Hlt.
  { unfold updateCapacity. rewrite length_app, length_replicate. lia. }
  rewrite (take_S_r _ _ z) by (by apply list_lookup_insert_eq).
  rewrite take_insert_ge by lia. unfold updateCapacity.
  by rewrite take_app_le by lia.
Qed.

Section Region.
Context (BW BH : Z).

(** A pass from [s -> OutArea = OutArea]: the output area is too small
    and the scan goes on, or the check decides. An output area that was
    added for the area is never too small. *)
Lemma tryOutArea_step f G D t cfg' :
  Shape BW BH f → GlobalsOK BW BH f →
  CAreaFitter.Depth f = Z.of_nat D →
  (D < length (CAreaFitter.Stack f))%nat →
  Geo BW BH f D G →
  FrameArea f D G t → FrameHost BW BH f D G t →
  View f (tUa t ++ tUb t) (tLa t ++ tH t :: tLb t)
    (imagesWith (CFitAreaStackItem.WasOutImageAdded (item f D)) G)
    (gOutSize G) →
  (CFitAreaStackItem.WasOutImageAdded (item f D) = true →
   CFitArea.Width (CAreaFitter.Areas f !!! tA t)
   <= COutArea.Width (outArea f (tH t)) ∧
   CFitArea.Height (CAreaFitter.Areas f !!! tA t)
   <= COutArea.Height (outArea f (tH t))) →
  tryOutArea f (Some (tA t)) (Some (tH t)) = Some cfg' →
  Kept BW BH D G f cfg' ∨ Pushed BW BH D G f cfg'.
Proof.
  intros HS HGl HDz Hlen HG HFA HFH HV Hadded Hrun.
  assert (depth f = D) as HD by (unfold depth; lia).
  destruct (host_numbers BW BH _ _ _ _ HS HG HFA HFH)
    as ((Ha1 & Ha2) & Hreg & HBW & HBH & Hsw & Hsh).
  unfold tryOutArea in Hrun. revert Hrun. to_item.
  rewrite item_setRemain by (rewrite HD; done).
  rewrite HD. unfold areaOf, outAreaOf. cbn [default from_option id].
  fcbn. rewrite Hsw, Hsh.
  destruct t as [a Ua Ub h La Lb]. cbn [tA tUa tUb tH tLa tLb] in *.
  set (ar := CAreaFitter.Areas f !!! a) in *.
  set (o := outArea f h) in *.
  destruct ((COutArea.Width o - CFitArea.Width ar <? 0)
            || (COutArea.Height o - CFitArea.Height ar <? 0)) eqn:Hsmall.
  - (* too small: on to the next output area *)
    intros [= <-]. left.
    destruct (CFitAreaStackItem.WasOutImageAdded (item f D)) eqn:Hwas.
    { destruct (Hadded eq_refl). lia. }
    destruct HV as [Hca Hco Him Hcnt Hsz]. cbn [imagesWith] in *.
    pose proof HFH as [Hprev Hsplit Hvh Hlev _ _].
    cbn [tA tUa tUb tH tLa tLb] in *. rewrite Hwas in Hsplit.
    unfold setRemain, areaOf, outAreaOf. cbn [default from_option id].
    set (g := λ it, CFitAreaStackItem.set_Remain _ _ _).
    assert (Stable D f (upd_s g f)) as Hst1.
    { apply Stable_upd_s; [solve_scalarUpdate | lia | done]. }
    assert (Stable D (upd_s g f)
              (upd_s (CFitAreaStackItem.set_PrevOutArea h) (upd_s g f)))
      as Hst2.
    { apply Stable_upd_s; [solve_scalarUpdate | by rewrite depth_upd_s, HD
                          | done]. }
    assert (item (upd_s (CFitAreaStackItem.set_PrevOutArea h) (upd_s g f)) D
            = CFitAreaStackItem.set_PrevOutArea h (g (item f D))) as Hit.
    { rewrite item_upd_s_eq;
        [|solve_scalarUpdate|by rewrite depth_upd_s
         |by rewrite length_Stack_upd_s].
      by rewrite item_upd_s_eq by obs_side. }
    split.
    + fcbn. by eapply Stable_trans.
    + done.
    + fcbn.
      apply (GlobalsOK_stable BW BH D f); [|reflexivity|exact HGl].
      by eapply Stable_trans.
    + unfold Top. fcbn. rewrite !depth_upd_s, HD.
      exists a, Ua, Ub, (La ++ [h]), Lb.
      rewrite <- app_assoc. cbn [app].
      split; [done|]. split.
      { destruct HFA as [Ha Hp Hs Hn]. cbn [tA tUa tUb] in *.
        split; cbn [tA tUa tUb]; rewrite ?Hit; obs; done. }
      split.
      { apply View_upd_s; [solve_scalarUpdate|].
        apply View_upd_s; [solve_scalarUpdate|].
        rewrite Hsplit. by split. }
      split; [done|]. split.
      { rewrite !outArea_upd_s by solve_scalarUpdate.
        change (COutArea.Next (outArea f h)) with (outNext f h).
        rewrite <- (lastOf_snoc OutAreas La h).
        apply (chain_app_next (outNext f) OutAreas (La ++ [h]) Lb).
        rewrite <- app_assoc. exact Hco. }
      rewrite Hit. fcbn. by rewrite lastOf_snoc.
  - (* the check decides *)
    apply orb_false_iff in Hsmall as [Hw Hh].
    apply Z.ltb_ge in Hw, Hh.
    set (t := mkTrial a Ua Ub h La Lb) in *.
    destruct (commitFit_Checked BW BH f G D t HS HG HD Hlen HFA HFH HV
                ltac:(cbn; fold ar o; lia) ltac:(cbn; fold ar o; lia))
      as [Hyes Hno].
    destruct (commitFit_facts f D a h
                (checkFit (setRemain f (Some a) (Some h)) (Some a) (Some h))
                HD Hlen)
      as (Hst3 & (EA & EG & ED & EC & EN) & Ho3 & Him3 & Hsz3 & Hi3).
    cbn [tA tUa tUb tH tLa tLb] in *.
    set (r := checkFit (setRemain f (Some a) (Some h)) (Some a) (Some h))
      in *.
    set (f3 := commitFit (setRemain f (Some a) (Some h)) (Some h) r) in *.
    assert (Shape BW BH f3) as HS3 by (by eapply Shape_stable).
    assert (GlobalsOK BW BH f3) as HGl3.
    { by apply (GlobalsOK_stable BW BH D f). }
    assert (Geo BW BH f3 D G) as HG3 by (by eapply Geo_stable).
    assert (D < length (CAreaFitter.Stack f3))%nat as Hlen3.
    { by rewrite (st_stack _ _ _ Hst3). }
    destruct (CheckFit.result r) eqn:Hres.
    + intros Hrun.
      destruct (placeArea_step BW BH f3 G D t cfg' HS3 HGl3
                  ltac:(congruence) Hlen3 HG3 (Hyes Hres) Hrun)
        as [HK|HP].
      * left. by apply (Kept_trans BW BH f f3).
      * right. by apply (Pushed_trans BW BH f f3).
    + intros [= <-]. left. destruct (Hno Hres) as (HFA3 & HFH3 & HV3).
      apply (Kept_trans BW BH f f3); [done|done|].
      apply (regionTail_kept BW BH f3 G D t); try done.
Qed.

(** The head of the inner loop: the next output area of the chain is
    tried, or the chain is at its end and the item stops, or it adds an
    output image with one output area in it. *)
Lemma atRegionLoop_step f G D a Ua Ub La Lb cfg' :
  Shape BW BH f → GlobalsOK BW BH f →
  CAreaFitter.Depth f = Z.of_nat D →
  (D < length (CAreaFitter.Stack f))%nat →
  Geo BW BH f D G →
  FrameArea f D G (mkTrial a Ua Ub (BasePtr 0) La Lb) →
  View f (Ua ++ Ub) (gL G) (gImgs G) (gOutSize G) →
  gL G = La ++ Lb →
  CFitAreaStackItem.PrevOutArea (item f D) = lastOf OutAreas La →
  atRegionLoop f (Some a) (head Lb) = Some cfg' →
  Kept BW BH D G f cfg' ∨ Pushed BW BH D G f cfg'.
Proof.
  intros HS HGl HDz Hlen HG HFA HV HL Hprev Hrun.
  assert (depth f = D) as HD by (unfold depth; lia).
  pose proof HFA as [Ha Hp Hs Hn]. cbn [tA tUa tUb] in *.
  destruct Lb as [|h Lb]; cbn [head] in Hrun.
  - (* the end of the chain *)
    unfold atRegionLoop in Hrun. revert Hrun. to_item. rewrite HD.
    assert (Kept BW BH D G f (afterRegionLoop f (Some a) None)) as Hstop.
    { by apply (afterRegionLoop_kept BW BH f G D
                  (mkTrial a Ua Ub (BasePtr 0) La [])). }
    destruct (0 <? CFitAreaStackItem.OutAreasTried (item f D));
      [intros [= <-]; by left|].
    destruct (CFitData.OutImageCount (CAreaFitter.fd f) =?
              CFitData.BestOutImageCount (CAreaFitter.fd f));
      [intros [= <-]; by left|].
    clear Hstop. rewrite app_nil_r in HL.
    cbv zeta. unfold areaOf. cbn [default from_option id].
    pose proof (sh_areas _ _ _ HS) as Hdims. rewrite Forall_forall in Hdims.
    destruct HV as [Hca Hco Him Hcnt Hsz].
    pose proof (geo_NoDup_L _ _ _ _ _ HG) as Hnd.
    set (p := NewPtr D 2).
    assert (∀ q, q ∈ OutAreas :: gL G → validOutPtr f q ∧ q ∉ hostsBelow f D)
      as Hcells.
    { intros q Hq. split; [|by apply (geo_L_not_host _ _ _ _ _ HG)].
      apply elem_of_cons in Hq as [->|Hq]; [cbn; by destruct HS|].
      by apply (geo_L_valid _ _ _ _ _ HG). }
    assert (validOutPtr f p ∧ (p ∉ hostsBelow f D) ∧ (p ∉ OutAreas :: gL G))
      as (Hvp & Hhp & Hfp).
    { split; [|split].
      - destruct (sh_frames _ _ _ HS D Hlen) as [(? & ? & ?) _].
        cbn. split; [done|]. split; [lia|done].
      - intros Hin. apply (geo_host_level _ _ _ _ _ HG) in Hin as [_ Hl].
        cbn in Hl. lia.
      - intros [?|Hin]%elem_of_cons; [done|].
        apply (geo_L_valid _ _ _ _ _ HG) in Hin as [_ Hl]. cbn in Hl. lia. }
    set (W := if CAreaFitter.MaxOutImageWidth f <?
                 CFitArea.Width (CAreaFitter.Areas f !!! a)
              then CFitArea.Width (CAreaFitter.Areas f !!! a)
              else CAreaFitter.MaxOutImageWidth f).
    set (H := if CAreaFitter.MaxOutImageHeight f <?
                 CFitArea.Height (CAreaFitter.Areas f !!! a)
              then CFitArea.Height (CAreaFitter.Areas f !!! a)
              else CAreaFitter.MaxOutImageHeight f).
    set (g := λ o, COutArea.mk (COutArea.OutImage o) 0 0 W H
                     (COutArea.Next o)).
    set (fa := upd_outArea g p f).
    assert (Stable D f fa) as Hsta.
    { apply Stable_upd_outArea_own; [done|lia|done]. }
    assert (∀ q, outNext fa q = outNext f q) as Hna.
    { intros q. unfold outNext, fa. rewrite outArea_upd_outArea by done.
      case_decide; [by subst|done]. }
    assert (outChain fa (gL G)) as Hcoa.
    { unfold outChain in *. eapply chain_ext; [|exact Hco]. intros q _.
      apply Hna. }
    assert (validOutPtr fa p) as Hvpa by (by apply (st_valid _ _ _ Hsta)).
    assert (Forall (validOutPtr fa) (OutAreas :: gL G)) as Hvall.
    { apply Forall_forall. intros q Hq. apply (st_valid _ _ _ Hsta).
      by apply Hcells. }
    destruct (insertOutArea fa p) as [[f2 prev]|] eqn:Hins; [|done].
    cbn [mbind option_bind].
    destruct (insertOutArea_Some fa p (gL G) f2 prev Hcoa Hnd Hfp Hvpa Hvall
                Hins)
      as (A & B & HLeq & -> & -> & Hc2 & _ & _).
    set (r := lastOf OutAreas A) in *.
    assert (r ∈ OutAreas :: gL G) as Hrin.
    { rewrite HLeq. apply lastOf_out_in. }
    destruct (Hcells _ Hrin) as [Hvr Hhr].
    assert (r ≠ p) as Hrp by (intros Heq; by rewrite Heq in Hrin).
    set (f1 := upd_outArea (COutArea.set_Next (outNext fa r)) p fa) in *.
    set (f2 := upd_outArea (COutArea.set_Next (Some p)) r f1) in *.
    assert (Stable D fa f1) as Hst1.
    { apply Stable_upd_outArea_Next; [done|].
      by rewrite (hostsBelow_ext f fa D (st_item _ _ _ Hsta)). }
    pose proof (Stable_trans _ _ _ _ Hsta Hst1) as Hsta1.
    assert (Stable D f1 f2) as Hst2.
    { apply Stable_upd_outArea_Next; [by apply (st_valid _ _ _ Hsta1)|].
      by rewrite (hostsBelow_ext f f1 D (st_item _ _ _ Hsta1)). }
    pose proof (Stable_trans _ _ _ _ Hsta1 Hst2) as Hsta2.
    assert (depth f2 = D) as HD2 by (unfold f2, f1, fa; by obs).
    assert (D < length (CAreaFitter.Stack f2))%nat as Hlen2.
    { by rewrite (st_stack _ _ _ Hsta2). }
    assert (item f2 D = item f D) as Hi2 by (unfold f2, f1, fa; by obs).
    assert (∀ q, outArea f2 q
                 = if decide (q = r)
                   then COutArea.set_Next (Some p) (outArea f r)
                   else if decide (q = p)
                        then COutArea.mk (COutArea.OutImage (outArea f p))
                               0 0 W H (outNext f r)
                        else outArea f q) as Hout2.
    { intros q. unfold f2.
      rewrite outArea_upd_outArea by (by apply (st_valid _ _ _ Hsta1)).
      case_decide as Hq.
      - unfold f1. rewrite outArea_upd_outArea by done.
        rewrite decide_False by done. unfold fa.
        rewrite outArea_upd_outArea by done. by rewrite decide_False.
      - unfold f1. rewrite outArea_upd_outArea by done.
        case_decide; [|unfold fa; rewrite outArea_upd_outArea by done;
                        by rewrite decide_False].
        unfold fa at 2. rewrite outArea_upd_outArea by done.
        rewrite decide_True by done. cbn. by rewrite Hna. }
    assert (CFitData.OutImageCount
              (CAreaFitter.fd (upd_s (CFitAreaStackItem.set_PrevOutArea r) f2))
            = Z.of_nat (length (gImgs G))) as Hcn.
    { rewrite <- Hcnt. unfold f2, f1, fa. by obs. }
    rewrite Hcn.
    pose proof (geo_count _ _ _ _ _ HG) as Hgc.
    pose proof (sh_stack _ _ _ HS) as Hss.
    pose proof (sh_count _ _ _ HS) as Hsc.
    assert (add32 (Z.of_nat (length (gImgs G))) 1
            = Z.of_nat (length (gImgs G)) + 1) as Hadd.
    { apply add32_id. unfold is_int, INT_MIN, INT_MAX in *. lia. }
    rewrite Hadd.
    set (n := length (gImgs G)) in *.
    set (f3 := upd_s (CFitAreaStackItem.set_PrevOutArea r) f2).
    set (f4 := upd_outArea (COutArea.set_OutImage (Z.of_nat n)) p f3).
    set (f5 := upd_fd _ f4).
    set (f6 := set_outImage (Z.of_nat n) COutImage.zero f5).
    set (f7 := upd_fd _ f6).
    set (f8 := upd_s (CFitAreaStackItem.set_WasOutImageAdded true) f7).
    assert (Stable D f2 f3) as Hst3.
    { apply Stable_upd_s; [solve_scalarUpdate | lia | done]. }
    pose proof (Stable_trans _ _ _ _ Hsta2 Hst3) as Hsta3.
    assert (Stable D f3 f4) as Hst4.
    { apply Stable_upd_outArea_own;
        [by apply (st_valid _ _ _ Hsta3) | lia |].
      by rewrite (hostsBelow_ext f f3 D (st_item _ _ _ Hsta3)). }
    pose proof (Stable_trans _ _ _ _ Hsta3 Hst4) as Hsta4.
    assert (Stable D f4 f8) as Hst8.
    { assert (Stable D f4 f5) as H5 by (by apply Stable_upd_fd).
      assert (Stable D f5 f6) as H6 by apply Stable_set_outImage.
      assert (Stable D f6 f7) as H7 by (by apply Stable_upd_fd).
      assert (Stable D f7 f8) as H8.
      { apply Stable_upd_s; [solve_scalarUpdate | | done].
        unfold f7, f6, f5, f4, f3. obs. lia. }
      eapply Stable_trans; [exact H5|]. eapply Stable_trans; [exact H6|].
      eapply Stable_trans; [exact H7|exact H8]. }
    pose proof (Stable_trans _ _ _ _ Hsta4 Hst8) as Hsta8.
    assert (item f8 D
            = CFitAreaStackItem.set_WasOutImageAdded true
                (CFitAreaStackItem.set_PrevOutArea r (item f D))) as Hi8.
    { unfold f8. rewrite item_upd_s_eq;
        [|solve_scalarUpdate
         |unfold f7, f6, f5, f4, f3; by obs
         |unfold f7, f6, f5, f4, f3; by obs].
      unfold f7, f6, f5, f4, f3. obs. by rewrite Hi2. }
    assert (validOutPtr f3 p) as Hvp3 by (by apply (st_valid _ _ _ Hsta3)).
    assert (∀ q, outArea f8 q
                 = if decide (q = p)
                   then COutArea.set_OutImage (Z.of_nat n) (outArea f2 p)
                   else outArea f2 q) as Hout8.
    { intros q. unfold f8, f7, f6, f5. obs. unfold f4.
      rewrite outArea_upd_outArea by done. unfold f3.
      by rewrite !outArea_upd_s by solve_scalarUpdate. }
    assert (CAreaFitter.fd f4 = CAreaFitter.fd f2) as Hfd4.
    { reflexivity. }
    assert (CFitData.OutImages (CAreaFitter.fd f2)
            = CFitData.OutImages (CAreaFitter.fd f) ∧
            CFitData.OutSize (CAreaFitter.fd f2)
            = CFitData.OutSize (CAreaFitter.fd f)) as [Himgs2 Hsz2].
    { unfold f2, f1, fa. by obs. }
    assert (images f8 = gImgs G ++ [COutImage.zero]) as Him8.
    { unfold images in *. unfold f8, f7, f6, f5. fcbn.
      rewrite Hfd4, Himgs2. rewrite Hcnt in Him.
      replace (Z.to_nat (Z.of_nat n + 1)) with (S n) by lia.
      rewrite !Nat2Z.id in *.

      rewrite images_added by (by rewrite Him). by rewrite Him. }
    assert (CAreaFitter.Areas f8 = CAreaFitter.Areas f ∧
            CAreaFitter.Globals f8 = CAreaFitter.Globals f ∧
            CAreaFitter.Depth f8 = CAreaFitter.Depth f ∧
            (∀ q, areaNext f8 q = areaNext f q)) as (EA & EG & ED & EN).
    { unfold f8, f7, f6, f5, f4, f3, f2, f1, fa.
      split; [|split; [|split]].
      - fcbn. rewrite Areas_upd_outArea. fcbn.
        by rewrite !Areas_upd_outArea.
      - fcbn. rewrite Globals_upd_outArea. fcbn.
        by rewrite !Globals_upd_outArea.
      - fcbn. rewrite Depth_upd_outArea. fcbn.
        by rewrite !Depth_upd_outArea.
      - intros q. by obs. }
    assert (CFitData.OutImageCount (CAreaFitter.fd f8) = Z.of_nat n + 1 ∧
            CFitData.OutSize (CAreaFitter.fd f8) = gOutSize G)
      as [Hcnt8 Hsz8].
    { unfold f8, f7, f6, f5. fcbn. by rewrite Hfd4, Hsz2. }
    assert (0 <= W <= BW ∧ 0 <= H <= BH ∧
            CFitArea.Width (CAreaFitter.Areas f !!! a) <= W ∧
            CFitArea.Height (CAreaFitter.Areas f !!! a) <= H)
      as (HW & HH & HaW & HaH).
    { assert (a ∈ gU G) as Hain by (rewrite Hs; set_solver).
      pose proof (geo_U_valid _ _ _ _ _ HG) as HUv.
      rewrite Forall_forall in HUv. apply HUv in Hain.
      assert (CAreaFitter.Areas f !!! a ∈ CAreaFitter.Areas f) as Hel.
      { by apply list_elem_of_lookup_total_2. }
      apply Hdims in Hel.
      pose proof (sh_maxw _ _ _ HS). pose proof (sh_maxh _ _ _ HS).
      unfold W, H. repeat case_match; lia. }
    assert (outArea f8 p
            = COutArea.mk (Z.of_nat n) 0 0 W H (outNext f r)) as Hop.
    { rewrite Hout8, decide_True by done.
      rewrite Hout2, decide_False by done. by rewrite decide_True. }
    intros Hrun.
    destruct (tryOutArea_step f8 G D (mkTrial a Ua Ub p A B) cfg')
      as [HK|HP]; try done.
    + by eapply Shape_stable.
    + by apply (GlobalsOK_stable BW BH D f).
    + congruence.
    + by rewrite (st_stack _ _ _ Hsta8).
    + by eapply Geo_stable.
    + split; cbn [tA tUa tUb]; rewrite ?Hi8, ?EA; done.
    + split; cbn [tH tLa tLb]; rewrite ?Hi8; fcbn.
      * done.
      * done.
      * by apply (st_valid _ _ _ Hsta8).
      * cbn. lia.
      * rewrite Hop. unfold regionOK, imagesWith. rewrite length_app.
        fold n. cbn. lia.
      * intros _. by rewrite Hop.
    + rewrite Hi8. fcbn. cbn [tUa tUb tH tLa tLb imagesWith]. split.
      * unfold areaChain in *. eapply chain_ext; [|exact Hca]. by intros q _.
      * unfold outChain in *. eapply chain_ext; [|exact Hc2]. intros q _.
        unfold outNext. rewrite Hout8. by case_decide; subst.
      * done.
      * rewrite length_app. fold n. cbn. lia.
      * done.
    + intros _. cbn [tA tH]. rewrite EA, Hop. done.
    + left. by apply (Kept_trans BW BH f f8).
    + right. by apply (Pushed_trans BW BH f f8).
  - (* an output area of the chain *)
    unfold atRegionLoop in Hrun.
    set (f' := upd_s (CFitAreaStackItem.set_WasOutImageAdded false) f) in *.
    assert (Stable D f f') as Hst.
    { apply Stable_upd_s; [solve_scalarUpdate | lia | done]. }
    assert (item f' D = CFitAreaStackItem.set_WasOutImageAdded false
                          (item f D)) as Hi.
    { unfold f'. by rewrite item_upd_s_eq by obs_side. }
    assert (h ∈ gL G) as Hin by (rewrite HL; set_solver).
    destruct (geo_L_valid _ _ _ _ _ HG _ Hin) as [Hvh Hlh].
    pose proof (geo_regions _ _ _ _ _ HG) as Hreg.
    rewrite Forall_forall in Hreg. specialize (Hreg _ Hin).
    destruct HV as [Hca Hco Him Hcnt Hsz].
    destruct (tryOutArea_step f' G D (mkTrial a Ua Ub h La Lb) cfg')
      as [HK|HP]; try done.
    + by eapply Shape_stable.
    + by apply (GlobalsOK_stable BW BH D f).
    + by rewrite <- (st_stack _ _ _ Hst) in Hlen.
    + by eapply Geo_stable.
    + split; cbn [tA tUa tUb]; rewrite ?Hi; done.
    + split; cbn [tH tLa tLb]; rewrite ?Hi; fcbn; try done.
      * by apply (st_valid _ _ _ Hst).
      * eapply ptrLevel_mono; [|exact Hlh]. lia.
      * unfold f'. by rewrite outArea_upd_s by solve_scalarUpdate.
    + rewrite Hi. fcbn. cbn [tUa tUb tH tLa tLb imagesWith].
      apply View_upd_s; [solve_scalarUpdate|]. rewrite <- HL. by split.
    + rewrite Hi. fcbn. done.
    + left. by apply (Kept_trans BW BH f f').
    + right. by apply (Pushed_trans BW BH f f').
Qed.

End Region.

(** ** The whole search *)

Section Run.
Context (BW BH : Z).

(** Every step keeps the invariant. *)
Lemma step_Inv cfg cfg' :
  Inv BW BH cfg → step cfg = Some cfg' → Inv BW BH cfg'.
Proof.
  destruct cfg as [f A O loc]. intros HI Hstep.
  unfold step in Hstep. cbn [Config.fitter Config.Area Config.OutArea
                              Config.loc] in Hstep.
  destruct loc.
  - injection Hstep as <-. by apply atCodeLoc1_Inv.
  - destruct HI as (HS & HGl & [Hloc|(Gs & G & HD & Hlen & HB & HG & Htop)]);
      [discriminate Hloc|].
    cbn [Config.fitter] in *. unfold Top in Htop.
    cbn [Config.fitter Config.loc Config.Area Config.OutArea] in Htop.
    assert (depth f = length Gs) as Hd by (unfold depth; lia).
    rewrite Hd in Htop.
    destruct Htop as (a & Ua & Ub & La & Lb & -> & HFA & HV & HL & -> & Hp).
    destruct (atRegionLoop_step BW BH f G (length Gs) a Ua Ub La Lb cfg')
      as [HK|HP]; try done.
    + by apply (Kept_Inv BW BH cfg' f Gs G).
    + by apply (Pushed_Inv BW BH cfg' f Gs G).
  - destruct HI as (HS & HGl & [Hloc|(Gs & G & HD & Hlen & HB & HG & Htop)]);
      [discriminate Hloc|].
    cbn [Config.fitter] in *. unfold Top in Htop.
    cbn [Config.fitter Config.loc Config.Area Config.OutArea] in Htop.
    assert (depth f = length Gs) as Hd by (unfold depth; lia).
    rewrite Hd in Htop.
    destruct Htop as (Gc & t & HSu & HGc & HV & -> & ->).
    destruct (atCodeLoc2_step BW BH f G Gc (length Gs) t cfg')
      as [HK|HP]; try done.
    + by apply (Kept_Inv BW BH cfg' f Gs G).
    + by apply (Pushed_Inv BW BH cfg' f Gs G).
  - destruct HI as (HS & HGl & [Hloc|(Gs & G & HD & Hlen & HB & HG & Htop)]);
      [discriminate Hloc|].
    cbn [Config.fitter] in *. unfold Top in Htop.
    cbn [Config.fitter Config.loc Config.Area Config.OutArea] in Htop.
    assert (depth f = length Gs) as Hd by (unfold depth; lia).
    rewrite Hd in Htop.
    destruct Htop as (Gc & t & HSu & HGc & HV & -> & ->).
    apply (Kept_Inv BW BH cfg' f Gs G); try done.
    by apply (atCodeLoc3_kept BW BH f G Gc (length Gs) t cfg').
  - by injection Hstep as <-.
Qed.

(** When the search returns, the fit kept in [Globals], if there is one,
    is a solution. *)
Lemma run_Inv fuel cfg f' :
  Inv BW BH cfg → run fuel cfg = Some f' →
  Shape BW BH f' ∧ GlobalsOK BW BH f'.
Proof.
  revert cfg. induction fuel as [|fuel IH]; intros cfg HI Hrun.
  - cbn in Hrun. destruct (Config.loc cfg); try done.
    injection Hrun as <-. by destruct HI as (? & ? & _).
  - cbn in Hrun.
    assert (Config.loc cfg = AtReturn ∨
            ∃ cfg', step cfg = Some cfg' ∧ run fuel cfg' = Some f')
      as [Hret|(cfg' & Hstep & Hrest)].
    { destruct (Config.loc cfg); try (by left); right;
        destruct (step cfg) as [cfg'|]; try done; by exists cfg'. }
    + rewrite Hret in Hrun. injection Hrun as <-.
      by destruct HI as (? & ? & _).
    + apply (IH cfg'); [|done]. by eapply step_Inv.
Qed.

End Run.

(** ** The initial state *)

Lemma cellBefore_inj i j : cellBefore i = cellBefore j → i = j.
Proof. destruct i, j; cbn; naive_solver. Qed.

(** A chain that is given link by link. *)
Lemma chain_cells (next : AreaPtr → option AreaPtr) (j k : nat) :
  (∀ i, (j <= i < j + k)%nat → next (cellBefore i) = Some (AreasPtr i)) →
  next (cellBefore (j + k)) = None →
  chain next (cellBefore j) (AreasPtr <$> seq j k).
Proof.
  revert j. induction k as [|k IH]; intros j Hlinks Hend.
  - cbn. by rewrite Nat.add_0_r in Hend.
  - cbn [seq fmap list_fmap chain]. split; [apply Hlinks; lia|].
    apply (IH (S j)).
    + intros i Hi. apply Hlinks. lia.
    + by rewrite <- Nat.add_succ_comm in Hend.
Qed.

(** The loop of the constructor that chains the areas. *)
Lemma linkAreas_fold (f0 : CAreaFitter.t) (k : nat) :
  (k <= length (CAreaFitter.Areas f0))%nat →
  ∃ f,
    foldl (λ '(f, PrevImgArea) i,
        (upd_area (CFitArea.set_Next (Some i)) PrevImgArea f, AreasPtr i))
      (f0, UnfittedAreas) (seq 0 k) = (f, cellBefore k) ∧
    (∀ i, (i < k)%nat → areaNext f (cellBefore i) = Some (AreasPtr i)) ∧
    length (CAreaFitter.Areas f) = length (CAreaFitter.Areas f0) ∧
    (∀ i, areaDims (CAreaFitter.Areas f !!! i)
          = areaDims (CAreaFitter.Areas f0 !!! i)) ∧
    (∀ i, areaRect (CAreaFitter.Areas f !!! i)
          = areaRect (CAreaFitter.Areas f0 !!! i)) ∧
    CAreaFitter.set_InitArea CFitArea.default (CAreaFitter.set_Areas [] f)
    = CAreaFitter.set_InitArea CFitArea.default (CAreaFitter.set_Areas [] f0).
Proof.
  induction k as [|k IH]; intros Hk.
  - exists f0. cbn. repeat split; try done. intros i Hi. lia.
  - destruct IH as (f & Hfold & Hlinks & Hlen & Hdims & Hrect & Hrest);
      [lia|].
    assert (validAreaPtr f (cellBefore k)) as Hv.
    { destruct k; cbn; [done|lia]. }
    exists (upd_area (CFitArea.set_Next (Some k)) (cellBefore k) f).
    rewrite seq_S, foldl_app, Hfold. cbn [foldl Nat.add cellBefore].
    split; [done|]. split; [|split; [|split; [|split]]].
    + intros i Hi. rewrite areaNext_upd_area by done.
      case_decide as Heq; [by apply cellBefore_inj in Heq as ->|].
      apply Hlinks. destruct (decide (i = k)) as [->|]; [done|lia].
    + by rewrite length_Areas_upd_area.
    + intros i. rewrite Areas_lookup_upd_area by done.
      case_decide; by rewrite <- Hdims.
    + intros i. rewrite Areas_lookup_upd_area by done.
      case_decide; by rewrite <- Hrect.
    + rewrite <- Hrest. by destruct k.
Qed.

(** What the constructor builds: the areas as they were given, chained in
    their order, and an empty stack. *)
Lemma newAreaFitter_spec (MaxW MaxH MaxS : Z) (g : CGlobals.t)
    (areas : list CFitArea.t) (d : CFitData.t) :
  let f := newAreaFitter MaxW MaxH MaxS g areas d in
  areaChain f (seq 0 (length areas)) ∧
  length (CAreaFitter.Areas f) = length areas ∧
  (∀ i, areaDims (CAreaFitter.Areas f !!! i) = areaDims (areas !!! i)) ∧
  (∀ i, areaRect (CAreaFitter.Areas f !!! i) = areaRect (areas !!! i)) ∧
  CAreaFitter.Stack f
  = replicate (length areas) CFitAreaStackItem.default ∧
  CAreaFitter.fd f = d ∧ CAreaFitter.Globals f = g ∧
  CAreaFitter.Depth f = -1 ∧ CAreaFitter.FitCallsLeft f = 0 ∧
  CAreaFitter.MaxOutImageWidth f = MaxW ∧
  CAreaFitter.MaxOutImageHeight f = MaxH ∧
  CAreaFitter.MaxOutImageSize f = MaxS.
Proof.
  unfold newAreaFitter.
  set (f0 := CAreaFitter.mk _ _ _ _ _ _ _ _ _ _).
  destruct (linkAreas_fold f0 (length areas))
    as (f1 & -> & Hlinks & Hlen & Hdims & Hrect & Hrest); [done|].
  cbv zeta.
  assert (validAreaPtr f1 (cellBefore (length areas))) as Hv.
  { destruct (length areas) eqn:E; cbn; [done|].
    rewrite Hlen. cbn. lia. }
  split; [|split; [|split; [|split]]].
  - apply (chain_cells _ 0 (length areas)).
    + intros i Hi. rewrite areaNext_upd_area by done.
      case_decide as Heq; [apply cellBefore_inj in Heq; lia|].
      apply Hlinks. lia.
    + rewrite areaNext_upd_area by done. by rewrite decide_True.
  - by rewrite length_Areas_upd_area, Hlen.
  - intros i. rewrite Areas_lookup_upd_area by done.
    case_decide; by rewrite <- Hdims.
  - intros i. rewrite Areas_lookup_upd_area by done.
    case_decide; by rewrite <- Hrect.
  - pose proof (f_equal CAreaFitter.Stack Hrest) as H1.
    pose proof (f_equal CAreaFitter.fd Hrest) as H2.
    pose proof (f_equal CAreaFitter.Globals Hrest) as H3.
    pose proof (f_equal CAreaFitter.Depth Hrest) as H4.
    pose proof (f_equal CAreaFitter.FitCallsLeft Hrest) as H5.
    pose proof (f_equal CAreaFitter.MaxOutImageWidth Hrest) as H6.
    pose proof (f_equal CAreaFitter.MaxOutImageHeight Hrest) as H7.
    pose proof (f_equal CAreaFitter.MaxOutImageSize Hrest) as H8.
    cbn in H1, H2, H3, H4, H5, H6, H7, H8.
    destruct (cellBefore (length areas)); cbn; by repeat split.
Qed.

Lemma newAreaFitter_given (MaxW MaxH MaxS : Z) (g : CGlobals.t)
    (areas : list CFitArea.t) (d : CFitData.t) :
  let f := newAreaFitter MaxW MaxH MaxS g areas d in
  areaDims <$> CAreaFitter.Areas f = areaDims <$> areas ∧
  areaRect <$> CAreaFitter.Areas f = areaRect <$> areas.
Proof.
  intros f.
  destruct (newAreaFitter_spec MaxW MaxH MaxS g areas d)
    as (_ & Hlen & Hdims & Hrect & _).
  fold f in Hlen, Hdims, Hrect.
  split.
  - apply list_eq_same_length with (length areas);
      rewrite ?length_fmap; try done.
    intros i x y Hi Hx Hy. rewrite list_lookup_fmap in Hx, Hy.
    apply fmap_Some in Hx as (a & Ha & ->).
    apply fmap_Some in Hy as (b & Hb & ->).
    apply list_lookup_total_correct in Ha, Hb. by rewrite <- Ha, <- Hb.
  - apply list_eq_same_length with (length areas);
      rewrite ?length_fmap; try done.
    intros i x y Hi Hx Hy. rewrite list_lookup_fmap in Hx, Hy.
    apply fmap_Some in Hx as (a & Ha & ->).
    apply fmap_Some in Hy as (b & Hb & ->).
    apply list_lookup_total_correct in Ha, Hb. by rewrite <- Ha, <- Hb.
Qed.

(** A chain of base cells that is given link by link. *)
Lemma chain_base (next : OutAreaPtr → option OutAreaPtr) (j k : nat) :
  (∀ i, (j <= i < j + k)%nat → next (BasePtr i) = Some (BasePtr (S i))) →
  next (BasePtr (j + k)) = None →
  chain next (BasePtr j) (BasePtr <$> seq (S j) k).
Proof.
  revert j. induction k as [|k IH]; intros j Hlinks Hend.
  - cbn. by rewrite Nat.add_0_r in Hend.
  - cbn [seq fmap list_fmap chain]. split; [apply Hlinks; lia|].
    apply (IH (S j)).
    + intros i Hi. apply Hlinks. lia.
    + by rewrite <- Nat.add_succ_comm in Hend.
Qed.

(** The loop that gives every output image its output area. *)
Lemma initBaseOutAreas_spec (imgs : list COutImage.t) (m : nat)
    (MaxW MaxH : Z) :
  let base := initBaseOutAreas imgs m MaxW MaxH in
  length base = S m ∧
  (∀ i, (i < m)%nat → COutArea.Next (base !!! i) = Some (BasePtr (S i))) ∧
  COutArea.Next (base !!! m) = None ∧
  (∀ i, (i < m)%nat →
     outRect (base !!! S i)
     = (Z.of_nat i, 0, 0,
        if COutImage.Width (imgs !!! i) =? 0 then MaxW
        else COutImage.Width (imgs !!! i),
        if COutImage.Height (imgs !!! i) =? 0 then MaxH
        else COutImage.Height (imgs !!! i))).
Proof.
  unfold initBaseOutAreas.
  set (body := λ '(base, PrevOutArea) i, _).
  assert (∀ k, (k <= m)%nat →
    ∃ base,
      foldl body (replicate (S m) COutArea.default, 0%nat) (seq 0 k)
      = (base, k) ∧
      length base = S m ∧
      (∀ i, (i < k)%nat →
         COutArea.Next (base !!! i) = Some (BasePtr (S i))) ∧
      (∀ i, (i < k)%nat →
         outRect (base !!! S i)
         = (Z.of_nat i, 0, 0,
            if COutImage.Width (imgs !!! i) =? 0 then MaxW
            else COutImage.Width (imgs !!! i),
            if COutImage.Height (imgs !!! i) =? 0 then MaxH
            else COutImage.Height (imgs !!! i)))) as Hfold.
  { induction k as [|k IH]; intros Hk.
    - exists (replicate (S m) COutArea.default). cbn [seq foldl].
      split; [done|]. split; [by rewrite length_replicate|].
      split; intros i Hi; lia.
    - destruct IH as (base & Hf & Hlen & Hnext & Hrect); [lia|].
      rewrite seq_S, foldl_app, Hf. cbn [foldl Nat.add body].
      eexists. split; [reflexivity|]. split; [|split].
      + by rewrite !length_alter.
      + intros i Hi.
        rewrite list_lookup_total_alter_ne by lia.
        destruct (decide (i = k)) as [->|].
        * by rewrite list_lookup_total_alter_eq by lia.
        * rewrite list_lookup_total_alter_ne by lia. apply Hnext. lia.
      + intros i Hi. destruct (decide (i = k)) as [->|].
        * by rewrite list_lookup_total_alter_eq
            by (rewrite length_alter; lia).
        * rewrite list_lookup_total_alter_ne by lia.
          destruct (decide (S i = k)) as [<-|].
          -- rewrite list_lookup_total_alter_eq by lia.
             rewrite <- Hrect by lia. done.
          -- rewrite list_lookup_total_alter_ne by lia. apply Hrect. lia. }
  destruct (Hfold m) as (base & -> & Hlen & Hnext & Hrect); [done|].
  cbv zeta. split; [by rewrite length_alter|]. split; [|split].
  - intros i Hi. rewrite list_lookup_total_alter_ne by lia. by apply Hnext.
  - by rewrite list_lookup_total_alter_eq by lia.
  - intros i Hi. destruct (decide (S i = m)) as [<-|].
    + rewrite list_lookup_total_alter_eq by lia. by rewrite <- Hrect by lia.
    + rewrite list_lookup_total_alter_ne by lia. by apply Hrect.
Qed.

(** Output areas in different output images are separated. *)
Lemma allSep_images (s k : nat) (W H : Z) :
  allSep ((λ j, (Z.of_nat j, 0, 0, W, H)) <$> seq s k).
Proof.
  revert s. induction k as [|k IH]; intros s; [done|].
  cbn [seq fmap list_fmap allSep]. split; [|apply IH].
  apply Forall_fmap, Forall_forall. intros j Hj%elem_of_seq.
  cbn. left. lia.
Qed.

Lemma sumSizes_zero (m : nat) : sumSizes (replicate m COutImage.zero) = 0.
Proof.
  induction m as [|m IH]; [done|]. unfold sumSizes in *. cbn. lia.
Qed.

(** The invariant holds when [fitAreas] calls [fitUnfittedAreas]. *)
Lemma start_Inv_within (BW BH MaxW MaxH MaxS : Z) (g : CGlobals.t)
    (areas : list CFitArea.t) (MinOutImageCount : Z) :
  BW <= INT_MAX → BH <= INT_MAX →
  (1 <= length areas)%nat →
  Forall (λ a, 0 <= CFitArea.Width a <= BW ∧
               0 <= CFitArea.Height a <= BH) areas →
  0 <= MaxW <= BW → 0 <= MaxH <= BH →
  0 <= MinOutImageCount →
  MinOutImageCount + 1 + Z.of_nat (length areas) <= INT_MAX →
  CGlobals.BestOutSize g = 2147483647 →
  Inv BW BH
    (Config.mk
       (pushStack
          (newAreaFitter MaxW MaxH MaxS g areas
             (initFitData MaxW MaxH MinOutImageCount)))
       None None AtCodeLoc1).
Proof.
  intros HBW HBH Hn Hareas HW HH Hm Hcount Hg.
  destruct (newAreaFitter_spec MaxW MaxH MaxS g areas
              (initFitData MaxW MaxH MinOutImageCount))
    as (Hca & Hlen & Hdims & _ & Hstack & Hfd & Hgl & Hdepth & _ & HmW & HmH
        & _).
  set (f := newAreaFitter _ _ _ _ _ _) in *.
  set (m := Z.to_nat MinOutImageCount).
  destruct (initBaseOutAreas_spec (replicate m COutImage.zero) m MaxW MaxH)
    as (Hblen & Hbnext & Hbend & Hbrect).
  set (n := length areas) in *.
  assert (depth (pushStack f) = 0%nat) as Hd0.
  { unfold depth, pushStack. fcbn. rewrite Hdepth. done. }
  assert (CAreaFitter.Stack (pushStack f)
          = alter (λ it, CFitAreaStackItem.set_PrevArea UnfittedAreas
                           (CFitAreaStackItem.set_Area (head (seq 0 n)) it))
              0%nat (replicate n CFitAreaStackItem.default)) as Hst0.
  { unfold pushStack, upd_s. fcbn. unfold depth. fcbn. rewrite Hdepth.
    rewrite Hstack. cbn [Z.add Z.to_nat Z.opp Pos.to_nat].
    change (Z.to_nat (-1 + 1)) with 0%nat.
    by rewrite <- (areaChain_head f _ Hca). }
  assert (CAreaFitter.Areas (pushStack f) = CAreaFitter.Areas f) as HA0
    by reflexivity.
  assert (CAreaFitter.fd (pushStack f)
          = initFitData MaxW MaxH MinOutImageCount) as Hfd0 by exact Hfd.
  assert (∀ q, areaNext (pushStack f) q = areaNext f q) as Hnext0
    by reflexivity.
  assert (∀ i, outArea (pushStack f) (BasePtr i)
               = initBaseOutAreas (replicate m COutImage.zero) m MaxW MaxH
                   !!! i) as Hbase0.
  { intros i. unfold outArea. by rewrite Hfd0. }
  assert (length (CFitData.BaseOutAreas (CAreaFitter.fd (pushStack f)))
          = S m) as Hblen0.
  { by rewrite Hfd0. }
  assert (length (CAreaFitter.Stack (pushStack f)) = n) as Hslen0.
  { by rewrite Hst0, length_alter, length_replicate. }
  assert (∀ d, (d < n)%nat →
            CFitAreaStackItem.NewOutAreas (CAreaFitter.Stack (pushStack f) !!! d)
            = CFitAreaStackItem.NewOutAreas CFitAreaStackItem.default ∧
            CFitAreaStackItem.PrevNewOutAreas (item (pushStack f) d)
            = CFitAreaStackItem.PrevNewOutAreas CFitAreaStackItem.default)
    as Hcells.
  { intros d Hd. unfold item. rewrite Hst0.
    destruct (decide (d = 0%nat)) as [->|].
    - rewrite list_lookup_total_alter_eq by (rewrite length_replicate; lia).
      by rewrite lookup_total_replicate_2 by lia.
    - rewrite list_lookup_total_alter_ne by done.
      by rewrite lookup_total_replicate_2 by lia. }
  assert (item (pushStack f) 0
          = CFitAreaStackItem.set_PrevArea UnfittedAreas
              (CFitAreaStackItem.set_Area (head (seq 0 n))
                 (frameScalars CFitAreaStackItem.default))) as Hi0.
  { unfold item. rewrite Hst0.
    rewrite list_lookup_total_alter_eq by (rewrite length_replicate; lia).
    by rewrite lookup_total_replicate_2 by lia. }
  unfold Inv. cbn [Config.fitter Config.loc].
  split; [|split].
  - (* Shape *)
    split.
    + by rewrite Hslen0, HA0, Hlen.
    + intros d Hd. rewrite Hslen0 in Hd. destruct (Hcells d Hd) as [H1 H2].
      split; [|by rewrite H2]. unfold validOutPtr. rewrite Hslen0, H1.
      cbn. split; [done|]. split; [lia|done].
    + rewrite Hblen0. lia.
    + rewrite HA0. apply Forall_lookup. intros i a Hi.
      assert (i < length areas)%nat as Hlt.
      { fold n. rewrite <- Hlen. by eapply lookup_lt_Some. }
      apply list_lookup_lookup_total_lt in Hlt as Hf.
      rewrite Forall_lookup in Hareas. specialize (Hareas _ _ Hf).
      apply list_lookup_total_correct in Hi. specialize (Hdims i).
      rewrite Hi in Hdims. unfold areaDims in Hdims.
      injection Hdims as _ -> ->. done.
    + by rewrite <- HmW in HW.
    + by rewrite <- HmH in HH.
    + done.
    + done.
    + rewrite Hblen0, HA0, Hlen. fold n. lia.
  - (* GlobalsOK *)
    intros Hne. exfalso. apply Hne.
    change (CAreaFitter.Globals (pushStack f)) with (CAreaFitter.Globals f).
    by rewrite Hgl.
  - right. exists [], (initGhost n m). cbn [length Below].
    split; [unfold pushStack; fcbn; rewrite Hdepth; done|].
    split; [rewrite Hslen0; lia|]. split; [done|]. split.
    + (* Geo *)
      assert (∀ j, (j < m)%nat →
                outRect (outArea (pushStack f) (BasePtr (S j)))
                = (Z.of_nat j, 0, 0, MaxW, MaxH)) as Hrects.
      { intros j Hj. rewrite Hbase0, Hbrect by done.
        by rewrite lookup_total_replicate_2 by done. }
      unfold initGhost. split; cbn [gU gL gImgs gOutSize hostsBelow
        placedBelow seq fmap list_fmap]; rewrite ?app_nil_r.
      * change (OutAreas :: (BasePtr <$> seq 1 m))
          with (BasePtr <$> seq 0 (S m)).
        apply NoDup_fmap_2; [|apply NoDup_seq]. by intros ?? [= ->].
      * apply NoDup_seq.
      * intros i. rewrite HA0, Hlen, elem_of_seq. fold n. lia.
      * apply Forall_fmap, Forall_forall. intros i Hi%elem_of_seq.
        split; [unfold validOutPtr; rewrite Hblen0; lia | cbn; lia].
      * apply Forall_fmap, Forall_forall. intros i Hi%elem_of_seq.
        destruct i as [|j]; [lia|]. cbn [compose].
        pose proof (Hrects j ltac:(lia)) as Hr.
        set (o := outArea (pushStack f) (BasePtr (S j))) in *.
        unfold outRect in Hr. injection Hr as H1 H2 H3 H4 H5.
        unfold regionOK.
        rewrite H1, H2, H3, H4, H5. rewrite length_replicate.
        lia.
      * done.
      * rewrite <- list_fmap_compose.
        erewrite (list_fmap_ext _ (λ i, (Z.of_nat (pred i), 0, 0, MaxW, MaxH)));
          [|intros k i Hi; apply lookup_seq in Hi as [-> Hk]; cbn;
            by apply Hrects].
        replace (seq 1 m) with (S <$> seq 0 m) by apply fmap_S_seq.
        rewrite <- list_fmap_compose.
        apply (allSep_images 0 m).
      * apply Forall_replicate. unfold imageOK, COutImage.zero.
        cbn [COutImage.Width COutImage.Height COutImage.Size].
        split; [lia|]. split; [lia|]. reflexivity.
      * by rewrite sumSizes_zero.
      * rewrite length_replicate, Hblen0. lia.
    + (* Top *)
      unfold Top. cbn [Config.fitter Config.loc]. rewrite Hd0.
      exists [], (seq 0 n). unfold initGhost.
      cbn [gU gL gImgs gOutSize app fmap list_fmap].
      split; [done|]. split; [|by rewrite Hi0].
      split.
      * exact Hca.
      * apply (chain_base (outNext (pushStack f)) 0 m).
        -- intros i Hi. unfold outNext. rewrite Hbase0. apply Hbnext. lia.
        -- unfold outNext. by rewrite Hbase0.
      * unfold images. rewrite Hfd0. cbn. fold m.
        by rewrite take_replicate, Nat.min_id.
      * rewrite Hfd0, length_replicate. cbn. unfold m. lia.
      * by rewrite Hfd0.
Qed.

Lemma start_Inv (MaxW MaxH MaxS : Z) (g : CGlobals.t)
    (areas : list CFitArea.t) (MinOutImageCount : Z) :
  (1 <= length areas)%nat →
  Forall (λ a, 0 <= CFitArea.Width a <= INT_MAX ∧
               0 <= CFitArea.Height a <= INT_MAX) areas →
  0 <= MaxW <= INT_MAX → 0 <= MaxH <= INT_MAX →
  0 <= MinOutImageCount →
  MinOutImageCount + 1 + Z.of_nat (length areas) <= INT_MAX →
  CGlobals.BestOutSize g = 2147483647 →
  Inv INT_MAX INT_MAX
    (Config.mk
       (pushStack
          (newAreaFitter MaxW MaxH MaxS g areas
             (initFitData MaxW MaxH MinOutImageCount)))
       None None AtCodeLoc1).
Proof. by apply start_Inv_within. Qed.

(** ** The result of [fitAreas] *)

Lemma sortInsert_Permutation {A} (cmp : A → A → Z) (a : A) (l : list A) :
  sortInsert cmp a l ≡ₚ a :: l.
Proof.
  induction l as [|b l IH]; [done|]. cbn. case_match; [done|].
  rewrite IH. apply Permutation_swap.
Qed.

Lemma insertionSort_Permutation {A} (cmp : A → A → Z) (l : list A) :
  insertionSort cmp l ≡ₚ l.
Proof.
  induction l as [|a l IH]; [done|]. cbn.
  by rewrite sortInsert_Permutation, IH.
Qed.

Section Fit.
Variable qsort :
  (CFitArea.t → CFitArea.t → Z) → list CFitArea.t → list CFitArea.t.
Hypothesis qsort_Permutation : ∀ cmp l, qsort cmp l ≡ₚ l.

(** The fit that a call with two or more areas returns is the one the
    search kept in [Globals], and that one is a solution. *)
Lemma fitAreas_Solution_within (BW BH : Z) (fuel : nat) (AreasToFit : list CFitArea.t)
    (OutImages : list COutImage.t)
    (aMaxOutImageWidth aMaxOutImageHeight aMaxOutImageSize : Z)
    (MinOutImageCount FitCallsLimit : Z) (FitQuality : double)
    (r : FitResult.t) :
  BW <= INT_MAX → BH <= INT_MAX →
  (2 <= length AreasToFit)%nat →
  Forall (λ a, 0 <= CFitArea.Width a <= BW ∧
               0 <= CFitArea.Height a <= BH) AreasToFit →
  0 <= aMaxOutImageWidth <= BW →
  0 <= aMaxOutImageHeight <= BH →
  0 <= MinOutImageCount →
  MinOutImageCount + 1 + Z.of_nat (length AreasToFit) <= INT_MAX →
  fitAreas qsort fuel AreasToFit OutImages aMaxOutImageWidth
    aMaxOutImageHeight aMaxOutImageSize MinOutImageCount FitCallsLimit
    FitQuality = Some r →
  FitResult.ok r = true →
  ∃ f' best,
    fitUnfittedAreas fuel
      (pushStack
         (newAreaFitter aMaxOutImageWidth aMaxOutImageHeight
            (sizeLoop (qsort FitAreasInSortFn AreasToFit)
               aMaxOutImageSize).1
            (CGlobals.mk FitCallsLimit FitCallsLimit 2147483647 2147483647
               [] [])
            (qsort FitAreasInSortFn AreasToFit)
            (initFitData aMaxOutImageWidth aMaxOutImageHeight
               MinOutImageCount))) = Some f' ∧
    Solution BW BH f' best (FitResult.OutImages r)
      (CGlobals.BestOutSize (CAreaFitter.Globals f')) ∧
    FitResult.AreasToFit r ≡ₚ best ∧
    FitResult.FitQuality r
    = fitQuality (sizeLoop (qsort FitAreasInSortFn AreasToFit)
                    aMaxOutImageSize).2
        (CGlobals.BestOutSize (CAreaFitter.Globals f')).
Proof.
  intros HBW HBH Hlen Hareas HW HH Hm Hcount Hfit Hok.
  unfold fitAreas in Hfit.
  destruct (length AreasToFit <? 2)%nat eqn:E;
    [apply Nat.ltb_lt in E; lia|]. clear E.
  set (areas := qsort FitAreasInSortFn AreasToFit) in *.
  destruct (sizeLoop areas aMaxOutImageSize) as [M MinOutSize] eqn:Hsz.
  set (g := CGlobals.mk _ _ _ _ _ _) in *.
  set (f0 := pushStack _) in *.
  destruct (fitUnfittedAreas fuel f0) as [f'|] eqn:Hrun; [|done].
  cbn [mbind option_bind] in Hfit.
  assert (areas ≡ₚ AreasToFit) as Hperm by apply qsort_Permutation.
  assert (Inv BW BH (Config.mk f0 None None AtCodeLoc1)) as HI.
  { apply start_Inv_within; try done.
    - rewrite Hperm. lia.
    - by rewrite Hperm.
    - by rewrite Hperm. }
  destruct (run_Inv BW BH fuel _ f' HI Hrun) as [HS HG].
  destruct (CGlobals.BestOutSize (CAreaFitter.Globals f') =? 2147483647)
    eqn:Hbest; injection Hfit as <-; [done|].
  apply Z.eqb_neq in Hbest. specialize (HG Hbest).
  exists f', (CGlobals.BestFittedAreas (CAreaFitter.Globals f')).
  cbn [FitResult.OutImages FitResult.AreasToFit FitResult.FitQuality snd].
  cbn [fst snd]. split; [done|].
  split; [done|]. split; [apply qsort_Permutation|done].
Qed.

Lemma fitAreas_Solution (fuel : nat) (AreasToFit : list CFitArea.t)
    (OutImages : list COutImage.t)
    (aMaxOutImageWidth aMaxOutImageHeight aMaxOutImageSize : Z)
    (MinOutImageCount FitCallsLimit : Z) (FitQuality : double)
    (r : FitResult.t) :
  (2 <= length AreasToFit)%nat →
  Forall (λ a, 0 <= CFitArea.Width a <= INT_MAX ∧
               0 <= CFitArea.Height a <= INT_MAX) AreasToFit →
  0 <= aMaxOutImageWidth <= INT_MAX →
  0 <= aMaxOutImageHeight <= INT_MAX →
  0 <= MinOutImageCount →
  MinOutImageCount + 1 + Z.of_nat (length AreasToFit) <= INT_MAX →
  fitAreas qsort fuel AreasToFit OutImages aMaxOutImageWidth
    aMaxOutImageHeight aMaxOutImageSize MinOutImageCount FitCallsLimit
    FitQuality = Some r →
  FitResult.ok r = true →
  ∃ f' best,
    fitUnfittedAreas fuel
      (pushStack
         (newAreaFitter aMaxOutImageWidth aMaxOutImageHeight
            (sizeLoop (qsort FitAreasInSortFn AreasToFit)
               aMaxOutImageSize).1
            (CGlobals.mk FitCallsLimit FitCallsLimit 2147483647 2147483647
               [] [])
            (qsort FitAreasInSortFn AreasToFit)
            (initFitData aMaxOutImageWidth aMaxOutImageHeight
               MinOutImageCount))) = Some f' ∧
    Solution INT_MAX INT_MAX f' best (FitResult.OutImages r)
      (CGlobals.BestOutSize (CAreaFitter.Globals f')) ∧
    FitResult.AreasToFit r ≡ₚ best ∧
    FitResult.FitQuality r
    = fitQuality (sizeLoop (qsort FitAreasInSortFn AreasToFit)
                    aMaxOutImageSize).2
        (CGlobals.BestOutSize (CAreaFitter.Globals f')).
Proof. by apply fitAreas_Solution_within. Qed.

(** C1. In the result of a call that returns [true], every area lies
    inside the output image it is assigned to, and no two areas of the
    same output image overlap. The sizes are non-negative [int] values
    and the numbers of images and areas fit an [int]. *)
Theorem fitAreas_contained_noOverlap (fuel : nat)
    (AreasToFit : list CFitArea.t) (OutImages : list COutImage.t)
    (aMaxOutImageWidth aMaxOutImageHeight aMaxOutImageSize : Z)
    (MinOutImageCount FitCallsLimit : Z) (FitQuality : double)
    (r : FitResult.t) :
  Forall (λ a, 0 <= CFitArea.Width a <= INT_MAX ∧
               0 <= CFitArea.Height a <= INT_MAX) AreasToFit →
  0 <= aMaxOutImageWidth <= INT_MAX →
  0 <= aMaxOutImageHeight <= INT_MAX →
  0 <= MinOutImageCount →
  MinOutImageCount + 1 + Z.of_nat (length AreasToFit) <= INT_MAX →
  fitAreas qsort fuel AreasToFit OutImages aMaxOutImageWidth
    aMaxOutImageHeight aMaxOutImageSize MinOutImageCount FitCallsLimit
    FitQuality = Some r →
  FitResult.ok r = true →
  Forall (contained (FitResult.OutImages r)) (FitResult.AreasToFit r) ∧
  noOverlap (FitResult.AreasToFit r).
Proof.
  intros Hareas HW HH Hm Hcount Hfit Hok.
  destruct (decide (2 <= length AreasToFit)%nat) as [Hlen|Hlen].
  - destruct (fitAreas_Solution fuel AreasToFit OutImages aMaxOutImageWidth
                aMaxOutImageHeight aMaxOutImageSize MinOutImageCount
                FitCallsLimit FitQuality r Hlen Hareas HW HH Hm Hcount Hfit
                Hok)
      as (f' & best & _ & HSol & Hperm & _).
    split.
    + rewrite Hperm. apply (sol_contained _ _ _ _ _ _ HSol).
    + apply allSep_noOverlap.
      eapply allSep_Permutation; [|apply (sol_sep _ _ _ _ _ _ HSol)].
      by rewrite Hperm.
  - destruct AreasToFit as [|a [|b l]]; [| |cbn in Hlen; lia].
    + injection Hfit as <-. split; [done|]. by intros i j a b _ ?.
    + unfold fitAreas in Hfit. cbn in Hfit. injection Hfit as <-.
      cbn [FitResult.OutImages FitResult.AreasToFit]. split.
      * apply Forall_singleton. unfold contained. cbn.
        split; [done|]. split; [done|]. split; [done|].
        destruct OutImages as [|im ims]; cbn; eexists; (split; [done|]);
          cbn; lia.
      * intros i j x y Hij Hi Hj _.
        apply lookup_lt_Some in Hi, Hj. cbn in Hi, Hj. lia.
Qed.
End Fit.

(** The four areas of the example with limits 300, 300 and 90000: the
    call returns [true]. *)
Lemma fitAreas_contained_noOverlap_witness :
  ∃ r,
    fitAreas insertionSort 100000 exampleAreas [] 300 300 90000 1 10000 NaN
    = Some r ∧
    FitResult.ok r = true ∧
    Forall (contained (FitResult.OutImages r)) (FitResult.AreasToFit r) ∧
    noOverlap (FitResult.AreasToFit r).
Proof.
  assert (∃ r,
    fitAreas insertionSort 100000 exampleAreas [] 300 300 90000 1 10000 NaN
    = Some r ∧ FitResult.ok r = true) as (r & Hfit & Hok).
  { eexists. split; [vm_compute; reflexivity|reflexivity]. }
  exists r. split; [exact Hfit|]. split; [exact Hok|].
  apply (fitAreas_contained_noOverlap insertionSort
           insertionSort_Permutation 100000 exampleAreas [] 300 300 90000 1
           10000 NaN r);
    [|unfold INT_MAX; lia|unfold INT_MAX; lia|lia
     |unfold INT_MAX; cbn; lia|exact Hfit|exact Hok].
  unfold exampleAreas, mkArea, INT_MAX. repeat constructor; cbn; lia.
Defined.

(** ** A call that finds no fit *)

Section Failure.
Variable qsort :
  (CFitArea.t → CFitArea.t → Z) → list CFitArea.t → list CFitArea.t.
Hypothesis qsort_Permutation : ∀ cmp l, qsort cmp l ≡ₚ l.

(** C2. A call that returns [false] leaves the output list empty and
    the quality as it was; the input list is left as [qsort] sorted it
    before the search: the same records, in the order of
    [FitAreasInSortFn]. *)
Theorem fitAreas_false_sorted (fuel : nat) (AreasToFit : list CFitArea.t)
    (OutImages : list COutImage.t)
    (aMaxOutImageWidth aMaxOutImageHeight aMaxOutImageSize : Z)
    (MinOutImageCount FitCallsLimit : Z) (FitQuality : double)
    (r : FitResult.t) :
  fitAreas qsort fuel AreasToFit OutImages aMaxOutImageWidth
    aMaxOutImageHeight aMaxOutImageSize MinOutImageCount FitCallsLimit
    FitQuality = Some r →
  FitResult.ok r = false →
  FitResult.OutImages r = [] ∧
  FitResult.AreasToFit r = qsort FitAreasInSortFn AreasToFit ∧
  FitResult.AreasToFit r ≡ₚ AreasToFit ∧
  FitResult.FitQuality r = FitQuality.
Proof.
  intros Hfit Hok. unfold fitAreas in Hfit.
  destruct (length AreasToFit <? 2)%nat.
  - destruct AreasToFit; injection Hfit as <-; done.
  - destruct (sizeLoop _ _) as [M MinOutSize].
    destruct (fitUnfittedAreas _ _) as [f'|]; [|done].
    cbn [mbind option_bind] in Hfit.
    destruct (_ =? _); injection Hfit as <-; [|done].
    cbn [FitResult.OutImages FitResult.AreasToFit FitResult.FitQuality].
    by repeat split.
Qed.
End Failure.

(** With a budget of one call no fit of two areas is found. *)
Lemma fitAreas_false_sorted_witness :
  ∃ r,
    fitAreas insertionSort 1000 [mkArea 10 10; mkArea 20 20] [] 100 100
      10000 1 1 NaN = Some r ∧
    FitResult.ok r = false ∧
    FitResult.OutImages r = [] ∧
    FitResult.AreasToFit r
    = insertionSort FitAreasInSortFn [mkArea 10 10; mkArea 20 20].
Proof.
  assert (∃ r,
    fitAreas insertionSort 1000 [mkArea 10 10; mkArea 20 20] [] 100 100
      10000 1 1 NaN = Some r ∧ FitResult.ok r = false) as (r & Hfit & Hok).
  { eexists. split; [vm_compute; reflexivity|reflexivity]. }
  exists r. split; [exact Hfit|]. split; [exact Hok|].
  destruct (fitAreas_false_sorted insertionSort insertionSort_Permutation
              1000 [mkArea 10 10; mkArea 20 20] [] 100 100 10000 1 1 NaN r
              Hfit Hok) as (H1 & H2 & _).
  split; [exact H1|exact H2].
Defined.

(** The call of the example returns [false], and the first record of the
    list is no longer the one the caller put there. *)
Lemma fitAreas_false_reorders :
  ∃ r,
    fitAreas insertionSort 1000 [mkArea 10 10; mkArea 20 20] [] 100 100
      10000 1 1 NaN = Some r ∧
    FitResult.ok r = false ∧
    FitResult.AreasToFit r = [mkArea 20 20; mkArea 10 10] ∧
    FitResult.AreasToFit r ≠ [mkArea 10 10; mkArea 20 20].
Proof.
  eexists. split; [vm_compute; reflexivity|].
  split; [reflexivity|]. split; [reflexivity|]. discriminate.
Qed.

(** ** The output areas the search starts with *)

(** C3. The search starts with one output area for each of the
    [MinOutImageCount] output images, in the order of the images, at
    x = y = 0 and of the size [aMaxOutImageWidth] x [aMaxOutImageHeight]:
    the images start empty, and the list [OutImages] of the caller is not
    read by a call with two or more areas. *)
Theorem fitAreas_seed_regions
    (qsort : (CFitArea.t → CFitArea.t → Z) → list CFitArea.t
             → list CFitArea.t)
    (fuel : nat) (a b : CFitArea.t) (l : list CFitArea.t)
    (OutImages OutImages' : list COutImage.t)
    (aMaxOutImageWidth aMaxOutImageHeight aMaxOutImageSize : Z)
    (MinOutImageCount FitCallsLimit : Z) (FitQuality : double)
    (g : CGlobals.t) (areas : list CFitArea.t) :
  let m := Z.to_nat MinOutImageCount in
  let f0 :=
    pushStack
      (newAreaFitter aMaxOutImageWidth aMaxOutImageHeight aMaxOutImageSize
         g areas
         (initFitData aMaxOutImageWidth aMaxOutImageHeight
            MinOutImageCount)) in
  outChain f0 (BasePtr <$> seq 1 m) ∧
  (∀ i, (i < m)%nat →
     outRect (outArea f0 (BasePtr (S i)))
     = (Z.of_nat i, 0, 0, aMaxOutImageWidth, aMaxOutImageHeight)) ∧
  images f0 = replicate m COutImage.zero ∧
  fitAreas qsort fuel (a :: b :: l) OutImages aMaxOutImageWidth
    aMaxOutImageHeight aMaxOutImageSize MinOutImageCount FitCallsLimit
    FitQuality
  = fitAreas qsort fuel (a :: b :: l) OutImages' aMaxOutImageWidth
      aMaxOutImageHeight aMaxOutImageSize MinOutImageCount FitCallsLimit
      FitQuality.
Proof.
  intros m f0.
  destruct (newAreaFitter_spec aMaxOutImageWidth aMaxOutImageHeight
              aMaxOutImageSize g areas
              (initFitData aMaxOutImageWidth aMaxOutImageHeight
                 MinOutImageCount))
    as (_ & _ & _ & _ & _ & Hfd & _).
  destruct (initBaseOutAreas_spec (replicate m COutImage.zero) m
              aMaxOutImageWidth aMaxOutImageHeight)
    as (Hblen & Hbnext & Hbend & Hbrect).
  assert (∀ i, outArea f0 (BasePtr i)
               = initBaseOutAreas (replicate m COutImage.zero) m
                   aMaxOutImageWidth aMaxOutImageHeight !!! i) as Hbase.
  { intros i. unfold outArea, f0.
    change (CAreaFitter.fd (pushStack ?f)) with (CAreaFitter.fd f).
    by rewrite Hfd. }
  split; [|split; [|split]].
  - apply (chain_base (outNext f0) 0 m).
    + intros i Hi. unfold outNext. rewrite Hbase. apply Hbnext. lia.
    + unfold outNext. by rewrite Hbase.
  - intros i Hi. rewrite Hbase, Hbrect by done.
    by rewrite lookup_total_replicate_2 by done.
  - unfold images, f0.
    change (CAreaFitter.fd (pushStack ?f)) with (CAreaFitter.fd f).
    rewrite Hfd. cbn. fold m. by rewrite take_replicate, Nat.min_id.
  - reflexivity.
Qed.

(** One area 50 x 50 and an output image 100 x 100 in the caller's list:
    the image comes back as 50 x 50. With two areas, the second of them
    200 wide, both are put into the first image, which comes back
    250 wide. *)
Lemma fitAreas_preseeded_resized :
  (∃ r,
     fitAreas insertionSort 1000 [mkArea 50 50] [COutImage.mk 100 100 10000]
       300 300 90000 1 1000 NaN = Some r ∧
     FitResult.ok r = true ∧
     FitResult.OutImages r = [COutImage.mk 50 50 2500]) ∧
  (∃ r,
     fitAreas insertionSort 1000 [mkArea 50 50; mkArea 200 50]
       [COutImage.mk 100 100 10000] 300 300 90000 1 1000 NaN = Some r ∧
     FitResult.ok r = true ∧
     CFitArea.OutImage <$> FitResult.AreasToFit r = [0; 0] ∧
     FitResult.OutImages r = [COutImage.mk 250 50 12500]).
Proof.
  split.
  - eexists. split; [vm_compute; reflexivity|]. by split.
  - eexists. split; [vm_compute; reflexivity|]. by repeat split.
Qed.

(** ** The quality of a fit *)

Lemma sumAreaSizes_Permutation l1 l2 :
  l1 ≡ₚ l2 → sumAreaSizes l1 = sumAreaSizes l2.
Proof.
  unfold sumAreaSizes. induction 1; cbn; lia.
Qed.

(** The loop over the areas adds the sizes up in [int] arithmetic, and
    raises the limit to the largest of them. *)
Lemma sizeLoop_spec (l : list CFitArea.t) (M0 S0 : Z) :
  foldl (λ '(aMax, MinOutSize) a,
      let AreaSize := mul32 (CFitArea.Width a) (CFitArea.Height a) in
      (if aMax <? AreaSize then AreaSize else aMax,
       add32 MinOutSize AreaSize)) (M0, S0) l
  = (foldl (λ m a, Z.max m (mul32 (CFitArea.Width a) (CFitArea.Height a)))
       M0 l,
     if l is [] then S0 else wrap32 (S0 + sumAreaSizes l)).
Proof.
  revert M0 S0. induction l as [|a l IH]; intros M0 S0; [done|].
  cbn [foldl]. rewrite IH. f_equal.
  - f_equal.
    destruct (M0 <? mul32 (CFitArea.Width a) (CFitArea.Height a)) eqn:E;
      [apply Z.ltb_lt in E|apply Z.ltb_ge in E]; lia.
  - destruct l as [|b l]; cbn [sumAreaSizes foldr].
    + unfold add32. f_equal. lia.
    + fold (sumAreaSizes (b :: l)). unfold add32.
      rewrite wrap32_wrap32_add. f_equal. cbn [sumAreaSizes foldr]. lia.
Qed.

Section Quality.
Variable qsort :
  (CFitArea.t → CFitArea.t → Z) → list CFitArea.t → list CFitArea.t.
Hypothesis qsort_Permutation : ∀ cmp l, qsort cmp l ≡ₚ l.

End Quality.



(** ** The call budget *)

(** *** What leaves the counters alone *)

Lemma calls_upd_s g f : calls (upd_s g f) = calls f.
Proof. reflexivity. Qed.

Lemma calls_upd_outArea g p f : calls (upd_outArea g p f) = calls f.
Proof. by destruct p. Qed.

Lemma calls_upd_area g p f : calls (upd_area g p f) = calls f.
Proof. by destruct p. Qed.

Lemma calls_upd_fd g f : calls (upd_fd g f) = calls f.
Proof. reflexivity. Qed.

Lemma calls_set_outImage i v f : calls (set_outImage i v f) = calls f.
Proof. reflexivity. Qed.

Lemma calls_pushStack f : calls (pushStack f) = calls f.
Proof. reflexivity. Qed.

Lemma calls_insertOutArea f p f' prev :
  insertOutArea f p = Some (f', prev) → calls f' = calls f.
Proof.
  unfold insertOutArea. intros H.
  destruct (insertOutArea_scan _ _ _ _ _) as [q|]; [|done].
  cbn in H. injection H as <- _. by rewrite !calls_upd_outArea.
Qed.

Lemma calls_removeNewOutAreas n f : calls (removeNewOutAreas n f) = calls f.
Proof.
  revert f. induction n as [|n IH]; intros f; [done|].
  cbn [removeNewOutAreas]. cbv zeta. rewrite IH.
  by rewrite calls_upd_outArea, calls_upd_s.
Qed.

Lemma calls_addNewOutArea0 img ax ay w h f f' :
  addNewOutArea0 img ax ay w h f = Some f' → calls f' = calls f.
Proof.
  unfold addNewOutArea0. intros H.
  destruct (insertOutArea _ _) as [[f2 prev]|] eqn:E; [|done].
  cbn in H. injection H as <-. rewrite calls_upd_s.
  apply calls_insertOutArea in E. by rewrite E, calls_upd_outArea.
Qed.

Lemma calls_addNewOutArea1 img ax ay w h f f' :
  addNewOutArea1 img ax ay w h f = Some f' → calls f' = calls f.
Proof.
  unfold addNewOutArea1. intros H.
  destruct (insertOutArea _ _) as [[f2 prev]|] eqn:E; [|done].
  cbn in H. injection H as <-. rewrite calls_upd_s.
  apply calls_insertOutArea in E. by rewrite E, calls_upd_outArea.
Qed.

Lemma calls_configuration1 f A O f' :
  configuration1 f A O = Some f' → calls f' = calls f.
Proof.
  unfold configuration1. intros H.
  apply bind_Some in H as (f1 & H1 & H2).
  assert (calls f1 = calls f) as E1.
  { destruct (_ && _) in H1; [by eapply calls_addNewOutArea0|].
    by injection H1 as <-. }
  rewrite <- E1. cbv zeta in H2.
  destruct (_ && _) in H2; [by eapply calls_addNewOutArea1|].
  by injection H2 as <-.
Qed.

Lemma calls_configuration2 f A O f' :
  configuration2 f A O = Some f' → calls f' = calls f.
Proof.
  unfold configuration2. intros H.
  apply bind_Some in H as (f1 & H1 & H2).
  assert (calls f1 = calls f) as E1.
  { destruct (_ && _) in H1; [by eapply calls_addNewOutArea0|].
    by injection H1 as <-. }
  rewrite <- E1. cbv zeta in H2.
  destruct (_ && _) in H2; [by eapply calls_addNewOutArea1|].
  by injection H2 as <-.
Qed.

Lemma calls_saveBestFit f : calls (saveBestFit f) = calls f.
Proof. unfold saveBestFit. cbv zeta. by destruct (_ && _). Qed.

Lemma calls_afterRegionLoop f A O :
  calls (Config.fitter (afterRegionLoop f A O)) = calls f.
Proof.
  unfold afterRegionLoop. cbn [Config.fitter].
  by rewrite calls_upd_s, calls_upd_area.
Qed.

Lemma calls_regionTail f A O :
  calls (Config.fitter (regionTail f A O)) = calls f.
Proof.
  unfold regionTail. destruct (CFitAreaStackItem.WasOutImageAdded _).
  - cbv zeta. by rewrite calls_afterRegionLoop, calls_upd_fd,
      calls_upd_outArea.
  - destruct (worseThanBest f); [apply calls_afterRegionLoop|done].
Qed.

Lemma calls_restoreOutImage f A O :
  calls (Config.fitter (restoreOutImage f A O)) = calls f.
Proof.
  unfold restoreOutImage. destruct (CFitAreaStackItem.DoOutImageRestore _).
  - cbv zeta. by rewrite calls_regionTail.
  - apply calls_regionTail.
Qed.

Lemma calls_restoreOutArea f A O :
  calls (Config.fitter (restoreOutArea f A O)) = calls f.
Proof.
  unfold restoreOutArea. cbv zeta.
  by rewrite calls_restoreOutImage, calls_upd_outArea.
Qed.

Lemma calls_placeArea f A O cfg' :
  placeArea f A O = Some cfg' → calls (Config.fitter cfg') = calls f.
Proof.
  unfold placeArea. cbv zeta. intros H.
  destruct (CFitArea.Next _) as [first|].
  - apply bind_Some in H as ([mw mh] & _ & H).
    apply bind_Some in H as (f4 & H4 & H). injection H as <-.
    cbn [Config.fitter]. rewrite calls_pushStack, calls_upd_s.
    apply calls_configuration1 in H4. rewrite H4.
    by rewrite calls_upd_outArea, calls_upd_s.
  - injection H as <-.
    by rewrite calls_restoreOutImage, calls_saveBestFit.
Qed.

Lemma calls_tryOutArea f A O cfg' :
  tryOutArea f A O = Some cfg' → calls (Config.fitter cfg') = calls f.
Proof.
  unfold tryOutArea. cbv zeta. intros H.
  destruct (_ || _); [by injection H as <-|].
  destruct (CheckFit.result _).
  - apply calls_placeArea in H. by rewrite H.
  - injection H as <-. by rewrite calls_regionTail.
Qed.

Lemma calls_atRegionLoop f A O cfg' :
  atRegionLoop f A O = Some cfg' → calls (Config.fitter cfg') = calls f.
Proof.
  unfold atRegionLoop. intros H. destruct O as [h|].
  - apply calls_tryOutArea in H. by rewrite H.
  - destruct (0 <? _);
      [injection H as <-; apply calls_afterRegionLoop|].
    destruct (_ =? _);
      [injection H as <-; apply calls_afterRegionLoop|].
    cbv zeta in H. apply bind_Some in H as ([f2 prev] & Hins & H).
    apply calls_tryOutArea in H. rewrite H.
    apply calls_insertOutArea in Hins.
    rewrite calls_upd_s, calls_upd_fd, calls_set_outImage, calls_upd_fd,
      calls_upd_outArea, calls_upd_s, Hins.
    apply calls_upd_outArea.
Qed.

Lemma calls_atCodeLoc2 f A O cfg' :
  atCodeLoc2 f A O = Some cfg' → calls (Config.fitter cfg') = calls f.
Proof.
  unfold atCodeLoc2. cbv zeta. intros H.
  destruct (_ && _).
  - apply bind_Some in H as (f2 & H2 & H).
    apply calls_configuration2 in H2.
    rewrite calls_removeNewOutAreas in H2.
    destruct (0 <? _)%nat; injection H as <-.
    + cbn [Config.fitter]. by rewrite calls_pushStack, calls_upd_s.
    + by rewrite calls_restoreOutArea.
  - injection H as <-.
    by rewrite calls_restoreOutArea, calls_removeNewOutAreas.
Qed.

Lemma calls_atCodeLoc3 f A O cfg' :
  atCodeLoc3 f A O = Some cfg' → calls (Config.fitter cfg') = calls f.
Proof.
  unfold atCodeLoc3. cbv zeta. intros [= <-].
  by rewrite calls_restoreOutArea, calls_removeNewOutAreas.
Qed.

(** *** Where the function returns

    Only the head of the outer loop leads to the end of the function. *)

Lemma loc_regionTail f A O : Config.loc (regionTail f A O) ≠ AtReturn.
Proof.
  unfold regionTail. destruct (CFitAreaStackItem.WasOutImageAdded _);
    [done|]. by destruct (worseThanBest f).
Qed.

Lemma loc_restoreOutImage f A O :
  Config.loc (restoreOutImage f A O) ≠ AtReturn.
Proof.
  unfold restoreOutImage.
  destruct (CFitAreaStackItem.DoOutImageRestore _); apply loc_regionTail.
Qed.

Lemma loc_restoreOutArea f A O :
  Config.loc (restoreOutArea f A O) ≠ AtReturn.
Proof. apply loc_restoreOutImage. Qed.

Lemma loc_placeArea f A O cfg' :
  placeArea f A O = Some cfg' → Config.loc cfg' ≠ AtReturn.
Proof.
  unfold placeArea. cbv zeta. intros H.
  destruct (CFitArea.Next _) as [first|].
  - apply bind_Some in H as ([mw mh] & _ & H).
    apply bind_Some in H as (f4 & H4 & H). by injection H as <-.
  - injection H as <-. apply loc_restoreOutImage.
Qed.

Lemma loc_tryOutArea f A O cfg' :
  tryOutArea f A O = Some cfg' → Config.loc cfg' ≠ AtReturn.
Proof.
  unfold tryOutArea. cbv zeta. intros H.
  destruct (_ || _); [by injection H as <-|].
  destruct (CheckFit.result _).
  - by eapply loc_placeArea.
  - injection H as <-. apply loc_regionTail.
Qed.

Lemma loc_atRegionLoop f A O cfg' :
  atRegionLoop f A O = Some cfg' → Config.loc cfg' ≠ AtReturn.
Proof.
  unfold atRegionLoop. intros H. destruct O as [h|].
  - by eapply loc_tryOutArea.
  - destruct (0 <? _); [by injection H as <-|].
    destruct (_ =? _); [by injection H as <-|].
    cbv zeta in H. apply bind_Some in H as ([f2 prev] & Hins & H).
    by eapply loc_tryOutArea.
Qed.

Lemma loc_atCodeLoc2 f A O cfg' :
  atCodeLoc2 f A O = Some cfg' → Config.loc cfg' ≠ AtReturn.
Proof.
  unfold atCodeLoc2. cbv zeta. intros H.
  destruct (_ && _).
  - apply bind_Some in H as (f2 & H2 & H).
    destruct (0 <? _)%nat; injection H as <-; [done|].
    apply loc_restoreOutArea.
  - injection H as <-. apply loc_restoreOutArea.
Qed.

Lemma loc_atCodeLoc3 f A O cfg' :
  atCodeLoc3 f A O = Some cfg' → Config.loc cfg' ≠ AtReturn.
Proof.
  unfold atCodeLoc3. cbv zeta. intros [= <-]. apply loc_restoreOutArea.
Qed.

(** *** The head of the outer loop *)

Lemma calls_inv f a b :
  calls f = (a, b) →
  CAreaFitter.FitCallsLeft f = a ∧
  CGlobals.FitCallsLeft (CAreaFitter.Globals f) = b.
Proof. unfold calls. by intros [= ? ?]. Qed.

Lemma startArea_calls f :
  Config.loc (startArea f) = AtRegionLoop ∧
  calls (Config.fitter (startArea f))
  = (sub32 (CAreaFitter.FitCallsLeft f) 1,
     CGlobals.FitCallsLeft (CAreaFitter.Globals f)).
Proof.
  unfold startArea. cbv zeta. cbn [Config.loc Config.fitter].
  split; [done|]. by rewrite calls_upd_s, calls_upd_area.
Qed.

Lemma leaveFrame_calls f A O :
  Config.loc (leaveFrame f A O) ≠ AtCodeLoc1 ∧
  Config.loc (leaveFrame f A O) ≠ AtRegionLoop ∧
  if 0 <? CAreaFitter.Depth f then
    Config.loc (leaveFrame f A O) ≠ AtReturn ∧
    calls (Config.fitter (leaveFrame f A O)) = calls f
  else
    Config.loc (leaveFrame f A O) = AtReturn ∧
    calls (Config.fitter (leaveFrame f A O))
    = if 0 <? CAreaFitter.FitCallsLeft f
      then (0, add32 (CGlobals.FitCallsLeft (CAreaFitter.Globals f))
                 (CAreaFitter.FitCallsLeft f))
      else calls f.
Proof.
  unfold leaveFrame. destruct (0 <? CAreaFitter.Depth f).
  - cbv zeta. cbn [Config.loc Config.fitter].
    by destruct (_ =? 2).
  - by destruct (0 <? CAreaFitter.FitCallsLeft f).
Qed.

(** One step keeps the account. A step that is no attempt leaves the sum
    of the two counters as it is, an attempt takes one call from the
    fitter's counter; when the function returns, that counter is 0. *)
Lemma step_budget (limit : Z) (cfg cfg' : Config.t) (n : Z) :
  limit <= INT_MAX →
  budgetOK limit (Config.fitter cfg) n →
  (Config.loc cfg = AtReturn →
   CAreaFitter.FitCallsLeft (Config.fitter cfg) = 0) →
  step cfg = Some cfg' →
  budgetOK limit (Config.fitter cfg')
    (if isAttempt cfg cfg' then n + 1 else n) ∧
  (Config.loc cfg' = AtReturn →
   CAreaFitter.FitCallsLeft (Config.fitter cfg') = 0).
Proof.
  intros Hlim (Hn & Hl & Hg & Hsum) Hret Hstep.
  destruct cfg as [f A O loc]. unfold step in Hstep.
  cbn [Config.fitter Config.Area Config.OutArea Config.loc] in *.
  assert (∀ cfg1, loc ≠ AtCodeLoc1 →
            calls (Config.fitter cfg1) = calls f →
            Config.loc cfg1 ≠ AtReturn →
            budgetOK limit (Config.fitter cfg1)
              (if isAttempt (Config.mk f A O loc) cfg1 then n + 1 else n) ∧
            (Config.loc cfg1 = AtReturn →
             CAreaFitter.FitCallsLeft (Config.fitter cfg1) = 0)) as Hsame.
  { intros cfg1 Hloc Hc Hnr. split; [|done].
    assert (isAttempt (Config.mk f A O loc) cfg1 = false) as ->.
    { unfold isAttempt. cbn. by destruct loc. }
    apply calls_inv in Hc as [Hc1 Hc2]. unfold budgetOK.
    rewrite Hc1, Hc2. done. }
  destruct loc.
  - (* the head of the outer loop *)
    injection Hstep as <-.
    assert (∀ f1 A1 O1, calls f1 = calls f →
              budgetOK limit (Config.fitter (leaveFrame f1 A1 O1))
                (if isAttempt (Config.mk f A O AtCodeLoc1)
                      (leaveFrame f1 A1 O1) then n + 1 else n) ∧
              (Config.loc (leaveFrame f1 A1 O1) = AtReturn →
               CAreaFitter.FitCallsLeft
                 (Config.fitter (leaveFrame f1 A1 O1)) = 0)) as Hleave.
    { intros f1 A1 O1 Hc.
      destruct (leaveFrame_calls f1 A1 O1) as (H1 & H2 & H3).
      assert (isAttempt (Config.mk f A O AtCodeLoc1) (leaveFrame f1 A1 O1)
              = false) as ->.
      { unfold isAttempt. cbn. by destruct (Config.loc _). }
      apply calls_inv in Hc as [Hc1 Hc2].
      destruct (0 <? CAreaFitter.Depth f1).
      - destruct H3 as [H3 H4]. apply calls_inv in H4 as [H4 H5].
        unfold budgetOK. rewrite H4, H5, Hc1, Hc2. done.
      - destruct H3 as [H3 H4]. rewrite Hc1, Hc2 in H4.
        destruct (0 <? CAreaFitter.FitCallsLeft f) eqn:E.
        + apply Z.ltb_lt in E. apply calls_inv in H4 as [H4 H5].
          rewrite add32_id in H5
            by (unfold is_int, INT_MIN, INT_MAX in *; lia).
          unfold budgetOK. rewrite H4, H5. split; [lia|done].
        + apply Z.ltb_ge in E. apply calls_inv in H4 as [H4 H5].
          unfold budgetOK. rewrite H4, H5. split; [lia|]. intros _. lia. }
    assert (∀ f1, 1 <= CAreaFitter.FitCallsLeft f1 <= 512 →
              0 <= CGlobals.FitCallsLeft (CAreaFitter.Globals f1) →
              CGlobals.FitCallsLeft (CAreaFitter.Globals f1)
              + CAreaFitter.FitCallsLeft f1
              = CGlobals.FitCallsLeft (CAreaFitter.Globals f)
                + CAreaFitter.FitCallsLeft f →
              budgetOK limit (Config.fitter (startArea f1))
                (if isAttempt (Config.mk f A O AtCodeLoc1) (startArea f1)
                 then n + 1 else n) ∧
              (Config.loc (startArea f1) = AtReturn →
               CAreaFitter.FitCallsLeft (Config.fitter (startArea f1)) = 0))
      as Hstart.
    { intros f1 Hl1 Hg1 Hs1. destruct (startArea_calls f1) as [H1 H2].
      unfold isAttempt. cbn [Config.loc]. rewrite H1.
      split; [|done]. apply calls_inv in H2 as [H2 H3].
      rewrite sub32_id in H2
        by (unfold is_int, INT_MIN, INT_MAX in *; lia).
      unfold budgetOK. rewrite H2, H3. lia. }
    unfold atCodeLoc1.
    destruct (CFitAreaStackItem.Area (s f)); [|by apply Hleave].
    destruct (worseThanBest f); [by apply Hleave|].
    destruct (CAreaFitter.FitCallsLeft f =? 0) eqn:E0.
    + apply Z.eqb_eq in E0.
      destruct (_ || _); [by apply Hleave|].
      destruct (CGlobals.FitCallsLeft (CAreaFitter.Globals f) =? 0) eqn:Eg.
      { cbn [Config.fitter Config.loc]. unfold isAttempt. cbn.
        split; [done|by intros _]. }
      apply Z.eqb_neq in Eg.
      destruct (512 <=? CGlobals.FitCallsLeft (CAreaFitter.Globals f))
        eqn:E5; [apply Z.leb_le in E5|apply Z.leb_gt in E5];
        apply Hstart; cbn; try lia.
      all: rewrite sub32_id by (unfold is_int, INT_MIN, INT_MAX in *; lia);
        lia.
    + apply Z.eqb_neq in E0. apply Hstart; lia.
  - apply Hsame; [done|by eapply calls_atRegionLoop
                   |by eapply loc_atRegionLoop].
  - apply Hsame; [done|by eapply calls_atCodeLoc2|by eapply loc_atCodeLoc2].
  - apply Hsame; [done|by eapply calls_atCodeLoc3|by eapply loc_atCodeLoc3].
  - injection Hstep as <-. cbn. split; [done|]. intros _. by apply Hret.
Qed.

(** [run] returns the fitter of the first configuration at the end of
    the function. *)
Lemma run_steps (fuel : nat) (cfg : Config.t) (f' : CAreaFitter.t) :
  run fuel cfg = Some f' →
  ∃ k cfg' n,
    (k <= fuel)%nat ∧ stepsCounting k cfg 0 = Some (cfg', n) ∧
    Config.loc cfg' = AtReturn ∧ Config.fitter cfg' = f'.
Proof.
  assert (∀ n0, run fuel cfg = Some f' →
    ∃ k cfg' n,
      (k <= fuel)%nat ∧ stepsCounting k cfg n0 = Some (cfg', n) ∧
      Config.loc cfg' = AtReturn ∧ Config.fitter cfg' = f') as H;
    [|by apply H].
  revert cfg. induction fuel as [|fuel IH]; intros cfg n0 Hrun.
  - cbn in Hrun. exists 0%nat, cfg, n0. cbn.
    destruct (Config.loc cfg); try done. by injection Hrun as <-.
  - cbn in Hrun.
    destruct (decide (Config.loc cfg = AtReturn)) as [Hret|Hnr].
    + exists 0%nat, cfg, n0. rewrite Hret in Hrun.
      injection Hrun as <-. cbn. split; [lia|done].
    + assert (∃ cfg1, step cfg = Some cfg1 ∧ run fuel cfg1 = Some f')
        as (cfg1 & Hstep & Hrest).
      { destruct (Config.loc cfg); try done;
          destruct (step cfg) as [cfg1|]; try done; by exists cfg1. }
      destruct (IH cfg1 (if isAttempt cfg cfg1 then n0 + 1 else n0) Hrest)
        as (k & cfg' & n & Hk & Hs & Hl & Hf).
      exists (S k), cfg', n. cbn [stepsCounting]. rewrite Hstep.
      cbn [mbind option_bind]. split; [lia|done].
Qed.

(** C5. With a positive limit, at every point of the search the calls
    left in [Globals], the calls the fitter holds and the calls taken add
    up to the limit; the fitter never holds more than 512 of them, and
    none when the function has returned. So no more calls are taken than
    the limit allows. *)
Theorem fitCalls_budget (MaxW MaxH MaxS : Z) (areas : list CFitArea.t)
    (d : CFitData.t) (FitCallsLimit : Z) (k : nat) (cfg' : Config.t)
    (n : Z) :
  0 < FitCallsLimit <= INT_MAX →
  stepsCounting k
    (Config.mk
       (pushStack
          (newAreaFitter MaxW MaxH MaxS
             (CGlobals.mk FitCallsLimit FitCallsLimit 2147483647 2147483647
                [] []) areas d))
       None None AtCodeLoc1) 0 = Some (cfg', n) →
  budgetOK FitCallsLimit (Config.fitter cfg') n ∧
  n <= FitCallsLimit ∧
  (Config.loc cfg' = AtReturn →
   CAreaFitter.FitCallsLeft (Config.fitter cfg') = 0 ∧
   CGlobals.FitCallsLeft (CAreaFitter.Globals (Config.fitter cfg')) + n
   = FitCallsLimit).
Proof.
  intros Hlim Hsteps.
  set (f0 := pushStack _) in *.
  assert (budgetOK FitCallsLimit f0 0) as H0.
  { assert (calls f0 = (0, FitCallsLimit)) as Hc.
    { unfold f0. rewrite calls_pushStack. unfold newAreaFitter.
      destruct (foldl _ _ _) as [f1 p] eqn:E. rewrite calls_upd_area.
      assert (∀ l f q f' q',
        foldl (λ '(f, PrevImgArea) i,
            (upd_area (CFitArea.set_Next (Some i)) PrevImgArea f,
             AreasPtr i)) (f, q) l = (f', q') → calls f' = calls f) as Hf.
      { clear. induction l as [|i l IH]; intros f q f' q' Hl.
        - by injection Hl as <- _.
        - cbn [foldl] in Hl. apply IH in Hl. by rewrite Hl, calls_upd_area. }
      by rewrite (Hf _ _ _ _ _ E). }
    apply calls_inv in Hc as [Hc1 Hc2]. unfold budgetOK.
    rewrite Hc1, Hc2. lia. }
  assert (∀ k cfg n0,
    budgetOK FitCallsLimit (Config.fitter cfg) n0 →
    (Config.loc cfg = AtReturn →
     CAreaFitter.FitCallsLeft (Config.fitter cfg) = 0) →
    stepsCounting k cfg n0 = Some (cfg', n) →
    budgetOK FitCallsLimit (Config.fitter cfg') n ∧
    (Config.loc cfg' = AtReturn →
     CAreaFitter.FitCallsLeft (Config.fitter cfg') = 0)) as Hind.
  { clear -Hlim. intros k. induction k as [|k IH]; intros cfg n0 Hb Hr Hs.
    - cbn in Hs. by injection Hs as <- <-.
    - cbn [stepsCounting] in Hs.
      apply bind_Some in Hs as (cfg1 & Hstep & Hs).
      destruct (step_budget FitCallsLimit cfg cfg1 n0 ltac:(lia) Hb Hr Hstep)
        as [Hb1 Hr1].
      by apply (IH cfg1 _ Hb1 Hr1). }
  destruct (Hind k (Config.mk f0 None None AtCodeLoc1) 0 H0 ltac:(done)
              Hsteps) as [Hb Hr].
  split; [done|]. destruct Hb as (Hn & Hl & Hg & Hsum).
  split; [lia|]. intros Hret. specialize (Hr Hret). split; [done|lia].
Qed.

(** Two areas and a limit of 1000 calls: within 200 steps the function
    has returned, 6 calls were taken and 994 are left. *)
Lemma fitCalls_budget_witness :
  ∃ cfg',
    stepsCounting 200
      (Config.mk
         (pushStack
            (newAreaFitter 100 100 10000
               (CGlobals.mk 1000 1000 2147483647 2147483647 [] [])
               [mkArea 20 20; mkArea 10 10] (initFitData 100 100 1)))
         None None AtCodeLoc1) 0 = Some (cfg', 6) ∧
    Config.loc cfg' = AtReturn ∧
    calls (Config.fitter cfg') = (0, 994) ∧
    budgetOK 1000 (Config.fitter cfg') 6 ∧ 6 <= 1000.
Proof.
  eexists. split; [vm_compute; reflexivity|]. split; [reflexivity|].
  split; [reflexivity|].
  match goal with
  | |- budgetOK _ (Config.fitter ?c) _ ∧ _ =>
      destruct (fitCalls_budget 100 100 10000 [mkArea 20 20; mkArea 10 10]
                  (initFitData 100 100 1) 1000 200 c 6) as (H1 & H2 & _)
  end.
  - unfold INT_MAX. lia.
  - vm_compute. reflexivity.
  - split; [exact H1|exact H2].
Defined.

(** ** Scaling the sizes *)







(** * Further properties of the parts *)

(** ** The constructor *)

(** The constructor keeps the areas as they were given, chains all of
    them, in their order, behind [InitArea], allocates one stack item for
    each of them and starts with [Depth] -1 and no calls. *)
Theorem newAreaFitter_chains_areas (MaxW MaxH MaxS : Z) (g : CGlobals.t)
    (areas : list CFitArea.t) (d : CFitData.t) :
  let f := newAreaFitter MaxW MaxH MaxS g areas d in
  areaChain f (seq 0 (length areas)) ∧
  areaDims <$> CAreaFitter.Areas f = areaDims <$> areas ∧
  areaRect <$> CAreaFitter.Areas f = areaRect <$> areas ∧
  length (CAreaFitter.Stack f) = length areas ∧
  CAreaFitter.Depth f = -1 ∧ CAreaFitter.FitCallsLeft f = 0 ∧
  CAreaFitter.fd f = d ∧ CAreaFitter.Globals f = g.
Proof.
  intros f.
  destruct (newAreaFitter_spec MaxW MaxH MaxS g areas d)
    as (Hca & Hlen & Hdims & Hrect & Hstack & Hfd & Hgl & Hdepth & Hcalls
        & _).
  fold f in Hca, Hlen, Hdims, Hrect, Hstack, Hfd, Hgl, Hdepth, Hcalls.
  destruct (newAreaFitter_given MaxW MaxH MaxS g areas d) as [Hg1 Hg2].
  split; [done|]. split; [done|]. split; [done|].
  split; [by rewrite Hstack, length_replicate|done].
Qed.

(** ** The loop that seeds the output areas *)

(** For whatever the output images of [FitData] hold, the loop chains
    one output area for each image, in the order of the images, at
    x = y = 0: as wide as the image, or as [aMaxOutImageWidth] when the
    image's width is 0, and as high as the image, or as
    [aMaxOutImageHeight] when its height is 0. *)
Theorem initBaseOutAreas_chain (imgs : list COutImage.t) (m : nat)
    (MaxW MaxH : Z) :
  let base := initBaseOutAreas imgs m MaxW MaxH in
  length base = S m ∧
  chain (λ p, match p with
              | BasePtr i => COutArea.Next (base !!! i)
              | NewPtr _ _ => None
              end) (BasePtr 0) (BasePtr <$> seq 1 m) ∧
  (λ i, outRect (base !!! S i)) <$> seq 0 m
  = (λ i, (Z.of_nat i, 0, 0,
           if COutImage.Width (imgs !!! i) =? 0 then MaxW
           else COutImage.Width (imgs !!! i),
           if COutImage.Height (imgs !!! i) =? 0 then MaxH
           else COutImage.Height (imgs !!! i))) <$> seq 0 m.
Proof.
  intros base.
  destruct (initBaseOutAreas_spec imgs m MaxW MaxH)
    as (Hlen & Hnext & Hend & Hrect). fold base in Hlen, Hnext, Hend, Hrect.
  split; [done|]. split.
  - apply (chain_base _ 0 m); [|done]. intros i Hi. apply Hnext. lia.
  - apply list_fmap_ext. intros k i Hi.
    apply lookup_seq in Hi as [-> Hk]. by apply Hrect.
Qed.

(** ** The loop over the sizes *)

(** The limit on the size of an image is raised to the size of the
    largest area and not otherwise changed; the second number is the sum
    of the sizes in [int] arithmetic. *)
Theorem sizeLoop_raises_limit (l : list CFitArea.t) (aMaxOutImageSize : Z) :
  let M := (sizeLoop l aMaxOutImageSize).1 in
  aMaxOutImageSize <= M ∧
  Forall (λ a, mul32 (CFitArea.Width a) (CFitArea.Height a) <= M) l ∧
  (M = aMaxOutImageSize ∨
   ∃ a, a ∈ l ∧ M = mul32 (CFitArea.Width a) (CFitArea.Height a)) ∧
  (sizeLoop l aMaxOutImageSize).2 = wrap32 (sumAreaSizes l).
Proof.
  unfold sizeLoop. rewrite sizeLoop_spec. cbn [fst snd].
  split; [|split; [|split]].
  - revert aMaxOutImageSize. induction l as [|a l IH]; intros M0; [done|].
    cbn [foldl]. etrans; [|apply IH]. lia.
  - revert aMaxOutImageSize. induction l as [|a l IH]; intros M0; [done|].
    cbn [foldl]. constructor; [|apply IH].
    assert (∀ l M1, M1 <= foldl (λ m a, Z.max m
              (mul32 (CFitArea.Width a) (CFitArea.Height a))) M1 l) as Hmono.
    { clear. induction l as [|b l IH]; intros M1; [done|].
      cbn [foldl]. etrans; [|apply IH]. lia. }
    etrans; [|apply Hmono]. lia.
  - revert aMaxOutImageSize. induction l as [|a l IH]; intros M0;
      [by left|].
    cbn [foldl]. destruct (IH (Z.max M0 (mul32 (CFitArea.Width a)
                                           (CFitArea.Height a))))
      as [->|(b & Hb & ->)].
    + destruct (Z.max_spec M0 (mul32 (CFitArea.Width a) (CFitArea.Height a)))
        as [[_ ->]|[_ ->]]; [right; exists a; split; [left|done]|by left].
    + right. exists b. split; [by right|done].
  - destruct l; [done|]. by rewrite Z.add_0_l.
Qed.

(** ** The comparison callbacks *)

(** For widths that are not negative, [FitAreasInSortFn] orders by
    descending width: the difference does not wrap around. *)
Theorem FitAreasInSortFn_descending (a1 a2 : CFitArea.t) :
  0 <= CFitArea.Width a1 <= INT_MAX →
  0 <= CFitArea.Width a2 <= INT_MAX →
  (FitAreasInSortFn a1 a2 < 0 ↔ CFitArea.Width a2 < CFitArea.Width a1) ∧
  (FitAreasInSortFn a1 a2 = 0 ↔ CFitArea.Width a1 = CFitArea.Width a2) ∧
  FitAreasInSortFn a2 a1 = - FitAreasInSortFn a1 a2.
Proof.
  intros H1 H2. unfold FitAreasInSortFn.
  rewrite !sub32_id by (unfold is_int, INT_MIN, INT_MAX in *; lia). lia.
Qed.

Lemma FitAreasInSortFn_descending_witness :
  FitAreasInSortFn (mkArea 250 60) (mkArea 50 30) < 0 ↔ 50 < 250.
Proof.
  apply (FitAreasInSortFn_descending (mkArea 250 60) (mkArea 50 30));
    cbn; unfold INT_MAX; lia.
Defined.

(** [FitAreasOutSortFn] compares by output image, then by x, then by y:
    it is negative exactly when the first area comes first in that
    order, and 0 exactly when the three values agree, as long as the
    difference of the y values does not wrap around. *)
Theorem FitAreasOutSortFn_lexicographic (a1 a2 : CFitArea.t) :
  is_int (CFitArea.OutY a1 - CFitArea.OutY a2) →
  (FitAreasOutSortFn a1 a2 < 0 ↔
   CFitArea.OutImage a1 < CFitArea.OutImage a2 ∨
   CFitArea.OutImage a1 = CFitArea.OutImage a2 ∧
   (CFitArea.OutX a1 < CFitArea.OutX a2 ∨
    CFitArea.OutX a1 = CFitArea.OutX a2 ∧
    CFitArea.OutY a1 < CFitArea.OutY a2)) ∧
  (FitAreasOutSortFn a1 a2 = 0 ↔
   CFitArea.OutImage a1 = CFitArea.OutImage a2 ∧
   CFitArea.OutX a1 = CFitArea.OutX a2 ∧
   CFitArea.OutY a1 = CFitArea.OutY a2).
Proof.
  intros Hy. unfold FitAreasOutSortFn.
  rewrite sub32_id by done.
  repeat match goal with
    | |- context [?a <? ?b] => destruct (Z.ltb_spec a b)
    end; lia.
Qed.

Lemma FitAreasOutSortFn_lexicographic_witness :
  FitAreasOutSortFn (CFitArea.mk 0 80 80 0 0 60 None)
    (CFitArea.mk 0 30 260 0 250 0 None) < 0.
Proof.
  apply (FitAreasOutSortFn_lexicographic (CFitArea.mk 0 80 80 0 0 60 None)
           (CFitArea.mk 0 30 260 0 250 0 None)).
  - cbn. unfold is_int, INT_MIN, INT_MAX. lia.
  - cbn. lia.
Defined.

(** ** A new output area is put in and taken out again *)

(** [NewOutAreas[ 0 ]] of the current stack item gets its fields and is
    inserted; the loop [while( s -> c > 0 )] then takes it out through
    the cell that [PrevNewOutAreas] kept. The chain is again the one
    before, and no other cell has changed. *)
Theorem addNewOutArea0_removed (f f1 : CAreaFitter.t)
    (L : list OutAreaPtr) (img ax ay w h : Z) :
  outChain f L → NoDup (OutAreas :: L) →
  NewPtr (depth f) 0 ∉ L →
  validOutPtr f (NewPtr (depth f) 0) →
  Forall (validOutPtr f) (OutAreas :: L) →
  (0 < length (CFitAreaStackItem.PrevNewOutAreas (item f (depth f))))%nat →
  addNewOutArea0 img ax ay w h f = Some f1 →
  let f2 := removeNewOutAreas (CFitAreaStackItem.c (s f1)) f1 in
  (∃ A B, L = A ++ B ∧ outChain f1 (A ++ NewPtr (depth f) 0 :: B)) ∧
  outChain f2 L ∧
  CFitAreaStackItem.c (s f2) = 0%nat ∧
  (∀ q, q ≠ NewPtr (depth f) 0 → outArea f2 q = outArea f q) ∧
  outRect (outArea f2 (NewPtr (depth f) 0)) = (img, ax, ay, w, h).
Proof.
  intros Hco Hnd Hfresh Hvp Hvall Hprevs Hadd.
  assert (depth f < length (CAreaFitter.Stack f))%nat as Hlen.
  { by destruct Hvp. }
  pose proof (addNewOutArea0_c _ _ _ _ _ _ _ Hlen Hadd) as Hc.
  rewrite Hc. unfold addNewOutArea0 in Hadd.
  set (p := NewPtr (depth f) 0) in *.
  set (fa := upd_outArea (COutArea.set_rect img ax ay w h) p f) in *.
  destruct (insertOutArea fa p) as [[fb prev]|] eqn:Hins; [|done].
  cbn [mbind option_bind] in Hadd. injection Hadd as <-.
  assert (p ∉ OutAreas :: L) as Hfp.
  { intros [?|?]%elem_of_cons; done. }
  assert (∀ q, outNext fa q = outNext f q) as Hna.
  { intros q. by apply outNext_set_rect. }
  assert (outChain fa L) as Hca.
  { unfold outChain in *. eapply chain_ext; [|exact Hco]. intros q _.
    apply Hna. }
  assert (validOutPtr fa p) as Hvpa.
  { by apply validOutPtr_upd_outArea. }
  assert (Forall (validOutPtr fa) (OutAreas :: L)) as Hvalla.
  { eapply Forall_impl; [exact Hvall|]. intros q Hq.
    by apply validOutPtr_upd_outArea. }
  destruct (insertOutArea_Some fa p L fb prev Hca Hnd Hfp Hvpa Hvalla Hins)
    as (A & B & HL & -> & -> & Hc2 & _ & _).
  set (r := lastOf OutAreas A) in *.
  assert (r ∈ OutAreas :: L) as Hrin.
  { rewrite HL. apply lastOf_out_in. }
  assert (validOutPtr f r) as Hvr.
  { rewrite Forall_forall in Hvall. by apply Hvall. }
  assert (r ≠ p) as Hrp by (intros Heq; by rewrite Heq in Hrin).
  set (D := depth f) in *.
  set (f1a := upd_outArea (COutArea.set_Next (outNext fa r)) p fa) in *.
  set (fb := upd_outArea (COutArea.set_Next (Some p)) r f1a) in *.
  set (g := λ it, CFitAreaStackItem.set_c 1 _).
  set (f1 := upd_s g fb).
  assert (scalarUpdate g) as Hg by solve_scalarUpdate.
  assert (depth fb = D) as HDb by (unfold fb, f1a, fa; by obs).
  assert (length (CAreaFitter.Stack fb) = length (CAreaFitter.Stack f))
    as Hlb by (unfold fb, f1a, fa; by obs).
  assert (∀ q, outArea fb q
               = if decide (q = r)
                 then COutArea.set_Next (Some p) (outArea f r)
                 else if decide (q = p)
                      then COutArea.mk img ax ay w h (outNext f r)
                      else outArea f q) as Houtb.
  { intros q. unfold fb.
    rewrite outArea_upd_outArea
      by (unfold f1a, fa; by rewrite !validOutPtr_upd_outArea).
    case_decide as Hq.
    - unfold f1a. rewrite outArea_upd_outArea by done.
      rewrite decide_False by done. unfold fa.
      rewrite outArea_set_rect by done. by rewrite decide_False.
    - unfold f1a. rewrite outArea_upd_outArea by done.
      case_decide; [|unfold fa; rewrite outArea_set_rect by done;
                      by rewrite decide_False].
      unfold fa at 2. rewrite outArea_set_rect by done.
      rewrite decide_True by done. cbn. by rewrite Hna. }
  assert (item f1 D
          = g (item f D)) as Hi1.
  { unfold f1. rewrite item_upd_s_eq by (done || lia).
    unfold fb, f1a, fa. by obs. }
  cbn [removeNewOutAreas]. cbv zeta.
  set (f1' := upd_s (CFitAreaStackItem.set_c 0) f1).
  assert (depth f1' = D) as HD1 by done.
  assert (item f1' D = CFitAreaStackItem.set_c 0 (g (item f D))) as Hi1'.
  { unfold f1'. rewrite item_upd_s_eq;
      [by rewrite Hi1|solve_scalarUpdate|done|].
    unfold f1. rewrite length_Stack_upd_s. lia. }
  assert (∀ q, outArea f1' q = outArea fb q) as Hout1'.
  { intros q. unfold f1', f1.
    by rewrite !outArea_upd_s by solve_scalarUpdate. }
  assert (CFitAreaStackItem.PrevNewOutAreas (s f1') !!! 0%nat = r) as HP.
  { change (CFitAreaStackItem.PrevNewOutAreas (s f1'))
      with (CFitAreaStackItem.PrevNewOutAreas (item f1' (depth f1'))).
    rewrite HD1, Hi1'. unfold g. fcbn.
    by apply list_lookup_total_insert_eq. }
  rewrite HP.
  assert (COutArea.Next (outAreaOf f1' (COutArea.Next (outArea f1' r)))
          = outNext f r) as HN.
  { rewrite Hout1', Houtb, decide_True by done. cbn [COutArea.Next
      COutArea.set_Next]. unfold outAreaOf. cbn [default from_option id].
    rewrite Hout1', Houtb, decide_False by done.
    by rewrite decide_True. }
  rewrite HN.
  set (f2 := upd_outArea (COutArea.set_Next (outNext f r)) r f1').
  assert (validOutPtr f1' r) as Hvr1.
  { unfold f1', f1. rewrite !validOutPtr_upd_s by solve_scalarUpdate.
    unfold fb, f1a, fa. by rewrite !validOutPtr_upd_outArea. }
  assert (∀ q, outArea f2 q
               = if decide (q = p)
                 then COutArea.mk img ax ay w h (outNext f r)
                 else outArea f q) as Hout2.
  { intros q. unfold f2. rewrite outArea_upd_outArea by done.
    rewrite !Hout1', !Houtb. rewrite (decide_True (P := r = r)) by done.
    case_decide as Hq; [|done]. subst q. rewrite decide_False by done.
    unfold outNext. by destruct (outArea f r). }
  split; [|split; [|split; [|split]]].
  - exists A, B. split; [done|].
    unfold outChain in *. eapply chain_ext; [|exact Hc2]. intros q _.
    unfold f1. by rewrite outNext_upd_s.
  - unfold outChain in *. eapply chain_ext; [|exact Hco]. intros q Hq.
    unfold outNext. rewrite Hout2. rewrite decide_False; [done|].
    intros ->. done.
  - change (CFitAreaStackItem.c (s f2))
      with (CFitAreaStackItem.c (item f2 (depth f2))).
    unfold f2. rewrite depth_upd_outArea, item_upd_outArea, HD1, Hi1'.
    done.
  - intros q Hq. rewrite Hout2. by rewrite decide_False.
  - rewrite Hout2. by rewrite decide_True.
Qed.

(** The fitter of the example: a new output area 50 x 100 at (50, 0) of
    the first image is inserted and taken out again. *)
Lemma addNewOutArea0_removed_witness :
  ∃ f1,
    addNewOutArea0 0 50 0 50 100 exampleFitter = Some f1 ∧
    outChain (removeNewOutAreas (CFitAreaStackItem.c (s f1)) f1)
      [BasePtr 1; BasePtr 2].
Proof.
  assert (∃ f1, addNewOutArea0 0 50 0 50 100 exampleFitter = Some f1)
    as [f1 Hadd].
  { eexists. vm_compute. reflexivity. }
  exists f1. split; [exact Hadd|].
  apply (addNewOutArea0_removed exampleFitter f1 [BasePtr 1; BasePtr 2]
           0 50 0 50 100); [| | | | | |exact Hadd].
  - vm_compute. repeat split.
  - apply (bool_decide_unpack _). vm_compute. exact I.
  - apply (bool_decide_unpack _). vm_compute. exact I.
  - vm_compute. repeat split; lia.
  - repeat constructor; vm_compute; lia.
  - vm_compute. lia.
Defined.

(** ** The areas stay the ones the caller gave *)

(** *** What leaves object, width and height alone *)

Lemma given_upd_s g f : given (upd_s g f) = given f.
Proof. reflexivity. Qed.

Lemma given_upd_outArea g p f : given (upd_outArea g p f) = given f.
Proof. by destruct p. Qed.

Lemma given_upd_fd g f : given (upd_fd g f) = given f.
Proof. reflexivity. Qed.

Lemma given_upd_area g p f :
  keepsArea g → given (upd_area g p f) = given f.
Proof.
  intros Hg. destruct p as [|i]; [done|]. unfold given. cbn.
  rewrite (list_fmap_alter areaDims g id).
  - by apply list_alter_id.
  - apply Forall_forall. intros a _. unfold areaDims.
    destruct (Hg a) as (-> & -> & ->). done.
Qed.

Lemma given_insertOutArea f p f' prev :
  insertOutArea f p = Some (f', prev) → given f' = given f.
Proof.
  unfold insertOutArea. intros H.
  destruct (insertOutArea_scan _ _ _ _ _) as [q|]; [|done].
  cbn in H. injection H as <- _. by rewrite !given_upd_outArea.
Qed.

Lemma given_removeNewOutAreas n f : given (removeNewOutAreas n f) = given f.
Proof.
  revert f. induction n as [|n IH]; intros f; [done|].
  cbn [removeNewOutAreas]. cbv zeta. rewrite IH.
  by rewrite given_upd_outArea, given_upd_s.
Qed.

Lemma given_addNewOutArea0 img ax ay w h f f' :
  addNewOutArea0 img ax ay w h f = Some f' → given f' = given f.
Proof.
  unfold addNewOutArea0. intros H.
  destruct (insertOutArea _ _) as [[f2 prev]|] eqn:E; [|done].
  cbn in H. injection H as <-. rewrite given_upd_s.
  apply given_insertOutArea in E. by rewrite E, given_upd_outArea.
Qed.

Lemma given_addNewOutArea1 img ax ay w h f f' :
  addNewOutArea1 img ax ay w h f = Some f' → given f' = given f.
Proof.
  unfold addNewOutArea1. intros H.
  destruct (insertOutArea _ _) as [[f2 prev]|] eqn:E; [|done].
  cbn in H. injection H as <-. rewrite given_upd_s.
  apply given_insertOutArea in E. by rewrite E, given_upd_outArea.
Qed.

Lemma given_configuration1 f A O f' :
  configuration1 f A O = Some f' → given f' = given f.
Proof.
  unfold configuration1. intros H.
  apply bind_Some in H as (f1 & H1 & H2).
  assert (given f1 = given f) as E1.
  { destruct (_ && _) in H1; [by eapply given_addNewOutArea0|].
    by injection H1 as <-. }
  rewrite <- E1. cbv zeta in H2.
  destruct (_ && _) in H2; [by eapply given_addNewOutArea1|].
  by injection H2 as <-.
Qed.

Lemma given_configuration2 f A O f' :
  configuration2 f A O = Some f' → given f' = given f.
Proof.
  unfold configuration2. intros H.
  apply bind_Some in H as (f1 & H1 & H2).
  assert (given f1 = given f) as E1.
  { destruct (_ && _) in H1; [by eapply given_addNewOutArea0|].
    by injection H1 as <-. }
  rewrite <- E1. cbv zeta in H2.
  destruct (_ && _) in H2; [by eapply given_addNewOutArea1|].
  by injection H2 as <-.
Qed.

Lemma given_saveBestFit f : given (saveBestFit f) = given f.
Proof. unfold saveBestFit. cbv zeta. by destruct (_ && _). Qed.

Lemma given_afterRegionLoop f A O :
  given (Config.fitter (afterRegionLoop f A O)) = given f.
Proof.
  unfold afterRegionLoop. cbn [Config.fitter].
  rewrite given_upd_s. apply given_upd_area. solve_keepsArea.
Qed.

Lemma given_regionTail f A O :
  given (Config.fitter (regionTail f A O)) = given f.
Proof.
  unfold regionTail. destruct (CFitAreaStackItem.WasOutImageAdded _).
  - cbv zeta. by rewrite given_afterRegionLoop, given_upd_fd,
      given_upd_outArea.
  - destruct (worseThanBest f); [apply given_afterRegionLoop|done].
Qed.

Lemma given_restoreOutImage f A O :
  given (Config.fitter (restoreOutImage f A O)) = given f.
Proof.
  unfold restoreOutImage. destruct (CFitAreaStackItem.DoOutImageRestore _).
  - cbv zeta. by rewrite given_regionTail.
  - apply given_regionTail.
Qed.

Lemma given_restoreOutArea f A O :
  given (Config.fitter (restoreOutArea f A O)) = given f.
Proof.
  unfold restoreOutArea. cbv zeta.
  by rewrite given_restoreOutImage, given_upd_outArea.
Qed.

Lemma given_placeArea f A O cfg' :
  placeArea f A O = Some cfg' → given (Config.fitter cfg') = given f.
Proof.
  unfold placeArea. cbv zeta. intros H.
  set (f1 := upd_area _ _ f) in *.
  assert (given f1 = given f) as E1.
  { apply given_upd_area. solve_keepsArea. }
  destruct (CFitArea.Next _) as [first|].
  - apply bind_Some in H as ([mw mh] & _ & H).
    apply bind_Some in H as (f4 & H4 & H). injection H as <-.
    cbn [Config.fitter]. change (given (pushStack ?g)) with (given g).
    rewrite given_upd_s.
    apply given_configuration1 in H4. rewrite H4.
    by rewrite given_upd_outArea, given_upd_s.
  - injection H as <-.
    by rewrite given_restoreOutImage, given_saveBestFit.
Qed.

Lemma given_tryOutArea f A O cfg' :
  tryOutArea f A O = Some cfg' → given (Config.fitter cfg') = given f.
Proof.
  unfold tryOutArea. cbv zeta. intros H.
  destruct (_ || _); [by injection H as <-|].
  destruct (CheckFit.result _).
  - apply given_placeArea in H. by rewrite H.
  - injection H as <-. by rewrite given_regionTail.
Qed.

Lemma given_atRegionLoop f A O cfg' :
  atRegionLoop f A O = Some cfg' → given (Config.fitter cfg') = given f.
Proof.
  unfold atRegionLoop. intros H. destruct O as [h|].
  - apply given_tryOutArea in H. by rewrite H.
  - destruct (0 <? _);
      [injection H as <-; apply given_afterRegionLoop|].
    destruct (_ =? _);
      [injection H as <-; apply given_afterRegionLoop|].
    cbv zeta in H. apply bind_Some in H as ([f2 prev] & Hins & H).
    apply given_tryOutArea in H. rewrite H.
    apply given_insertOutArea in Hins.
    rewrite given_upd_s, given_upd_fd.
    change (given (set_outImage ?i ?v ?g)) with (given g).
    rewrite given_upd_fd, given_upd_outArea, given_upd_s, Hins.
    apply given_upd_outArea.
Qed.

Lemma given_atCodeLoc2 f A O cfg' :
  atCodeLoc2 f A O = Some cfg' → given (Config.fitter cfg') = given f.
Proof.
  unfold atCodeLoc2. cbv zeta. intros H.
  destruct (_ && _).
  - apply bind_Some in H as (f2 & H2 & H).
    apply given_configuration2 in H2.
    rewrite given_removeNewOutAreas in H2.
    destruct (0 <? _)%nat; injection H as <-.
    + cbn [Config.fitter]. change (given (pushStack ?g)) with (given g).
      by rewrite given_upd_s.
    + by rewrite given_restoreOutArea.
  - injection H as <-.
    by rewrite given_restoreOutArea, given_removeNewOutAreas.
Qed.

Lemma given_atCodeLoc3 f A O cfg' :
  atCodeLoc3 f A O = Some cfg' → given (Config.fitter cfg') = given f.
Proof.
  unfold atCodeLoc3. cbv zeta. intros [= <-].
  by rewrite given_restoreOutArea, given_removeNewOutAreas.
Qed.

Lemma given_leaveFrame f A O :
  given (Config.fitter (leaveFrame f A O)) = given f.
Proof.
  unfold leaveFrame. destruct (0 <? CAreaFitter.Depth f); [done|].
  by destruct (0 <? CAreaFitter.FitCallsLeft f).
Qed.

Lemma given_startArea f : given (Config.fitter (startArea f)) = given f.
Proof.
  unfold startArea. cbv zeta. cbn [Config.fitter]. rewrite given_upd_s.
  rewrite given_upd_area by solve_keepsArea. done.
Qed.

Lemma given_atCodeLoc1 f A O :
  given (Config.fitter (atCodeLoc1 f A O)) = given f.
Proof.
  unfold atCodeLoc1.
  destruct (CFitAreaStackItem.Area (s f)); [|apply given_leaveFrame].
  destruct (worseThanBest f); [apply given_leaveFrame|].
  destruct (CAreaFitter.FitCallsLeft f =? 0); [|apply given_startArea].
  destruct (_ || _); [by rewrite given_leaveFrame|].
  destruct (_ =? 0); [done|].
  destruct (512 <=? _); by rewrite given_startArea.
Qed.

Lemma given_step cfg cfg' :
  step cfg = Some cfg' →
  given (Config.fitter cfg') = given (Config.fitter cfg).
Proof.
  unfold step. destruct (Config.loc cfg); intros H.
  - injection H as <-. apply given_atCodeLoc1.
  - by eapply given_atRegionLoop.
  - by eapply given_atCodeLoc2.
  - by eapply given_atCodeLoc3.
  - by injection H as <-.
Qed.

Lemma given_run fuel cfg f' :
  run fuel cfg = Some f' → given f' = given (Config.fitter cfg).
Proof.
  revert cfg. induction fuel as [|fuel IH]; intros cfg Hrun.
  - cbn in Hrun. destruct (Config.loc cfg); try done.
    by injection Hrun as <-.
  - cbn in Hrun.
    destruct (decide (Config.loc cfg = AtReturn)) as [Hret|Hnr].
    + rewrite Hret in Hrun. by injection Hrun as <-.
    + assert (∃ cfg1, step cfg = Some cfg1 ∧ run fuel cfg1 = Some f')
        as (cfg1 & Hstep & Hrest).
      { destruct (Config.loc cfg); try done;
          destruct (step cfg) as [cfg1|]; try done; by exists cfg1. }
      rewrite (IH _ Hrest). by apply given_step.
Qed.

Section Same.
Variable qsort :
  (CFitArea.t → CFitArea.t → Z) → list CFitArea.t → list CFitArea.t.
Hypothesis qsort_Permutation : ∀ cmp l, qsort cmp l ≡ₚ l.

(** The list that a successful call returns holds the areas the caller
    gave, each one once: object, width and height are the same, only the
    order and the placement are new. *)
Theorem fitAreas_same_areas (fuel : nat) (AreasToFit : list CFitArea.t)
    (OutImages : list COutImage.t)
    (aMaxOutImageWidth aMaxOutImageHeight aMaxOutImageSize : Z)
    (MinOutImageCount FitCallsLimit : Z) (FitQuality : double)
    (r : FitResult.t) :
  Forall (λ a, 0 <= CFitArea.Width a <= INT_MAX ∧
               0 <= CFitArea.Height a <= INT_MAX) AreasToFit →
  0 <= aMaxOutImageWidth <= INT_MAX →
  0 <= aMaxOutImageHeight <= INT_MAX →
  0 <= MinOutImageCount →
  MinOutImageCount + 1 + Z.of_nat (length AreasToFit) <= INT_MAX →
  fitAreas qsort fuel AreasToFit OutImages aMaxOutImageWidth
    aMaxOutImageHeight aMaxOutImageSize MinOutImageCount FitCallsLimit
    FitQuality = Some r →
  FitResult.ok r = true →
  areaDims <$> FitResult.AreasToFit r ≡ₚ areaDims <$> AreasToFit.
Proof.
  intros Hareas HW HH Hm Hcount Hfit Hok.
  destruct (decide (2 <= length AreasToFit)%nat) as [Hlen|Hlen].
  - destruct (fitAreas_Solution qsort qsort_Permutation fuel AreasToFit
                OutImages aMaxOutImageWidth aMaxOutImageHeight
                aMaxOutImageSize MinOutImageCount FitCallsLimit FitQuality r
                Hlen Hareas HW HH Hm Hcount Hfit Hok)
      as (f' & best & Hrun & HSol & Hperm & _).
    rewrite Hperm, (sol_same _ _ _ _ _ _ HSol).
    apply given_run in Hrun. unfold given in Hrun.
    cbn [Config.fitter] in Hrun. rewrite Hrun.
    change (CAreaFitter.Areas (pushStack ?g)) with (CAreaFitter.Areas g).
    rewrite (proj1 (newAreaFitter_given _ _ _ _ _ _)).
    by rewrite (qsort_Permutation FitAreasInSortFn AreasToFit).
  - destruct AreasToFit as [|a [|b l]]; [| |cbn in Hlen; lia].
    + by injection Hfit as <-.
    + unfold fitAreas in Hfit. cbn in Hfit. by injection Hfit as <-.
Qed.
End Same.

(** The four areas of the example. *)
Lemma fitAreas_same_areas_witness :
  ∃ r,
    fitAreas insertionSort 100000 exampleAreas [] 300 300 90000 1 10000 NaN
    = Some r ∧
    FitResult.ok r = true ∧
    areaDims <$> FitResult.AreasToFit r ≡ₚ areaDims <$> exampleAreas.
Proof.
  assert (∃ r,
    fitAreas insertionSort 100000 exampleAreas [] 300 300 90000 1 10000 NaN
    = Some r ∧ FitResult.ok r = true) as (r & Hfit & Hok).
  { eexists. split; [vm_compute; reflexivity|reflexivity]. }
  exists r. split; [exact Hfit|]. split; [exact Hok|].
  apply (fitAreas_same_areas insertionSort insertionSort_Permutation 100000
           exampleAreas [] 300 300 90000 1 10000 NaN r);
    [|unfold INT_MAX; lia|unfold INT_MAX; lia|lia
     |unfold INT_MAX; cbn; lia|exact Hfit|exact Hok].
  unfold exampleAreas, mkArea, INT_MAX. repeat constructor; cbn; lia.
Defined.

(** ** The invariant at every point of the search *)

(** Whatever number of steps the search has made from the state in which
    [fitAreas] starts it, the invariant holds: the output areas of the
    chain and the areas placed by the suspended stack items are inside
    their bounds and separated from each other, the stack items describe
    the two chains, and the fit kept in [Globals], if there is one, is a
    complete fit without overlap. *)
Theorem search_keeps_invariant (MaxW MaxH MaxS : Z) (g : CGlobals.t)
    (areas : list CFitArea.t) (MinOutImageCount : Z) (k : nat)
    (cfg' : Config.t) (n : Z) :
  (1 <= length areas)%nat →
  Forall (λ a, 0 <= CFitArea.Width a <= INT_MAX ∧
               0 <= CFitArea.Height a <= INT_MAX) areas →
  0 <= MaxW <= INT_MAX → 0 <= MaxH <= INT_MAX →
  0 <= MinOutImageCount →
  MinOutImageCount + 1 + Z.of_nat (length areas) <= INT_MAX →
  CGlobals.BestOutSize g = 2147483647 →
  stepsCounting k
    (Config.mk
       (pushStack
          (newAreaFitter MaxW MaxH MaxS g areas
             (initFitData MaxW MaxH MinOutImageCount)))
       None None AtCodeLoc1) 0 = Some (cfg', n) →
  Inv INT_MAX INT_MAX cfg' ∧
  given (Config.fitter cfg') = areaDims <$> areas.
Proof.
  intros Hn Hareas HW HH Hm Hcount Hg Hsteps.
  pose proof (start_Inv MaxW MaxH MaxS g areas MinOutImageCount Hn Hareas HW
                HH Hm Hcount Hg) as H0.
  set (cfg0 := Config.mk _ None None AtCodeLoc1) in *.
  assert (given (Config.fitter cfg0) = areaDims <$> areas) as Hg0.
  { unfold given, cfg0. cbn [Config.fitter].
    change (CAreaFitter.Areas (pushStack ?f)) with (CAreaFitter.Areas f).
    apply newAreaFitter_given. }
  clearbody cfg0. revert cfg0 H0 Hg0 Hsteps. generalize 0.
  induction k as [|k IH]; intros n0 cfg0 H0 Hg0 Hsteps.
  - cbn in Hsteps. by injection Hsteps as <- <-.
  - cbn [stepsCounting] in Hsteps.
    apply bind_Some in Hsteps as (cfg1 & Hstep & Hsteps).
    apply (IH (if isAttempt cfg0 cfg1 then n0 + 1 else n0) cfg1);
      [by eapply step_Inv| |done].
    by rewrite (given_step _ _ Hstep).
Qed.

(** Two areas and one output image: the state after seven steps. *)
Lemma search_keeps_invariant_witness :
  ∃ cfg',
    stepsCounting 7
      (Config.mk
         (pushStack
            (newAreaFitter 100 100 10000
               (CGlobals.mk 1000 1000 2147483647 2147483647 [] [])
               [mkArea 20 20; mkArea 10 10] (initFitData 100 100 1)))
         None None AtCodeLoc1) 0 = Some (cfg', 2) ∧
    Config.loc cfg' = AtCodeLoc2 ∧
    Inv INT_MAX INT_MAX cfg'.
Proof.
  eexists. split; [vm_compute; reflexivity|]. split; [reflexivity|].
  match goal with
  | |- Inv _ _ ?c =>
      apply (search_keeps_invariant 100 100 10000
               (CGlobals.mk 1000 1000 2147483647 2147483647 [] [])
               [mkArea 20 20; mkArea 10 10] 1 7 c 2)
  end.
  - cbn. lia.
  - unfold mkArea, INT_MAX. repeat constructor; cbn; lia.
  - unfold INT_MAX. lia.
  - unfold INT_MAX. lia.
  - lia.
  - unfold INT_MAX. cbn. lia.
  - reflexivity.
  - vm_compute. reflexivity.
Defined.

(** ** The output images keep to the limits *)

Section Limits.
Variable qsort :
  (CFitArea.t → CFitArea.t → Z) → list CFitArea.t → list CFitArea.t.
Hypothesis qsort_Permutation : ∀ cmp l, qsort cmp l ≡ₚ l.

(** When the areas are no wider than [BW] and no higher than [BH], and
    the two limits of the call are within [BW] and [BH] as well, every
    output image of a successful call is at most [BW] wide and [BH] high,
    and its [Size] field is its width times its height as an [int]. With
    areas that fit the limits, [BW] and [BH] are the limits themselves. *)
Theorem fitAreas_images_within (BW BH : Z) (fuel : nat)
    (AreasToFit : list CFitArea.t) (OutImages : list COutImage.t)
    (aMaxOutImageWidth aMaxOutImageHeight aMaxOutImageSize : Z)
    (MinOutImageCount FitCallsLimit : Z) (FitQuality : double)
    (r : FitResult.t) :
  BW <= INT_MAX → BH <= INT_MAX →
  Forall (λ a, 0 <= CFitArea.Width a <= BW ∧
               0 <= CFitArea.Height a <= BH) AreasToFit →
  0 <= aMaxOutImageWidth <= BW →
  0 <= aMaxOutImageHeight <= BH →
  0 <= MinOutImageCount →
  MinOutImageCount + 1 + Z.of_nat (length AreasToFit) <= INT_MAX →
  fitAreas qsort fuel AreasToFit OutImages aMaxOutImageWidth
    aMaxOutImageHeight aMaxOutImageSize MinOutImageCount FitCallsLimit
    FitQuality = Some r →
  FitResult.ok r = true →
  Forall (λ im, 0 <= COutImage.Width im <= BW ∧
                0 <= COutImage.Height im <= BH ∧
                COutImage.Size im
                = mul32 (COutImage.Width im) (COutImage.Height im))
    (FitResult.OutImages r).
Proof.
  intros HBW HBH Hareas HW HH Hm Hcount Hfit Hok.
  destruct (decide (2 <= length AreasToFit)%nat) as [Hlen|Hlen].
  - destruct (fitAreas_Solution_within qsort qsort_Permutation BW BH fuel
                AreasToFit OutImages aMaxOutImageWidth aMaxOutImageHeight
                aMaxOutImageSize MinOutImageCount FitCallsLimit FitQuality r
                HBW HBH Hlen Hareas HW HH Hm Hcount Hfit Hok)
      as (f' & best & _ & HSol & _).
    apply (sol_images _ _ _ _ _ _ HSol).
  - destruct AreasToFit as [|a [|b l]]; [| |cbn in Hlen; lia].
    + injection Hfit as <-. constructor.
    + unfold fitAreas in Hfit. cbn [length Nat.ltb Nat.leb] in Hfit.
      injection Hfit as <-. cbn [FitResult.OutImages].
      apply Forall_cons in Hareas as [Ha _].
      assert (∀ v, <[0%nat := v]> (setItemCount 1 OutImages) = [v]) as ->.
      { intros v. unfold setItemCount.
        destruct OutImages as [|x [|y l]]; reflexivity. }
      constructor; [|constructor]. cbn.
      destruct a as [ob w h oi ox oy nx]. cbn in *.
      split; [lia|]. split; [lia|]. reflexivity.
Qed.
End Limits.

(** The four areas of the example keep to 300 by 300. *)
Lemma fitAreas_images_within_witness :
  ∃ r,
    fitAreas insertionSort 100000 exampleAreas [] 300 300 90000 1 10000 NaN
    = Some r ∧
    FitResult.ok r = true ∧
    Forall (λ im, 0 <= COutImage.Width im <= 300 ∧
                  0 <= COutImage.Height im <= 300 ∧
                  COutImage.Size im
                  = mul32 (COutImage.Width im) (COutImage.Height im))
      (FitResult.OutImages r).
Proof.
  assert (∃ r,
    fitAreas insertionSort 100000 exampleAreas [] 300 300 90000 1 10000 NaN
    = Some r ∧ FitResult.ok r = true) as (r & Hfit & Hok).
  { eexists. split; [vm_compute; reflexivity|reflexivity]. }
  exists r. split; [exact Hfit|]. split; [exact Hok|].
  apply (fitAreas_images_within insertionSort insertionSort_Permutation
           300 300 100000 exampleAreas [] 300 300 90000 1 10000 NaN r);
    [unfold INT_MAX; lia|unfold INT_MAX; lia| |lia|lia|lia
     |unfold INT_MAX; cbn; lia|exact Hfit|exact Hok].
  unfold exampleAreas, mkArea. repeat constructor; cbn; lia.
Defined.

(** ** No output image exceeds [MaxOutImageSize] *)

Ltac solve_keepsSave := intros ?; reflexivity.

Section Sizes.
Variable M : Z.
Hypothesis M_nonneg : 0 <= M.

Lemma sizesOK_upd_s g f :
  (∀ it, CFitAreaStackItem.OutImageSave (g it)
         = CFitAreaStackItem.OutImageSave it) →
  sizesOK M f → sizesOK M (upd_s g f).
Proof.
  intros Hg (H1 & H2 & H3 & H4). split; [done|]. split; [done|].
  split; [|done]. cbn. apply Forall_alter; [done|].
  intros x _ Hx. by rewrite Hg.
Qed.

Lemma sizesOK_upd_outArea g p f :
  sizesOK M f → sizesOK M (upd_outArea g p f).
Proof.
  intros (H1 & H2 & H3 & H4). destruct p as [i|d k]; [done|].
  split; [done|]. split; [done|]. split; [|done].
  cbn. apply Forall_alter; [done|]. by intros x _ Hx.
Qed.

Lemma sizesOK_upd_area g p f : sizesOK M f → sizesOK M (upd_area g p f).
Proof. by destruct p. Qed.

Lemma sizesOK_upd_fd g f :
  (∀ d, CFitData.OutImages (g d) = CFitData.OutImages d) →
  sizesOK M f → sizesOK M (upd_fd g f).
Proof.
  intros Hg (H1 & H2 & H3 & H4). split; [done|]. split; [|done].
  cbn. by rewrite Hg.
Qed.

Lemma sizesOK_set_outImage i v f :
  COutImage.Size v <= M → sizesOK M f → sizesOK M (set_outImage i v f).
Proof.
  intros Hv (H1 & H2 & H3 & H4). split; [done|]. split; [|done].
  cbn. by apply Forall_insert.
Qed.

Lemma sizesOK_outImage f i : sizesOK M f → COutImage.Size (outImage f i) <= M.
Proof.
  intros (_ & H2 & _). unfold outImage.
  rewrite list_lookup_total_alt.
  destruct (_ !! _) as [im|] eqn:E; [|done].
  by apply (Forall_lookup_1 _ _ _ _ H2 E).
Qed.

Lemma sizesOK_save f :
  sizesOK M f → COutImage.Size (CFitAreaStackItem.OutImageSave (s f)) <= M.
Proof.
  intros (_ & _ & H3 & _). unfold s.
  rewrite list_lookup_total_alt.
  destruct (_ !! _) as [it|] eqn:E; [|done].
  by apply (Forall_lookup_1 _ _ _ _ H3 E).
Qed.

Lemma sizesOK_pushStack f : sizesOK M f → sizesOK M (pushStack f).
Proof.
  intros H. unfold pushStack. cbv zeta.
  apply sizesOK_upd_s; [solve_keepsSave|]. done.
Qed.

Lemma sizesOK_insertOutArea f p f' prev :
  insertOutArea f p = Some (f', prev) → sizesOK M f → sizesOK M f'.
Proof.
  unfold insertOutArea. intros H Hf.
  destruct (insertOutArea_scan _ _ _ _ _) as [q|]; [|done].
  cbn in H. injection H as <- _. by do 2 apply sizesOK_upd_outArea.
Qed.

Lemma sizesOK_removeNewOutAreas n f :
  sizesOK M f → sizesOK M (removeNewOutAreas n f).
Proof.
  revert f. induction n as [|n IH]; intros f Hf; [done|].
  cbn [removeNewOutAreas]. cbv zeta. apply IH.
  apply sizesOK_upd_outArea. by apply sizesOK_upd_s; [solve_keepsSave|].
Qed.

Lemma sizesOK_addNewOutArea0 img ax ay w h f f' :
  addNewOutArea0 img ax ay w h f = Some f' → sizesOK M f → sizesOK M f'.
Proof.
  unfold addNewOutArea0. intros H Hf.
  destruct (insertOutArea _ _) as [[f2 prev]|] eqn:E; [|done].
  cbn in H. injection H as <-. apply sizesOK_upd_s; [solve_keepsSave|].
  eapply sizesOK_insertOutArea; [exact E|]. by apply sizesOK_upd_outArea.
Qed.

Lemma sizesOK_addNewOutArea1 img ax ay w h f f' :
  addNewOutArea1 img ax ay w h f = Some f' → sizesOK M f → sizesOK M f'.
Proof.
  unfold addNewOutArea1. intros H Hf.
  destruct (insertOutArea _ _) as [[f2 prev]|] eqn:E; [|done].
  cbn in H. injection H as <-. apply sizesOK_upd_s; [solve_keepsSave|].
  eapply sizesOK_insertOutArea; [exact E|]. by apply sizesOK_upd_outArea.
Qed.

Lemma sizesOK_configuration1 f A O f' :
  configuration1 f A O = Some f' → sizesOK M f → sizesOK M f'.
Proof.
  unfold configuration1. intros H Hf.
  apply bind_Some in H as (f1 & H1 & H2).
  assert (sizesOK M f1) as Hf1.
  { destruct (_ && _) in H1; [by eapply sizesOK_addNewOutArea0|].
    injection H1 as <-. by apply sizesOK_upd_s; [solve_keepsSave|]. }
  cbv zeta in H2.
  destruct (_ && _) in H2; [by eapply sizesOK_addNewOutArea1|].
  by injection H2 as <-.
Qed.

Lemma sizesOK_configuration2 f A O f' :
  configuration2 f A O = Some f' → sizesOK M f → sizesOK M f'.
Proof.
  unfold configuration2. intros H Hf.
  apply bind_Some in H as (f1 & H1 & H2).
  assert (sizesOK M f1) as Hf1.
  { destruct (_ && _) in H1; [by eapply sizesOK_addNewOutArea0|].
    injection H1 as <-. by apply sizesOK_upd_s; [solve_keepsSave|]. }
  cbv zeta in H2.
  destruct (_ && _) in H2; [by eapply sizesOK_addNewOutArea1|].
  by injection H2 as <-.
Qed.

(** The images of a new best fit are copies of images of the buffer. *)
Lemma sizesOK_saveBestFit f : sizesOK M f → sizesOK M (saveBestFit f).
Proof.
  intros Hf. unfold saveBestFit. cbv zeta.
  destruct (_ && _); [|by apply sizesOK_upd_fd].
  destruct Hf as (H1 & H2 & H3 & H4).
  split; [done|]. split; [done|]. split; [done|].
  cbn. apply Forall_fmap, Forall_forall. intros i _. cbn.
  rewrite list_lookup_total_alt.
  destruct (_ !! _) as [im|] eqn:E; [|done].
  by apply (Forall_lookup_1 _ _ _ _ H2 E).
Qed.

Lemma sizesOK_afterRegionLoop f A O :
  sizesOK M f → sizesOK M (Config.fitter (afterRegionLoop f A O)).
Proof.
  intros Hf. unfold afterRegionLoop. cbn [Config.fitter].
  apply sizesOK_upd_s; [solve_keepsSave|]. by apply sizesOK_upd_area.
Qed.

Lemma sizesOK_regionTail f A O :
  sizesOK M f → sizesOK M (Config.fitter (regionTail f A O)).
Proof.
  intros Hf. unfold regionTail.
  destruct (CFitAreaStackItem.WasOutImageAdded _).
  - cbv zeta. apply sizesOK_afterRegionLoop.
    apply sizesOK_upd_fd; [done|]. by apply sizesOK_upd_outArea.
  - destruct (worseThanBest f); [by apply sizesOK_afterRegionLoop|].
    cbv zeta. cbn [Config.fitter].
    by apply sizesOK_upd_s; [solve_keepsSave|].
Qed.

(** The image that is put back is one that was in the buffer before. *)
Lemma sizesOK_restoreOutImage f A O :
  sizesOK M f → sizesOK M (Config.fitter (restoreOutImage f A O)).
Proof.
  intros Hf. unfold restoreOutImage.
  destruct (CFitAreaStackItem.DoOutImageRestore _);
    [|by apply sizesOK_regionTail].
  cbv zeta. apply sizesOK_regionTail. apply sizesOK_upd_fd; [done|].
  apply sizesOK_set_outImage; [|done]. by apply sizesOK_save.
Qed.

Lemma sizesOK_restoreOutArea f A O :
  sizesOK M f → sizesOK M (Config.fitter (restoreOutArea f A O)).
Proof.
  intros Hf. unfold restoreOutArea. cbv zeta.
  apply sizesOK_restoreOutImage. by apply sizesOK_upd_outArea.
Qed.

Lemma sizesOK_placeArea f A O cfg' :
  placeArea f A O = Some cfg' → sizesOK M f →
  sizesOK M (Config.fitter cfg').
Proof.
  unfold placeArea. cbv zeta. intros H Hf.
  set (f1 := upd_area _ _ f) in *.
  assert (sizesOK M f1) as Hf1 by by apply sizesOK_upd_area.
  destruct (CFitArea.Next _) as [first|].
  - apply bind_Some in H as ([mw mh] & _ & H).
    apply bind_Some in H as (f4 & H4 & H). injection H as <-.
    cbn [Config.fitter]. apply sizesOK_pushStack.
    apply sizesOK_upd_s; [solve_keepsSave|].
    eapply sizesOK_configuration1; [exact H4|].
    apply sizesOK_upd_outArea. by apply sizesOK_upd_s; [solve_keepsSave|].
  - injection H as <-.
    apply sizesOK_restoreOutImage. by apply sizesOK_saveBestFit.
Qed.

(** The check accepts an enlarged image only when its size is within
    the limit, and saves the image it replaces. *)
Lemma checkAreaFitAgainstBest_sizes (OutSize BestOutSize w h : Z)
    (im : COutImage.t) (dr : bool) (sv : COutImage.t) (ss tried : Z) :
  COutImage.Size im <= M → COutImage.Size sv <= M →
  COutImage.Size
    (CheckFit.OutImage
       (checkAreaFitAgainstBest M OutSize BestOutSize w h im dr sv ss tried))
  <= M ∧
  COutImage.Size
    (CheckFit.OutImageSave
       (checkAreaFitAgainstBest M OutSize BestOutSize w h im dr sv ss tried))
  <= M.
Proof.
  intros Him Hsv. unfold checkAreaFitAgainstBest.
  destruct (COutImage.Width im <? w), (COutImage.Height im <? h);
    cbv zeta; try done;
    (match goal with
     | |- context [M <? ?x] =>
         destruct (M <? x) eqn:E; [done|apply Z.ltb_ge in E]
     end;
     destruct (BestOutSize <=? _); [done|]; cbn; done).
Qed.

Lemma sizesOK_commitFit f A O :
  sizesOK M f → sizesOK M (commitFit f O (checkFit f A O)).
Proof.
  intros Hf. unfold commitFit, checkFit. cbv zeta.
  rewrite (proj1 Hf).
  match goal with
  | |- context [checkAreaFitAgainstBest M ?a ?b ?w ?h ?im ?dr ?sv ?ss ?tr] =>
      destruct (checkAreaFitAgainstBest_sizes a b w h im dr sv ss tr)
        as [Hi Hs]; [by apply sizesOK_outImage|by apply sizesOK_save|];
      set (r := checkAreaFitAgainstBest M a b w h im dr sv ss tr) in *
  end.
  assert (sizesOK M
            (upd_fd (CFitData.set_OutSize (CheckFit.OutSize r))
               (set_outImage (COutArea.OutImage (outAreaOf f O))
                  (CheckFit.OutImage r) f))) as (H1 & H2 & H3 & H4).
  { apply sizesOK_upd_fd; [done|]. by apply sizesOK_set_outImage. }
  split; [done|]. split; [done|]. split; [|done].
  cbn. apply Forall_alter; [done|]. by intros x _ _.
Qed.

Lemma sizesOK_tryOutArea f A O cfg' :
  tryOutArea f A O = Some cfg' → sizesOK M f →
  sizesOK M (Config.fitter cfg').
Proof.
  unfold tryOutArea. cbv zeta. intros H Hf.
  assert (sizesOK M (setRemain f A O)) as Hf1.
  { unfold setRemain. cbv zeta. by apply sizesOK_upd_s; [solve_keepsSave|]. }
  destruct (_ || _).
  - injection H as <-. cbn [Config.fitter].
    by apply sizesOK_upd_s; [solve_keepsSave|].
  - pose proof (sizesOK_commitFit _ A O Hf1) as Hf3.
    destruct (CheckFit.result _).
    + by eapply sizesOK_placeArea.
    + injection H as <-. by apply sizesOK_regionTail.
Qed.

(** A new output image starts with size 0. *)
Lemma sizesOK_atRegionLoop f A O cfg' :
  atRegionLoop f A O = Some cfg' → sizesOK M f →
  sizesOK M (Config.fitter cfg').
Proof.
  unfold atRegionLoop. intros H Hf. destruct O as [h|].
  - eapply sizesOK_tryOutArea; [exact H|].
    by apply sizesOK_upd_s; [solve_keepsSave|].
  - destruct (0 <? _);
      [injection H as <-; by apply sizesOK_afterRegionLoop|].
    destruct (_ =? _);
      [injection H as <-; by apply sizesOK_afterRegionLoop|].
    cbv zeta in H. apply bind_Some in H as ([f2 prev] & Hins & H).
    eapply sizesOK_tryOutArea; [exact H|].
    apply sizesOK_upd_s; [solve_keepsSave|].
    apply sizesOK_upd_fd; [done|].
    apply sizesOK_set_outImage; [done|].
    assert (sizesOK M
              (upd_outArea
                 (COutArea.set_OutImage
                    (CFitData.OutImageCount
                       (CAreaFitter.fd
                          (upd_s (CFitAreaStackItem.set_PrevOutArea prev)
                             f2))))
                 (NewPtr (depth f) 2)
                 (upd_s (CFitAreaStackItem.set_PrevOutArea prev) f2)))
      as (H1 & H2 & H3 & H4).
    { apply sizesOK_upd_outArea. apply sizesOK_upd_s; [solve_keepsSave|].
      eapply sizesOK_insertOutArea; [exact Hins|].
      by apply sizesOK_upd_outArea. }
    split; [done|]. split; [|done]. cbn. unfold updateCapacity.
    apply Forall_app. split; [done|]. by apply Forall_replicate.
Qed.

Lemma sizesOK_atCodeLoc2 f A O cfg' :
  atCodeLoc2 f A O = Some cfg' → sizesOK M f →
  sizesOK M (Config.fitter cfg').
Proof.
  unfold atCodeLoc2. cbv zeta. intros H Hf.
  pose proof (sizesOK_removeNewOutAreas (CFitAreaStackItem.c (s f)) f Hf)
    as Hf1.
  destruct (_ && _).
  - apply bind_Some in H as (f2 & H2 & H).
    pose proof (sizesOK_configuration2 _ _ _ _ H2 Hf1) as Hf2.
    destruct (0 <? _)%nat; injection H as <-.
    + cbn [Config.fitter]. apply sizesOK_pushStack.
      by apply sizesOK_upd_s; [solve_keepsSave|].
    + by apply sizesOK_restoreOutArea.
  - injection H as <-. by apply sizesOK_restoreOutArea.
Qed.

Lemma sizesOK_atCodeLoc3 f A O cfg' :
  atCodeLoc3 f A O = Some cfg' → sizesOK M f →
  sizesOK M (Config.fitter cfg').
Proof.
  unfold atCodeLoc3. cbv zeta. intros [= <-] Hf.
  apply sizesOK_restoreOutArea. by apply sizesOK_removeNewOutAreas.
Qed.

Lemma sizesOK_leaveFrame f A O :
  sizesOK M f → sizesOK M (Config.fitter (leaveFrame f A O)).
Proof.
  intros Hf. unfold leaveFrame.
  destruct (0 <? CAreaFitter.Depth f); [done|].
  by destruct (0 <? CAreaFitter.FitCallsLeft f).
Qed.

Lemma sizesOK_startArea f :
  sizesOK M f → sizesOK M (Config.fitter (startArea f)).
Proof.
  intros Hf. unfold startArea. cbv zeta. cbn [Config.fitter].
  apply sizesOK_upd_s; [solve_keepsSave|]. by apply sizesOK_upd_area.
Qed.

Lemma sizesOK_atCodeLoc1 f A O :
  sizesOK M f → sizesOK M (Config.fitter (atCodeLoc1 f A O)).
Proof.
  intros Hf. unfold atCodeLoc1.
  destruct (CFitAreaStackItem.Area (s f)); [|by apply sizesOK_leaveFrame].
  destruct (worseThanBest f); [by apply sizesOK_leaveFrame|].
  destruct (CAreaFitter.FitCallsLeft f =? 0); [|by apply sizesOK_startArea].
  destruct (_ || _).
  { apply sizesOK_leaveFrame. by apply sizesOK_upd_fd. }
  destruct (_ =? 0); [done|].
  destruct (512 <=? _); by apply sizesOK_startArea.
Qed.

Lemma sizesOK_step cfg cfg' :
  step cfg = Some cfg' → sizesOK M (Config.fitter cfg) →
  sizesOK M (Config.fitter cfg').
Proof.
  unfold step. destruct (Config.loc cfg); intros H Hf.
  - injection H as <-. by apply sizesOK_atCodeLoc1.
  - by eapply sizesOK_atRegionLoop.
  - by eapply sizesOK_atCodeLoc2.
  - by eapply sizesOK_atCodeLoc3.
  - by injection H as <-.
Qed.

Lemma sizesOK_run fuel cfg f' :
  run fuel cfg = Some f' → sizesOK M (Config.fitter cfg) → sizesOK M f'.
Proof.
  revert cfg. induction fuel as [|fuel IH]; intros cfg Hrun Hf.
  - cbn in Hrun. destruct (Config.loc cfg); try done.
    by injection Hrun as <-.
  - cbn in Hrun.
    destruct (decide (Config.loc cfg = AtReturn)) as [Hret|Hnr].
    + rewrite Hret in Hrun. by injection Hrun as <-.
    + assert (∃ cfg1, step cfg = Some cfg1 ∧ run fuel cfg1 = Some f')
        as (cfg1 & Hstep & Hrest).
      { destruct (Config.loc cfg); try done;
          destruct (step cfg) as [cfg1|]; try done; by exists cfg1. }
      apply (IH _ Hrest). by eapply sizesOK_step.
Qed.

(** The fitter that [fitAreas] starts with holds empty images only. *)
Lemma sizesOK_start (MaxW MaxH MinCount : Z) (g : CGlobals.t)
    (areas : list CFitArea.t) :
  CGlobals.BestOutImages g = [] →
  sizesOK M
    (pushStack
       (newAreaFitter MaxW MaxH M g areas
          (initFitData MaxW MaxH MinCount))).
Proof.
  intros Hg. apply sizesOK_pushStack.
  destruct (newAreaFitter_spec MaxW MaxH M g areas
              (initFitData MaxW MaxH MinCount))
    as (_ & _ & _ & _ & HS & Hfd & HG & _ & _ & _ & _ & HM).
  split; [done|]. rewrite Hfd, HS, HG, Hg.
  split; [by apply Forall_replicate|].
  split; [by apply Forall_replicate|]. constructor.
Qed.
End Sizes.

(** The raised limit does not depend on the order of the areas. *)
Lemma sizeLoop_limit_Permutation (l l' : list CFitArea.t) (M0 : Z) :
  l ≡ₚ l' → (sizeLoop l M0).1 = (sizeLoop l' M0).1.
Proof.
  unfold sizeLoop. rewrite !sizeLoop_spec. cbn [fst].
  intros H. revert M0.
  induction H as [|a l l' _ IH|a b l|l1 l2 l3 _ IH1 _ IH2]; intros M0.
  - done.
  - cbn [foldl]. apply IH.
  - cbn [foldl]. f_equal. lia.
  - by rewrite IH1.
Qed.

Lemma sizeLoop_limit_ge (l : list CFitArea.t) (M0 : Z) :
  M0 <= (sizeLoop l M0).1.
Proof.
  unfold sizeLoop. rewrite sizeLoop_spec. cbn [fst].
  revert M0. induction l as [|a l IH]; intros M0; [done|].
  cbn [foldl]. etrans; [|apply IH]. lia.
Qed.

Section SizeLimit.
Variable qsort :
  (CFitArea.t → CFitArea.t → Z) → list CFitArea.t → list CFitArea.t.
Hypothesis qsort_Permutation : ∀ cmp l, qsort cmp l ≡ₚ l.

(** With two or more areas and a limit that is not negative, no output
    image of a successful call has a [Size] above the limit that the
    search ran with: [aMaxOutImageSize], raised to the size of the
    largest area. No range of the widths and heights is assumed here: the
    sizes are the [int] values that the code computes. *)
Theorem fitAreas_size_limit (fuel : nat)
    (AreasToFit : list CFitArea.t) (OutImages : list COutImage.t)
    (aMaxOutImageWidth aMaxOutImageHeight aMaxOutImageSize : Z)
    (MinOutImageCount FitCallsLimit : Z) (FitQuality : double)
    (r : FitResult.t) :
  (2 <= length AreasToFit)%nat →
  0 <= aMaxOutImageSize →
  fitAreas qsort fuel AreasToFit OutImages aMaxOutImageWidth
    aMaxOutImageHeight aMaxOutImageSize MinOutImageCount FitCallsLimit
    FitQuality = Some r →
  FitResult.ok r = true →
  Forall (λ im, COutImage.Size im
                <= (sizeLoop AreasToFit aMaxOutImageSize).1)
    (FitResult.OutImages r).
Proof.
  intros Hlen HM Hfit Hok.
  unfold fitAreas in Hfit.
  destruct (length AreasToFit <? 2)%nat eqn:E;
    [apply Nat.ltb_lt in E; lia|]. clear E.
  rewrite <- (sizeLoop_limit_Permutation _ _ _
                (qsort_Permutation FitAreasInSortFn AreasToFit)).
  set (areas := qsort FitAreasInSortFn AreasToFit) in *.
  pose proof (sizeLoop_limit_ge areas aMaxOutImageSize) as Hge.
  destruct (sizeLoop areas aMaxOutImageSize) as [M MinOutSize] eqn:Esz.
  cbn [fst] in *.
  apply bind_Some in Hfit as (f' & Hrun & Hfit).
  assert (sizesOK M f') as (_ & _ & _ & Hbest).
  { unfold fitUnfittedAreas in Hrun.
    eapply (sizesOK_run M); [lia|exact Hrun|].
    cbn [Config.fitter]. apply sizesOK_start; [lia|done]. }
  destruct (_ =? 2147483647); injection Hfit as <-; [done|].
  exact Hbest.
Qed.
End SizeLimit.

(** The example with a limit of 20000: the two images used have sizes
    within it. *)
Lemma fitAreas_size_limit_witness :
  ∃ r,
    fitAreas insertionSort 100000 exampleAreas [] 300 300 20000 1 10000 NaN
    = Some r ∧
    FitResult.ok r = true ∧
    Forall (λ im, COutImage.Size im <= (sizeLoop exampleAreas 20000).1)
      (FitResult.OutImages r).
Proof.
  assert (∃ r,
    fitAreas insertionSort 100000 exampleAreas [] 300 300 20000 1 10000 NaN
    = Some r ∧ FitResult.ok r = true) as (r & Hfit & Hok).
  { eexists. split; [vm_compute; reflexivity|reflexivity]. }
  exists r. split; [exact Hfit|]. split; [exact Hok|].
  apply (fitAreas_size_limit insertionSort insertionSort_Permutation 100000
           exampleAreas [] 300 300 20000 1 10000 NaN r);
    [cbn; lia|lia|exact Hfit|exact Hok].
Defined.

(** ** A call without a budget *)

Section NoCalls.
Variable qsort :
  (CFitArea.t → CFitArea.t → Z) → list CFitArea.t → list CFitArea.t.
Hypothesis qsort_Permutation : ∀ cmp l, qsort cmp l ≡ₚ l.

(** With [FitCallsLimit] 0 and two or more areas the search returns at
    its first test of the budget, before any area is tried: the call
    returns [false] with the sorted input list, an empty output list and
    the quality untouched, whatever the areas and the limits are. *)
Theorem fitAreas_no_calls (fuel : nat) (AreasToFit : list CFitArea.t)
    (OutImages : list COutImage.t)
    (aMaxOutImageWidth aMaxOutImageHeight aMaxOutImageSize : Z)
    (MinOutImageCount : Z) (FitQuality : double) :
  (2 <= length AreasToFit)%nat →
  (1 <= fuel)%nat →
  fitAreas qsort fuel AreasToFit OutImages aMaxOutImageWidth
    aMaxOutImageHeight aMaxOutImageSize MinOutImageCount 0 FitQuality
  = Some (FitResult.mk false (qsort FitAreasInSortFn AreasToFit) []
            FitQuality).
Proof.
  intros Hlen Hfuel. unfold fitAreas.
  destruct (length AreasToFit <? 2)%nat eqn:E;
    [apply Nat.ltb_lt in E; lia|]. clear E.
  set (areas := qsort FitAreasInSortFn AreasToFit).
  assert (2 <= length areas)%nat as Hlen'.
  { unfold areas. by rewrite (qsort_Permutation FitAreasInSortFn). }
  destruct (sizeLoop areas aMaxOutImageSize) as [M MinOutSize].
  set (g := CGlobals.mk 0 0 2147483647 2147483647 [] []).
  set (d := initFitData aMaxOutImageWidth aMaxOutImageHeight
              MinOutImageCount).
  destruct (newAreaFitter_spec aMaxOutImageWidth aMaxOutImageHeight M g
              areas d)
    as (Hch & _ & _ & _ & HS & Hfd & HG & HD & HC & _).
  set (f := newAreaFitter _ _ _ _ _ _) in *.
  assert (fitUnfittedAreas fuel (pushStack f) = Some (pushStack f)) as ->.
  { unfold fitUnfittedAreas. destruct fuel as [|fuel]; [lia|].
    cbn [run Config.loc step Config.fitter Config.Area Config.OutArea].
    assert (atCodeLoc1 (pushStack f) None None
            = Config.mk (pushStack f) None None AtReturn) as ->.
    { unfold atCodeLoc1.
      assert (CAreaFitter.Depth (pushStack f) = 0) as HD0.
      { unfold pushStack. cbn. rewrite HD. done. }
      assert (CAreaFitter.FitCallsLeft (pushStack f) = 0) as HC0.
      { unfold pushStack. cbn. done. }
      assert (CAreaFitter.fd (pushStack f) = d) as Hfd0.
      { unfold pushStack. cbn. done. }
      assert (CAreaFitter.Globals (pushStack f) = g) as HG0.
      { unfold pushStack. cbn. done. }
      assert (leaveFrame (pushStack f) None None
              = Config.mk (pushStack f) None None AtReturn) as Hleave.
      { unfold leaveFrame. by rewrite HD0, HC0. }
      destruct (CFitAreaStackItem.Area _); [|done].
      destruct (worseThanBest _); [done|].
      rewrite HC0, Hfd0, HG0. cbn. done. }
    cbn [mbind option_bind]. by destruct fuel. }
  cbn [mbind option_bind].
  assert (CAreaFitter.Globals (pushStack f) = g) as ->.
  { unfold pushStack. cbn. done. }
  done.
Qed.
End NoCalls.

(** Two areas that would fit side by side, with no budget. *)
Lemma fitAreas_no_calls_witness :
  fitAreas insertionSort 1 [mkArea 10 10; mkArea 20 20] [] 100 100 10000 1
    0 NaN
  = Some (FitResult.mk false
            (insertionSort FitAreasInSortFn [mkArea 10 10; mkArea 20 20])
            [] NaN).
Proof.
  apply (fitAreas_no_calls insertionSort insertionSort_Permutation 1
           [mkArea 10 10; mkArea 20 20] [] 100 100 10000 1 NaN);
    cbn; lia.
Defined.

(** ** The stored fit only gets better *)

Lemma improved_refl f : improved f f.
Proof. by left. Qed.

Lemma improved_same f f' : stored f' = stored f → improved f f'.
Proof. by left. Qed.

Lemma stored_best f f' : stored f' = stored f → best f' = best f.
Proof. unfold stored, best. cbv zeta. by intros [= -> -> _ _]. Qed.

Lemma improved_trans f1 f2 f3 :
  improved f1 f2 → improved f2 f3 → improved f1 f3.
Proof.
  intros [H1|[H1 H1']] [H2|[H2 H2']].
  - left. by rewrite H2.
  - right. rewrite <- (stored_best _ _ H1). done.
  - right. rewrite (stored_best _ _ H2). done.
  - right. split; lia.
Qed.

Lemma stored_upd_s g f : stored (upd_s g f) = stored f.
Proof. reflexivity. Qed.

Lemma stored_upd_outArea g p f : stored (upd_outArea g p f) = stored f.
Proof. by destruct p. Qed.

Lemma stored_upd_fd g f : stored (upd_fd g f) = stored f.
Proof. reflexivity. Qed.

Lemma stored_upd_area g p f : stored (upd_area g p f) = stored f.
Proof. by destruct p. Qed.

Lemma stored_insertOutArea f p f' prev :
  insertOutArea f p = Some (f', prev) → stored f' = stored f.
Proof.
  unfold insertOutArea. intros H.
  destruct (insertOutArea_scan _ _ _ _ _) as [q|]; [|done].
  cbn in H. injection H as <- _. by rewrite !stored_upd_outArea.
Qed.

Lemma stored_removeNewOutAreas n f :
  stored (removeNewOutAreas n f) = stored f.
Proof.
  revert f. induction n as [|n IH]; intros f; [done|].
  cbn [removeNewOutAreas]. cbv zeta. rewrite IH.
  by rewrite stored_upd_outArea, stored_upd_s.
Qed.

Lemma stored_addNewOutArea0 img ax ay w h f f' :
  addNewOutArea0 img ax ay w h f = Some f' → stored f' = stored f.
Proof.
  unfold addNewOutArea0. intros H.
  destruct (insertOutArea _ _) as [[f2 prev]|] eqn:E; [|done].
  cbn in H. injection H as <-. rewrite stored_upd_s.
  apply stored_insertOutArea in E. by rewrite E, stored_upd_outArea.
Qed.

Lemma stored_addNewOutArea1 img ax ay w h f f' :
  addNewOutArea1 img ax ay w h f = Some f' → stored f' = stored f.
Proof.
  unfold addNewOutArea1. intros H.
  destruct (insertOutArea _ _) as [[f2 prev]|] eqn:E; [|done].
  cbn in H. injection H as <-. rewrite stored_upd_s.
  apply stored_insertOutArea in E. by rewrite E, stored_upd_outArea.
Qed.

Lemma stored_configuration1 f A O f' :
  configuration1 f A O = Some f' → stored f' = stored f.
Proof.
  unfold configuration1. intros H.
  apply bind_Some in H as (f1 & H1 & H2).
  assert (stored f1 = stored f) as E1.
  { destruct (_ && _) in H1; [by eapply stored_addNewOutArea0|].
    by injection H1 as <-. }
  rewrite <- E1. cbv zeta in H2.
  destruct (_ && _) in H2; [by eapply stored_addNewOutArea1|].
  by injection H2 as <-.
Qed.

Lemma stored_configuration2 f A O f' :
  configuration2 f A O = Some f' → stored f' = stored f.
Proof.
  unfold configuration2. intros H.
  apply bind_Some in H as (f1 & H1 & H2).
  assert (stored f1 = stored f) as E1.
  { destruct (_ && _) in H1; [by eapply stored_addNewOutArea0|].
    by injection H1 as <-. }
  rewrite <- E1. cbv zeta in H2.
  destruct (_ && _) in H2; [by eapply stored_addNewOutArea1|].
  by injection H2 as <-.
Qed.

(** The one place where [Globals] gets a new fit: its size is below the
    stored one, and it has no more images. *)
Lemma improved_saveBestFit f : improved f (saveBestFit f).
Proof.
  unfold saveBestFit. cbv zeta.
  destruct (_ && _) eqn:E; [|by left].
  apply andb_true_iff in E as [E1 E2].
  apply Z.ltb_lt in E1. apply Z.leb_le in E2. right. by cbn.
Qed.

Lemma stored_afterRegionLoop f A O :
  stored (Config.fitter (afterRegionLoop f A O)) = stored f.
Proof.
  unfold afterRegionLoop. cbn [Config.fitter].
  by rewrite stored_upd_s, stored_upd_area.
Qed.

Lemma stored_regionTail f A O :
  stored (Config.fitter (regionTail f A O)) = stored f.
Proof.
  unfold regionTail. destruct (CFitAreaStackItem.WasOutImageAdded _).
  - cbv zeta. by rewrite stored_afterRegionLoop, stored_upd_fd,
      stored_upd_outArea.
  - destruct (worseThanBest f); [apply stored_afterRegionLoop|done].
Qed.

Lemma stored_restoreOutImage f A O :
  stored (Config.fitter (restoreOutImage f A O)) = stored f.
Proof.
  unfold restoreOutImage. destruct (CFitAreaStackItem.DoOutImageRestore _).
  - cbv zeta. by rewrite stored_regionTail.
  - apply stored_regionTail.
Qed.

Lemma stored_restoreOutArea f A O :
  stored (Config.fitter (restoreOutArea f A O)) = stored f.
Proof.
  unfold restoreOutArea. cbv zeta.
  by rewrite stored_restoreOutImage, stored_upd_outArea.
Qed.

Lemma improved_placeArea f A O cfg' :
  placeArea f A O = Some cfg' → improved f (Config.fitter cfg').
Proof.
  unfold placeArea. cbv zeta. intros H.
  set (f1 := upd_area _ _ f) in *.
  assert (stored f1 = stored f) as E1 by apply stored_upd_area.
  destruct (CFitArea.Next _) as [first|].
  - apply bind_Some in H as ([mw mh] & _ & H).
    apply bind_Some in H as (f4 & H4 & H). injection H as <-.
    left. cbn [Config.fitter].
    change (stored (pushStack ?g)) with (stored g).
    rewrite stored_upd_s.
    apply stored_configuration1 in H4. rewrite H4.
    by rewrite stored_upd_outArea, stored_upd_s.
  - injection H as <-.
    apply (improved_trans _ f1); [by left|].
    apply (improved_trans _ (saveBestFit f1));
      [apply improved_saveBestFit|].
    left. apply stored_restoreOutImage.
Qed.

Lemma improved_tryOutArea f A O cfg' :
  tryOutArea f A O = Some cfg' → improved f (Config.fitter cfg').
Proof.
  unfold tryOutArea. cbv zeta. intros H.
  destruct (_ || _); [injection H as <-; by left|].
  destruct (CheckFit.result _).
  - apply improved_placeArea in H.
    eapply improved_trans; [|exact H]. by left.
  - injection H as <-. left. by rewrite stored_regionTail.
Qed.

Lemma improved_atRegionLoop f A O cfg' :
  atRegionLoop f A O = Some cfg' → improved f (Config.fitter cfg').
Proof.
  unfold atRegionLoop. intros H. destruct O as [h|].
  - apply improved_tryOutArea in H.
    eapply improved_trans; [|exact H]. by left.
  - destruct (0 <? _);
      [injection H as <-; left; apply stored_afterRegionLoop|].
    destruct (_ =? _);
      [injection H as <-; left; apply stored_afterRegionLoop|].
    cbv zeta in H. apply bind_Some in H as ([f2 prev] & Hins & H).
    apply improved_tryOutArea in H.
    eapply improved_trans; [|exact H]. left.
    apply stored_insertOutArea in Hins.
    rewrite stored_upd_s, stored_upd_fd.
    change (stored (set_outImage ?i ?v ?g)) with (stored g).
    rewrite stored_upd_fd, stored_upd_outArea, stored_upd_s, Hins.
    apply stored_upd_outArea.
Qed.

Lemma stored_atCodeLoc2 f A O cfg' :
  atCodeLoc2 f A O = Some cfg' → stored (Config.fitter cfg') = stored f.
Proof.
  unfold atCodeLoc2. cbv zeta. intros H.
  destruct (_ && _).
  - apply bind_Some in H as (f2 & H2 & H).
    apply stored_configuration2 in H2.
    rewrite stored_removeNewOutAreas in H2.
    destruct (0 <? _)%nat; injection H as <-.
    + cbn [Config.fitter]. change (stored (pushStack ?g)) with (stored g).
      by rewrite stored_upd_s.
    + by rewrite stored_restoreOutArea.
  - injection H as <-.
    by rewrite stored_restoreOutArea, stored_removeNewOutAreas.
Qed.

Lemma stored_atCodeLoc3 f A O cfg' :
  atCodeLoc3 f A O = Some cfg' → stored (Config.fitter cfg') = stored f.
Proof.
  unfold atCodeLoc3. cbv zeta. intros [= <-].
  by rewrite stored_restoreOutArea, stored_removeNewOutAreas.
Qed.

Lemma stored_leaveFrame f A O :
  stored (Config.fitter (leaveFrame f A O)) = stored f.
Proof.
  unfold leaveFrame. destruct (0 <? CAreaFitter.Depth f); [done|].
  by destruct (0 <? CAreaFitter.FitCallsLeft f).
Qed.

Lemma stored_startArea f : stored (Config.fitter (startArea f)) = stored f.
Proof.
  unfold startArea. cbv zeta. cbn [Config.fitter].
  by rewrite stored_upd_s, stored_upd_area.
Qed.

Lemma stored_atCodeLoc1 f A O :
  stored (Config.fitter (atCodeLoc1 f A O)) = stored f.
Proof.
  unfold atCodeLoc1.
  destruct (CFitAreaStackItem.Area (s f)); [|apply stored_leaveFrame].
  destruct (worseThanBest f); [apply stored_leaveFrame|].
  destruct (CAreaFitter.FitCallsLeft f =? 0); [|apply stored_startArea].
  destruct (_ || _); [by rewrite stored_leaveFrame|].
  destruct (_ =? 0); [done|].
  destruct (512 <=? _); by rewrite stored_startArea.
Qed.

Lemma improved_step cfg cfg' :
  step cfg = Some cfg' →
  improved (Config.fitter cfg) (Config.fitter cfg').
Proof.
  unfold step. destruct (Config.loc cfg); intros H.
  - injection H as <-. left. apply stored_atCodeLoc1.
  - by eapply improved_atRegionLoop.
  - left. by eapply stored_atCodeLoc2.
  - left. by eapply stored_atCodeLoc3.
  - injection H as <-. by left.
Qed.

Lemma improved_run fuel cfg f' :
  run fuel cfg = Some f' → improved (Config.fitter cfg) f'.
Proof.
  revert cfg. induction fuel as [|fuel IH]; intros cfg Hrun.
  - cbn in Hrun. destruct (Config.loc cfg); try done.
    injection Hrun as <-. by left.
  - cbn in Hrun.
    destruct (decide (Config.loc cfg = AtReturn)) as [Hret|Hnr].
    + rewrite Hret in Hrun. injection Hrun as <-. by left.
    + assert (∃ cfg1, step cfg = Some cfg1 ∧ run fuel cfg1 = Some f')
        as (cfg1 & Hstep & Hrest).
      { destruct (Config.loc cfg); try done;
          destruct (step cfg) as [cfg1|]; try done; by exists cfg1. }
      eapply improved_trans; [by apply improved_step|by apply IH].
Qed.

(** A search never makes the fit in [Globals] worse, whatever state it
    starts from: when it returns, [Globals] holds the fit it held
    before, or a fit of a smaller size with no more images. The fitters
    that share one [Globals] can rely on this of each other. *)
Theorem fitUnfittedAreas_improves (fuel : nat) (f f' : CAreaFitter.t) :
  fitUnfittedAreas fuel f = Some f' →
  stored f' = stored f ∨
  (CGlobals.BestOutSize (CAreaFitter.Globals f')
   < CGlobals.BestOutSize (CAreaFitter.Globals f) ∧
   CGlobals.BestOutImageCount (CAreaFitter.Globals f')
   <= CGlobals.BestOutImageCount (CAreaFitter.Globals f)).
Proof. intros H. by apply improved_run in H. Qed.

(** The search of the example replaces the initial entry of [Globals]. *)
Lemma fitUnfittedAreas_improves_witness :
  ∃ f',
    fitUnfittedAreas 100000
      (pushStack
         (newAreaFitter 300 300 90000
            (CGlobals.mk 10000 10000 2147483647 2147483647 [] [])
            (insertionSort FitAreasInSortFn exampleAreas)
            (initFitData 300 300 1))) = Some f' ∧
    (stored f'
     = stored
         (pushStack
            (newAreaFitter 300 300 90000
               (CGlobals.mk 10000 10000 2147483647 2147483647 [] [])
               (insertionSort FitAreasInSortFn exampleAreas)
               (initFitData 300 300 1))) ∨
     (CGlobals.BestOutSize (CAreaFitter.Globals f') < 2147483647 ∧
      CGlobals.BestOutImageCount (CAreaFitter.Globals f') <= 2147483647)).
Proof.
  assert (∃ f',
    fitUnfittedAreas 100000
      (pushStack
         (newAreaFitter 300 300 90000
            (CGlobals.mk 10000 10000 2147483647 2147483647 [] [])
            (insertionSort FitAreasInSortFn exampleAreas)
            (initFitData 300 300 1))) = Some f') as (f' & Hrun).
  { eexists. vm_compute. reflexivity. }
  exists f'. split; [exact Hrun|].
  exact (fitUnfittedAreas_improves _ _ _ Hrun).
Defined.

(** ** The smallest unfitted area *)

Lemma foldl_min_spec {A} (g : A → Z) (m : Z) (l : list A) :
  let r := foldl (λ m i, Z.min m (g i)) m l in
  r <= m ∧ Forall (λ i, r <= g i) l ∧ (r = m ∨ ∃ i, i ∈ l ∧ r = g i).
Proof.
  cbv zeta. revert m. induction l as [|a l IH]; intros m.
  - cbn. split; [lia|]. split; [constructor|by left].
  - cbn [foldl]. destruct (IH (Z.min m (g a))) as (H1 & H2 & H3).
    split; [lia|]. split; [constructor; [lia|done]|].
    destruct H3 as [H3|(i & Hi & H3)].
    + rewrite H3.
      destruct (Z.min_spec m (g a)) as [[_ E]|[_ E]]; rewrite E.
      * by left.
      * right. exists a. split; [left|done].
    + right. exists i. split; [by right|done].
Qed.

(** The loop follows the chain behind [p] to its end. *)
Lemma scanMinArea_chain (fuel : nat) (f : CAreaFitter.t) (p : AreaPtr)
    (U : list nat) (w h : Z) :
  chain (areaNext f) p (AreasPtr <$> U) → (length U <= fuel)%nat →
  scanMinArea fuel f (CFitArea.Next (area f p)) w h
  = Some (minWidth f w U, minHeight f h U).
Proof.
  revert fuel p w h. induction U as [|i U IH]; intros fuel p w h Hc Hlen.
  - cbn in Hc. unfold areaNext in Hc.
    destruct (CFitArea.Next (area f p)); [done|]. by destruct fuel.
  - cbn in Hc. destruct Hc as [Hn Hc]. unfold areaNext in Hn.
    destruct (CFitArea.Next (area f p)) as [j|]; [|done].
    injection Hn as ->. destruct fuel as [|fuel]; [cbn in Hlen; lia|].
    cbn [scanMinArea]. cbv zeta.
    rewrite (IH fuel (AreasPtr i)); [|done|cbn in Hlen; lia].
    unfold minWidth, minHeight. cbn [foldl]. do 2 f_equal.
    + f_equal. case_match eqn:E;
        [apply Z.ltb_lt in E|apply Z.ltb_ge in E]; lia.
    + f_equal. case_match eqn:E;
        [apply Z.ltb_lt in E|apply Z.ltb_ge in E]; lia.
Qed.

(** The scan that precedes the two configurations, started as the code
    starts it at the first unfitted area: when the unfitted areas form a
    chain of distinct cells of [Areas], the scan comes to its end and
    returns the smallest width and the smallest height among them. *)
Theorem scanMinArea_minimum (f : CAreaFitter.t) (first : nat)
    (U : list nat) :
  areaChain f (first :: U) → NoDup (first :: U) →
  Forall (λ i, (i < length (CAreaFitter.Areas f))%nat) (first :: U) →
  ∃ mw mh,
    scanMinArea (length (CAreaFitter.Areas f)) f
      (CFitArea.Next (CAreaFitter.Areas f !!! first))
      (CFitArea.Width (CAreaFitter.Areas f !!! first))
      (CFitArea.Height (CAreaFitter.Areas f !!! first)) = Some (mw, mh) ∧
    Forall (λ i, mw <= CFitArea.Width (CAreaFitter.Areas f !!! i) ∧
                 mh <= CFitArea.Height (CAreaFitter.Areas f !!! i))
      (first :: U) ∧
    (∃ i, i ∈ first :: U ∧
          mw = CFitArea.Width (CAreaFitter.Areas f !!! i)) ∧
    (∃ i, i ∈ first :: U ∧
          mh = CFitArea.Height (CAreaFitter.Areas f !!! i)).
Proof.
  intros Hc Hnd Hv. unfold areaChain in Hc. cbn in Hc.
  destruct Hc as [_ Hc].
  assert (length (first :: U)
          <= length (seq 0 (length (CAreaFitter.Areas f))))%nat as Hlen.
  { apply submseteq_length, NoDup_submseteq; [done|].
    intros i Hi. apply elem_of_seq.
    rewrite Forall_forall in Hv. specialize (Hv i Hi). lia. }
  rewrite length_seq in Hlen.
  cbn [length] in Hlen.
  exists (minWidth f (CFitArea.Width (CAreaFitter.Areas f !!! first)) U),
    (minHeight f (CFitArea.Height (CAreaFitter.Areas f !!! first)) U).
  split.
  { apply (scanMinArea_chain _ f (AreasPtr first)); [done|lia]. }
  destruct (foldl_min_spec
              (λ i, CFitArea.Width (CAreaFitter.Areas f !!! i))
              (CFitArea.Width (CAreaFitter.Areas f !!! first)) U)
    as (W1 & W2 & W3).
  destruct (foldl_min_spec
              (λ i, CFitArea.Height (CAreaFitter.Areas f !!! i))
              (CFitArea.Height (CAreaFitter.Areas f !!! first)) U)
    as (H1 & H2 & H3).
  fold (minWidth f (CFitArea.Width (CAreaFitter.Areas f !!! first)) U) in *.
  fold (minHeight f (CFitArea.Height (CAreaFitter.Areas f !!! first)) U)
    in *.
  split; [|split].
  - constructor; [done|].
    rewrite Forall_forall in W2, H2. apply Forall_forall. intros i Hi.
    split; [by apply W2|by apply H2].
  - destruct W3 as [W3|(i & Hi & W3)].
    + exists first. split; [left|done].
    + exists i. split; [by right|done].
  - destruct H3 as [H3|(i & Hi & H3)].
    + exists first. split; [left|done].
    + exists i. split; [by right|done].
Qed.

(** The four areas of the example, all unfitted: the smallest width is
    30 and the smallest height is 30. *)
Lemma scanMinArea_minimum_witness :
  ∃ mw mh,
    scanMinArea 4
      (newAreaFitter 300 300 90000
         (CGlobals.mk 10000 10000 2147483647 2147483647 [] [])
         exampleAreas (initFitData 300 300 1))
      (Some 1%nat) 50 30 = Some (mw, mh) ∧
    mw = 30 ∧ mh = 30.
Proof.
  destruct (scanMinArea_minimum
              (newAreaFitter 300 300 90000
                 (CGlobals.mk 10000 10000 2147483647 2147483647 [] [])
                 exampleAreas (initFitData 300 300 1))
              0%nat [1; 2; 3]%nat)
    as (mw & mh & Hscan & _).
  - vm_compute. repeat split.
  - apply (bool_decide_unpack _). vm_compute. reflexivity.
  - repeat constructor.
  - exists mw, mh. split; [exact Hscan|].
    vm_compute in Hscan. by injection Hscan as <- <-.
Defined.

(** ** The scans come to an end *)

(** A chain of distinct cells is short enough for the scan of
    [insertOutArea]. *)
Lemma insertOutArea_is_Some f p L :
  outChain f L → NoDup (OutAreas :: L) →
  Forall (validOutPtr f) (OutAreas :: L) →
  is_Some (insertOutArea f p).
Proof.
  intros Hc Hnd Hv. unfold insertOutArea.
  destruct (insertOutArea_scan_is_Some (outAreaCells f) f
              (COutArea.Height (outArea f p)) OutAreas L Hc) as [r Hr].
  - apply NoDup_cons in Hnd as [_ Hnd]. apply Forall_cons in Hv as [_ Hv].
    by apply chain_length_cells.
  - unfold outNext in Hr. rewrite Hr. cbn. eauto.
Qed.

Section Progress.
Context (BW BH : Z).

(** A new output area of the item can be linked whatever was linked
    before. *)
Lemma linkNew_is_Some f0 f G D t N L k img ax ay w h :
  Shape BW BH f0 → Geo BW BH f0 D G → FrameHost BW BH f0 D G t →
  (D < length (CAreaFitter.Stack f0))%nat →
  Linked D t f0 f N L →
  Forall (λ p, ∃ j, p = NewPtr D j ∧ (j < 2)%nat) N →
  (k < 2)%nat →
  is_Some
    (insertOutArea
       (upd_outArea (COutArea.set_rect img ax ay w h) (NewPtr D k) f)
       (NewPtr D k)).
Proof.
  intros HS HG HFH Hlen HL HN Hk.
  destruct (cells_base _ _ _ _ _ _ HS HG HFH Hlen)
    as (Hbase & [HvO HhO] & Hnew & Hhk).
  destruct HL as [Hst Hfx Hit Hinsd Hco Hperm Hnd Hh Hrect Hnext].
  assert (∀ q, q ∈ OutAreas :: L → validOutPtr f q) as Hcells.
  { intros q Hq. rewrite (st_valid _ _ _ Hst).
    apply elem_of_cons in Hq as [->|Hq]; [done|].
    rewrite Hperm in Hq. apply elem_of_app in Hq as [Hq|Hq].
    - rewrite Forall_forall in HN. destruct (HN _ Hq) as (j & -> & Hj).
      destruct (Hnew j) as (? & ? & _); [lia|done].
    - by destruct (Hbase _ Hq) as (? & _ & ?). }
  assert (validOutPtr f (NewPtr D k)) as Hvp.
  { destruct (Hnew k) as (H1 & _); [lia|]. by rewrite (st_valid _ _ _ Hst). }
  set (p := NewPtr D k) in *.
  set (fa := upd_outArea (COutArea.set_rect img ax ay w h) p f) in *.
  apply (insertOutArea_is_Some fa p L); [|done|].
  - unfold outChain in *. eapply chain_ext; [|exact Hco]. intros q _.
    by apply outNext_set_rect.
  - apply Forall_forall. intros q Hq. apply validOutPtr_upd_outArea.
    by apply Hcells.
Qed.

(** The cells that a configuration links are the two new ones of the
    item. *)
Lemma first_linked f f1 G D t i0 x0 y0 w0 h0 :
  Shape BW BH f → Geo BW BH f D G → FrameHost BW BH f D G t →
  depth f = D → (D < length (CAreaFitter.Stack f))%nat →
  outChain f (tLa t ++ tLb t) →
  (f1 = upd_s (CFitAreaStackItem.set_c 0) f ∨
   addNewOutArea0 i0 x0 y0 w0 h0 f = Some f1) →
  ∃ N L', Linked D t f f1 N L' ∧ depth f1 = D ∧
    Forall (λ p, ∃ j, p = NewPtr D j ∧ (j < 2)%nat) N.
Proof.
  intros HS HG HFH HD Hlen Hco HA.
  destruct (configure_linked BW BH f f1 f1 G D t i0 x0 y0 w0 h0 0 0 0 0 0
              HS HG HFH HD Hlen Hco HA)
    as (N & L' & HL & _ & HD1 & HN & _).
  { intros. by left. }
  exists N, L'. split; [done|]. split; [done|].
  assert (∃ j, NewPtr D 0 = NewPtr D j ∧ (j < 2)%nat) as E0.
  { exists 0%nat. split; [done|lia]. }
  assert (∃ j, NewPtr D 1 = NewPtr D j ∧ (j < 2)%nat) as E1.
  { exists 1%nat. split; [done|lia]. }
  destruct HN as [->|[->|[->| ->]]]; repeat constructor; done.
Qed.

Lemma configure_is_Some f G D t (c0 : bool)
    (c1 : CAreaFitter.t → bool) i0 x0 y0 w0 h0
    (i1 x1 y1 w1 h1 : CAreaFitter.t → Z) :
  Shape BW BH f → Geo BW BH f D G → FrameHost BW BH f D G t →
  depth f = D → (D < length (CAreaFitter.Stack f))%nat →
  outChain f (tLa t ++ tLb t) →
  is_Some
    (f1 ← (if c0 then addNewOutArea0 i0 x0 y0 w0 h0 f
           else Some (upd_s (CFitAreaStackItem.set_c 0) f));
     if c1 f1
     then addNewOutArea1 (i1 f1) (x1 f1) (y1 f1) (w1 f1) (h1 f1) f1
     else Some f1).
Proof.
  intros HS HG HFH HD Hlen Hco.
  destruct (host_fresh _ _ _ _ _ _ HS HG HFH) as (Hnd & Hh & _ & _).
  pose proof (Linked_refl D t f Hco Hnd Hh) as HL0.
  assert (∃ f1,
    (if c0 then addNewOutArea0 i0 x0 y0 w0 h0 f
     else Some (upd_s (CFitAreaStackItem.set_c 0) f)) = Some f1 ∧
    (f1 = upd_s (CFitAreaStackItem.set_c 0) f ∨
     addNewOutArea0 i0 x0 y0 w0 h0 f = Some f1)) as (f1 & -> & HA).
  { destruct c0; [|eexists; split; [done|by left]].
    unfold addNewOutArea0. rewrite HD.
    destruct (linkNew_is_Some f f G D t [] _ 0 i0 x0 y0 w0 h0 HS HG HFH
                Hlen HL0 (Forall_nil_2 _) ltac:(lia)) as [[f2 prev] ->].
    cbn [mbind option_bind]. eexists. split; [done|by right]. }
  cbn [mbind option_bind].
  destruct (first_linked f f1 G D t i0 x0 y0 w0 h0 HS HG HFH HD Hlen Hco HA)
    as (N & L' & HL & HD1 & HN).
  destruct (c1 f1); [|done].
  unfold addNewOutArea1. rewrite HD1.
  destruct (linkNew_is_Some f f1 G D t N L' 1 (i1 f1) (x1 f1) (y1 f1)
              (w1 f1) (h1 f1) HS HG HFH Hlen HL HN ltac:(lia))
    as [[f2 prev] ->].
  done.
Qed.

Lemma configuration1_is_Some f G D t A O :
  Shape BW BH f → Geo BW BH f D G → FrameHost BW BH f D G t →
  depth f = D → (D < length (CAreaFitter.Stack f))%nat →
  outChain f (tLa t ++ tLb t) →
  is_Some (configuration1 f A O).
Proof.
  intros HS HG HFH HD Hlen Hco. unfold configuration1.
  by apply (configure_is_Some f G D t _
              (λ f1, (CFitAreaStackItem.MinAreaWidth (s f1)
                      <=? CFitArea.Width (areaOf f1 A)) &&
                     (CFitAreaStackItem.MinAreaHeight (s f1)
                      <=? CFitAreaStackItem.OutAreaRemainBottom (s f1)))
              _ _ _ _ _
              (λ f1, COutArea.OutImage (outAreaOf f1 O))
              (λ f1, COutArea.x (outAreaOf f1 O))
              (λ f1, add32 (COutArea.y (outAreaOf f1 O))
                       (CFitArea.Height (areaOf f1 A)))
              (λ f1, CFitArea.Width (areaOf f1 A))
              (λ f1, CFitAreaStackItem.OutAreaRemainBottom (s f1))).
Qed.

Lemma configuration2_is_Some f G D t A O :
  Shape BW BH f → Geo BW BH f D G → FrameHost BW BH f D G t →
  depth f = D → (D < length (CAreaFitter.Stack f))%nat →
  outChain f (tLa t ++ tLb t) →
  is_Some (configuration2 f A O).
Proof.
  intros HS HG HFH HD Hlen Hco. unfold configuration2.
  by apply (configure_is_Some f G D t _
              (λ f1, (CFitAreaStackItem.MinAreaWidth (s f1)
                      <=? COutArea.Width (outAreaOf f1 O)) &&
                     (CFitAreaStackItem.MinAreaHeight (s f1)
                      <=? CFitAreaStackItem.OutAreaRemainBottom (s f1)))
              _ _ _ _ _
              (λ f1, COutArea.OutImage (outAreaOf f1 O))
              (λ f1, COutArea.x (outAreaOf f1 O))
              (λ f1, add32 (COutArea.y (outAreaOf f1 O))
                       (CFitArea.Height (areaOf f1 A)))
              (λ f1, COutArea.Width (outAreaOf f1 O))
              (λ f1, CFitAreaStackItem.OutAreaRemainBottom (s f1))).
Qed.
(** The placement: the scan for the smallest unfitted area follows a
    chain of distinct areas, and the first configuration links into a
    chain of distinct cells. *)
Lemma placeArea_is_Some f G D t :
  Shape BW BH f → GlobalsOK BW BH f →
  CAreaFitter.Depth f = Z.of_nat D →
  (D < length (CAreaFitter.Stack f))%nat →
  Geo BW BH f D G → Checked BW BH f D G t →
  is_Some (placeArea f (Some (tA t)) (Some (tH t))).
Proof.
  intros HS HGl HDz Hlen HG HC.
  assert (depth f = D) as HD by (unfold depth; lia).
  destruct (Checked_Placed _ _ _ _ _ _ HS HG HC) as (HP & Hco & Hst).
  unfold placeArea, outAreaOf. cbn [default from_option id].
  set (o := outArea f (tH t)) in *.
  set (fp := upd_area _ (AreasPtr (tA t)) f) in *.
  assert (Shape BW BH fp) as HSp by (by eapply Shape_stable).
  assert (Geo BW BH fp D G) as HGp by (by eapply Geo_stable).
  assert (CAreaFitter.Depth fp = CAreaFitter.Depth f) as HDp.
  { unfold fp. by obs. }
  assert (D < length (CAreaFitter.Stack fp))%nat as Hlenp.
  { by rewrite (st_stack _ _ _ Hst). }
  pose proof (pl_areas _ _ _ _ _ _ HP) as Hca.
  rewrite (areaChain_head fp _ Hca).
  destruct (tUa t ++ tUb t) as [|first U'] eqn:HU; cbn [head]; [done|].
  assert (NoDup (first :: U') ∧
          Forall (λ i, (i < length (CAreaFitter.Areas fp))%nat)
            (first :: U')) as [HndU HvU].
  { pose proof (geo_NoDup_U _ _ _ _ _ HGp) as Hnd.
    pose proof (geo_U_valid _ _ _ _ _ HGp) as Hv.
    rewrite (fa_split _ _ _ _ (pl_area _ _ _ _ _ _ HP)) in Hnd, Hv.
    rewrite <- HU. split.
    - apply NoDup_app in Hnd as (H1 & H2 & H3).
      apply NoDup_cons in H3 as [_ H3]. apply NoDup_app.
      split; [done|]. split; [|done].
      intros i Hi Hi'. apply (H2 i Hi). by right.
    - apply Forall_app in Hv as [H1 H2].
      apply Forall_cons in H2 as [_ H2]. by apply Forall_app. }
  assert (length U' <= length (CAreaFitter.Areas fp))%nat as HlenU.
  { assert (length (first :: U')
            <= length (seq 0 (length (CAreaFitter.Areas fp))))%nat as Hle.
    { apply submseteq_length, NoDup_submseteq; [done|].
      intros i Hi. apply elem_of_seq.
      rewrite Forall_forall in HvU. specialize (HvU i Hi). lia. }
    rewrite length_seq in Hle. cbn [length] in Hle. lia. }
  unfold areaChain in Hca. cbn in Hca. destruct Hca as [_ Hca].
  rewrite (scanMinArea_chain _ fp (AreasPtr first) U' _ _ Hca HlenU).
  cbn [mbind option_bind]. cbv zeta.
  cbn [default from_option id].
  to_item. rewrite depth_upd_s.
  assert (depth fp = D) as HDd
    by (unfold depth; by rewrite HDp, HDz, Nat2Z.id).
  rewrite HDd, item_upd_s_eq by obs_side. fcbn.
  rewrite outArea_upd_s by solve_scalarUpdate.
  rewrite (fh_prev _ _ _ _ _ _ (pl_host _ _ _ _ _ _ HP)).
  change (COutArea.Next (outArea fp (tH t))) with (outNext fp (tH t)).
  match goal with
  | |- context [upd_s (CFitAreaStackItem.set_MinArea ?mw ?mh) fp] =>
      set (f2 := upd_s (CFitAreaStackItem.set_MinArea mw mh) fp)
  end.
  destruct (host_fresh _ _ _ _ _ _ HSp HGp (pl_host _ _ _ _ _ _ HP))
    as (Hnd & Hh & Hv & Hnh).
  assert (Stable D fp f2) as Hst2.
  { apply Stable_upd_s; [solve_scalarUpdate | lia | done]. }
  assert (outChain f2 (tLa t ++ tH t :: tLb t)) as Hco2.
  { unfold outChain in *. eapply chain_ext; [|exact Hco]. intros q _.
    unfold f2. by rewrite outNext_upd_s by solve_scalarUpdate. }
  assert (outNext fp (tH t) = outNext f2 (tH t)) as ->.
  { unfold f2. by rewrite outNext_upd_s by solve_scalarUpdate. }
  assert (validOutPtr f2 (lastOf OutAreas (tLa t))) as Hv2.
  { by apply (st_valid _ _ _ Hst2). }
  assert (NoDup (OutAreas :: tLa t ++ tH t :: tLb t)) as Hnd2.
  { by apply NoDup_middle. }
  destruct (outChain_remove f2 (tLa t) (tLb t) (tH t) Hco2 Hnd2 Hv2)
    as [Hc3 Hn3].
  set (f3 := upd_outArea _ (lastOf OutAreas (tLa t)) f2) in *.
  assert (Stable D f2 f3) as Hst3.
  { apply Stable_upd_outArea_Next; [done|].
    by rewrite (hostsBelow_ext fp f2 D (st_item _ _ _ Hst2)). }
  pose proof (Stable_trans _ _ _ _ Hst2 Hst3) as Hstp3.
  assert (Linked D t fp f3 [] (tLa t ++ tLb t)) as HL.
  { split; try done.
    - unfold f3, f2. by rewrite fixedPart_upd_outArea, fixedPart_upd_s.
    - unfold f3. rewrite item_upd_outArea. unfold f2.
      by rewrite item_upd_s_eq by obs_side.
    - intros p _. unfold f3. rewrite outRect_upd_Next by done.
      unfold f2. by rewrite outArea_upd_s by solve_scalarUpdate.
    - by rewrite Hn3, (pl_next _ _ _ _ _ _ HP). }
  assert (tH t ∉ ([] : list OutAreaPtr)) as Hni by set_solver.
  pose proof (Placed_linked BW BH fp f3 G D t [] _ HP HL Hni) as HP3.
  pose proof (fixedPart_Fixed _ _ (lk_fixed _ _ _ _ _ _ HL)) as Hfx.
  destruct (configuration1_is_Some f3 G D t (Some (tA t)) (Some (tH t)))
    as [f4 ->]; try done.
  - by eapply Shape_stable.
  - by eapply Geo_stable.
  - apply (pl_host _ _ _ _ _ _ HP3).
  - unfold depth. by rewrite (fx_Depth _ _ Hfx), HDp, HDz, Nat2Z.id.
  - by rewrite (st_stack _ _ _ Hstp3).
Qed.
(** A pass of the inner loop. *)
Lemma tryOutArea_is_Some f G D t :
  Shape BW BH f → GlobalsOK BW BH f →
  CAreaFitter.Depth f = Z.of_nat D →
  (D < length (CAreaFitter.Stack f))%nat →
  Geo BW BH f D G →
  FrameArea f D G t → FrameHost BW BH f D G t →
  View f (tUa t ++ tUb t) (tLa t ++ tH t :: tLb t)
    (imagesWith (CFitAreaStackItem.WasOutImageAdded (item f D)) G)
    (gOutSize G) →
  (CFitAreaStackItem.WasOutImageAdded (item f D) = true →
   CFitArea.Width (CAreaFitter.Areas f !!! tA t)
   <= COutArea.Width (outArea f (tH t)) ∧
   CFitArea.Height (CAreaFitter.Areas f !!! tA t)
   <= COutArea.Height (outArea f (tH t))) →
  is_Some (tryOutArea f (Some (tA t)) (Some (tH t))).
Proof.
  intros HS HGl HDz Hlen HG HFA HFH HV Hadded.
  assert (depth f = D) as HD by (unfold depth; lia).
  destruct (host_numbers BW BH _ _ _ _ HS HG HFA HFH)
    as ((Ha1 & Ha2) & Hreg & HBW & HBH & Hsw & Hsh).
  unfold tryOutArea. to_item.
  rewrite item_setRemain by (rewrite HD; done).
  rewrite HD. unfold areaOf, outAreaOf. cbn [default from_option id].
  fcbn. rewrite Hsw, Hsh.
  destruct t as [a Ua Ub h La Lb]. cbn [tA tUa tUb tH tLa tLb] in *.
  set (ar := CAreaFitter.Areas f !!! a) in *.
  set (o := outArea f h) in *.
  destruct ((COutArea.Width o - CFitArea.Width ar <? 0)
            || (COutArea.Height o - CFitArea.Height ar <? 0)) eqn:Hsmall.
  - (* too small: on to the next output area *)
    done.
  - (* the check decides *)
    apply orb_false_iff in Hsmall as [Hw Hh].
    apply Z.ltb_ge in Hw, Hh.
    set (t := mkTrial a Ua Ub h La Lb) in *.
    destruct (commitFit_Checked BW BH f G D t HS HG HD Hlen HFA HFH HV
                ltac:(cbn; fold ar o; lia) ltac:(cbn; fold ar o; lia))
      as [Hyes Hno].
    destruct (commitFit_facts f D a h
                (checkFit (setRemain f (Some a) (Some h)) (Some a) (Some h))
                HD Hlen)
      as (Hst3 & (EA & EG & ED & EC & EN) & Ho3 & Him3 & Hsz3 & Hi3).
    cbn [tA tUa tUb tH tLa tLb] in *.
    set (r := checkFit (setRemain f (Some a) (Some h)) (Some a) (Some h))
      in *.
    set (f3 := commitFit (setRemain f (Some a) (Some h)) (Some h) r) in *.
    assert (Shape BW BH f3) as HS3 by (by eapply Shape_stable).
    assert (GlobalsOK BW BH f3) as HGl3.
    { by apply (GlobalsOK_stable BW BH D f). }
    assert (Geo BW BH f3 D G) as HG3 by (by eapply Geo_stable).
    assert (D < length (CAreaFitter.Stack f3))%nat as Hlen3.
    { by rewrite (st_stack _ _ _ Hst3). }
    destruct (CheckFit.result r) eqn:Hres; [|done].
    apply (placeArea_is_Some f3 G D t); try done; try congruence.
    by apply Hyes.
Qed.

(** The head of the inner loop, with the output area that is added when
    the chain is at its end. *)
Lemma atRegionLoop_is_Some f G D a Ua Ub La Lb :
  Shape BW BH f → GlobalsOK BW BH f →
  CAreaFitter.Depth f = Z.of_nat D →
  (D < length (CAreaFitter.Stack f))%nat →
  Geo BW BH f D G →
  FrameArea f D G (mkTrial a Ua Ub (BasePtr 0) La Lb) →
  View f (Ua ++ Ub) (gL G) (gImgs G) (gOutSize G) →
  gL G = La ++ Lb →
  CFitAreaStackItem.PrevOutArea (item f D) = lastOf OutAreas La →
  is_Some (atRegionLoop f (Some a) (head Lb)).
Proof.
  intros HS HGl HDz Hlen HG HFA HV HL Hprev.
  assert (depth f = D) as HD by (unfold depth; lia).
  pose proof HFA as [Ha Hp Hs Hn]. cbn [tA tUa tUb] in *.
  destruct Lb as [|h Lb]; cbn [head].
  - (* the end of the chain *)
    unfold atRegionLoop. to_item. rewrite HD.
    destruct (0 <? CFitAreaStackItem.OutAreasTried (item f D)); [done|].
    destruct (CFitData.OutImageCount (CAreaFitter.fd f) =?
              CFitData.BestOutImageCount (CAreaFitter.fd f)); [done|].
    rewrite app_nil_r in HL.
    cbv zeta. unfold areaOf. cbn [default from_option id].
    pose proof (sh_areas _ _ _ HS) as Hdims. rewrite Forall_forall in Hdims.
    destruct HV as [Hca Hco Him Hcnt Hsz].
    pose proof (geo_NoDup_L _ _ _ _ _ HG) as Hnd.
    set (p := NewPtr D 2).
    assert (∀ q, q ∈ OutAreas :: gL G → validOutPtr f q ∧ q ∉ hostsBelow f D)
      as Hcells.
    { intros q Hq. split; [|by apply (geo_L_not_host _ _ _ _ _ HG)].
      apply elem_of_cons in Hq as [->|Hq]; [cbn; by destruct HS|].
      by apply (geo_L_valid _ _ _ _ _ HG). }
    assert (validOutPtr f p ∧ (p ∉ hostsBelow f D) ∧ (p ∉ OutAreas :: gL G))
      as (Hvp & Hhp & Hfp).
    { split; [|split].
      - destruct (sh_frames _ _ _ HS D Hlen) as [(? & ? & ?) _].
        cbn. split; [done|]. split; [lia|done].
      - intros Hin. apply (geo_host_level _ _ _ _ _ HG) in Hin as [_ Hl].
        cbn in Hl. lia.
      - intros [?|Hin]%elem_of_cons; [done|].
        apply (geo_L_valid _ _ _ _ _ HG) in Hin as [_ Hl]. cbn in Hl. lia. }
    set (W := if CAreaFitter.MaxOutImageWidth f <?
                 CFitArea.Width (CAreaFitter.Areas f !!! a)
              then CFitArea.Width (CAreaFitter.Areas f !!! a)
              else CAreaFitter.MaxOutImageWidth f).
    set (H := if CAreaFitter.MaxOutImageHeight f <?
                 CFitArea.Height (CAreaFitter.Areas f !!! a)
              then CFitArea.Height (CAreaFitter.Areas f !!! a)
              else CAreaFitter.MaxOutImageHeight f).
    set (g := λ o, COutArea.mk (COutArea.OutImage o) 0 0 W H
                     (COutArea.Next o)).
    set (fa := upd_outArea g p f).
    assert (Stable D f fa) as Hsta.
    { apply Stable_upd_outArea_own; [done|lia|done]. }
    assert (∀ q, outNext fa q = outNext f q) as Hna.
    { intros q. unfold outNext, fa. rewrite outArea_upd_outArea by done.
      case_decide; [by subst|done]. }
    assert (outChain fa (gL G)) as Hcoa.
    { unfold outChain in *. eapply chain_ext; [|exact Hco]. intros q _.
      apply Hna. }
    assert (validOutPtr fa p) as Hvpa by (by apply (st_valid _ _ _ Hsta)).
    assert (Forall (validOutPtr fa) (OutAreas :: gL G)) as Hvall.
    { apply Forall_forall. intros q Hq. apply (st_valid _ _ _ Hsta).
      by apply Hcells. }
    destruct (insertOutArea_is_Some fa p (gL G) Hcoa Hnd Hvall)
      as [[f2 prev] Hins].
    rewrite Hins. cbn [mbind option_bind].
    destruct (insertOutArea_Some fa p (gL G) f2 prev Hcoa Hnd Hfp Hvpa Hvall
                Hins)
      as (A & B & HLeq & -> & -> & Hc2 & _ & _).
    set (r := lastOf OutAreas A) in *.
    assert (r ∈ OutAreas :: gL G) as Hrin.
    { rewrite HLeq. apply lastOf_out_in. }
    destruct (Hcells _ Hrin) as [Hvr Hhr].
    assert (r ≠ p) as Hrp by (intros Heq; by rewrite Heq in Hrin).
    set (f1 := upd_outArea (COutArea.set_Next (outNext fa r)) p fa) in *.
    set (f2 := upd_outArea (COutArea.set_Next (Some p)) r f1) in *.
    assert (Stable D fa f1) as Hst1.
    { apply Stable_upd_outArea_Next; [done|].
      by rewrite (hostsBelow_ext f fa D (st_item _ _ _ Hsta)). }
    pose proof (Stable_trans _ _ _ _ Hsta Hst1) as Hsta1.
    assert (Stable D f1 f2) as Hst2.
    { apply Stable_upd_outArea_Next; [by apply (st_valid _ _ _ Hsta1)|].
      by rewrite (hostsBelow_ext f f1 D (st_item _ _ _ Hsta1)). }
    pose proof (Stable_trans _ _ _ _ Hsta1 Hst2) as Hsta2.
    assert (depth f2 = D) as HD2 by (unfold f2, f1, fa; by obs).
    assert (D < length (CAreaFitter.Stack f2))%nat as Hlen2.
    { by rewrite (st_stack _ _ _ Hsta2). }
    assert (item f2 D = item f D) as Hi2 by (unfold f2, f1, fa; by obs).
    assert (∀ q, outArea f2 q
                 = if decide (q = r)
                   then COutArea.set_Next (Some p) (outArea f r)
                   else if decide (q = p)
                        then COutArea.mk (COutArea.OutImage (outArea f p))
                               0 0 W H (outNext f r)
                        else outArea f q) as Hout2.
    { intros q. unfold f2.
      rewrite outArea_upd_outArea by (by apply (st_valid _ _ _ Hsta1)).
      case_decide as Hq.
      - unfold f1. rewrite outArea_upd_outArea by done.
        rewrite decide_False by done. unfold fa.
        rewrite outArea_upd_outArea by done. by rewrite decide_False.
      - unfold f1. rewrite outArea_upd_outArea by done.
        case_decide; [|unfold fa; rewrite outArea_upd_outArea by done;
                        by rewrite decide_False].
        unfold fa at 2. rewrite outArea_upd_outArea by done.
        rewrite decide_True by done. cbn. by rewrite Hna. }
    assert (CFitData.OutImageCount
              (CAreaFitter.fd (upd_s (CFitAreaStackItem.set_PrevOutArea r) f2))
            = Z.of_nat (length (gImgs G))) as Hcn.
    { rewrite <- Hcnt. unfold f2, f1, fa. by obs. }
    rewrite Hcn.
    pose proof (geo_count _ _ _ _ _ HG) as Hgc.
    pose proof (sh_stack _ _ _ HS) as Hss.
    pose proof (sh_count _ _ _ HS) as Hsc.
    assert (add32 (Z.of_nat (length (gImgs G))) 1
            = Z.of_nat (length (gImgs G)) + 1) as Hadd.
    { apply add32_id. unfold is_int, INT_MIN, INT_MAX in *. lia. }
    rewrite Hadd.
    set (n := length (gImgs G)) in *.
    set (f3 := upd_s (CFitAreaStackItem.set_PrevOutArea r) f2).
    set (f4 := upd_outArea (COutArea.set_OutImage (Z.of_nat n)) p f3).
    set (f5 := upd_fd _ f4).
    set (f6 := set_outImage (Z.of_nat n) COutImage.zero f5).
    set (f7 := upd_fd _ f6).
    set (f8 := upd_s (CFitAreaStackItem.set_WasOutImageAdded true) f7).
    assert (Stable D f2 f3) as Hst3.
    { apply Stable_upd_s; [solve_scalarUpdate | lia | done]. }
    pose proof (Stable_trans _ _ _ _ Hsta2 Hst3) as Hsta3.
    assert (Stable D f3 f4) as Hst4.
    { apply Stable_upd_outArea_own;
        [by apply (st_valid _ _ _ Hsta3) | lia |].
      by rewrite (hostsBelow_ext f f3 D (st_item _ _ _ Hsta3)). }
    pose proof (Stable_trans _ _ _ _ Hsta3 Hst4) as Hsta4.
    assert (Stable D f4 f8) as Hst8.
    { assert (Stable D f4 f5) as H5 by (by apply Stable_upd_fd).
      assert (Stable D f5 f6) as H6 by apply Stable_set_outImage.
      assert (Stable D f6 f7) as H7 by (by apply Stable_upd_fd).
      assert (Stable D f7 f8) as H8.
      { apply Stable_upd_s; [solve_scalarUpdate | | done].
        unfold f7, f6, f5, f4, f3. obs. lia. }
      eapply Stable_trans; [exact H5|]. eapply Stable_trans; [exact H6|].
      eapply Stable_trans; [exact H7|exact H8]. }
    pose proof (Stable_trans _ _ _ _ Hsta4 Hst8) as Hsta8.
    assert (item f8 D
            = CFitAreaStackItem.set_WasOutImageAdded true
                (CFitAreaStackItem.set_PrevOutArea r (item f D))) as Hi8.
    { unfold f8. rewrite item_upd_s_eq;
        [|solve_scalarUpdate
         |unfold f7, f6, f5, f4, f3; by obs
         |unfold f7, f6, f5, f4, f3; by obs].
      unfold f7, f6, f5, f4, f3. obs. by rewrite Hi2. }
    assert (validOutPtr f3 p) as Hvp3 by (by apply (st_valid _ _ _ Hsta3)).
    assert (∀ q, outArea f8 q
                 = if decide (q = p)
                   then COutArea.set_OutImage (Z.of_nat n) (outArea f2 p)
                   else outArea f2 q) as Hout8.
    { intros q. unfold f8, f7, f6, f5. obs. unfold f4.
      rewrite outArea_upd_outArea by done. unfold f3.
      by rewrite !outArea_upd_s by solve_scalarUpdate. }
    assert (CAreaFitter.fd f4 = CAreaFitter.fd f2) as Hfd4.
    { reflexivity. }
    assert (CFitData.OutImages (CAreaFitter.fd f2)
            = CFitData.OutImages (CAreaFitter.fd f) ∧
            CFitData.OutSize (CAreaFitter.fd f2)
            = CFitData.OutSize (CAreaFitter.fd f)) as [Himgs2 Hsz2].
    { unfold f2, f1, fa. by obs. }
    assert (images f8 = gImgs G ++ [COutImage.zero]) as Him8.
    { unfold images in *. unfold f8, f7, f6, f5. fcbn.
      rewrite Hfd4, Himgs2. rewrite Hcnt in Him.
      replace (Z.to_nat (Z.of_nat n + 1)) with (S n) by lia.
      rewrite !Nat2Z.id in *.

      rewrite images_added by (by rewrite Him). by rewrite Him. }
    assert (CAreaFitter.Areas f8 = CAreaFitter.Areas f ∧
            CAreaFitter.Globals f8 = CAreaFitter.Globals f ∧
            CAreaFitter.Depth f8 = CAreaFitter.Depth f ∧
            (∀ q, areaNext f8 q = areaNext f q)) as (EA & EG & ED & EN).
    { unfold f8, f7, f6, f5, f4, f3, f2, f1, fa.
      split; [|split; [|split]].
      - fcbn. rewrite Areas_upd_outArea. fcbn.
        by rewrite !Areas_upd_outArea.
      - fcbn. rewrite Globals_upd_outArea. fcbn.
        by rewrite !Globals_upd_outArea.
      - fcbn. rewrite Depth_upd_outArea. fcbn.
        by rewrite !Depth_upd_outArea.
      - intros q. by obs. }
    assert (CFitData.OutImageCount (CAreaFitter.fd f8) = Z.of_nat n + 1 ∧
            CFitData.OutSize (CAreaFitter.fd f8) = gOutSize G)
      as [Hcnt8 Hsz8].
    { unfold f8, f7, f6, f5. fcbn. by rewrite Hfd4, Hsz2. }
    assert (0 <= W <= BW ∧ 0 <= H <= BH ∧
            CFitArea.Width (CAreaFitter.Areas f !!! a) <= W ∧
            CFitArea.Height (CAreaFitter.Areas f !!! a) <= H)
      as (HW & HH & HaW & HaH).
    { assert (a ∈ gU G) as Hain by (rewrite Hs; set_solver).
      pose proof (geo_U_valid _ _ _ _ _ HG) as HUv.
      rewrite Forall_forall in HUv. apply HUv in Hain.
      assert (CAreaFitter.Areas f !!! a ∈ CAreaFitter.Areas f) as Hel.
      { by apply list_elem_of_lookup_total_2. }
      apply Hdims in Hel.
      pose proof (sh_maxw _ _ _ HS). pose proof (sh_maxh _ _ _ HS).
      unfold W, H. repeat case_match; lia. }
    assert (outArea f8 p
            = COutArea.mk (Z.of_nat n) 0 0 W H (outNext f r)) as Hop.
    { rewrite Hout8, decide_True by done.
      rewrite Hout2, decide_False by done. by rewrite decide_True. }
    apply (tryOutArea_is_Some f8 G D (mkTrial a Ua Ub p A B)); try done.
    + by eapply Shape_stable.
    + by apply (GlobalsOK_stable BW BH D f).
    + congruence.
    + by rewrite (st_stack _ _ _ Hsta8).
    + by eapply Geo_stable.
    + split; cbn [tA tUa tUb]; rewrite ?Hi8, ?EA; done.
    + split; cbn [tH tLa tLb]; rewrite ?Hi8; fcbn.
      * done.
      * done.
      * by apply (st_valid _ _ _ Hsta8).
      * cbn. lia.
      * rewrite Hop. unfold regionOK, imagesWith. rewrite length_app.
        fold n. cbn. lia.
      * intros _. by rewrite Hop.
    + rewrite Hi8. fcbn. cbn [tUa tUb tH tLa tLb imagesWith]. split.
      * unfold areaChain in *. eapply chain_ext; [|exact Hca]. by intros q _.
      * unfold outChain in *. eapply chain_ext; [|exact Hc2]. intros q _.
        unfold outNext. rewrite Hout8. by case_decide; subst.
      * done.
      * rewrite length_app. fold n. cbn. lia.
      * done.
    + intros _. cbn [tA tH]. rewrite EA, Hop. done.
  - (* an output area of the chain *)
    unfold atRegionLoop.
    set (f' := upd_s (CFitAreaStackItem.set_WasOutImageAdded false) f) in *.
    assert (Stable D f f') as Hst.
    { apply Stable_upd_s; [solve_scalarUpdate | lia | done]. }
    assert (item f' D = CFitAreaStackItem.set_WasOutImageAdded false
                          (item f D)) as Hi.
    { unfold f'. by rewrite item_upd_s_eq by obs_side. }
    assert (h ∈ gL G) as Hin by (rewrite HL; set_solver).
    destruct (geo_L_valid _ _ _ _ _ HG _ Hin) as [Hvh Hlh].
    pose proof (geo_regions _ _ _ _ _ HG) as Hreg.
    rewrite Forall_forall in Hreg. specialize (Hreg _ Hin).
    destruct HV as [Hca Hco Him Hcnt Hsz].
    apply (tryOutArea_is_Some f' G D (mkTrial a Ua Ub h La Lb)); try done.
    + by eapply Shape_stable.
    + by apply (GlobalsOK_stable BW BH D f).
    + by rewrite <- (st_stack _ _ _ Hst) in Hlen.
    + by eapply Geo_stable.
    + split; cbn [tA tUa tUb]; rewrite ?Hi; done.
    + split; cbn [tH tLa tLb]; rewrite ?Hi; fcbn; try done.
      * by apply (st_valid _ _ _ Hst).
      * eapply ptrLevel_mono; [|exact Hlh]. lia.
      * unfold f'. by rewrite outArea_upd_s by solve_scalarUpdate.
    + rewrite Hi. fcbn. cbn [tUa tUb tH tLa tLb imagesWith].
      apply View_upd_s; [solve_scalarUpdate|]. rewrite <- HL. by split.
    + rewrite Hi. fcbn. done.
Qed.

(** From [CodeLoc2]: the chain is the one before the first
    configuration again, and the second configuration links into it. *)
Lemma atCodeLoc2_is_Some f G Gc D t :
  Shape BW BH f → GlobalsOK BW BH f →
  CAreaFitter.Depth f = Z.of_nat D →
  (D < length (CAreaFitter.Stack f))%nat →
  Geo BW BH f D G → Susp BW BH f D G Gc t → Geo BW BH f (S D) Gc →
  View f (gU Gc) (gL Gc) (gImgs Gc) (gOutSize Gc) →
  is_Some (atCodeLoc2 f (Some (tA t)) (Some (tH t))).
Proof.
  intros HS HGl HDz Hlen HG HSu HGc HV.
  assert (depth f = D) as HD by (unfold depth; lia).
  pose proof (removeNewOutAreas_unwound BW BH f G Gc D t HS HD Hlen HSu HGc
                (view_out _ _ _ _ _ HV)) as HU.
  unfold atCodeLoc2.
  set (f1 := removeNewOutAreas _ f) in *.
  pose proof (fixedPart_Fixed _ _ (uw_fixed _ _ _ _ HU)) as Hfx.
  pose proof (uw_stable _ _ _ _ HU) as Hst.
  assert (depth f1 = D) as HD1 by (by rewrite (fx_depth _ _ Hfx)).
  assert (D < length (CAreaFitter.Stack f1))%nat as Hlen1.
  { by rewrite (st_stack _ _ _ Hst). }
  cbv zeta. case_match; [|done].
  pose proof (Unwound_Linked BW BH f f1 D G t HS HG
                (su_host _ _ _ _ _ _ _ HSu)
                (su_next _ _ _ _ _ _ _ HSu) HU) as HL.
  assert (tH t ∉ ([] : list OutAreaPtr)) as Hni by set_solver.
  pose proof (Placed_linked BW BH f f1 G D t [] _
                (Susp_Placed BW BH _ _ _ _ _ HSu HGc HV) HL Hni) as HP1.
  destruct (configuration2_is_Some f1 G D t (Some (tA t)) (Some (tH t)))
    as [f2 ->]; try done.
  - by eapply Shape_stable.
  - by eapply Geo_stable.
  - apply (pl_host _ _ _ _ _ _ HP1).
  - apply (uw_chain _ _ _ _ HU).
  - cbn [mbind option_bind]. by case_match.
Qed.

(** Every step can be made. *)
Lemma step_is_Some cfg : Inv BW BH cfg → is_Some (step cfg).
Proof.
  destruct cfg as [f A O loc]. intros HI.
  unfold step. cbn [Config.fitter Config.Area Config.OutArea Config.loc].
  destruct loc; try done.
  - destruct HI as (HS & HGl & [Hloc|(Gs & G & HD & Hlen & HB & HG & Htop)]);
      [discriminate Hloc|].
    cbn [Config.fitter] in *. unfold Top in Htop.
    cbn [Config.fitter Config.loc Config.Area Config.OutArea] in Htop.
    assert (depth f = length Gs) as Hd by (unfold depth; lia).
    rewrite Hd in Htop.
    destruct Htop as (a & Ua & Ub & La & Lb & -> & HFA & HV & HL & -> & Hp).
    by apply (atRegionLoop_is_Some f G (length Gs) a Ua Ub La Lb).
  - destruct HI as (HS & HGl & [Hloc|(Gs & G & HD & Hlen & HB & HG & Htop)]);
      [discriminate Hloc|].
    cbn [Config.fitter] in *. unfold Top in Htop.
    cbn [Config.fitter Config.loc Config.Area Config.OutArea] in Htop.
    assert (depth f = length Gs) as Hd by (unfold depth; lia).
    rewrite Hd in Htop.
    destruct Htop as (Gc & t & HSu & HGc & HV & -> & ->).
    by apply (atCodeLoc2_is_Some f G Gc (length Gs) t).
Qed.
End Progress.

(** At no point of the search does a scan run past the cells there are:
    from the state in which [fitAreas] starts the search, any number of
    steps can be made (a search that has returned stays where it is).
    The loop of [insertOutArea] and the scan for the smallest unfitted
    area always come to the end of their chain, so the chains of output
    areas and of unfitted areas never close to a cycle. *)
Theorem search_never_stuck (MaxW MaxH MaxS : Z) (g : CGlobals.t)
    (areas : list CFitArea.t) (MinOutImageCount : Z) (k : nat) :
  (1 <= length areas)%nat →
  Forall (λ a, 0 <= CFitArea.Width a <= INT_MAX ∧
               0 <= CFitArea.Height a <= INT_MAX) areas →
  0 <= MaxW <= INT_MAX → 0 <= MaxH <= INT_MAX →
  0 <= MinOutImageCount →
  MinOutImageCount + 1 + Z.of_nat (length areas) <= INT_MAX →
  CGlobals.BestOutSize g = 2147483647 →
  ∃ cfg' n,
    stepsCounting k
      (Config.mk
         (pushStack
            (newAreaFitter MaxW MaxH MaxS g areas
               (initFitData MaxW MaxH MinOutImageCount)))
         None None AtCodeLoc1) 0 = Some (cfg', n).
Proof.
  intros Hn Hareas HW HH Hm Hcount Hg.
  pose proof (start_Inv MaxW MaxH MaxS g areas MinOutImageCount Hn Hareas HW
                HH Hm Hcount Hg) as H0.
  set (cfg0 := Config.mk _ None None AtCodeLoc1) in *.
  clearbody cfg0. revert cfg0 H0. generalize 0.
  induction k as [|k IH]; intros n0 cfg0 H0.
  - exists cfg0, n0. reflexivity.
  - cbn [stepsCounting].
    destruct (step_is_Some INT_MAX INT_MAX cfg0 H0) as [cfg1 Hstep].
    rewrite Hstep. cbn [mbind option_bind].
    apply IH. by eapply step_Inv.
Qed.

(** The example: 1000 steps from the start. *)
Lemma search_never_stuck_witness :
  ∃ cfg' n,
    stepsCounting 1000
      (Config.mk
         (pushStack
            (newAreaFitter 300 300 90000
               (CGlobals.mk 10000 10000 2147483647 2147483647 [] [])
               (insertionSort FitAreasInSortFn exampleAreas)
               (initFitData 300 300 1)))
         None None AtCodeLoc1) 0 = Some (cfg', n).
Proof.
  apply (search_never_stuck 300 300 90000
           (CGlobals.mk 10000 10000 2147483647 2147483647 [] [])
           (insertionSort FitAreasInSortFn exampleAreas) 1 1000);
    [vm_compute; lia| |unfold INT_MAX; lia|unfold INT_MAX; lia|lia
     |unfold INT_MAX; vm_compute; discriminate|reflexivity].
  assert (insertionSort FitAreasInSortFn exampleAreas
          = [mkArea 250 60; mkArea 80 80; mkArea 50 30; mkArea 30 260])
    as -> by (vm_compute; reflexivity).
  unfold mkArea, INT_MAX. repeat constructor; cbn; lia.
Defined.

(** ** The number of cells of [BaseOutAreas] stays *)

Lemma baseCells_upd_s g f : baseCells (upd_s g f) = baseCells f.
Proof. reflexivity. Qed.

Lemma baseCells_upd_outArea g p f : baseCells (upd_outArea g p f) = baseCells f.
Proof. destruct p; [|done]. unfold baseCells. cbn. by rewrite length_alter. Qed.

Lemma baseCells_upd_fd g f :
  (∀ d, CFitData.BaseOutAreas (g d) = CFitData.BaseOutAreas d) →
  baseCells (upd_fd g f) = baseCells f.
Proof. intros Hg. unfold baseCells. cbn. by rewrite Hg. Qed.

Lemma baseCells_upd_area g p f : baseCells (upd_area g p f) = baseCells f.
Proof. by destruct p. Qed.

Lemma baseCells_insertOutArea f p f' prev :
  insertOutArea f p = Some (f', prev) → baseCells f' = baseCells f.
Proof.
  unfold insertOutArea. intros H.
  destruct (insertOutArea_scan _ _ _ _ _) as [q|]; [|done].
  cbn in H. injection H as <- _. by rewrite !baseCells_upd_outArea.
Qed.

Lemma baseCells_removeNewOutAreas n f : baseCells (removeNewOutAreas n f) = baseCells f.
Proof.
  revert f. induction n as [|n IH]; intros f; [done|].
  cbn [removeNewOutAreas]. cbv zeta. rewrite IH.
  by rewrite baseCells_upd_outArea, baseCells_upd_s.
Qed.

Lemma baseCells_addNewOutArea0 img ax ay w h f f' :
  addNewOutArea0 img ax ay w h f = Some f' → baseCells f' = baseCells f.
Proof.
  unfold addNewOutArea0. intros H.
  destruct (insertOutArea _ _) as [[f2 prev]|] eqn:E; [|done].
  cbn in H. injection H as <-. rewrite baseCells_upd_s.
  apply baseCells_insertOutArea in E. by rewrite E, baseCells_upd_outArea.
Qed.

Lemma baseCells_addNewOutArea1 img ax ay w h f f' :
  addNewOutArea1 img ax ay w h f = Some f' → baseCells f' = baseCells f.
Proof.
  unfold addNewOutArea1. intros H.
  destruct (insertOutArea _ _) as [[f2 prev]|] eqn:E; [|done].
  cbn in H. injection H as <-. rewrite baseCells_upd_s.
  apply baseCells_insertOutArea in E. by rewrite E, baseCells_upd_outArea.
Qed.

Lemma baseCells_configuration1 f A O f' :
  configuration1 f A O = Some f' → baseCells f' = baseCells f.
Proof.
  unfold configuration1. intros H.
  apply bind_Some in H as (f1 & H1 & H2).
  assert (baseCells f1 = baseCells f) as E1.
  { destruct (_ && _) in H1; [by eapply baseCells_addNewOutArea0|].
    by injection H1 as <-. }
  rewrite <- E1. cbv zeta in H2.
  destruct (_ && _) in H2; [by eapply baseCells_addNewOutArea1|].
  by injection H2 as <-.
Qed.

Lemma baseCells_configuration2 f A O f' :
  configuration2 f A O = Some f' → baseCells f' = baseCells f.
Proof.
  unfold configuration2. intros H.
  apply bind_Some in H as (f1 & H1 & H2).
  assert (baseCells f1 = baseCells f) as E1.
  { destruct (_ && _) in H1; [by eapply baseCells_addNewOutArea0|].
    by injection H1 as <-. }
  rewrite <- E1. cbv zeta in H2.
  destruct (_ && _) in H2; [by eapply baseCells_addNewOutArea1|].
  by injection H2 as <-.
Qed.

Lemma baseCells_saveBestFit f : baseCells (saveBestFit f) = baseCells f.
Proof. unfold saveBestFit. cbv zeta. by destruct (_ && _). Qed.

Lemma baseCells_afterRegionLoop f A O :
  baseCells (Config.fitter (afterRegionLoop f A O)) = baseCells f.
Proof.
  unfold afterRegionLoop. cbn [Config.fitter].
  rewrite baseCells_upd_s. apply baseCells_upd_area.
Qed.

Lemma baseCells_regionTail f A O :
  baseCells (Config.fitter (regionTail f A O)) = baseCells f.
Proof.
  unfold regionTail. destruct (CFitAreaStackItem.WasOutImageAdded _).
  - cbv zeta. by rewrite baseCells_afterRegionLoop, baseCells_upd_fd,
      baseCells_upd_outArea.
  - destruct (worseThanBest f); [apply baseCells_afterRegionLoop|done].
Qed.

Lemma baseCells_restoreOutImage f A O :
  baseCells (Config.fitter (restoreOutImage f A O)) = baseCells f.
Proof.
  unfold restoreOutImage. destruct (CFitAreaStackItem.DoOutImageRestore _).
  - cbv zeta. by rewrite baseCells_regionTail.
  - apply baseCells_regionTail.
Qed.

Lemma baseCells_restoreOutArea f A O :
  baseCells (Config.fitter (restoreOutArea f A O)) = baseCells f.
Proof.
  unfold restoreOutArea. cbv zeta.
  by rewrite baseCells_restoreOutImage, baseCells_upd_outArea.
Qed.

Lemma baseCells_placeArea f A O cfg' :
  placeArea f A O = Some cfg' → baseCells (Config.fitter cfg') = baseCells f.
Proof.
  unfold placeArea. cbv zeta. intros H.
  set (f1 := upd_area _ _ f) in *.
  assert (baseCells f1 = baseCells f) as E1.
  { apply baseCells_upd_area. }
  destruct (CFitArea.Next _) as [first|].
  - apply bind_Some in H as ([mw mh] & _ & H).
    apply bind_Some in H as (f4 & H4 & H). injection H as <-.
    cbn [Config.fitter]. change (baseCells (pushStack ?g)) with (baseCells g).
    rewrite baseCells_upd_s.
    apply baseCells_configuration1 in H4. rewrite H4.
    by rewrite baseCells_upd_outArea, baseCells_upd_s.
  - injection H as <-.
    by rewrite baseCells_restoreOutImage, baseCells_saveBestFit.
Qed.

Lemma baseCells_tryOutArea f A O cfg' :
  tryOutArea f A O = Some cfg' → baseCells (Config.fitter cfg') = baseCells f.
Proof.
  unfold tryOutArea. cbv zeta. intros H.
  destruct (_ || _); [by injection H as <-|].
  destruct (CheckFit.result _).
  - apply baseCells_placeArea in H. by rewrite H.
  - injection H as <-. by rewrite baseCells_regionTail.
Qed.

Lemma baseCells_atRegionLoop f A O cfg' :
  atRegionLoop f A O = Some cfg' → baseCells (Config.fitter cfg') = baseCells f.
Proof.
  unfold atRegionLoop. intros H. destruct O as [h|].
  - apply baseCells_tryOutArea in H. by rewrite H.
  - destruct (0 <? _);
      [injection H as <-; apply baseCells_afterRegionLoop|].
    destruct (_ =? _);
      [injection H as <-; apply baseCells_afterRegionLoop|].
    cbv zeta in H. apply bind_Some in H as ([f2 prev] & Hins & H).
    apply baseCells_tryOutArea in H. rewrite H.
    apply baseCells_insertOutArea in Hins.
    rewrite baseCells_upd_s, baseCells_upd_fd by done.
    change (baseCells (set_outImage ?i ?v ?g)) with (baseCells g).
    rewrite baseCells_upd_fd by done.
    rewrite baseCells_upd_outArea, baseCells_upd_s, Hins.
    apply baseCells_upd_outArea.
Qed.

Lemma baseCells_atCodeLoc2 f A O cfg' :
  atCodeLoc2 f A O = Some cfg' → baseCells (Config.fitter cfg') = baseCells f.
Proof.
  unfold atCodeLoc2. cbv zeta. intros H.
  destruct (_ && _).
  - apply bind_Some in H as (f2 & H2 & H).
    apply baseCells_configuration2 in H2.
    rewrite baseCells_removeNewOutAreas in H2.
    destruct (0 <? _)%nat; injection H as <-.
    + cbn [Config.fitter]. change (baseCells (pushStack ?g)) with (baseCells g).
      by rewrite baseCells_upd_s.
    + by rewrite baseCells_restoreOutArea.
  - injection H as <-.
    by rewrite baseCells_restoreOutArea, baseCells_removeNewOutAreas.
Qed.

Lemma baseCells_atCodeLoc3 f A O cfg' :
  atCodeLoc3 f A O = Some cfg' → baseCells (Config.fitter cfg') = baseCells f.
Proof.
  unfold atCodeLoc3. cbv zeta. intros [= <-].
  by rewrite baseCells_restoreOutArea, baseCells_removeNewOutAreas.
Qed.

Lemma baseCells_leaveFrame f A O :
  baseCells (Config.fitter (leaveFrame f A O)) = baseCells f.
Proof.
  unfold leaveFrame. destruct (0 <? CAreaFitter.Depth f); [done|].
  by destruct (0 <? CAreaFitter.FitCallsLeft f).
Qed.

Lemma baseCells_startArea f : baseCells (Config.fitter (startArea f)) = baseCells f.
Proof.
  unfold startArea. cbv zeta. cbn [Config.fitter]. rewrite baseCells_upd_s.
  by rewrite baseCells_upd_area.
Qed.

Lemma baseCells_atCodeLoc1 f A O :
  baseCells (Config.fitter (atCodeLoc1 f A O)) = baseCells f.
Proof.
  unfold atCodeLoc1.
  destruct (CFitAreaStackItem.Area (s f)); [|apply baseCells_leaveFrame].
  destruct (worseThanBest f); [apply baseCells_leaveFrame|].
  destruct (CAreaFitter.FitCallsLeft f =? 0); [|apply baseCells_startArea].
  destruct (_ || _); [by rewrite baseCells_leaveFrame|].
  destruct (_ =? 0); [done|].
  destruct (512 <=? _); by rewrite baseCells_startArea.
Qed.

Lemma baseCells_step cfg cfg' :
  step cfg = Some cfg' →
  baseCells (Config.fitter cfg') = baseCells (Config.fitter cfg).
Proof.
  unfold step. destruct (Config.loc cfg); intros H.
  - injection H as <-. apply baseCells_atCodeLoc1.
  - by eapply baseCells_atRegionLoop.
  - by eapply baseCells_atCodeLoc2.
  - by eapply baseCells_atCodeLoc3.
  - by injection H as <-.
Qed.

Lemma baseCells_run fuel cfg f' :
  run fuel cfg = Some f' → baseCells f' = baseCells (Config.fitter cfg).
Proof.
  revert cfg. induction fuel as [|fuel IH]; intros cfg Hrun.
  - cbn in Hrun. destruct (Config.loc cfg); try done.
    by injection Hrun as <-.
  - cbn in Hrun.
    destruct (decide (Config.loc cfg = AtReturn)) as [Hret|Hnr].
    + rewrite Hret in Hrun. by injection Hrun as <-.
    + assert (∃ cfg1, step cfg = Some cfg1 ∧ run fuel cfg1 = Some f')
        as (cfg1 & Hstep & Hrest).
      { destruct (Config.loc cfg); try done;
          destruct (step cfg) as [cfg1|]; try done; by exists cfg1. }
      rewrite (IH _ Hrest). by apply baseCells_step.
Qed.

(** [BaseOutAreas] has one cell for each of the first output images and
    the initial one. *)
Lemma baseCells_start (MaxW MaxH MaxS MinCount : Z) (g : CGlobals.t)
    (areas : list CFitArea.t) :
  baseCells
    (pushStack
       (newAreaFitter MaxW MaxH MaxS g areas
          (initFitData MaxW MaxH MinCount)))
  = S (Z.to_nat MinCount).
Proof.
  change (baseCells (pushStack ?f)) with (baseCells f). unfold baseCells.
  destruct (newAreaFitter_spec MaxW MaxH MaxS g areas
              (initFitData MaxW MaxH MinCount))
    as (_ & _ & _ & _ & _ & -> & _).
  unfold initFitData. cbn [CFitData.BaseOutAreas].
  apply initBaseOutAreas_spec.
Qed.

(** ** Separated rectangles inside images take no more room than the
    images have *)

Lemma elem_of_cellsOf (c : Z * Z * Z) (r : Rect) :
  c ∈ cellsOf r ↔
  let '(j, p, q) := c in
  let '(i, x, y, w, h) := r in
  j = i ∧ x <= p < x + w ∧ y <= q < y + h.
Proof.
  destruct c as [[j p] q]. destruct r as [[[[i x] y] w] h]. unfold cellsOf.
  rewrite list_elem_of_bind. split.
  - intros (p' & Hc & Hp). apply list_elem_of_fmap in Hc as (q' & Heq & Hq).
    injection Heq as -> -> ->.
    apply elem_of_seqZ in Hp, Hq. lia.
  - intros (-> & Hp & Hq). exists p. split.
    + apply list_elem_of_fmap. exists q. split; [done|].
      apply elem_of_seqZ. lia.
    + apply elem_of_seqZ. lia.
Qed.

Lemma NoDup_cellsOf (r : Rect) : NoDup (cellsOf r).
Proof.
  destruct r as [[[[i x] y] w] h]. unfold cellsOf. apply NoDup_bind.
  - intros p1 p2 c _ _ H1 H2.
    apply list_elem_of_fmap in H1 as (q1 & -> & _).
    apply list_elem_of_fmap in H2 as (q2 & Heq & _). by injection Heq.
  - intros p _. apply NoDup_fmap_2; [|apply NoDup_seqZ].
    intros q1 q2 Heq. by injection Heq.
  - apply NoDup_seqZ.
Qed.

Lemma length_bind_const {A B} (f : A → list B) (l : list A) (k : nat) :
  (∀ a, length (f a) = k) → length (l ≫= f) = (length l * k)%nat.
Proof.
  intros Hf. induction l as [|a l IH]; [done|].
  cbn. rewrite length_app, Hf. fold (l ≫= f). rewrite IH. lia.
Qed.

Lemma length_cellsOf i x y w h :
  0 <= w → 0 <= h → Z.of_nat (length (cellsOf (i, x, y, w, h))) = w * h.
Proof.
  intros Hw Hh. unfold cellsOf.
  rewrite (length_bind_const _ _ (Z.to_nat h)).
  - rewrite length_seqZ. lia.
  - intros p. by rewrite length_fmap, length_seqZ.
Qed.

Lemma sep_cells (r1 r2 : Rect) (c : Z * Z * Z) :
  sep r1 r2 → c ∈ cellsOf r1 → c ∉ cellsOf r2.
Proof.
  rewrite !elem_of_cellsOf. destruct c as [[j p] q].
  destruct r1 as [[[[i1 x1] y1] w1] h1]. destruct r2 as [[[[i2 x2] y2] w2] h2].
  unfold sep. intros Hs H1 H2. lia.
Qed.

Lemma NoDup_allCells (R : list Rect) : allSep R → NoDup (allCells R).
Proof.
  induction R as [|r R IH]; [constructor|].
  intros [Hr HR]. unfold allCells. cbn. fold (allCells R).
  apply NoDup_app. split; [apply NoDup_cellsOf|]. split; [|by apply IH].
  intros c Hc Hin. unfold allCells in Hin.
  apply list_elem_of_bind in Hin as (r2 & Hc2 & Hr2).
  rewrite Forall_forall in Hr. by apply (sep_cells r r2 c (Hr _ Hr2)).
Qed.

Lemma length_allCells (R : list Rect) :
  Forall (λ r, let '(_, _, _, w, h) := r in 0 <= w ∧ 0 <= h) R →
  Z.of_nat (length (allCells R)) = rectSum R.
Proof.
  induction R as [|r R IH]; [done|].
  intros [Hr HR]%Forall_cons. unfold allCells. cbn. fold (allCells R).
  rewrite length_app, Nat2Z.inj_add, IH by done.
  destruct r as [[[[i x] y] w] h]. destruct Hr as [Hw Hh].
  by rewrite length_cellsOf.
Qed.

(** Rectangles that are separated from each other, each inside one of
    the rectangles of [B], cover no more than [B] does. *)
Lemma packing (R B : list Rect) :
  allSep R →
  Forall (λ r, let '(_, _, _, w, h) := r in 0 <= w ∧ 0 <= h) R →
  Forall (λ r, let '(_, _, _, w, h) := r in 0 <= w ∧ 0 <= h) B →
  Forall (λ r, ∃ b, b ∈ B ∧ ∀ c, c ∈ cellsOf r → c ∈ cellsOf b) R →
  rectSum R <= rectSum B.
Proof.
  intros Hsep HR HB Hin.
  rewrite <- (length_allCells R HR), <- (length_allCells B HB).
  apply inj_le, submseteq_length, NoDup_submseteq;
    [by apply NoDup_allCells|].
  intros c Hc. unfold allCells in *.
  apply list_elem_of_bind in Hc as (r & Hc & Hr).
  rewrite Forall_forall in Hin. destruct (Hin _ Hr) as (b & Hb & Hsub).
  apply list_elem_of_bind. exists b. split; [by apply Hsub|done].
Qed.

Lemma rectSum_areas (l : list CFitArea.t) :
  rectSum (areaRect <$> l) = exactAreaSum l.
Proof.
  induction l as [|a l IH]; [done|].
  unfold rectSum, exactAreaSum in *. rewrite fmap_cons. cbn [foldr].
  by rewrite IH.
Qed.

Lemma rectSum_images (imgs : list COutImage.t) (k : nat) :
  rectSum (imap (λ j, imageRect (k + j)) imgs) = exactImageSum imgs.
Proof.
  revert k. induction imgs as [|im imgs IH]; intros k; [done|].
  rewrite imap_cons. unfold rectSum, exactImageSum in *. cbn [foldr].
  unfold imageRect at 1. f_equal. rewrite <- (IH (S k)). f_equal.
  apply imap_ext. intros j x _. cbn. unfold imageRect. do 4 f_equal. lia.
Qed.

(** The areas of a fit take no more room than the output images have. *)
Lemma fit_within_images (imgs : list COutImage.t) (l : list CFitArea.t) :
  Forall (contained imgs) l → allSep (areaRect <$> l) →
  Forall (λ a, 0 <= CFitArea.Width a ∧ 0 <= CFitArea.Height a) l →
  Forall (λ im, 0 <= COutImage.Width im ∧ 0 <= COutImage.Height im) imgs →
  exactAreaSum l <= exactImageSum imgs.
Proof.
  intros Hcont Hsep Hl Himgs.
  rewrite <- rectSum_areas, <- (rectSum_images imgs 0).
  apply packing; [done| | |].
  - apply Forall_fmap. eapply Forall_impl; [exact Hl|]. by intros a.
  - apply Forall_forall. intros b Hb.
    apply list_elem_of_lookup in Hb as [j Hb].
    rewrite list_lookup_imap in Hb.
    destruct (imgs !! j) as [im|] eqn:E; [|done]. injection Hb as <-.
    rewrite Forall_forall in Himgs. apply Himgs.
    by apply list_elem_of_lookup_2 in E.
  - apply Forall_fmap. eapply Forall_impl; [exact Hcont|].
    intros a (Hx & Hy & Hi & im & Him & Hw & Hh). cbv beta.
    exists (imageRect (Z.to_nat (CFitArea.OutImage a)) im). split.
    + apply list_elem_of_lookup. exists (Z.to_nat (CFitArea.OutImage a)).
      by rewrite list_lookup_imap, Him.
    + intros [[j p] q] Hc. apply elem_of_cellsOf in Hc.
      apply elem_of_cellsOf. unfold areaRect, imageRect in *. lia.
Qed.

(** ** The quality is at most 100 *)

Lemma dimsSum_Permutation D D' : D ≡ₚ D' → dimsSum D = dimsSum D'.
Proof. unfold dimsSum. induction 1; cbn; lia. Qed.

Lemma exactAreaSum_dims l : exactAreaSum l = dimsSum (areaDims <$> l).
Proof.
  induction l as [|a l IH]; [done|].
  unfold exactAreaSum, dimsSum in *. rewrite fmap_cons. cbn [foldr].
  by rewrite IH.
Qed.

Lemma sumAreaSizes_exact (B : Z) (l : list CFitArea.t) :
  B <= INT_MAX →
  Forall (λ a, 0 <= CFitArea.Width a * CFitArea.Height a <= B) l →
  sumAreaSizes l = exactAreaSum l ∧ 0 <= exactAreaSum l.
Proof.
  intros HB. induction 1 as [|a l Ha _ IH]; [done|].
  unfold sumAreaSizes, exactAreaSum in *. cbn [foldr].
  destruct IH as [-> IH].
  rewrite mul32_id by (unfold is_int, INT_MIN, INT_MAX in *; lia).
  split; [done|lia].
Qed.

Lemma sumSizes_exact (B : Z) (imgs : list COutImage.t) :
  B <= INT_MAX → 0 <= B →
  Forall (λ im, 0 <= COutImage.Width im * COutImage.Height im <= B ∧
                COutImage.Size im
                = mul32 (COutImage.Width im) (COutImage.Height im)) imgs →
  sumSizes imgs = exactImageSum imgs ∧
  0 <= exactImageSum imgs <= Z.of_nat (length imgs) * B.
Proof.
  intros HB HB0. induction 1 as [|im imgs [Him Hsz] _ IH]; [done|].
  unfold sumSizes, exactImageSum in *. cbn [foldr length].
  destruct IH as [-> IH]. rewrite Hsz.
  rewrite mul32_id by (unfold is_int, INT_MIN, INT_MAX in *; lia).
  split; [done|lia].
Qed.

Lemma quality_range (S T : Z) :
  0 < S → S <= T →
  ∃ q, fitQuality S T = Finite q ∧ (0 < q)%Q ∧ (q <= 100)%Q.
Proof.
  intros HS HT. unfold fitQuality.
  destruct (T =? 0) eqn:E; [apply Z.eqb_eq in E; lia|].
  eexists. split; [reflexivity|].
  destruct T as [|t|t]; try lia.
  unfold Qdiv, Qinv, Qmult, Qlt, Qle, inject_Z. cbn [Qnum Qden].
  split; lia.
Qed.

Section AtMost100.
Variable qsort :
  (CFitArea.t → CFitArea.t → Z) → list CFitArea.t → list CFitArea.t.
Hypothesis qsort_Permutation : ∀ cmp l, qsort cmp l ≡ₚ l.

(** When the areas and the two limits lie within [BW] and [BH], and as
    many images of [BW] by [BH] as the call can use do not exceed the
    range of [int] in their summed size, a successful call with two or
    more areas reports the quality over the exact sums: the summed size
    of the areas is at most the summed size of the output images, since
    the areas lie in the images without overlap, so that the quality is
    at most 100, and above 0 when some area has a size. *)
Theorem fitAreas_quality_at_most_100 (BW BH : Z) (fuel : nat)
    (AreasToFit : list CFitArea.t) (OutImages : list COutImage.t)
    (aMaxOutImageWidth aMaxOutImageHeight aMaxOutImageSize : Z)
    (MinOutImageCount FitCallsLimit : Z) (FitQuality : double)
    (r : FitResult.t) :
  (2 <= length AreasToFit)%nat →
  BW <= INT_MAX → BH <= INT_MAX →
  Forall (λ a, 0 <= CFitArea.Width a <= BW ∧
               0 <= CFitArea.Height a <= BH) AreasToFit →
  0 <= aMaxOutImageWidth <= BW →
  0 <= aMaxOutImageHeight <= BH →
  0 <= MinOutImageCount →
  (MinOutImageCount + 1 + Z.of_nat (length AreasToFit)) * (BW * BH)
  <= INT_MAX →
  MinOutImageCount + 1 + Z.of_nat (length AreasToFit) <= INT_MAX →
  fitAreas qsort fuel AreasToFit OutImages aMaxOutImageWidth
    aMaxOutImageHeight aMaxOutImageSize MinOutImageCount FitCallsLimit
    FitQuality = Some r →
  FitResult.ok r = true →
  0 <= exactAreaSum AreasToFit <= exactImageSum (FitResult.OutImages r) ∧
  exactImageSum (FitResult.OutImages r) <= INT_MAX ∧
  FitResult.FitQuality r
  = fitQuality (exactAreaSum AreasToFit)
      (exactImageSum (FitResult.OutImages r)) ∧
  (0 < exactAreaSum AreasToFit →
   ∃ q, FitResult.FitQuality r = Finite q ∧ (0 < q)%Q ∧ (q <= 100)%Q).
Proof.
  intros Hlen HBW HBH Hareas HW HH Hm Hroom Hcount Hfit Hok.
  destruct (fitAreas_Solution_within qsort qsort_Permutation BW BH fuel
              AreasToFit OutImages aMaxOutImageWidth aMaxOutImageHeight
              aMaxOutImageSize MinOutImageCount FitCallsLimit FitQuality r
              HBW HBH Hlen Hareas HW HH Hm Hcount Hfit Hok)
    as (f' & best & Hrun & HSol & Hperm & Hq).
  set (f0 := pushStack _) in Hrun.
  set (imgs := FitResult.OutImages r) in *.
  pose proof (qsort_Permutation FitAreasInSortFn AreasToFit) as Hsorted.
  assert (0 <= BW * BH <= INT_MAX) as HB.
  { split; [nia|]. nia. }
  (* what the search was given *)
  assert (areaDims <$> best ≡ₚ areaDims <$> AreasToFit) as Hdims.
  { rewrite (sol_same _ _ _ _ _ _ HSol).
    pose proof (given_run _ _ _ Hrun) as Hg. unfold given in Hg.
    cbn [Config.fitter] in Hg. rewrite Hg. unfold f0.
    change (CAreaFitter.Areas (pushStack ?g)) with (CAreaFitter.Areas g).
    rewrite (proj1 (newAreaFitter_given _ _ _ _ _ _)).
    by rewrite Hsorted. }
  assert (length (CAreaFitter.Areas f') = length AreasToFit) as HlenA.
  { rewrite <- (length_fmap areaDims (CAreaFitter.Areas f')).
    rewrite <- (sol_same _ _ _ _ _ _ HSol), Hdims. apply length_fmap. }
  assert (baseCells f' = S (Z.to_nat MinOutImageCount)) as Hbase.
  { pose proof (baseCells_run _ _ _ Hrun) as Hb. cbn [Config.fitter] in Hb.
    rewrite Hb. apply baseCells_start. }
  assert (Forall (λ d, 0 <= d.1.2 <= BW ∧ 0 <= d.2 <= BH)
            (areaDims <$> best)) as Hbd.
  { rewrite Hdims. apply Forall_fmap. eapply Forall_impl; [exact Hareas|].
    by intros a. }
  apply Forall_fmap in Hbd.
  (* the images *)
  pose proof (sol_images _ _ _ _ _ _ HSol) as Himgs.
  destruct (sumSizes_exact (BW * BH) imgs) as (Hsum & Hs0 & Hs1);
    [lia|lia| |].
  { eapply Forall_impl; [exact Himgs|].
    intros im ((? & ?) & (? & ?) & ?). split; [nia|done]. }
  pose proof (sol_count _ _ _ _ _ _ HSol) as Hcnt.
  fold (baseCells f') in Hcnt. rewrite Hbase, HlenA in Hcnt.
  assert (exactImageSum imgs <= INT_MAX) as Hfits by nia.
  (* the areas *)
  destruct (sumAreaSizes_exact (BW * BH) AreasToFit) as (Hasum & Ha0);
    [lia| |].
  { eapply Forall_impl; [exact Hareas|]. intros a ((? & ?) & (? & ?)). nia. }
  assert (exactAreaSum AreasToFit <= exactImageSum imgs) as Hle.
  { rewrite exactAreaSum_dims, <- (dimsSum_Permutation _ _ Hdims),
      <- exactAreaSum_dims.
    apply fit_within_images.
    - apply (sol_contained _ _ _ _ _ _ HSol).
    - apply (sol_sep _ _ _ _ _ _ HSol).
    - eapply Forall_impl; [exact Hbd|]. intros a. cbn. lia.
    - eapply Forall_impl; [exact Himgs|]. intros im (? & ? & _). lia. }
  assert (FitResult.FitQuality r
          = fitQuality (exactAreaSum AreasToFit) (exactImageSum imgs)) as HQ.
  { rewrite Hq. f_equal.
    - unfold sizeLoop. rewrite sizeLoop_spec. cbn [snd].
      destruct (qsort FitAreasInSortFn AreasToFit) as [|a l] eqn:E.
      + apply Permutation_length in Hsorted. cbn in Hsorted. lia.
      + rewrite Z.add_0_l, (sumAreaSizes_Permutation _ _ Hsorted), Hasum.
        apply wrap32_id. unfold is_int, INT_MIN, INT_MAX in *. lia.
    - rewrite (sol_size _ _ _ _ _ _ HSol), Hsum.
      apply wrap32_id. unfold is_int, INT_MIN, INT_MAX in *. lia. }
  split; [lia|]. split; [done|]. split; [done|].
  intros Hpos. rewrite HQ. by apply quality_range.
Qed.
End AtMost100.

(** The four areas of the example in images of at most 300 by 300: the
    quality is 30700 / 728, about 42. *)
Lemma fitAreas_quality_at_most_100_witness :
  ∃ r q,
    fitAreas insertionSort 100000 exampleAreas [] 300 300 90000 1 10000 NaN
    = Some r ∧
    FitResult.ok r = true ∧
    FitResult.FitQuality r = Finite q ∧ (0 < q)%Q ∧ (q <= 100)%Q.
Proof.
  assert (∃ r,
    fitAreas insertionSort 100000 exampleAreas [] 300 300 90000 1 10000 NaN
    = Some r ∧ FitResult.ok r = true) as (r & Hfit & Hok).
  { eexists. split; [vm_compute; reflexivity|reflexivity]. }
  destruct (fitAreas_quality_at_most_100 insertionSort
              insertionSort_Permutation 300 300 100000 exampleAreas [] 300
              300 90000 1 10000 NaN r) as (_ & _ & _ & Hq);
    [cbn; lia|unfold INT_MAX; lia|unfold INT_MAX; lia| |lia|lia|lia
     |unfold INT_MAX; cbn; lia|unfold INT_MAX; cbn; lia|exact Hfit|exact Hok
     |].
  { unfold exampleAreas, mkArea. repeat constructor; cbn; lia. }
  destruct Hq as (q & HQ & Hq0 & Hq100); [vm_compute; reflexivity|].
  exists r, q. split; [exact Hfit|]. split; [exact Hok|].
  split; [exact HQ|]. split; [exact Hq0|exact Hq100].
Defined.

(** ** The number of output images of a fit *)

Lemma bestOK_stored m f f' : stored f' = stored f → bestOK m f → bestOK m f'.
Proof. unfold stored, bestOK. cbv zeta. by intros [= -> _ _ ->]. Qed.

Lemma stored_images f f' :
  stored f' = stored f →
  CGlobals.BestOutImages (CAreaFitter.Globals f')
  = CGlobals.BestOutImages (CAreaFitter.Globals f).
Proof. unfold stored. cbv zeta. by intros [= _ _ _ ->]. Qed.

(** *** Where a new best fit gets its images from *)

Lemma placeArea_saved f A O cfg' :
  placeArea f A O = Some cfg' →
  stored (Config.fitter cfg') = stored f ∨
  length (CGlobals.BestOutImages (CAreaFitter.Globals (Config.fitter cfg')))
  = Z.to_nat (CFitData.OutImageCount (CAreaFitter.fd f)).
Proof.
  unfold placeArea. cbv zeta. intros H.
  set (f1 := upd_area _ _ f) in *.
  assert (stored f1 = stored f) as E1 by apply stored_upd_area.
  destruct (CFitArea.Next _) as [first|].
  - apply bind_Some in H as ([mw mh] & _ & H).
    apply bind_Some in H as (f4 & H4 & H). injection H as <-.
    left. cbn [Config.fitter].
    change (stored (pushStack ?g)) with (stored g).
    rewrite stored_upd_s.
    apply stored_configuration1 in H4. rewrite H4.
    by rewrite stored_upd_outArea, stored_upd_s.
  - injection H as <-.
    pose proof (stored_restoreOutImage (saveBestFit f1) A O) as E2.
    assert (stored (saveBestFit f1) = stored f1 ∨
            length (CGlobals.BestOutImages
                      (CAreaFitter.Globals (saveBestFit f1)))
            = Z.to_nat (CFitData.OutImageCount (CAreaFitter.fd f1)))
      as [E3|E3].
    { unfold saveBestFit. cbv zeta. destruct (_ && _); [right|by left].
      cbn. by rewrite length_fmap, length_seq. }
    + left. by rewrite E2, E3.
    + right. rewrite (stored_images _ _ E2), E3. unfold f1.
      by rewrite fd_upd_area.
Qed.

Lemma tryOutArea_saved f A O cfg' :
  tryOutArea f A O = Some cfg' →
  stored (Config.fitter cfg') = stored f ∨
  length (CGlobals.BestOutImages (CAreaFitter.Globals (Config.fitter cfg')))
  = Z.to_nat (CFitData.OutImageCount (CAreaFitter.fd f)).
Proof.
  unfold tryOutArea. cbv zeta. intros H.
  destruct (_ || _); [injection H as <-; by left|].
  destruct (CheckFit.result _).
  - apply placeArea_saved in H as [H|H]; [by left|by right].
  - injection H as <-. left. by rewrite stored_regionTail.
Qed.

Lemma atRegionLoop_saved f A O cfg' :
  atRegionLoop f A O = Some cfg' →
  stored (Config.fitter cfg') = stored f ∨
  length (CGlobals.BestOutImages (CAreaFitter.Globals (Config.fitter cfg')))
  = Z.to_nat (CFitData.OutImageCount (CAreaFitter.fd f)) ∨
  length (CGlobals.BestOutImages (CAreaFitter.Globals (Config.fitter cfg')))
  = Z.to_nat (add32 (CFitData.OutImageCount (CAreaFitter.fd f)) 1).
Proof.
  unfold atRegionLoop. intros H. destruct O as [h|].
  - apply tryOutArea_saved in H as [H|H]; [by left|right; by left].
  - destruct (0 <? _);
      [injection H as <-; left; apply stored_afterRegionLoop|].
    destruct (_ =? _);
      [injection H as <-; left; apply stored_afterRegionLoop|].
    cbv zeta in H. apply bind_Some in H as ([f2 prev] & Hins & H).
    assert (CAreaFitter.fd f2
            = CAreaFitter.fd
                (upd_outArea
                   (λ o, COutArea.mk (COutArea.OutImage o) 0 0
                      (if CAreaFitter.MaxOutImageWidth f <?
                          CFitArea.Width (areaOf f A)
                       then CFitArea.Width (areaOf f A)
                       else CAreaFitter.MaxOutImageWidth f)
                      (if CAreaFitter.MaxOutImageHeight f <?
                          CFitArea.Height (areaOf f A)
                       then CFitArea.Height (areaOf f A)
                       else CAreaFitter.MaxOutImageHeight f)
                      (COutArea.Next o)) (NewPtr (depth f) 2) f) ∨
            CFitData.OutImageCount (CAreaFitter.fd f2)
            = CFitData.OutImageCount (CAreaFitter.fd f)) as Hcnt.
    { right. unfold insertOutArea in Hins.
      destruct (insertOutArea_scan _ _ _ _ _) as [q|]; [|done].
      cbn in Hins. injection Hins as <- _.
      by rewrite !OutImageCount_upd_outArea. }
    assert (CFitData.OutImageCount (CAreaFitter.fd f2)
            = CFitData.OutImageCount (CAreaFitter.fd f)) as Hc2.
    { destruct Hcnt as [->|]; [|done]. by rewrite OutImageCount_upd_outArea. }
    apply stored_insertOutArea in Hins as Hst.
    apply tryOutArea_saved in H as [H|H].
    + left. rewrite H.
      rewrite stored_upd_s, stored_upd_fd.
      change (stored (set_outImage ?i ?v ?g)) with (stored g).
      rewrite stored_upd_fd, stored_upd_outArea, stored_upd_s, Hst.
      apply stored_upd_outArea.
    + right. right. rewrite H. f_equal. cbn. by rewrite Hc2.
Qed.

Section From.
Context (BW BH : Z) (m : nat).

Lemma InvFrom_Inv cfg : InvFrom BW BH m cfg → Inv BW BH cfg.
Proof.
  intros (HS & HGl & _ & [Hret|(Gs & G & HGh & _)]).
  - split; [done|]. split; [done|by left].
  - split; [done|]. split; [done|]. right. by exists Gs, G.
Qed.

Lemma Kept_From cfg' f Gs G :
  Shape BW BH f →
  CAreaFitter.Depth f = Z.of_nat (length Gs) →
  (length Gs < length (CAreaFitter.Stack f))%nat →
  Below BW BH f Gs G → Geo BW BH f (length Gs) G →
  Kept BW BH (length Gs) G f cfg' →
  Forall (λ G', (m <= length (gImgs G'))%nat) (G :: Gs) →
  bestOK m (Config.fitter cfg') →
  InvFrom BW BH m cfg'.
Proof.
  intros HS HD Hlen HB HG [Hst Hd Hgl Htop] Hm Hbest.
  split; [by eapply Shape_stable|]. split; [done|]. split; [done|]. right.
  exists Gs, G. split; [|done].
  split; [congruence|]. split.
  { by rewrite (st_stack _ _ _ Hst). }
  split; [by eapply Below_stable|]. split; [|done].
  by eapply Geo_stable.
Qed.

Lemma Pushed_From cfg' f Gs G :
  Shape BW BH f →
  CAreaFitter.Depth f = Z.of_nat (length Gs) →
  (length Gs < length (CAreaFitter.Stack f))%nat →
  Below BW BH f Gs G → Geo BW BH f (length Gs) G →
  Pushed BW BH (length Gs) G f cfg' →
  Forall (λ G', (m <= length (gImgs G'))%nat) (G :: Gs) →
  bestOK m (Config.fitter cfg') →
  InvFrom BW BH m cfg'.
Proof.
  intros HS HD Hlen HB HG [G' t Hst Hd Hroom Hgl Hsu Hgeo Htop] Hm Hbest.
  split; [by eapply Shape_stable|]. split; [done|]. split; [done|]. right.
  exists (G :: Gs), G'. split.
  - unfold Ghosts. cbn [length Below]. split; [lia|]. split.
    { by rewrite (st_stack _ _ _ Hst). }
    split; [|by split].
    split; [by exists t|]. split; [by eapply Geo_stable|].
    by eapply Below_stable.
  - constructor; [|done].
    pose proof (Grown_length _ _ _ _ _ _ (su_grown _ _ _ _ _ _ _ Hsu)) as Hl.
    rewrite Hl.
    pose proof (length_imagesWith
                  (CFitAreaStackItem.WasOutImageAdded
                     (item (Config.fitter cfg') (length Gs))) G) as Hw.
    apply Forall_cons in Hm as [Hm _]. lia.
Qed.

(** After the outer loop the item below goes on with the state it
    found. *)
Lemma leaveFrame_From f A O :
  InvFrom BW BH m (Config.mk f A O AtCodeLoc1) →
  InvFrom BW BH m (leaveFrame f A O).
Proof.
  intros (HS & HGl & Hbest & [Hloc|(Gs & G & HGh & Hm)]);
    [discriminate Hloc|].
  destruct HGh as (HD & Hlen & HB & HG & Htop).
  cbn [Config.fitter] in *. unfold leaveFrame.
  destruct (0 <? CAreaFitter.Depth f) eqn:E.
  - destruct Gs as [|G1 Gs]; [cbn in HD; lia|].
    cbn [length Below] in *.
    destruct HB as ((t & HSu) & HG1 & HB).
    destruct Htop as (Ua & Ub & Hsplit & HV & _).
    set (f1 := CAreaFitter.set_Depth _ f).
    assert (depth f1 = length Gs) as HD1.
    { unfold depth, f1. fcbn. lia. }
    assert (∀ e, Stable e f f1) as Hst
      by (intros e; apply Stable_set_Depth).
    to_item. rewrite HD1.
    apply (Susp_stable BW BH (S (length Gs)) _ f f1) in HSu;
      [|done|lia].
    rewrite (fa_area _ _ _ _ (su_area _ _ _ _ _ _ _ HSu)).
    rewrite (su_out _ _ _ _ _ _ _ HSu).
    split; [by apply (Shape_stable BW BH 0 f)|]. split.
    { by apply (GlobalsOK_stable BW BH 0 f). }
    split; [done|].
    right. exists Gs, G1. cbn [Config.fitter].
    split; [|by apply Forall_cons in Hm as [_ Hm]].
    unfold Ghosts. cbn [Config.fitter].
    split; [unfold f1; fcbn; lia|]. split.
    { rewrite (st_stack _ _ _ (Hst 0%nat)). lia. }
    split; [by eapply Below_stable|].
    split; [by apply (Geo_stable BW BH (length Gs) _ f)|].
    assert (Top BW BH
              (Config.mk f1 (Some (tA t)) (Some (tH t)) AtCodeLoc2) G1)
      as HT.
    { unfold Top. cbn [Config.fitter Config.loc]. rewrite HD1.
      exists G, t. split; [done|]. split.
      { by apply (Geo_stable BW BH (S (length Gs)) _ f). }
      split; [|done]. destruct HV. by split. }
    by destruct (_ =? 2).
  - destruct (0 <? CAreaFitter.FitCallsLeft f).
    + split; [|split; [|split; [done|by left]]].
      * apply (Shape_stable BW BH 0 f); [|done].
        eapply (Stable_trans 0); [apply Stable_set_Globals|].
        apply Stable_set_FitCallsLeft.
      * by apply GlobalsOK_budget.
    + split; [done|]. split; [done|]. split; [done|by left].
Qed.

(** The head of the outer loop. *)
Lemma atCodeLoc1_From f A O :
  InvFrom BW BH m (Config.mk f A O AtCodeLoc1) →
  InvFrom BW BH m (atCodeLoc1 f A O).
Proof.
  intros HI.
  pose proof HI as (HS & HGl & Hbest & [Hloc|(Gs & G & HGh & Hm)]);
    [discriminate Hloc|].
  destruct HGh as (HD & Hlen & HB & HG & Htop).
  cbn [Config.fitter] in *. unfold Top in Htop.
  cbn [Config.fitter Config.loc] in Htop.
  destruct Htop as (Ua & Ub & Hsplit & HV & Harea & Hprev).
  assert (depth f = length Gs) as Hd by (unfold depth; lia).
  rewrite Hd in *.
  unfold atCodeLoc1. to_item. rewrite Hd, Harea.
  destruct Ub as [|a Ub]; cbn [head]; [by apply leaveFrame_From|].
  destruct (worseThanBest f); [by apply leaveFrame_From|].
  assert (∀ f', Kept BW BH (length Gs) G f (startArea f') →
                stored f' = stored f →
                InvFrom BW BH m (startArea f')) as Hfin.
  { intros f' HK Hst. apply (Kept_From _ f Gs G); try done.
    apply (bestOK_stored m f); [|done].
    by rewrite stored_startArea. }
  destruct (CAreaFitter.FitCallsLeft f =? 0).
  - destruct (_ || _).
    + apply leaveFrame_From.
      set (f' := upd_fd _ f).
      assert (Stable (length Gs) f f') as Hst by (by apply Stable_same).
      apply (Kept_From _ f Gs G); try done.
      split; try done.
      * by apply GlobalsOK_set_Best.
      * unfold Top. cbn [Config.fitter Config.loc].
        exists Ua, (a :: Ub).
        change (depth f') with (depth f). rewrite Hd.
        change (item f' (length Gs)) with (item f (length Gs)).
        split; [done|]. split; [|done]. destruct HV. by split.
    + destruct (_ =? 0).
      { split; [done|]. split; [done|]. split; [done|by left]. }
      assert (∀ v w,
        Kept BW BH (length Gs) G f
          (startArea
             (CAreaFitter.set_Globals
                (CGlobals.set_FitCallsLeft v (CAreaFitter.Globals f))
                (CAreaFitter.set_FitCallsLeft w f)))) as Hrefill.
      { intros v w.
        set (f' := CAreaFitter.set_Globals _ _).
        assert (Stable (length Gs) f f') as Hst by (by apply Stable_same).
        apply (Kept_trans BW BH f f'); [done|done|].
        apply (startArea_kept _ _ f' G (length Gs) Ua a Ub); try done.
        - by eapply Shape_stable.
        - by apply GlobalsOK_budget.
        - by eapply Geo_stable.
        - destruct HV. by split. }
      destruct (512 <=? _); (apply Hfin; [apply Hrefill|done]).
  - apply Hfin; [|done].
    by apply (startArea_kept _ _ f G (length Gs) Ua a Ub).
Qed.

(** Every step keeps it. *)
Lemma step_From cfg cfg' :
  InvFrom BW BH m cfg → step cfg = Some cfg' → InvFrom BW BH m cfg'.
Proof.
  destruct cfg as [f A O loc]. intros HI Hstep.
  unfold step in Hstep. cbn [Config.fitter Config.Area Config.OutArea
                              Config.loc] in Hstep.
  destruct loc.
  - injection Hstep as <-. by apply atCodeLoc1_From.
  - destruct HI as (HS & HGl & Hbest & [Hloc|(Gs & G & HGh & Hm)]);
      [discriminate Hloc|].
    destruct HGh as (HD & Hlen & HB & HG & Htop).
    cbn [Config.fitter] in *. unfold Top in Htop.
    cbn [Config.fitter Config.loc Config.Area Config.OutArea] in Htop.
    assert (depth f = length Gs) as Hd by (unfold depth; lia).
    rewrite Hd in Htop.
    destruct Htop as (a & Ua & Ub & La & Lb & -> & HFA & HV & HL & -> & Hp).
    assert (bestOK m (Config.fitter cfg')) as Hbest'.
    { pose proof (view_count _ _ _ _ _ HV) as Hcnt.
      pose proof (geo_count _ _ _ _ _ HG) as Hgc.
      pose proof (sh_count _ _ _ HS) as Hsc.
      pose proof (sh_stack _ _ _ HS) as Hss.
      apply Forall_cons in Hm as [Hm _].
      destruct (atRegionLoop_saved _ _ _ _ Hstep) as [E|[E|E]].
      - by apply (bestOK_stored m f).
      - right. rewrite E, Hcnt. lia.
      - right. rewrite E, Hcnt.
        rewrite add32_id by (unfold is_int, INT_MIN, INT_MAX in *; lia).
        lia. }
    destruct (atRegionLoop_step BW BH f G (length Gs) a Ua Ub La Lb cfg')
      as [HK|HP]; try done.
    + by apply (Kept_From cfg' f Gs G).
    + by apply (Pushed_From cfg' f Gs G).
  - destruct HI as (HS & HGl & Hbest & [Hloc|(Gs & G & HGh & Hm)]);
      [discriminate Hloc|].
    destruct HGh as (HD & Hlen & HB & HG & Htop).
    cbn [Config.fitter] in *. unfold Top in Htop.
    cbn [Config.fitter Config.loc Config.Area Config.OutArea] in Htop.
    assert (depth f = length Gs) as Hd by (unfold depth; lia).
    rewrite Hd in Htop.
    destruct Htop as (Gc & t & HSu & HGc & HV & -> & ->).
    assert (bestOK m (Config.fitter cfg')) as Hbest'.
    { apply (bestOK_stored m f); [|done]. by eapply stored_atCodeLoc2. }
    destruct (atCodeLoc2_step BW BH f G Gc (length Gs) t cfg')
      as [HK|HP]; try done.
    + by apply (Kept_From cfg' f Gs G).
    + by apply (Pushed_From cfg' f Gs G).
  - destruct HI as (HS & HGl & Hbest & [Hloc|(Gs & G & HGh & Hm)]);
      [discriminate Hloc|].
    destruct HGh as (HD & Hlen & HB & HG & Htop).
    cbn [Config.fitter] in *. unfold Top in Htop.
    cbn [Config.fitter Config.loc Config.Area Config.OutArea] in Htop.
    assert (depth f = length Gs) as Hd by (unfold depth; lia).
    rewrite Hd in Htop.
    destruct Htop as (Gc & t & HSu & HGc & HV & -> & ->).
    apply (Kept_From cfg' f Gs G); try done.
    + by apply (atCodeLoc3_kept BW BH f G Gc (length Gs) t cfg').
    + apply (bestOK_stored m f); [|done]. by eapply stored_atCodeLoc3.
  - by injection Hstep as <-.
Qed.

Lemma run_From fuel cfg f' :
  InvFrom BW BH m cfg → run fuel cfg = Some f' → bestOK m f'.
Proof.
  revert cfg. induction fuel as [|fuel IH]; intros cfg HI Hrun.
  - cbn in Hrun. destruct (Config.loc cfg); try done.
    injection Hrun as <-. by destruct HI as (? & ? & ? & _).
  - cbn in Hrun.
    assert (Config.loc cfg = AtReturn ∨
            ∃ cfg', step cfg = Some cfg' ∧ run fuel cfg' = Some f')
      as [Hret|(cfg' & Hstep & Hrest)].
    { destruct (Config.loc cfg); try (by left); right;
        destruct (step cfg) as [cfg'|]; try done; by exists cfg'. }
    + rewrite Hret in Hrun. injection Hrun as <-.
      by destruct HI as (? & ? & ? & _).
    + apply (IH cfg'); [|done]. by eapply step_From.
Qed.
End From.

(** The search starts with [MinOutImageCount] output images. *)
Lemma start_From (BW BH MaxW MaxH MaxS : Z) (g : CGlobals.t)
    (areas : list CFitArea.t) (MinOutImageCount : Z) :
  BW <= INT_MAX → BH <= INT_MAX →
  (1 <= length areas)%nat →
  Forall (λ a, 0 <= CFitArea.Width a <= BW ∧
               0 <= CFitArea.Height a <= BH) areas →
  0 <= MaxW <= BW → 0 <= MaxH <= BH →
  0 <= MinOutImageCount →
  MinOutImageCount + 1 + Z.of_nat (length areas) <= INT_MAX →
  CGlobals.BestOutSize g = 2147483647 →
  InvFrom BW BH (Z.to_nat MinOutImageCount)
    (Config.mk
       (pushStack
          (newAreaFitter MaxW MaxH MaxS g areas
             (initFitData MaxW MaxH MinOutImageCount)))
       None None AtCodeLoc1).
Proof.
  intros HBW HBH Hn Hareas HW HH Hm Hcount Hg.
  destruct (start_Inv_within BW BH MaxW MaxH MaxS g areas MinOutImageCount
              HBW HBH Hn Hareas HW HH Hm Hcount Hg)
    as (HS & HGl & [Hloc|(Gs & G & HD & Hlen & HB & HG & Htop)]);
    [discriminate Hloc|].
  destruct (newAreaFitter_spec MaxW MaxH MaxS g areas
              (initFitData MaxW MaxH MinOutImageCount))
    as (_ & _ & _ & _ & _ & Hfd & Hgl & Hdepth & _).
  set (f := newAreaFitter _ _ _ _ _ _) in *.
  cbn [Config.fitter] in *.
  split; [done|]. split; [done|]. split.
  { left. cbn [Config.fitter].
    change (CAreaFitter.Globals (pushStack f)) with (CAreaFitter.Globals f).
    by rewrite Hgl. }
  right. exists Gs, G. split; [done|].
  assert (Gs = []) as ->.
  { unfold pushStack in HD. fcbn_in HD. rewrite Hdepth in HD.
    destruct Gs; [done|]. cbn [length] in HD. lia. }
  constructor; [|constructor].
  unfold Top in Htop. cbn [Config.fitter Config.loc] in Htop.
  destruct Htop as (Ua & Ub & _ & HV & _).
  pose proof (view_count _ _ _ _ _ HV) as Hc.
  change (CAreaFitter.fd (pushStack f)) with (CAreaFitter.fd f) in Hc.
  rewrite Hfd in Hc. cbn [initFitData CFitData.OutImageCount] in Hc.
  unfold initFitData in Hc. cbn [CFitData.OutImageCount] in Hc. lia.
Qed.

Section Count.
Variable qsort :
  (CFitArea.t → CFitArea.t → Z) → list CFitArea.t → list CFitArea.t.
Hypothesis qsort_Permutation : ∀ cmp l, qsort cmp l ≡ₚ l.

(** A successful call with two or more areas hands back
    [MinOutImageCount] output images or more, and no more than
    [MinOutImageCount] + 1 + the number of areas. *)
Theorem fitAreas_image_count (fuel : nat)
    (AreasToFit : list CFitArea.t) (OutImages : list COutImage.t)
    (aMaxOutImageWidth aMaxOutImageHeight aMaxOutImageSize : Z)
    (MinOutImageCount FitCallsLimit : Z) (FitQuality : double)
    (r : FitResult.t) :
  (2 <= length AreasToFit)%nat →
  Forall (λ a, 0 <= CFitArea.Width a <= INT_MAX ∧
               0 <= CFitArea.Height a <= INT_MAX) AreasToFit →
  0 <= aMaxOutImageWidth <= INT_MAX →
  0 <= aMaxOutImageHeight <= INT_MAX →
  0 <= MinOutImageCount →
  MinOutImageCount + 1 + Z.of_nat (length AreasToFit) <= INT_MAX →
  fitAreas qsort fuel AreasToFit OutImages aMaxOutImageWidth
    aMaxOutImageHeight aMaxOutImageSize MinOutImageCount FitCallsLimit
    FitQuality = Some r →
  FitResult.ok r = true →
  MinOutImageCount <= Z.of_nat (length (FitResult.OutImages r))
  <= MinOutImageCount + 1 + Z.of_nat (length AreasToFit).
Proof.
  intros Hlen Hareas HW HH Hm Hcount Hfit Hok.
  destruct (fitAreas_Solution qsort qsort_Permutation fuel AreasToFit
              OutImages aMaxOutImageWidth aMaxOutImageHeight
              aMaxOutImageSize MinOutImageCount FitCallsLimit FitQuality r
              Hlen Hareas HW HH Hm Hcount Hfit Hok)
    as (f' & best & Hrun & HSol & Hperm & _).
  pose proof (qsort_Permutation FitAreasInSortFn AreasToFit) as Hsorted.
  split.
  - (* at least *)
    unfold fitUnfittedAreas in Hrun.
    assert (bestOK (Z.to_nat MinOutImageCount) f') as Hbest.
    { eapply (run_From INT_MAX INT_MAX); [|exact Hrun].
      apply start_From;
        [unfold INT_MAX; lia|unfold INT_MAX; lia|rewrite Hsorted; lia
        |by rewrite Hsorted|done|done|done|by rewrite Hsorted|done]. }
    unfold fitAreas in Hfit.
    destruct (length AreasToFit <? 2)%nat eqn:E;
      [apply Nat.ltb_lt in E; lia|]. clear E.
    destruct (sizeLoop _ _) as [M MinOutSize] eqn:Hsz. cbn [fst] in Hrun.
    unfold fitUnfittedAreas in Hfit. rewrite Hrun in Hfit.
    cbn [mbind option_bind] in Hfit.
    destruct (_ =? 2147483647) eqn:Hb; injection Hfit as <-; [done|].
    apply Z.eqb_neq in Hb. cbn [FitResult.OutImages].
    destruct Hbest as [Hbest|Hbest]; [done|lia].
  - (* at most *)
    set (f0 := pushStack _) in Hrun.
    assert (length (CAreaFitter.Areas f') = length AreasToFit) as HlenA.
    { rewrite <- (length_fmap areaDims (CAreaFitter.Areas f')).
      pose proof (given_run _ _ _ Hrun) as Hg. unfold given in Hg.
      cbn [Config.fitter] in Hg. rewrite Hg. unfold f0.
      change (CAreaFitter.Areas (pushStack ?g)) with (CAreaFitter.Areas g).
      rewrite (proj1 (newAreaFitter_given _ _ _ _ _ _)).
      by rewrite length_fmap, Hsorted. }
    assert (baseCells f' = S (Z.to_nat MinOutImageCount)) as Hbase.
    { pose proof (baseCells_run _ _ _ Hrun) as Hb.
      cbn [Config.fitter] in Hb. rewrite Hb. apply baseCells_start. }
    pose proof (sol_count _ _ _ _ _ _ HSol) as Hcnt.
    fold (baseCells f') in Hcnt. rewrite Hbase, HlenA in Hcnt. lia.
Qed.
End Count.

(** The example with three output images asked for: one of the four
    areas in the first, two in the second, one in the third. *)
Lemma fitAreas_image_count_witness :
  ∃ r,
    fitAreas insertionSort 100000 exampleAreas [] 300 300 90000 3 10000 NaN
    = Some r ∧
    FitResult.ok r = true ∧
    3 <= Z.of_nat (length (FitResult.OutImages r)) <= 3 + 1 + 4.
Proof.
  assert (∃ r,
    fitAreas insertionSort 100000 exampleAreas [] 300 300 90000 3 10000 NaN
    = Some r ∧ FitResult.ok r = true) as (r & Hfit & Hok).
  { eexists. split; [vm_compute; reflexivity|reflexivity]. }
  exists r. split; [exact Hfit|]. split; [exact Hok|].
  apply (fitAreas_image_count insertionSort insertionSort_Permutation 100000
           exampleAreas [] 300 300 90000 3 10000 NaN r);
    [cbn; lia| |unfold INT_MAX; lia|unfold INT_MAX; lia|lia
     |unfold INT_MAX; cbn; lia|exact Hfit|exact Hok].
  unfold exampleAreas, mkArea, INT_MAX. repeat constructor; cbn; lia.
Defined.

(** * The search with every length multiplied by a constant *)

(** ** Arithmetic *)

Lemma ltb_scale k a b : 0 < k → (k * a <? k * b) = (a <? b).
Proof.
  intros Hk. destruct (Z.ltb_spec a b), (Z.ltb_spec (k * a) (k * b));
    try done; nia.
Qed.

Lemma leb_scale k a b : 0 < k → (k * a <=? k * b) = (a <=? b).
Proof.
  intros Hk. destruct (Z.leb_spec a b), (Z.leb_spec (k * a) (k * b));
    try done; nia.
Qed.

Lemma ltb_scale2 k a b : 0 < k → (k * k * a <? k * k * b) = (a <? b).
Proof. intros Hk. rewrite <- !Z.mul_assoc. by rewrite !ltb_scale. Qed.

Lemma leb_scale2 k a b : 0 < k → (k * k * a <=? k * k * b) = (a <=? b).
Proof. intros Hk. rewrite <- !Z.mul_assoc. by rewrite !leb_scale. Qed.

Lemma ltb_scale_0 k a : 0 < k → (k * a <? 0) = (a <? 0).
Proof.
  intros Hk. destruct (Z.ltb_spec a 0), (Z.ltb_spec (k * a) 0);
    try done; nia.
Qed.

Lemma is_int_unscale k v : 0 < k → is_int (k * v) → is_int v.
Proof. unfold is_int, INT_MIN, INT_MAX. intros Hk H. nia. Qed.

Lemma is_int_unscale2 k v : 0 < k → is_int (k * k * v) → is_int v.
Proof.
  intros Hk H. apply (is_int_unscale k); [done|].
  apply (is_int_unscale k); [done|]. by rewrite Z.mul_assoc.
Qed.

Lemma below_unscale2 k v :
  0 < k → k * k * v < 2147483646 → v < 2147483646.
Proof. intros Hk H. nia. Qed.

Lemma sub32_scale k a b :
  0 < k → is_int (k * (a - b)) → sub32 (k * a) (k * b) = k * sub32 a b.
Proof.
  intros Hk H. rewrite (sub32_id a b) by (by apply (is_int_unscale k)).
  rewrite sub32_id; [lia|]. by replace (k * a - k * b) with (k * (a - b)) by lia.
Qed.

Lemma add32_scale k a b :
  0 < k → is_int (k * (a + b)) → add32 (k * a) (k * b) = k * add32 a b.
Proof.
  intros Hk H. rewrite (add32_id a b) by (by apply (is_int_unscale k)).
  rewrite add32_id; [lia|]. by replace (k * a + k * b) with (k * (a + b)) by lia.
Qed.

Lemma scaleBest_real k v : v < 2147483646 → scaleBest k v = k * k * v.
Proof.
  intros H. unfold scaleBest. by destruct (Z.leb_spec 2147483646 v); [lia|].
Qed.

Lemma scaleBest_none k v : 2147483646 <= v → scaleBest k v = v.
Proof.
  intros H. unfold scaleBest. by destruct (Z.leb_spec 2147483646 v); [|lia].
Qed.

(** A size against a best size. *)
Lemma leb_scaleBest k b v :
  0 < k → k * k * v < 2147483646 →
  (scaleBest k b <=? k * k * v) = (b <=? v).
Proof.
  intros Hk Hv. pose proof (below_unscale2 k v Hk Hv).
  destruct (Z.le_gt_cases 2147483646 b).
  - rewrite scaleBest_none by done.
    destruct (Z.leb_spec b (k * k * v)), (Z.leb_spec b v); try done; lia.
  - rewrite scaleBest_real by lia. by apply leb_scale2.
Qed.

Lemma ltb_scaleBest k b v :
  0 < k → k * k * v < 2147483646 →
  (k * k * v <? scaleBest k b) = (v <? b).
Proof.
  intros Hk Hv. rewrite !Z.ltb_antisym. by rewrite leb_scaleBest.
Qed.

(** Two best sizes. *)
Lemma ltb_scaleBest2 k a b :
  0 < k → bestBelow k a → bestBelow k b →
  (scaleBest k a <? scaleBest k b) = (a <? b).
Proof.
  intros Hk Ha Hb.
  destruct (Z.le_gt_cases 2147483646 a) as [Ha'|Ha'];
    destruct (Z.le_gt_cases 2147483646 b) as [Hb'|Hb'];
    rewrite ?(scaleBest_none k a), ?(scaleBest_none k b),
      ?(scaleBest_real k a), ?(scaleBest_real k b) by lia;
    try done.
  - destruct Hb as [?|Hb]; [lia|].
    destruct (Z.ltb_spec a (k * k * b)), (Z.ltb_spec a b); try done; lia.
  - destruct Ha as [?|Ha]; [lia|].
    destruct (Z.ltb_spec (k * k * a) b), (Z.ltb_spec a b); try done; lia.
  - by apply ltb_scale2.
Qed.

(** ** The sizes stay below the values that stand for "no fit yet" *)

Ltac solve_keepsSize := intros ?; reflexivity.

Section Below.
Context (k : Z).
Hypothesis k_pos : 0 < k.

Lemma below_upd_s g f :
  (∀ it, CFitAreaStackItem.OutSizeSave (g it)
         = CFitAreaStackItem.OutSizeSave it) →
  sizesBelow k f → sizesBelow k (upd_s g f).
Proof.
  intros Hg (H1 & H2 & H3 & H4). split; [done|]. split; [|done].
  cbn. apply Forall_alter; [done|]. intros x _ Hx. by rewrite Hg.
Qed.

Lemma below_upd_outArea g p f :
  sizesBelow k f → sizesBelow k (upd_outArea g p f).
Proof.
  intros (H1 & H2 & H3 & H4). destruct p as [i|d j]; [done|].
  split; [done|]. split; [|done].
  cbn. apply Forall_alter; [done|]. by intros x _ Hx.
Qed.

Lemma below_upd_area g p f : sizesBelow k f → sizesBelow k (upd_area g p f).
Proof. by destruct p. Qed.

Lemma below_upd_fd g f :
  (∀ d, CFitData.OutSize (g d) = CFitData.OutSize d ∧
        CFitData.BestOutSize (g d) = CFitData.BestOutSize d) →
  sizesBelow k f → sizesBelow k (upd_fd g f).
Proof.
  intros Hg (H1 & H2 & H3 & H4). destruct (Hg (CAreaFitter.fd f)) as [E1 E2].
  split; [cbn; by rewrite E1|]. split; [done|].
  split; [cbn; by rewrite E2|done].
Qed.

Lemma below_set_outImage i v f :
  sizesBelow k f → sizesBelow k (set_outImage i v f).
Proof. done. Qed.

Lemma below_set_OutSize v f :
  k * k * v < 2147483646 → sizesBelow k f →
  sizesBelow k (upd_fd (CFitData.set_OutSize v) f).
Proof. intros Hv (H1 & H2 & H3 & H4). done. Qed.

Lemma below_set_Best v n f :
  bestBelow k v → sizesBelow k f →
  sizesBelow k (upd_fd (CFitData.set_Best v n) f).
Proof. intros Hv (H1 & H2 & H3 & H4). done. Qed.

Lemma below_save f :
  sizesBelow k f →
  k * k * CFitAreaStackItem.OutSizeSave (s f) < 2147483646.
Proof.
  intros (_ & H2 & _). unfold s. rewrite list_lookup_total_alt.
  destruct (_ !! _) as [it|] eqn:E; [|cbn; lia].
  by apply (Forall_lookup_1 _ _ _ _ H2 E).
Qed.

Lemma below_pushStack f : sizesBelow k f → sizesBelow k (pushStack f).
Proof.
  intros H. unfold pushStack. cbv zeta.
  apply below_upd_s; [solve_keepsSize|]. done.
Qed.

Lemma below_insertOutArea f p f' prev :
  insertOutArea f p = Some (f', prev) → sizesBelow k f → sizesBelow k f'.
Proof.
  unfold insertOutArea. intros H Hf.
  destruct (insertOutArea_scan _ _ _ _ _) as [q|]; [|done].
  cbn in H. injection H as <- _. by do 2 apply below_upd_outArea.
Qed.

Lemma below_removeNewOutAreas n f :
  sizesBelow k f → sizesBelow k (removeNewOutAreas n f).
Proof.
  revert f. induction n as [|n IH]; intros f Hf; [done|].
  cbn [removeNewOutAreas]. cbv zeta. apply IH.
  apply below_upd_outArea. by apply below_upd_s; [solve_keepsSize|].
Qed.

Lemma below_addNewOutArea0 img ax ay w h f f' :
  addNewOutArea0 img ax ay w h f = Some f' → sizesBelow k f →
  sizesBelow k f'.
Proof.
  unfold addNewOutArea0. intros H Hf.
  destruct (insertOutArea _ _) as [[f2 prev]|] eqn:E; [|done].
  cbn in H. injection H as <-. apply below_upd_s; [solve_keepsSize|].
  eapply below_insertOutArea; [exact E|]. by apply below_upd_outArea.
Qed.

Lemma below_addNewOutArea1 img ax ay w h f f' :
  addNewOutArea1 img ax ay w h f = Some f' → sizesBelow k f →
  sizesBelow k f'.
Proof.
  unfold addNewOutArea1. intros H Hf.
  destruct (insertOutArea _ _) as [[f2 prev]|] eqn:E; [|done].
  cbn in H. injection H as <-. apply below_upd_s; [solve_keepsSize|].
  eapply below_insertOutArea; [exact E|]. by apply below_upd_outArea.
Qed.

Lemma below_configuration1 f A O f' :
  configuration1 f A O = Some f' → sizesBelow k f → sizesBelow k f'.
Proof.
  unfold configuration1. intros H Hf.
  apply bind_Some in H as (f1 & H1 & H2).
  assert (sizesBelow k f1) as Hf1.
  { destruct (_ && _) in H1; [by eapply below_addNewOutArea0|].
    injection H1 as <-. by apply below_upd_s; [solve_keepsSize|]. }
  cbv zeta in H2.
  destruct (_ && _) in H2; [by eapply below_addNewOutArea1|].
  by injection H2 as <-.
Qed.

Lemma below_configuration2 f A O f' :
  configuration2 f A O = Some f' → sizesBelow k f → sizesBelow k f'.
Proof.
  unfold configuration2. intros H Hf.
  apply bind_Some in H as (f1 & H1 & H2).
  assert (sizesBelow k f1) as Hf1.
  { destruct (_ && _) in H1; [by eapply below_addNewOutArea0|].
    injection H1 as <-. by apply below_upd_s; [solve_keepsSize|]. }
  cbv zeta in H2.
  destruct (_ && _) in H2; [by eapply below_addNewOutArea1|].
  by injection H2 as <-.
Qed.

(** A fit that is stored has the size of the output images. *)
Lemma below_saveBestFit f : sizesBelow k f → sizesBelow k (saveBestFit f).
Proof.
  intros Hf. unfold saveBestFit. cbv zeta.
  destruct Hf as (H1 & H2 & H3 & H4).
  destruct (_ && _).
  - split; [done|]. split; [done|]. split; by right.
  - by split.
Qed.

Lemma below_afterRegionLoop f A O :
  sizesBelow k f → sizesBelow k (Config.fitter (afterRegionLoop f A O)).
Proof.
  intros Hf. unfold afterRegionLoop. cbn [Config.fitter].
  apply below_upd_s; [solve_keepsSize|]. by apply below_upd_area.
Qed.

Lemma below_regionTail f A O :
  sizesBelow k f → sizesBelow k (Config.fitter (regionTail f A O)).
Proof.
  intros Hf. unfold regionTail.
  destruct (CFitAreaStackItem.WasOutImageAdded _).
  - cbv zeta. apply below_afterRegionLoop.
    apply below_upd_fd; [done|]. by apply below_upd_outArea.
  - destruct (worseThanBest f); [by apply below_afterRegionLoop|].
    cbv zeta. cbn [Config.fitter].
    by apply below_upd_s; [solve_keepsSize|].
Qed.

(** The size that is put back is one that was there before. *)
Lemma below_restored f :
  sizesBelow k f →
  sizesBelow k
    (upd_fd (CFitData.set_OutSize (CFitAreaStackItem.OutSizeSave (s f)))
       (set_outImage (COutArea.OutImage (outAreaOf f None))
          (CFitAreaStackItem.OutImageSave (s f)) f)).
Proof. intros Hf. apply below_set_OutSize; [by apply below_save|done]. Qed.

Lemma below_restoreOutImage f A O :
  sizesBelow k f → sizesBelow k (Config.fitter (restoreOutImage f A O)).
Proof.
  intros Hf. unfold restoreOutImage.
  destruct (CFitAreaStackItem.DoOutImageRestore _);
    [|by apply below_regionTail].
  cbv zeta. apply below_regionTail.
  apply below_set_OutSize; [by apply below_save|done].
Qed.

Lemma below_restoreOutArea f A O :
  sizesBelow k f → sizesBelow k (Config.fitter (restoreOutArea f A O)).
Proof.
  intros Hf. unfold restoreOutArea. cbv zeta.
  apply below_restoreOutImage. by apply below_upd_outArea.
Qed.

Lemma below_placeArea f A O cfg' :
  placeArea f A O = Some cfg' → sizesBelow k f →
  sizesBelow k (Config.fitter cfg').
Proof.
  unfold placeArea. cbv zeta. intros H Hf.
  set (f1 := upd_area _ _ f) in *.
  assert (sizesBelow k f1) as Hf1 by by apply below_upd_area.
  destruct (CFitArea.Next _) as [first|].
  - apply bind_Some in H as ([mw mh] & _ & H).
    apply bind_Some in H as (f4 & H4 & H). injection H as <-.
    cbn [Config.fitter]. apply below_pushStack.
    apply below_upd_s; [solve_keepsSize|].
    eapply below_configuration1; [exact H4|].
    apply below_upd_outArea. by apply below_upd_s; [solve_keepsSize|].
  - injection H as <-.
    apply below_restoreOutImage. by apply below_saveBestFit.
Qed.

(** What the check hands back as the summed size and as the size to
    restore. *)
Lemma check_sizes M osz best nw nh img dr save ssave tried :
  let r :=
    checkAreaFitAgainstBest M osz best nw nh img dr save ssave tried in
  let W := Z.max nw (COutImage.Width img) in
  let H := Z.max nh (COutImage.Height img) in
  (CheckFit.OutSize r = osz ∨
   CheckFit.OutSize r
   = sub32 (add32 osz (mul32 W H)) (COutImage.Size img)) ∧
  (CheckFit.OutSizeSave r = ssave ∨ CheckFit.OutSizeSave r = osz).
Proof.
  cbv zeta. unfold checkAreaFitAgainstBest.
  destruct (Z.ltb_spec (COutImage.Width img) nw) as [Hw|Hw];
    destruct (Z.ltb_spec (COutImage.Height img) nh) as [Hh|Hh];
    rewrite ?(Z.max_l nw) by lia; rewrite ?(Z.max_r nw) by lia;
    rewrite ?(Z.max_l nh) by lia; rewrite ?(Z.max_r nh) by lia;
    repeat case_match; cbn; split; auto.
Qed.

(** The sizes of the check, exactly. *)
Lemma growthOK_exact f A O :
  growthOK k f A O →
  let a := areaOf f A in
  let o := outAreaOf f O in
  let im := outImage f (COutArea.OutImage o) in
  let W := Z.max (COutArea.x o + CFitArea.Width a) (COutImage.Width im) in
  let H := Z.max (COutArea.y o + CFitArea.Height a) (COutImage.Height im) in
  let S := CFitData.OutSize (CAreaFitter.fd f) in
  sub32 (add32 S (mul32 W H)) (COutImage.Size im)
  = S + W * H - COutImage.Size im.
Proof.
  intros (H1 & H2 & H3 & H4). cbv zeta.
  rewrite mul32_id by (by apply (is_int_unscale2 k)).
  rewrite add32_id by (by apply (is_int_unscale2 k)).
  by rewrite sub32_id by (by apply (is_int_unscale2 k)).
Qed.

Lemma cornerOK_exact f A O :
  cornerOK k f A O →
  add32 (COutArea.x (outAreaOf f O)) (CFitArea.Width (areaOf f A))
  = COutArea.x (outAreaOf f O) + CFitArea.Width (areaOf f A) ∧
  add32 (COutArea.y (outAreaOf f O)) (CFitArea.Height (areaOf f A))
  = COutArea.y (outAreaOf f O) + CFitArea.Height (areaOf f A).
Proof.
  intros [H1 H2]. split; apply add32_id; by apply (is_int_unscale k).
Qed.

Lemma below_commitFit f A O :
  cornerOK k f A O → growthOK k f A O →
  sizesBelow k f →
  sizesBelow k
    (commitFit (setRemain f A O) O (checkFit (setRemain f A O) A O)).
Proof.
  intros Hc Hg Hf.
  assert (sizesBelow k (setRemain f A O)) as Hf1.
  { unfold setRemain. cbv zeta. by apply below_upd_s; [solve_keepsSize|]. }
  pose proof (below_save _ Hf1) as Hsave.
  pose proof (growthOK_exact f A O Hg) as Hex. cbv zeta in Hex.
  destruct (cornerOK_exact f A O Hc) as [Hx Hy].
  unfold commitFit, checkFit in *. cbv zeta.
  rewrite !setRemain_outAreaOf, !setRemain_areaOf in *.
  change (CAreaFitter.fd (setRemain f A O)) with (CAreaFitter.fd f) in *.
  change (outImage (setRemain f A O)) with (outImage f) in *.
  change (CAreaFitter.MaxOutImageSize (setRemain f A O))
    with (CAreaFitter.MaxOutImageSize f).
  rewrite Hx, Hy.
  match goal with
  | |- context [checkAreaFitAgainstBest ?M ?a ?b ?w ?h ?im ?dr ?sv ?ss ?tr] =>
      destruct (check_sizes M a b w h im dr sv ss tr) as [Ho Hs];
      set (r := checkAreaFitAgainstBest M a b w h im dr sv ss tr) in *
  end.
  rewrite Hex in Ho.
  destruct Hf as (H1 & H2 & H3 & H4). destruct Hg as (_ & _ & _ & Hg4).
  assert (k * k * CheckFit.OutSize r < 2147483646) as Hro.
  { destruct Ho as [->| ->]; done. }
  assert (k * k * CheckFit.OutSizeSave r < 2147483646) as Hrs.
  { destruct Hs as [->| ->]; done. }
  split; [done|]. split; [|done].
  cbn. apply Forall_alter.
  - apply Forall_alter; [done|]. by intros x _ Hxx.
  - intros x _ _. done.
Qed.

Lemma below_tryOutArea P f A O cfg' :
  tryOK k P f A O → tryOutArea f A O = Some cfg' → sizesBelow k f →
  sizesBelow k (Config.fitter cfg').
Proof.
  unfold tryOK, tryOutArea. cbv zeta. intros [_ HOK] H Hf.
  assert (sizesBelow k (setRemain f A O)) as Hf1.
  { unfold setRemain. cbv zeta. by apply below_upd_s; [solve_keepsSize|]. }
  destruct (_ || _).
  - injection H as <-. cbn [Config.fitter].
    by apply below_upd_s; [solve_keepsSize|].
  - destruct (HOK eq_refl) as (Hc & Hg & _).
    pose proof (below_commitFit f A O Hc Hg Hf) as Hf3.
    destruct (CheckFit.result _).
    + by eapply below_placeArea.
    + injection H as <-. by apply below_regionTail.
Qed.

Lemma below_addOutImage f A f8 :
  addOutImage f A = Some f8 → sizesBelow k f → sizesBelow k f8.
Proof.
  unfold addOutImage. cbv zeta. intros H Hf.
  apply bind_Some in H as ([f2 prev] & Hins & H).
  apply (inj Some) in H. subst f8.
  assert (sizesBelow k f2) as Hf2.
  { eapply below_insertOutArea; [exact Hins|]. by apply below_upd_outArea. }
  set (f3 := upd_s (CFitAreaStackItem.set_PrevOutArea prev) f2).
  set (f4 := upd_outArea _ _ f3).
  assert (sizesBelow k f4) as Hf4.
  { apply below_upd_outArea. by apply below_upd_s; [solve_keepsSize|]. }
  clearbody f4.
  apply below_upd_s; [solve_keepsSize|].
  apply (below_upd_fd _ (set_outImage _ _ _)); [done|].
  apply below_set_outImage.
  by apply (below_upd_fd _ f4).
Qed.

(** The head of the inner loop, with the output image that is added as
    a block. *)
Lemma atRegionLoop_None f A :
  atRegionLoop f A None
  = if 0 <? CFitAreaStackItem.OutAreasTried (s f) then
      Some (afterRegionLoop f A None)
    else if CFitData.OutImageCount (CAreaFitter.fd f) =?
            CFitData.BestOutImageCount (CAreaFitter.fd f) then
      Some (afterRegionLoop f A None)
    else
      f8 ← addOutImage f A;
      tryOutArea f8 A (Some (NewPtr (depth f) 2)).
Proof.
  unfold atRegionLoop, addOutImage. cbv zeta.
  destruct (0 <? _); [done|]. destruct (_ =? _); [done|].
  by destruct (insertOutArea _ _) as [[f2 prev]|].
Qed.

Lemma s_upd_s g f :
  s (upd_s g f)
  = if decide (depth f < length (CAreaFitter.Stack f))%nat then g (s f)
    else s f.
Proof.
  unfold s, upd_s. change (depth (CAreaFitter.set_Stack _ f)) with (depth f).
  cbn [CAreaFitter.Stack CAreaFitter.set_Stack].
  rewrite list_lookup_total_alter.
  repeat case_decide; try done; naive_solver.
Qed.

(** The flag [WasOutImageAdded] is not read by a pass. *)
Lemma tryOK_set_Was P b f A O :
  tryOK k P f A O →
  tryOK k P (upd_s (CFitAreaStackItem.set_WasOutImageAdded b) f) A O.
Proof.
  unfold tryOK, remainOK, cornerOK, growthOK, allPlaced. cbv zeta.
  set (f' := upd_s _ f).
  assert (outAreaOf f' O = outAreaOf f O) as Eo.
  { unfold outAreaOf, f'. by rewrite outArea_upd_s by solve_scalarUpdate. }
  change (areaOf f' A) with (areaOf f A).
  change (outImage f') with (outImage f).
  change (CAreaFitter.fd f') with (CAreaFitter.fd f).
  change (CAreaFitter.InitArea f') with (CAreaFitter.InitArea f).
  change (CAreaFitter.Areas f') with (CAreaFitter.Areas f).
  change (depth f') with (depth f).
  rewrite Eo.
  assert (CFitAreaStackItem.OutAreaRemainRight (s (setRemain f' A O))
          = CFitAreaStackItem.OutAreaRemainRight (s (setRemain f A O)) ∧
          CFitAreaStackItem.OutAreaRemainBottom (s (setRemain f' A O))
          = CFitAreaStackItem.OutAreaRemainBottom (s (setRemain f A O)))
    as [-> ->]; [|done].
  unfold setRemain. rewrite !s_upd_s. rewrite Eo.
  change (areaOf f' A) with (areaOf f A).
  unfold f'. rewrite s_upd_s, depth_upd_s, length_Stack_upd_s.
  by case_decide.
Qed.

Lemma below_atRegionLoop P f A O cfg' :
  loopOK k P f A O → atRegionLoop f A O = Some cfg' → sizesBelow k f →
  sizesBelow k (Config.fitter cfg').
Proof.
  intros HOK H Hf. destruct O as [h|].
  - unfold atRegionLoop in H.
    eapply below_tryOutArea; [exact HOK|exact H|].
    by apply below_upd_s; [solve_keepsSize|].
  - rewrite atRegionLoop_None in H.
    destruct (0 <? _);
      [injection H as <-; by apply below_afterRegionLoop|].
    destruct (_ =? _);
      [injection H as <-; by apply below_afterRegionLoop|].
    apply bind_Some in H as (f8 & Hadd & H).
    eapply below_tryOutArea; [exact (HOK f8 Hadd)|exact H|].
    by eapply below_addOutImage.
Qed.

Lemma below_atCodeLoc2 f A O cfg' :
  atCodeLoc2 f A O = Some cfg' → sizesBelow k f →
  sizesBelow k (Config.fitter cfg').
Proof.
  unfold atCodeLoc2. cbv zeta. intros H Hf.
  pose proof (below_removeNewOutAreas (CFitAreaStackItem.c (s f)) f Hf)
    as Hf1.
  destruct (_ && _).
  - apply bind_Some in H as (f2 & H2 & H).
    pose proof (below_configuration2 _ _ _ _ H2 Hf1) as Hf2.
    destruct (0 <? _)%nat; injection H as <-.
    + cbn [Config.fitter]. apply below_pushStack.
      by apply below_upd_s; [solve_keepsSize|].
    + by apply below_restoreOutArea.
  - injection H as <-. by apply below_restoreOutArea.
Qed.

Lemma below_atCodeLoc3 f A O cfg' :
  atCodeLoc3 f A O = Some cfg' → sizesBelow k f →
  sizesBelow k (Config.fitter cfg').
Proof.
  unfold atCodeLoc3. cbv zeta. intros [= <-] Hf.
  apply below_restoreOutArea. by apply below_removeNewOutAreas.
Qed.

Lemma below_leaveFrame f A O :
  sizesBelow k f → sizesBelow k (Config.fitter (leaveFrame f A O)).
Proof.
  intros Hf. unfold leaveFrame.
  destruct (0 <? CAreaFitter.Depth f); [done|].
  by destruct (0 <? CAreaFitter.FitCallsLeft f).
Qed.

Lemma below_startArea f :
  sizesBelow k f → sizesBelow k (Config.fitter (startArea f)).
Proof.
  intros Hf. unfold startArea. cbv zeta. cbn [Config.fitter].
  apply below_upd_s; [solve_keepsSize|]. by apply below_upd_area.
Qed.

Lemma below_atCodeLoc1 f A O :
  sizesBelow k f → sizesBelow k (Config.fitter (atCodeLoc1 f A O)).
Proof.
  intros Hf. unfold atCodeLoc1.
  destruct (CFitAreaStackItem.Area (s f)); [|by apply below_leaveFrame].
  destruct (worseThanBest f); [by apply below_leaveFrame|].
  destruct (CAreaFitter.FitCallsLeft f =? 0); [|by apply below_startArea].
  destruct (_ || _).
  { apply below_leaveFrame. apply below_set_Best; [|done]. by destruct Hf as (_ & _ & _ & ?). }
  destruct (_ =? 0); [done|].
  destruct (512 <=? _); by apply below_startArea.
Qed.

Lemma below_step P cfg cfg' :
  stepOK k P cfg → step cfg = Some cfg' →
  sizesBelow k (Config.fitter cfg) → sizesBelow k (Config.fitter cfg').
Proof.
  unfold stepOK, step. destruct (Config.loc cfg); intros HOK H Hf.
  - injection H as <-. by apply below_atCodeLoc1.
  - by eapply below_atRegionLoop.
  - by eapply below_atCodeLoc2.
  - by eapply below_atCodeLoc3.
  - by injection H as <-.
Qed.

End Below.

(** * The search on a larger scale *)

(** ** The values outside the arrays *)

Lemma scaleImage_zero k : scaleImage k COutImage.zero = COutImage.zero.
Proof. unfold scaleImage. cbn. by rewrite !Z.mul_0_r. Qed.

Lemma scaleOutArea_default k :
  scaleOutArea k COutArea.default = COutArea.default.
Proof. unfold scaleOutArea. cbn. by rewrite !Z.mul_0_r. Qed.

Lemma scaleItem_default k :
  scaleItem k CFitAreaStackItem.default = CFitAreaStackItem.default.
Proof.
  unfold scaleItem. cbn. unfold scaleOutArea, scaleImage. cbn.
  by rewrite !Z.mul_0_r.
Qed.

Lemma lookup_total_fmap_default {A B} `{Inhabited A} `{Inhabited B}
    (g : A → B) (l : list A) (i : nat) :
  g inhabitant = inhabitant → (g <$> l) !!! i = g (l !!! i).
Proof.
  intros Hg. rewrite !list_lookup_total_alt, list_lookup_fmap.
  by destruct (l !! i).
Qed.

(** The updates of the records, unfolded. *)
Ltac setters :=
  unfold upd_s, upd_fd, set_outImage, upd_area, upd_outArea,
    CAreaFitter.set_Globals, CAreaFitter.set_FitCallsLeft,
    CAreaFitter.set_InitArea, CAreaFitter.set_Areas, CAreaFitter.set_fd,
    CAreaFitter.set_Stack, CAreaFitter.set_Depth,
    CFitData.set_BaseOutAreas, CFitData.set_OutImages,
    CFitData.set_OutImageCount, CFitData.set_OutSize, CFitData.set_Best,
    CGlobals.set_FitCallsLeft, CGlobals.set_Best,
    scaleFitter, scaleFitData, scaleGlobals;
  fcbn.

(** ** Reading the larger state *)

Section Reads.
Context (k : Z) (P : nat → bool).

Lemma s_scaled f : s (scaleFitter k P f) = scaleItem k (s f).
Proof. apply lookup_total_fmap_default, scaleItem_default. Qed.

Lemma outArea_scaled f p :
  outArea (scaleFitter k P f) p = scaleOutArea k (outArea f p).
Proof.
  destruct p as [i|d j]; cbn.
  - apply lookup_total_fmap_default, scaleOutArea_default.
  - rewrite (lookup_total_fmap_default (scaleItem k))
      by apply scaleItem_default.
    cbn. apply lookup_total_fmap_default, scaleOutArea_default.
Qed.

Lemma outAreaOf_scaled f O :
  outAreaOf (scaleFitter k P f) O = scaleOutArea k (outAreaOf f O).
Proof. apply outArea_scaled. Qed.

Lemma areaOf_scaled f A :
  areaOf (scaleFitter k P f) A
  = scaleAreaAt k P (default 0%nat A)
      (areaOf f A).
Proof.
  unfold areaOf. cbn. rewrite !list_lookup_total_alt, list_lookup_imap.
  destruct (_ !! _); [done|]. cbn.
  unfold scaleAreaAt, scaleArea, scaleSize. cbn.
  destruct (P _); by rewrite !Z.mul_0_r.
Qed.

Lemma Areas_scaled f i :
  CAreaFitter.Areas (scaleFitter k P f) !!! i
  = scaleAreaAt k P i (CAreaFitter.Areas f !!! i).
Proof. apply (areaOf_scaled f (Some i)). Qed.

Lemma Width_scaleAreaAt i a :
  CFitArea.Width (scaleAreaAt k P i a) = k * CFitArea.Width a.
Proof. unfold scaleAreaAt. by destruct (P i). Qed.

Lemma Height_scaleAreaAt i a :
  CFitArea.Height (scaleAreaAt k P i a) = k * CFitArea.Height a.
Proof. unfold scaleAreaAt. by destruct (P i). Qed.

Lemma Next_scaleAreaAt i a :
  CFitArea.Next (scaleAreaAt k P i a) = CFitArea.Next a.
Proof. unfold scaleAreaAt. by destruct (P i). Qed.

Lemma Next_area_scaled f p :
  CFitArea.Next (area (scaleFitter k P f) p) = CFitArea.Next (area f p).
Proof.
  destruct p as [|i]; [done|]. cbn [area].
  by rewrite Areas_scaled, Next_scaleAreaAt.
Qed.

Lemma outImage_scaled f i :
  outImage (scaleFitter k P f) i = scaleImage k (outImage f i).
Proof. apply lookup_total_fmap_default, scaleImage_zero. Qed.

Lemma outAreaCells_scaled f :
  outAreaCells (scaleFitter k P f) = outAreaCells f.
Proof. unfold outAreaCells. cbn. by rewrite !length_fmap. Qed.

Lemma length_Areas_scaled f :
  length (CAreaFitter.Areas (scaleFitter k P f))
  = length (CAreaFitter.Areas f).
Proof. cbn. by rewrite length_imap. Qed.

(** ** Writing the larger state *)

Lemma upd_s_scaled g' g f :
  (∀ it, g' (scaleItem k it) = scaleItem k (g it)) →
  upd_s g' (scaleFitter k P f) = scaleFitter k P (upd_s g f).
Proof.
  intros Hg. setters. f_equal.
  change (depth (CAreaFitter.mk _ _ _ _ _ _ _ _ _ (CAreaFitter.Depth f)))
    with (depth f).
  symmetry. apply list_fmap_alter, Forall_forall. intros it _.
  by rewrite Hg.
Qed.

Lemma upd_outArea_scaled g' g p f :
  (∀ o, g' (scaleOutArea k o) = scaleOutArea k (g o)) →
  upd_outArea g' p (scaleFitter k P f)
  = scaleFitter k P (upd_outArea g p f).
Proof.
  intros Hg. destruct p as [i|d j]; setters;
    f_equal.
  - f_equal. symmetry. apply list_fmap_alter, Forall_forall. intros o _.
    by rewrite Hg.
  - symmetry. apply list_fmap_alter, Forall_forall. intros it _.
    unfold scaleItem, CFitAreaStackItem.set_NewOutAreas. fcbn. f_equal.
    apply list_fmap_alter, Forall_forall. intros o _. by rewrite Hg.
Qed.

Lemma upd_area_Next_scaled v p f :
  upd_area (CFitArea.set_Next v) p (scaleFitter k P f)
  = scaleFitter k P (upd_area (CFitArea.set_Next v) p f).
Proof.
  destruct p as [|i]; [done|]. setters. f_equal.
  apply list_eq. intros j.
  rewrite list_lookup_alter, !list_lookup_imap, list_lookup_alter.
  case_decide; [subst|done].
  destruct (_ !! _); [|done]. cbn. unfold scaleAreaAt.
  by destruct (P j).
Qed.

Lemma upd_area_Out_scaled img ax ay i f :
  upd_area (CFitArea.set_Out img (k * ax) (k * ay)) (AreasPtr i)
    (scaleFitter k P f)
  = scaleFitter k (withArea (Some i) P)
      (upd_area (CFitArea.set_Out img ax ay) (AreasPtr i) f).
Proof.
  setters. f_equal.
  apply list_eq. intros j.
  rewrite list_lookup_alter, !list_lookup_imap, list_lookup_alter.
  unfold withArea, scaleAreaAt. cbn [default from_option id].
  case_decide.
  - subst. rewrite decide_True by done.
    destruct (_ !! _); [|done]. cbn. by destruct (P j).
  - by rewrite decide_False by done.
Qed.

Lemma upd_fd_scaled g' g f :
  (∀ d, g' (scaleFitData k d) = scaleFitData k (g d)) →
  upd_fd g' (scaleFitter k P f) = scaleFitter k P (upd_fd g f).
Proof. intros Hg. unfold upd_fd, scaleFitter, CAreaFitter.set_fd. fcbn.
  by rewrite Hg. Qed.

Lemma set_outImage_scaled i v f :
  set_outImage i (scaleImage k v) (scaleFitter k P f)
  = scaleFitter k P (set_outImage i v f).
Proof.
  setters. f_equal. f_equal. by rewrite list_fmap_insert.
Qed.

Lemma upd_s_same g f :
  (∀ it, g (scaleItem k it) = scaleItem k (g it)) →
  upd_s g (scaleFitter k P f) = scaleFitter k P (upd_s g f).
Proof. apply upd_s_scaled. Qed.

Lemma upd_outArea_same g p f :
  (∀ o, g (scaleOutArea k o) = scaleOutArea k (g o)) →
  upd_outArea g p (scaleFitter k P f)
  = scaleFitter k P (upd_outArea g p f).
Proof. apply upd_outArea_scaled. Qed.

Lemma upd_fd_same g f :
  (∀ d, g (scaleFitData k d) = scaleFitData k (g d)) →
  upd_fd g (scaleFitter k P f) = scaleFitter k P (upd_fd g f).
Proof. apply upd_fd_scaled. Qed.

Lemma Depth_scaled f :
  CAreaFitter.Depth (scaleFitter k P f) = CAreaFitter.Depth f.
Proof. done. Qed.

Lemma depth_scaled f : depth (scaleFitter k P f) = depth f.
Proof. done. Qed.

Lemma FitCallsLeft_scaled f :
  CAreaFitter.FitCallsLeft (scaleFitter k P f) = CAreaFitter.FitCallsLeft f.
Proof. done. Qed.

Lemma fd_scaled f :
  CAreaFitter.fd (scaleFitter k P f) = scaleFitData k (CAreaFitter.fd f).
Proof. done. Qed.

Lemma Globals_scaled f :
  CAreaFitter.Globals (scaleFitter k P f)
  = scaleGlobals k (CAreaFitter.Globals f).
Proof. done. Qed.

Lemma InitArea_scaled f :
  CAreaFitter.InitArea (scaleFitter k P f) = CAreaFitter.InitArea f.
Proof. done. Qed.

Lemma MaxOutImageWidth_scaled f :
  CAreaFitter.MaxOutImageWidth (scaleFitter k P f)
  = k * CAreaFitter.MaxOutImageWidth f.
Proof. done. Qed.

Lemma MaxOutImageHeight_scaled f :
  CAreaFitter.MaxOutImageHeight (scaleFitter k P f)
  = k * CAreaFitter.MaxOutImageHeight f.
Proof. done. Qed.

Lemma MaxOutImageSize_scaled f :
  CAreaFitter.MaxOutImageSize (scaleFitter k P f)
  = k * k * CAreaFitter.MaxOutImageSize f.
Proof. done. Qed.

Lemma set_Depth_scaled v f :
  CAreaFitter.set_Depth v (scaleFitter k P f)
  = scaleFitter k P (CAreaFitter.set_Depth v f).
Proof. done. Qed.

Lemma set_FitCallsLeft_scaled v f :
  CAreaFitter.set_FitCallsLeft v (scaleFitter k P f)
  = scaleFitter k P (CAreaFitter.set_FitCallsLeft v f).
Proof. done. Qed.

Lemma set_Globals_scaled g f :
  CAreaFitter.set_Globals (scaleGlobals k g) (scaleFitter k P f)
  = scaleFitter k P (CAreaFitter.set_Globals g f).
Proof. done. Qed.

Lemma set_FitCallsLeft_scaleGlobals v g :
  CGlobals.set_FitCallsLeft v (scaleGlobals k g)
  = scaleGlobals k (CGlobals.set_FitCallsLeft v g).
Proof. done. Qed.

End Reads.

(** The larger state is read and written through the state itself. *)
Ltac rd :=
  repeat first
    [ rewrite s_scaled | rewrite outAreaOf_scaled | rewrite outArea_scaled
    | rewrite areaOf_scaled | rewrite outImage_scaled
    | rewrite Next_area_scaled | rewrite Width_scaleAreaAt
    | rewrite Height_scaleAreaAt | rewrite Next_scaleAreaAt
    | rewrite Depth_scaled | rewrite depth_scaled
    | rewrite FitCallsLeft_scaled | rewrite fd_scaled
    | rewrite Globals_scaled | rewrite InitArea_scaled
    | rewrite MaxOutImageWidth_scaled | rewrite MaxOutImageHeight_scaled
    | rewrite MaxOutImageSize_scaled | rewrite length_Areas_scaled
    | rewrite outAreaCells_scaled
    | rewrite set_Depth_scaled | rewrite set_FitCallsLeft_scaled
    | rewrite set_FitCallsLeft_scaleGlobals | rewrite set_Globals_scaled
    | rewrite upd_area_Next_scaled
    | rewrite upd_s_same by done | rewrite upd_outArea_same by done
    | rewrite upd_fd_same by done
    | progress (unfold scaleItem, scaleOutArea, scaleFitData, scaleGlobals;
                fcbn) ].

(** ** What keeps the rectangles *)

Lemma outArea_upd_outArea_ne g p q f :
  q ≠ p → outArea (upd_outArea g p f) q = outArea f q.
Proof.
  intros Hne. destruct p as [i|d j], q as [i'|d' j']; cbn; try done.
  - rewrite list_lookup_total_alter. case_decide as H; [|done].
    destruct H as [-> _]. done.
  - rewrite list_lookup_total_alter. case_decide as H; [|done].
    destruct H as [-> _]. cbn.
    rewrite list_lookup_total_alter. case_decide as H'; [|done].
    destruct H' as [-> _]. done.
Qed.

Lemma outRect_upd_outArea_Next v p q f :
  outRect (outArea (upd_outArea (COutArea.set_Next v) p f) q)
  = outRect (outArea f q).
Proof.
  destruct (decide (q = p)) as [->|Hne];
    [|by rewrite outArea_upd_outArea_ne].
  destruct p as [i|d j]; cbn.
  - rewrite list_lookup_total_alter. by case_decide.
  - rewrite list_lookup_total_alter. case_decide; [|done]. cbn.
    rewrite list_lookup_total_alter. by case_decide.
Qed.

Lemma sameRects_refl f : sameRects f f.
Proof. done. Qed.

Lemma sameRects_trans f1 f2 f3 :
  sameRects f1 f2 → sameRects f2 f3 → sameRects f1 f3.
Proof.
  intros (H1 & H2 & H3) (H4 & H5 & H6). split; [|split].
  - intros q. by rewrite H4.
  - intros i. by rewrite H5.
  - congruence.
Qed.

Lemma sameRects_upd_s g f : scalarUpdate g → sameRects f (upd_s g f).
Proof.
  intros Hg. split; [|done]. intros q. by rewrite outArea_upd_s.
Qed.

Lemma sameRects_upd_fd g f :
  (∀ d, CFitData.BaseOutAreas (g d) = CFitData.BaseOutAreas d) →
  sameRects f (upd_fd g f).
Proof. intros Hg. split; [|done]. intros q. by rewrite outArea_upd_fd. Qed.

Lemma sameRects_set_outImage i v f : sameRects f (set_outImage i v f).
Proof. split; [|done]. intros q. by rewrite outArea_set_outImage. Qed.

Lemma sameRects_upd_outArea_Next v p f :
  sameRects f (upd_outArea (COutArea.set_Next v) p f).
Proof.
  split; [|split].
  - intros q. apply outRect_upd_outArea_Next.
  - intros i. by rewrite Areas_upd_outArea.
  - apply depth_upd_outArea.
Qed.

Lemma sameRects_upd_area g p f : keepsArea g → sameRects f (upd_area g p f).
Proof.
  intros Hg. split; [|split].
  - intros q. by rewrite outArea_upd_area.
  - intros i. destruct p as [|j]; [done|]. cbn.
    rewrite list_lookup_total_alter. case_decide as H; [|done].
    destruct H as [-> _]. unfold areaDims.
    destruct (Hg (CAreaFitter.Areas f !!! i)) as (-> & -> & ->). done.
  - apply depth_upd_area.
Qed.

Lemma sameRects_insertOutArea f p f' prev :
  insertOutArea f p = Some (f', prev) → sameRects f f'.
Proof.
  unfold insertOutArea. intros H.
  destruct (insertOutArea_scan _ _ _ _ _) as [q|]; [|done].
  cbn in H. injection H as <- _.
  eapply sameRects_trans; apply sameRects_upd_outArea_Next.
Qed.

Lemma sameRects_removeNewOutAreas n f :
  sameRects f (removeNewOutAreas n f).
Proof.
  revert f. induction n as [|n IH]; intros f; [apply sameRects_refl|].
  cbn [removeNewOutAreas]. cbv zeta.
  eapply sameRects_trans; [|apply IH].
  eapply sameRects_trans; [|apply sameRects_upd_outArea_Next].
  apply sameRects_upd_s. solve_scalarUpdate.
Qed.

Lemma cornerOK_same k f f' A O :
  sameRects f f' → cornerOK k f A O → cornerOK k f' A O.
Proof.
  intros (H1 & H2 & _). unfold cornerOK, outAreaOf, areaOf. cbv zeta.
  specialize (H1 (default (BasePtr 0) O)).
  specialize (H2 (default 0%nat A)).
  unfold outRect, areaDims in *.
  injection H1 as _ -> -> _ _. injection H2 as _ -> ->. done.
Qed.

(** ** The blocks of [fitUnfittedAreas] *)

Section Blocks.
Context (k : Z).
Hypothesis k_pos : 0 < k.

Lemma if_scale (b : bool) (x y : Z) :
  (if b then k * x else k * y) = k * (if b then x else y).
Proof. by destruct b. Qed.

Lemma insertOutArea_scan_scaled P fuel f h prev sc :
  insertOutArea_scan fuel (scaleFitter k P f) (k * h) prev sc
  = insertOutArea_scan fuel f h prev sc.
Proof.
  revert prev sc. induction fuel as [|fuel IH]; intros prev [sc|];
    cbn [insertOutArea_scan]; try done;
    rewrite outArea_scaled; unfold scaleOutArea; fcbn;
    rewrite ltb_scale by done; destruct (_ <? _); done.
Qed.

Lemma insertOutArea_scaled P f p :
  insertOutArea (scaleFitter k P f) p
  = prod_map (scaleFitter k P) id <$> insertOutArea f p.
Proof.
  unfold insertOutArea. rd.
  rewrite insertOutArea_scan_scaled.
  destruct (insertOutArea_scan _ _ _ _ _) as [q|]; [|done].
  cbn [mbind option_bind fmap option_fmap option_map prod_map fst snd id].
  cbv zeta. by rd.
Qed.

Lemma pushStack_scaled P f :
  pushStack (scaleFitter k P f) = scaleFitter k P (pushStack f).
Proof. unfold pushStack. cbv zeta. by rd. Qed.

Lemma worseThanBest_scaled P f :
  k * k * CFitData.OutSize (CAreaFitter.fd f) < 2147483646 →
  worseThanBest (scaleFitter k P f) = worseThanBest f.
Proof. intros H. unfold worseThanBest. rd. by rewrite leb_scaleBest. Qed.

Lemma leaveFrame_scaled P f A O :
  leaveFrame (scaleFitter k P f) A O = scaleConfig k P (leaveFrame f A O).
Proof.
  unfold leaveFrame. rd.
  destruct (0 <? CAreaFitter.Depth f); [done|].
  by destruct (0 <? CAreaFitter.FitCallsLeft f).
Qed.

Lemma startArea_scaled P f :
  startArea (scaleFitter k P f) = scaleConfig k P (startArea f).
Proof. unfold startArea. cbv zeta. by rd. Qed.

Lemma atCodeLoc1_scaled P f A O :
  sizesBelow k f →
  atCodeLoc1 (scaleFitter k P f) A O = scaleConfig k P (atCodeLoc1 f A O).
Proof.
  intros (H1 & H2 & H3 & H4). unfold atCodeLoc1. rd.
  destruct (CFitAreaStackItem.Area (s f)); [|apply leaveFrame_scaled].
  rewrite worseThanBest_scaled by done.
  destruct (worseThanBest f); [apply leaveFrame_scaled|].
  destruct (CAreaFitter.FitCallsLeft f =? 0); [|apply startArea_scaled].
  rewrite ltb_scaleBest2 by done.
  destruct (_ || _).
  { rewrite (upd_fd_scaled k P _
               (CFitData.set_Best
                  (CGlobals.BestOutSize (CAreaFitter.Globals f))
                  (CGlobals.BestOutImageCount (CAreaFitter.Globals f))))
      by done.
    apply leaveFrame_scaled. }
  destruct (_ =? 0); [done|].
  destruct (512 <=? _).
  - rewrite <- startArea_scaled. done.
  - rewrite <- startArea_scaled. done.
Qed.

Lemma afterRegionLoop_scaled P f A O :
  afterRegionLoop (scaleFitter k P f) A O
  = scaleConfig k P (afterRegionLoop f A O).
Proof. unfold afterRegionLoop. cbv zeta. by rd. Qed.

Lemma regionTail_scaled P f A O :
  k * k * CFitData.OutSize (CAreaFitter.fd f) < 2147483646 →
  regionTail (scaleFitter k P f) A O = scaleConfig k P (regionTail f A O).
Proof.
  intros H. unfold regionTail. rd.
  destruct (CFitAreaStackItem.WasOutImageAdded (s f)).
  - cbv zeta. rd. apply afterRegionLoop_scaled.
  - rewrite worseThanBest_scaled by done.
    destruct (worseThanBest f); [apply afterRegionLoop_scaled|].
    cbv zeta. by rd.
Qed.

Lemma restoreOutImage_scaled P f A O :
  sizesBelow k f →
  restoreOutImage (scaleFitter k P f) A O
  = scaleConfig k P (restoreOutImage f A O).
Proof.
  intros Hf. unfold restoreOutImage. rd.
  destruct (CFitAreaStackItem.DoOutImageRestore (s f));
    [|apply regionTail_scaled; by destruct Hf].
  cbv zeta. rd.
  change (COutImage.mk (k * COutImage.Width ?im) (k * COutImage.Height ?im)
            (k * k * COutImage.Size ?im)) with (scaleImage k im).
  rewrite set_outImage_scaled.
  rewrite (upd_fd_scaled k P _
             (CFitData.set_OutSize (CFitAreaStackItem.OutSizeSave (s f))))
    by done.
  apply regionTail_scaled. cbn. by apply below_save.
Qed.

Lemma restoreOutArea_scaled P f A O :
  sizesBelow k f →
  restoreOutArea (scaleFitter k P f) A O
  = scaleConfig k P (restoreOutArea f A O).
Proof.
  intros Hf. unfold restoreOutArea. cbv zeta. rd.
  apply restoreOutImage_scaled. by apply below_upd_outArea.
Qed.

Lemma removeNewOutAreas_scaled P n f :
  removeNewOutAreas n (scaleFitter k P f)
  = scaleFitter k P (removeNewOutAreas n f).
Proof.
  revert f. induction n as [|n IH]; intros f; [done|].
  cbn [removeNewOutAreas]. cbv zeta. rd. apply IH.
Qed.

(** ** The placement of an area *)

Lemma scanMinArea_scaled P fuel f sc mw mh :
  scanMinArea fuel (scaleFitter k P f) sc (k * mw) (k * mh)
  = prod_map (Z.mul k) (Z.mul k) <$> scanMinArea fuel f sc mw mh.
Proof.
  revert sc mw mh. induction fuel as [|fuel IH]; intros [i|] mw mh;
    cbn [scanMinArea]; try done.
  cbv zeta. rewrite Areas_scaled, Width_scaleAreaAt, Height_scaleAreaAt,
    Next_scaleAreaAt.
  rewrite !ltb_scale, !if_scale by done. apply IH.
Qed.

Lemma addNewOutArea0_scaled P img ax ay w h f :
  addNewOutArea0 img (k * ax) (k * ay) (k * w) (k * h) (scaleFitter k P f)
  = scaleFitter k P <$> addNewOutArea0 img ax ay w h f.
Proof.
  unfold addNewOutArea0. cbv zeta. rewrite depth_scaled.
  rewrite (upd_outArea_scaled k P _ (COutArea.set_rect img ax ay w h))
    by done.
  rewrite insertOutArea_scaled.
  destruct (insertOutArea _ _) as [[f2 prev]|]; [|done].
  cbn [mbind option_bind fmap option_fmap option_map prod_map fst snd id].
  f_equal. by apply upd_s_scaled.
Qed.

Lemma addNewOutArea1_scaled P img ax ay w h f :
  addNewOutArea1 img (k * ax) (k * ay) (k * w) (k * h) (scaleFitter k P f)
  = scaleFitter k P <$> addNewOutArea1 img ax ay w h f.
Proof.
  unfold addNewOutArea1. cbv zeta. rewrite depth_scaled.
  rewrite (upd_outArea_scaled k P _ (COutArea.set_rect img ax ay w h))
    by done.
  rewrite insertOutArea_scaled.
  destruct (insertOutArea _ _) as [[f2 prev]|]; [|done].
  cbn [mbind option_bind fmap option_fmap option_map prod_map fst snd id].
  f_equal. by apply upd_s_scaled.
Qed.

(** The first new output area leaves the output area that holds the
    area as it is. *)
Lemma addNewOutArea0_same img ax ay w h f f1 A O :
  addNewOutArea0 img ax ay w h f = Some f1 →
  O ≠ Some (NewPtr (depth f) 0) →
  outRect (outAreaOf f1 O) = outRect (outAreaOf f O) ∧
  areaOf f1 A = areaOf f A.
Proof.
  unfold addNewOutArea0. cbv zeta. intros H HO.
  destruct (insertOutArea _ _) as [[f2 prev]|] eqn:E; [|done].
  cbn in H. injection H as <-.
  destruct (sameRects_insertOutArea _ _ _ _ E) as (H1 & H2 & H3).
  assert (CAreaFitter.Areas f2 = CAreaFitter.Areas f) as EA.
  { revert E. unfold insertOutArea.
    destruct (insertOutArea_scan _ _ _ _ _) as [q|]; [|done].
    cbn. intros [= <- _]. by rewrite !Areas_upd_outArea. }
  split.
  - unfold outAreaOf. rewrite outArea_upd_s by solve_scalarUpdate.
    rewrite H1. rewrite outArea_upd_outArea_ne; [done|].
    destruct O as [q|]; cbn; [congruence|done].
  - unfold areaOf. by rewrite <- EA.
Qed.

Lemma configuration1_scaled P f A O :
  cornerOK k f A O → O ≠ Some (NewPtr (depth f) 0) →
  configuration1 (scaleFitter k P f) A O
  = scaleFitter k P <$> configuration1 f A O.
Proof.
  intros [Hx Hy] HO. unfold configuration1. rd.
  rewrite !leb_scale by done. rewrite add32_scale by done.
  rewrite addNewOutArea0_scaled.
  match goal with
  | |- _ = scaleFitter _ _ <$> (?x ≫= _) => set (first := x)
  end.
  assert (∀ f1, first = Some f1 →
            outRect (outAreaOf f1 O) = outRect (outAreaOf f O) ∧
            areaOf f1 A = areaOf f A) as Hsame.
  { intros f1. unfold first. destruct (_ && _).
    - intros H. by eapply addNewOutArea0_same.
    - intros [= <-]. split; [|done]. unfold outAreaOf.
      by rewrite outArea_upd_s by solve_scalarUpdate. }
  replace (if _ && _ then scaleFitter k P <$> _ else _)
    with (scaleFitter k P <$> first).
  2:{ unfold first. destruct (_ && _); [done|]. cbn. by rd. }
  destruct first as [f1|]; [|done].
  destruct (Hsame f1 eq_refl) as [Ho Ea].
  cbn [mbind option_bind fmap option_fmap option_map]. rd.
  rewrite !leb_scale by done.
  unfold outRect in Ho. injection Ho as Ei Ex Ey Ew Eh.
  rewrite add32_scale; [|done|by rewrite Ey, Ea].
  rewrite addNewOutArea1_scaled.
  by destruct (_ && _).
Qed.

Lemma configuration2_scaled P f A O :
  cornerOK k f A O → O ≠ Some (NewPtr (depth f) 0) →
  configuration2 (scaleFitter k P f) A O
  = scaleFitter k P <$> configuration2 f A O.
Proof.
  intros [Hx Hy] HO. unfold configuration2. rd.
  rewrite !leb_scale by done. rewrite add32_scale by done.
  rewrite addNewOutArea0_scaled.
  match goal with
  | |- _ = scaleFitter _ _ <$> (?x ≫= _) => set (first := x)
  end.
  assert (∀ f1, first = Some f1 →
            outRect (outAreaOf f1 O) = outRect (outAreaOf f O) ∧
            areaOf f1 A = areaOf f A) as Hsame.
  { intros f1. unfold first. destruct (_ && _).
    - intros H. by eapply addNewOutArea0_same.
    - intros [= <-]. split; [|done]. unfold outAreaOf.
      by rewrite outArea_upd_s by solve_scalarUpdate. }
  replace (if _ && _ then scaleFitter k P <$> _ else _)
    with (scaleFitter k P <$> first).
  2:{ unfold first. destruct (_ && _); [done|]. cbn. by rd. }
  destruct first as [f1|]; [|done].
  destruct (Hsame f1 eq_refl) as [Ho Ea].
  cbn [mbind option_bind fmap option_fmap option_map]. rd.
  rewrite !leb_scale by done.
  unfold outRect in Ho. injection Ho as Ei Ex Ey Ew Eh.
  rewrite add32_scale; [|done|by rewrite Ey, Ea].
  rewrite addNewOutArea1_scaled.
  by destruct (_ && _).
Qed.

Lemma saveBestFit_scaled P f :
  sizesBelow k f → allPlaced P f →
  saveBestFit (scaleFitter k P f) = scaleFitter k P (saveBestFit f).
Proof.
  intros (H1 & H2 & H3 & H4) HP. unfold saveBestFit. cbv zeta.
  rewrite !fd_scaled, !Globals_scaled.
  change (CFitData.OutSize (scaleFitData k ?d))
    with (k * k * CFitData.OutSize d).
  change (CFitData.OutImageCount (scaleFitData k ?d))
    with (CFitData.OutImageCount d).
  change (CGlobals.BestOutSize (scaleGlobals k ?g))
    with (scaleBest k (CGlobals.BestOutSize g)).
  change (CGlobals.BestOutImageCount (scaleGlobals k ?g))
    with (CGlobals.BestOutImageCount g).
  rewrite ltb_scaleBest by done.
  destruct (_ && _); [|by apply upd_fd_scaled].
  pose proof (below_unscale2 k _ k_pos H1) as Hs.
  unfold scaleFitter, upd_fd, scaleGlobals, scaleFitData. fcbn.
  unfold CAreaFitter.set_Globals, CAreaFitter.set_fd, CGlobals.set_Best,
    CFitData.set_Best. fcbn.
  rewrite (scaleBest_real k _ Hs).
  f_equal. f_equal.
  - apply list_eq. intros i. rewrite list_lookup_imap, list_lookup_fmap.
    destruct (_ !! i) as [a|] eqn:E; [|done]. cbn.
    unfold scaleAreaAt. rewrite HP; [done|]. by eapply lookup_lt_Some.
  - rewrite <- list_fmap_compose. apply list_fmap_ext. intros i j _.
    cbn. apply lookup_total_fmap_default, scaleImage_zero.
Qed.

(** The check of a fit against a best size that is one of the values
    for "no fit yet" or a size. *)
Lemma checkGrown_best
    (M S B w h : Z) (im : COutImage.t) (dr : bool) (sv : COutImage.t)
    (ss tried : Z) :
  is_int (k * k * (w * h)) → is_int (k * k * (S + w * h)) →
  is_int (k * k * (S + w * h - COutImage.Size im)) →
  k * k * (S + w * h - COutImage.Size im) < 2147483646 →
  (if k * k * M <? mul32 (k * w) (k * h) then
     CheckFit.mk false (k * k * S) (scaleImage k im) dr (scaleImage k sv)
       (k * k * ss) tried
   else if scaleBest k B <=?
           sub32 (add32 (k * k * S) (mul32 (k * w) (k * h)))
             (k * k * COutImage.Size im) then
     CheckFit.mk false (k * k * S) (scaleImage k im) dr (scaleImage k sv)
       (k * k * ss) (tried + 1)
   else
     CheckFit.mk true
       (sub32 (add32 (k * k * S) (mul32 (k * w) (k * h)))
          (k * k * COutImage.Size im))
       (COutImage.mk (k * w) (k * h) (mul32 (k * w) (k * h))) true
       (scaleImage k im) (k * k * S) (tried + 1))
  = scaleCheck k
      (if M <? mul32 w h then
         CheckFit.mk false S im dr sv ss tried
       else if B <=? sub32 (add32 S (mul32 w h)) (COutImage.Size im) then
         CheckFit.mk false S im dr sv ss (tried + 1)
       else
         CheckFit.mk true (sub32 (add32 S (mul32 w h)) (COutImage.Size im))
           (COutImage.mk w h (mul32 w h)) true im S (tried + 1)).
Proof.
  intros H1 H2 H3 H4.
  assert (mul32 w h = w * h) as Em.
  { apply mul32_id. by apply (is_int_unscale2 k). }
  assert (mul32 (k * w) (k * h) = k * k * (w * h)) as Em'.
  { rewrite mul32_id; [lia|]. by replace (k * w * (k * h))
      with (k * k * (w * h)) by lia. }
  rewrite Em, Em'. set (p := w * h) in *.
  assert (sub32 (add32 S p) (COutImage.Size im)
          = S + p - COutImage.Size im) as Es.
  { rewrite add32_id by (by apply (is_int_unscale2 k)).
    apply sub32_id. by apply (is_int_unscale2 k). }
  assert (sub32 (add32 (k * k * S) (k * k * p)) (k * k * COutImage.Size im)
          = k * k * (S + p - COutImage.Size im)) as Es'.
  { rewrite add32_id
      by (by replace (k * k * S + k * k * p) with (k * k * (S + p)) by lia).
    rewrite sub32_id; [lia|].
    by replace (k * k * S + k * k * p - k * k * COutImage.Size im)
      with (k * k * (S + p - COutImage.Size im)) by lia. }
  rewrite Es, Es'. rewrite ltb_scale2, leb_scaleBest by done.
  destruct (M <? p); [reflexivity|].
  destruct (B <=? _); reflexivity.
Qed.

Lemma check_best
    (M S B nw nh : Z) (im : COutImage.t) (dr : bool) (sv : COutImage.t)
    (ss tried : Z) :
  let W := Z.max nw (COutImage.Width im) in
  let H := Z.max nh (COutImage.Height im) in
  is_int (k * k * (W * H)) → is_int (k * k * (S + W * H)) →
  is_int (k * k * (S + W * H - COutImage.Size im)) →
  k * k * (S + W * H - COutImage.Size im) < 2147483646 →
  checkAreaFitAgainstBest (k * k * M) (k * k * S) (scaleBest k B)
    (k * nw) (k * nh) (scaleImage k im) dr (scaleImage k sv) (k * k * ss)
    tried
  = scaleCheck k (checkAreaFitAgainstBest M S B nw nh im dr sv ss tried).
Proof.
  intros W H H1 H2 H3 H4.
  unfold checkAreaFitAgainstBest, scaleImage.
  cbn [COutImage.Width COutImage.Height COutImage.Size].
  rewrite !ltb_scale by done. unfold W, H in *.
  destruct (Z.ltb_spec (COutImage.Width im) nw) as [Hw|Hw];
    destruct (Z.ltb_spec (COutImage.Height im) nh) as [Hh|Hh];
    rewrite ?(Z.max_l nw) in * by lia;
    rewrite ?(Z.max_r nw) in * by lia;
    rewrite ?(Z.max_l nh) in * by lia;
    rewrite ?(Z.max_r nh) in * by lia;
    try reflexivity; by apply checkGrown_best.
Qed.

Lemma setRemain_scaled P f A O :
  remainOK k f A O →
  setRemain (scaleFitter k P f) A O = scaleFitter k P (setRemain f A O).
Proof.
  intros [H1 H2]. unfold setRemain. rd.
  rewrite !sub32_scale by done. by apply upd_s_scaled.
Qed.

Lemma checkFit_scaled P f A O :
  cornerOK k f A O → growthOK k f A O →
  checkFit (scaleFitter k P f) A O = scaleCheck k (checkFit f A O).
Proof.
  intros [Hx Hy] (H1 & H2 & H3 & H4). unfold checkFit.
  rewrite !outAreaOf_scaled, !areaOf_scaled, !s_scaled, outImage_scaled,
    !fd_scaled, MaxOutImageSize_scaled, Width_scaleAreaAt,
    Height_scaleAreaAt.
  unfold scaleOutArea, scaleItem, scaleFitData. fcbn.
  rewrite !add32_scale by done.
  rewrite (proj1 (cornerOK_exact k k_pos f A O (conj Hx Hy))).
  rewrite (proj2 (cornerOK_exact k k_pos f A O (conj Hx Hy))).
  by apply check_best.
Qed.

Lemma commitFit_scaled P f O r :
  commitFit (scaleFitter k P f) O (scaleCheck k r)
  = scaleFitter k P (commitFit f O r).
Proof.
  unfold commitFit. cbv zeta. rewrite outAreaOf_scaled.
  unfold scaleOutArea at 1. fcbn.
  change (CheckFit.OutImage (scaleCheck k r))
    with (scaleImage k (CheckFit.OutImage r)).
  change (CheckFit.OutSize (scaleCheck k r))
    with (k * k * CheckFit.OutSize r).
  change (CheckFit.OutAreasTried (scaleCheck k r))
    with (CheckFit.OutAreasTried r).
  change (CheckFit.OutImageSave (scaleCheck k r))
    with (scaleImage k (CheckFit.OutImageSave r)).
  change (CheckFit.OutSizeSave (scaleCheck k r))
    with (k * k * CheckFit.OutSizeSave r).
  change (CheckFit.DoOutImageRestore (scaleCheck k r))
    with (CheckFit.DoOutImageRestore r).
  rewrite set_outImage_scaled.
  rewrite (upd_fd_scaled k P _ (CFitData.set_OutSize (CheckFit.OutSize r)))
    by done.
  by apply upd_s_scaled.
Qed.

Lemma withArea_Some P A :
  withArea (Some (default 0%nat A)) P = withArea A P.
Proof. done. Qed.

Lemma placeArea_scaled P f A O :
  sizesBelow k f → cornerOK k f A O → O ≠ Some (NewPtr (depth f) 0) →
  (CFitArea.Next (CAreaFitter.InitArea f) = None →
   allPlaced (withArea A P) f) →
  placeArea (scaleFitter k P f) A O
  = scaleConfig k (withArea A P) <$> placeArea f A O.
Proof.
  intros Hf Hc HO Hall. unfold placeArea. cbv zeta.
  rewrite !outAreaOf_scaled. unfold scaleOutArea. fcbn.
  rewrite !upd_area_Out_scaled, !withArea_Some.
  set (P' := withArea A P).
  set (f1 := upd_area _ _ f).
  assert (sizesBelow k f1) as Hf1 by (by apply below_upd_area).
  assert (sameRects f f1) as Hs1.
  { apply sameRects_upd_area. solve_keepsArea. }
  rewrite Next_area_scaled.
  assert (CFitArea.Next (area f1 UnfittedAreas)
          = CFitArea.Next (CAreaFitter.InitArea f)) as En by done.
  destruct (CFitArea.Next (area f1 UnfittedAreas)) as [first|] eqn:E.
  - rewrite Areas_scaled, Next_scaleAreaAt, Width_scaleAreaAt,
      Height_scaleAreaAt, length_Areas_scaled.
    rewrite scanMinArea_scaled.
    destruct (scanMinArea _ _ _ _ _) as [[mw mh]|]; [|done].
    cbn [mbind option_bind fmap option_fmap option_map prod_map fst snd].
    rewrite (upd_s_scaled k P' _ (CFitAreaStackItem.set_MinArea mw mh))
      by done.
    set (f2 := upd_s _ f1).
    rewrite outAreaOf_scaled, s_scaled.
    unfold scaleOutArea at 1, scaleItem at 1. fcbn.
    rewrite (upd_outArea_scaled k P' _
               (COutArea.set_Next (COutArea.Next (outAreaOf f2 O))))
      by done.
    set (f3 := upd_outArea _ _ f2).
    assert (sameRects f f3) as Hs3.
    { apply (sameRects_trans f f1); [exact Hs1|].
      apply (sameRects_trans f1 f2);
        [apply sameRects_upd_s; solve_scalarUpdate|].
      apply sameRects_upd_outArea_Next. }
    rewrite configuration1_scaled;
      [|by eapply cornerOK_same|by rewrite (proj2 (proj2 Hs3))].
    destruct (configuration1 f3 A O) as [f4|]; [|done].
    cbn [mbind option_bind fmap option_fmap option_map].
    rewrite (upd_s_scaled k P' _
               (λ it, CFitAreaStackItem.set_CodeLoc 2
                        (CFitAreaStackItem.set_c1 (CFitAreaStackItem.c it)
                           it))) by done.
    by rewrite pushStack_scaled.
  - cbn [fmap option_fmap option_map]. f_equal.
    rewrite saveBestFit_scaled; [|done|].
    + apply restoreOutImage_scaled. by apply below_saveBestFit.
    + intros i Hi. apply Hall; [by rewrite <- En|].
      unfold f1 in Hi. by rewrite length_Areas_upd_area in Hi.
Qed.

Lemma Depth_afterRegionLoop f A O :
  CAreaFitter.Depth (Config.fitter (afterRegionLoop f A O))
  = CAreaFitter.Depth f.
Proof. unfold afterRegionLoop. fcbn. by destruct (CFitAreaStackItem.PrevArea _). Qed.

Lemma Depth_regionTail f A O :
  CAreaFitter.Depth (Config.fitter (regionTail f A O))
  = CAreaFitter.Depth f.
Proof.
  unfold regionTail. destruct (CFitAreaStackItem.WasOutImageAdded _).
  - cbv zeta. rewrite Depth_afterRegionLoop. fcbn.
    apply Depth_upd_outArea.
  - destruct (worseThanBest f); [apply Depth_afterRegionLoop|done].
Qed.

(** An inner loop pass: the position of the area is assigned when the
    check accepts the placement, and the stack grows then at most. *)
Lemma tryOutArea_scaled P f A O :
  sizesBelow k f → tryOK k P f A O →
  ∃ P',
    tryOutArea (scaleFitter k P f) A O
    = scaleConfig k P' <$> tryOutArea f A O ∧
    (P' = withArea A P ∨
     (P' = P ∧
      ∀ cfg', tryOutArea f A O = Some cfg' →
        CAreaFitter.Depth (Config.fitter cfg') = CAreaFitter.Depth f)).
Proof.
  intros Hf [Hrem HOK]. unfold tryOutArea. cbv zeta.
  rewrite setRemain_scaled by done.
  rewrite !s_scaled. unfold scaleItem at 1 2. fcbn.
  rewrite !ltb_scale_0 by done.
  set (f1 := setRemain f A O) in *.
  destruct (_ || _).
  - exists P. split.
    + rewrite (upd_s_scaled k P _
                 (CFitAreaStackItem.set_PrevOutArea (default (BasePtr 0) O)))
        by done.
      rewrite outAreaOf_scaled. by unfold scaleOutArea, scaleConfig.
    + right. split; [done|]. by intros cfg' [= <-].
  - destruct (HOK eq_refl) as (Hc & Hg & HO & Hall).
    assert (sameRects f f1) as Hs1.
    { apply sameRects_upd_s. solve_scalarUpdate. }
    assert (cornerOK k f1 A O) as Hc1 by (by eapply cornerOK_same).
    assert (growthOK k f1 A O) as Hg1.
    { unfold growthOK in *. unfold f1.
      by rewrite !setRemain_outAreaOf, !setRemain_areaOf. }
    rewrite checkFit_scaled by done.
    rewrite commitFit_scaled.
    set (r := checkFit f1 A O).
    set (f3 := commitFit f1 O r).
    assert (sizesBelow k f3) as Hf3 by (by apply below_commitFit).
    change (CheckFit.result (scaleCheck k r)) with (CheckFit.result r).
    assert (sameRects f f3) as Hs3.
    { apply (sameRects_trans f f1); [exact Hs1|].
      unfold f3, commitFit. cbv zeta.
      set (g1 := set_outImage _ _ f1). set (g2 := upd_fd _ g1).
      apply (sameRects_trans f1 g1); [apply sameRects_set_outImage|].
      apply (sameRects_trans g1 g2); [by apply sameRects_upd_fd|].
      apply sameRects_upd_s. solve_scalarUpdate. }
    destruct (CheckFit.result r).
    + exists (withArea A P). split; [|by left].
      apply placeArea_scaled; [done|by eapply cornerOK_same| |].
      * by rewrite (proj2 (proj2 Hs3)).
      * intros Hn i Hi. apply Hall; [done|].
        unfold f3, commitFit, f1, setRemain in Hi. exact Hi.
    + exists P. split.
      * cbn [fmap option_fmap option_map]. f_equal.
        apply regionTail_scaled. by destruct Hf3.
      * right. split; [done|]. intros cfg' [= <-].
        rewrite Depth_regionTail. done.
Qed.

Lemma c_scaleItem it :
  CFitAreaStackItem.c (scaleItem k it) = CFitAreaStackItem.c it.
Proof. done. Qed.

Lemma c1_scaleItem it :
  CFitAreaStackItem.c1 (scaleItem k it) = CFitAreaStackItem.c1 it.
Proof. done. Qed.

Lemma updateCapacity_scaled n (l : list COutImage.t) :
  updateCapacity n (scaleImage k <$> l)
  = scaleImage k <$> updateCapacity n l.
Proof.
  unfold updateCapacity.
  rewrite fmap_app, fmap_replicate, length_fmap.
  change (@inhabitant COutImage.t _) with COutImage.zero.
  by rewrite scaleImage_zero.
Qed.

Lemma addOutImage_scaled P f A :
  addOutImage (scaleFitter k P f) A
  = scaleFitter k P <$> addOutImage f A.
Proof.
  unfold addOutImage. cbv zeta.
  rewrite depth_scaled, areaOf_scaled, Width_scaleAreaAt,
    Height_scaleAreaAt, MaxOutImageWidth_scaled, MaxOutImageHeight_scaled.
  rewrite !ltb_scale, !if_scale by done.
  set (W := if _ <? _ then _ else _). set (H := if _ <? _ then _ else _).
  rewrite (upd_outArea_scaled k P _
             (λ o, COutArea.mk (COutArea.OutImage o) 0 0 W H
                     (COutArea.Next o))).
  2:{ intros o. unfold scaleOutArea. fcbn. by rewrite !Z.mul_0_r. }
  rewrite insertOutArea_scaled.
  destruct (insertOutArea _ _) as [[f2 prev]|]; [|done].
  cbn [mbind option_bind fmap option_fmap option_map prod_map fst snd id].
  f_equal.
  rewrite (upd_s_scaled k P _ (CFitAreaStackItem.set_PrevOutArea prev))
    by done.
  set (f3 := upd_s _ f2). rewrite fd_scaled.
  change (CFitData.OutImageCount (scaleFitData k ?d))
    with (CFitData.OutImageCount d).
  set (n := CFitData.OutImageCount (CAreaFitter.fd f3)).
  rewrite (upd_outArea_scaled k P _ (COutArea.set_OutImage n)) by done.
  rewrite (upd_fd_scaled k P _
             (λ d, CFitData.set_OutImages
                     (updateCapacity (Z.to_nat (add32 n 1))
                        (CFitData.OutImages d)) d)).
  2:{ intros d. unfold scaleFitData, CFitData.set_OutImages. fcbn.
      by rewrite updateCapacity_scaled. }
  rewrite <- (scaleImage_zero k) at 1. rewrite set_outImage_scaled.
  rewrite (upd_fd_scaled k P _ (CFitData.set_OutImageCount (add32 n 1)))
    by done.
  by apply upd_s_scaled.
Qed.

Lemma Depth_addOutImage f A f8 :
  addOutImage f A = Some f8 → CAreaFitter.Depth f8 = CAreaFitter.Depth f.
Proof.
  unfold addOutImage. cbv zeta. intros H.
  apply bind_Some in H as ([f2 prev] & Hins & H).
  apply (inj Some) in H. subst f8. fcbn.
  rewrite Depth_upd_outArea. fcbn.
  revert Hins. unfold insertOutArea.
  destruct (insertOutArea_scan _ _ _ _ _) as [q|]; [|done].
  cbn. intros [= <- _]. by rewrite !Depth_upd_outArea.
Qed.

(** The head of the inner loop. *)
Lemma atRegionLoop_scaled P f A O :
  sizesBelow k f → loopOK k P f A O →
  ∃ P',
    atRegionLoop (scaleFitter k P f) A O
    = scaleConfig k P' <$> atRegionLoop f A O ∧
    (P' = withArea A P ∨
     (P' = P ∧
      ∀ cfg', atRegionLoop f A O = Some cfg' →
        CAreaFitter.Depth (Config.fitter cfg') = CAreaFitter.Depth f)).
Proof.
  intros Hf HOK. destruct O as [h|].
  - unfold atRegionLoop.
    rewrite (upd_s_scaled k P _
               (CFitAreaStackItem.set_WasOutImageAdded false)) by done.
    destruct (tryOutArea_scaled P
                (upd_s (CFitAreaStackItem.set_WasOutImageAdded false) f) A
                (Some h)) as (P' & Heq & HP').
    + by apply below_upd_s; [solve_keepsSize|].
    + exact HOK.
    + exists P'. split; [done|].
      destruct HP' as [->|[-> Hd]]; [by left|right]. split; [done|].
      exact Hd.
  - rewrite !atRegionLoop_None.
    rewrite s_scaled, fd_scaled. unfold scaleItem at 1. fcbn.
    change (CFitData.OutImageCount (scaleFitData k ?d))
      with (CFitData.OutImageCount d).
    change (CFitData.BestOutImageCount (scaleFitData k ?d))
      with (CFitData.BestOutImageCount d).
    destruct (0 <? _).
    { exists P. split; [by rewrite afterRegionLoop_scaled|].
      right. split; [done|]. intros cfg' [= <-].
      apply Depth_afterRegionLoop. }
    destruct (_ =? _).
    { exists P. split; [by rewrite afterRegionLoop_scaled|].
      right. split; [done|]. intros cfg' [= <-].
      apply Depth_afterRegionLoop. }
    rewrite addOutImage_scaled, depth_scaled.
    destruct (addOutImage f A) as [f8|] eqn:E.
    + cbn [mbind option_bind fmap option_fmap option_map].
      destruct (tryOutArea_scaled P f8 A (Some (NewPtr (depth f) 2)))
        as (P' & Heq & HP'); [by eapply below_addOutImage|by apply HOK|].
      exists P'. split; [done|].
      destruct HP' as [->|[-> Hd]]; [by left|right].
      split; [done|]. intros cfg' Hc. rewrite (Hd _ Hc).
      by eapply Depth_addOutImage.
    + exists P. split; [done|]. right. split; [done|]. by intros cfg'.
Qed.

Lemma atCodeLoc2_scaled P f A O :
  sizesBelow k f → cornerOK k f A O → O ≠ Some (NewPtr (depth f) 0) →
  atCodeLoc2 (scaleFitter k P f) A O
  = scaleConfig k P <$> atCodeLoc2 f A O.
Proof.
  intros Hf Hc HO. unfold atCodeLoc2. cbv zeta.
  rewrite !s_scaled, !c_scaleItem.
  rewrite !removeNewOutAreas_scaled.
  set (f1 := removeNewOutAreas _ f).
  assert (sizesBelow k f1) as Hf1 by (by apply below_removeNewOutAreas).
  pose proof (sameRects_removeNewOutAreas (CFitAreaStackItem.c (s f)) f)
    as Hs1. fold f1 in Hs1.
  rewrite !fd_scaled.
  change (CFitData.OutSize (scaleFitData k ?d))
    with (k * k * CFitData.OutSize d).
  change (CFitData.BestOutSize (scaleFitData k ?d))
    with (scaleBest k (CFitData.BestOutSize d)).
  change (CFitData.OutImageCount (scaleFitData k ?d))
    with (CFitData.OutImageCount d).
  change (CFitData.BestOutImageCount (scaleFitData k ?d))
    with (CFitData.BestOutImageCount d).
  rewrite ltb_scaleBest by (done || by destruct Hf1).
  destruct (_ && _).
  - rewrite configuration2_scaled;
      [|by eapply cornerOK_same|by rewrite (proj2 (proj2 Hs1))].
    destruct (configuration2 f1 A O) as [f2|] eqn:E2; [|done].
    cbn [mbind option_bind fmap option_fmap option_map].
    rewrite !s_scaled, !c_scaleItem, !c1_scaleItem.
    destruct (0 <? _)%nat.
    + rewrite (upd_s_scaled k P _ (CFitAreaStackItem.set_CodeLoc 3))
        by done.
      by rewrite pushStack_scaled.
    + cbn [fmap option_fmap option_map]. f_equal.
      apply restoreOutArea_scaled.
      by eapply below_configuration2.
  - cbn [fmap option_fmap option_map]. f_equal.
    by apply restoreOutArea_scaled.
Qed.

Lemma atCodeLoc3_scaled P f A O :
  sizesBelow k f →
  atCodeLoc3 (scaleFitter k P f) A O
  = scaleConfig k P <$> atCodeLoc3 f A O.
Proof.
  intros Hf. unfold atCodeLoc3. cbv zeta.
  rewrite !s_scaled, !c_scaleItem.
  rewrite !removeNewOutAreas_scaled.
  cbn [fmap option_fmap option_map]. f_equal.
  apply restoreOutArea_scaled. by apply below_removeNewOutAreas.
Qed.

(** A step of the search on the larger scale is the step of the search,
    on the larger scale. *)
Lemma step_scaled P cfg :
  sizesBelow k (Config.fitter cfg) → stepOK k P cfg →
  ∃ P',
    step (scaleConfig k P cfg) = scaleConfig k P' <$> step cfg ∧
    ((P' = withArea (Config.Area cfg) P ∧ Config.loc cfg = AtRegionLoop) ∨
     (P' = P ∧
      (Config.loc cfg = AtRegionLoop →
       ∀ cfg', step cfg = Some cfg' →
         CAreaFitter.Depth (Config.fitter cfg')
         = CAreaFitter.Depth (Config.fitter cfg)))).
Proof.
  destruct cfg as [f A O l]. unfold stepOK, step, scaleConfig at 1.
  cbn [Config.fitter Config.Area Config.OutArea Config.loc].
  intros Hf HOK. destruct l.
  - exists P. split; [|by right].
    cbn [fmap option_fmap option_map]. f_equal. by apply atCodeLoc1_scaled.
  - destruct (atRegionLoop_scaled P f A O Hf HOK) as (P' & Heq & HP').
    exists P'. split; [done|].
    destruct HP' as [->|[-> Hd]]; [by left|right]. by split.
  - exists P. split; [|by right].
    destruct HOK. by apply atCodeLoc2_scaled.
  - exists P. split; [|by right]. by apply atCodeLoc3_scaled.
  - exists P. split; [|by right]. done.
Qed.

End Blocks.

(** ** The areas that the stack items hold *)

Ltac solve_keepsHeld := intros ?; reflexivity.

Lemma sameFrames_refl f : sameFrames f f.
Proof. done. Qed.

Lemma sameFrames_trans f1 f2 f3 :
  sameFrames f1 f2 → sameFrames f2 f3 → sameFrames f1 f3.
Proof. intros [H1 H2] [H3 H4]. split; congruence. Qed.

Lemma sameFrames_depth f f' : sameFrames f f' → depth f' = depth f.
Proof. intros [_ H]. unfold depth. by rewrite H. Qed.

Lemma frameAreas_alter g i (l : list CFitAreaStackItem.t) :
  (∀ it, CFitAreaStackItem.Area (g it) = CFitAreaStackItem.Area it) →
  CFitAreaStackItem.Area <$> alter g i l = CFitAreaStackItem.Area <$> l.
Proof.
  intros Hg. rewrite (list_fmap_alter _ g id).
  - by rewrite list_alter_id.
  - apply Forall_forall. intros it _. apply Hg.
Qed.

Lemma sameFrames_upd_s g f :
  (∀ it, CFitAreaStackItem.Area (g it) = CFitAreaStackItem.Area it) →
  sameFrames f (upd_s g f).
Proof.
  intros Hg. split; [|done]. unfold frameAreas, upd_s. fcbn.
  by apply frameAreas_alter.
Qed.

Lemma sameFrames_upd_outArea g p f : sameFrames f (upd_outArea g p f).
Proof.
  split; [|apply Depth_upd_outArea]. destruct p as [i|d j]; [done|].
  unfold frameAreas, upd_outArea. fcbn. by apply frameAreas_alter.
Qed.

Lemma sameFrames_upd_area g p f : sameFrames f (upd_area g p f).
Proof. by destruct p. Qed.

Lemma sameFrames_upd_fd g f : sameFrames f (upd_fd g f).
Proof. done. Qed.

Lemma sameFrames_set_outImage i v f : sameFrames f (set_outImage i v f).
Proof. done. Qed.

Lemma sameFrames_insertOutArea f p f' prev :
  insertOutArea f p = Some (f', prev) → sameFrames f f'.
Proof.
  unfold insertOutArea. intros H.
  destruct (insertOutArea_scan _ _ _ _ _) as [q|]; [|done].
  cbn in H. injection H as <- _.
  eapply sameFrames_trans; apply sameFrames_upd_outArea.
Qed.

Lemma sameFrames_removeNewOutAreas n f :
  sameFrames f (removeNewOutAreas n f).
Proof.
  revert f. induction n as [|n IH]; intros f; [apply sameFrames_refl|].
  cbn [removeNewOutAreas]. cbv zeta.
  eapply sameFrames_trans; [|apply IH].
  eapply sameFrames_trans; [|apply sameFrames_upd_outArea].
  by apply sameFrames_upd_s.
Qed.

Lemma sameFrames_addNewOutArea0 img ax ay w h f f' :
  addNewOutArea0 img ax ay w h f = Some f' → sameFrames f f'.
Proof.
  unfold addNewOutArea0. cbv zeta. intros H.
  destruct (insertOutArea _ _) as [[f2 prev]|] eqn:E; [|done].
  cbn in H. injection H as <-.
  eapply sameFrames_trans; [apply sameFrames_upd_outArea|].
  eapply sameFrames_trans; [by eapply sameFrames_insertOutArea|].
  by apply sameFrames_upd_s.
Qed.

Lemma sameFrames_addNewOutArea1 img ax ay w h f f' :
  addNewOutArea1 img ax ay w h f = Some f' → sameFrames f f'.
Proof.
  unfold addNewOutArea1. cbv zeta. intros H.
  destruct (insertOutArea _ _) as [[f2 prev]|] eqn:E; [|done].
  cbn in H. injection H as <-.
  eapply sameFrames_trans; [apply sameFrames_upd_outArea|].
  eapply sameFrames_trans; [by eapply sameFrames_insertOutArea|].
  by apply sameFrames_upd_s.
Qed.

Lemma sameFrames_configuration1 f A O f' :
  configuration1 f A O = Some f' → sameFrames f f'.
Proof.
  unfold configuration1. intros H.
  apply bind_Some in H as (f1 & H1 & H2).
  assert (sameFrames f f1) as Hf1.
  { destruct (_ && _) in H1; [by eapply sameFrames_addNewOutArea0|].
    injection H1 as <-. by apply sameFrames_upd_s. }
  cbv zeta in H2. eapply sameFrames_trans; [exact Hf1|].
  destruct (_ && _) in H2; [by eapply sameFrames_addNewOutArea1|].
  injection H2 as <-. apply sameFrames_refl.
Qed.

Lemma sameFrames_configuration2 f A O f' :
  configuration2 f A O = Some f' → sameFrames f f'.
Proof.
  unfold configuration2. intros H.
  apply bind_Some in H as (f1 & H1 & H2).
  assert (sameFrames f f1) as Hf1.
  { destruct (_ && _) in H1; [by eapply sameFrames_addNewOutArea0|].
    injection H1 as <-. by apply sameFrames_upd_s. }
  cbv zeta in H2. eapply sameFrames_trans; [exact Hf1|].
  destruct (_ && _) in H2; [by eapply sameFrames_addNewOutArea1|].
  injection H2 as <-. apply sameFrames_refl.
Qed.

Lemma sameFrames_saveBestFit f : sameFrames f (saveBestFit f).
Proof. unfold saveBestFit. cbv zeta. by destruct (_ && _). Qed.

Lemma sameFrames_setRemain f A O : sameFrames f (setRemain f A O).
Proof. unfold setRemain. cbv zeta. by apply sameFrames_upd_s. Qed.

Lemma sameFrames_commitFit f O r : sameFrames f (commitFit f O r).
Proof.
  unfold commitFit. cbv zeta.
  set (f1 := set_outImage _ _ f). set (f2 := upd_fd _ f1).
  apply (sameFrames_trans f f2); [done|]. by apply sameFrames_upd_s.
Qed.

Lemma sameFrames_addOutImage f A f8 :
  addOutImage f A = Some f8 → sameFrames f f8.
Proof.
  unfold addOutImage. cbv zeta. intros H.
  apply bind_Some in H as ([f2 prev] & Hins & H).
  apply (inj Some) in H. subst f8.
  set (f1 := upd_outArea _ _ f) in *.
  assert (sameFrames f f2) as H2.
  { apply (sameFrames_trans f f1); [apply sameFrames_upd_outArea|].
    by eapply sameFrames_insertOutArea. }
  set (f3 := upd_s (CFitAreaStackItem.set_PrevOutArea prev) f2).
  set (f4 := upd_outArea _ _ f3).
  assert (sameFrames f f4) as H4.
  { apply (sameFrames_trans f f2); [done|].
    apply (sameFrames_trans f2 f3); [by apply sameFrames_upd_s|].
    apply sameFrames_upd_outArea. }
  clearbody f4.
  apply (sameFrames_trans f f4); [done|].
  set (f7 := upd_fd _ (set_outImage _ _ (upd_fd _ f4))).
  apply (sameFrames_trans f4 f7); [done|]. by apply sameFrames_upd_s.
Qed.

(** *** The outcome of a step *)

Lemma Outcome_same f f1 cfg' :
  sameFrames f f1 → Outcome f1 cfg' → Outcome f cfg'.
Proof.
  intros Hs. pose proof (sameFrames_depth _ _ Hs) as Hd.
  destruct Hs as [Ha HD]. unfold Outcome. cbv zeta.
  rewrite Hd, HD, Ha. done.
Qed.

Lemma take_frameAreas_upd_s g f n :
  (n <= depth f)%nat →
  take n (frameAreas (upd_s g f)) = take n (frameAreas f).
Proof.
  intros Hn. unfold frameAreas, upd_s. fcbn.
  rewrite <- !fmap_take. by rewrite take_alter_ge.
Qed.

Lemma Outcome_afterRegionLoop f A O : Outcome f (afterRegionLoop f A O).
Proof.
  left. unfold afterRegionLoop. cbv zeta. fcbn.
  split; [by destruct (CFitAreaStackItem.PrevArea _)|]. split; [by left|].
  set (f1 := upd_area _ _ f).
  rewrite take_frameAreas_upd_s by (unfold f1; by rewrite depth_upd_area).
  unfold f1. by rewrite (proj1 (sameFrames_upd_area _ _ f)).
Qed.

Lemma Outcome_regionTail f A O : Outcome f (regionTail f A O).
Proof.
  unfold regionTail. destruct (CFitAreaStackItem.WasOutImageAdded _).
  - cbv zeta. eapply Outcome_same; [|apply Outcome_afterRegionLoop].
    set (f1 := upd_outArea _ _ f).
    apply (sameFrames_trans f f1); [apply sameFrames_upd_outArea|done].
  - destruct (worseThanBest f); [apply Outcome_afterRegionLoop|].
    cbv zeta. left. fcbn. split; [done|]. split; [by right|].
    unfold frameAreas. fcbn. by rewrite frameAreas_alter.
Qed.

Lemma Outcome_restoreOutImage f A O : Outcome f (restoreOutImage f A O).
Proof.
  unfold restoreOutImage.
  destruct (CFitAreaStackItem.DoOutImageRestore _);
    [|apply Outcome_regionTail].
  cbv zeta. eapply Outcome_same; [|apply Outcome_regionTail]. done.
Qed.

Lemma Outcome_restoreOutArea f A O : Outcome f (restoreOutArea f A O).
Proof.
  unfold restoreOutArea. cbv zeta.
  eapply Outcome_same; [|apply Outcome_restoreOutImage].
  apply sameFrames_upd_outArea.
Qed.

Lemma Outcome_pushStack f A O :
  0 <= CAreaFitter.Depth f →
  Outcome f (Config.mk (pushStack f) A O AtCodeLoc1).
Proof.
  intros HD. right. unfold pushStack. cbv zeta. fcbn.
  split; [done|]. split; [done|].
  set (f1 := CAreaFitter.set_Depth _ f).
  assert (depth f1 = S (depth f)) as Hd.
  { unfold depth, f1. fcbn. lia. }
  rewrite take_frameAreas_upd_s by lia. done.
Qed.

Lemma Outcome_placeArea f A O cfg' :
  0 <= CAreaFitter.Depth f →
  placeArea f A O = Some cfg' → Outcome f cfg'.
Proof.
  unfold placeArea. cbv zeta. intros HD H.
  set (f1 := upd_area _ _ f) in *.
  assert (sameFrames f f1) as Hf1 by apply sameFrames_upd_area.
  destruct (CFitArea.Next _) as [first|].
  - apply bind_Some in H as ([mw mh] & _ & H).
    apply bind_Some in H as (f4 & H4 & H). injection H as <-.
    set (f2 := upd_s _ f1) in *. set (f3 := upd_outArea _ _ f2) in *.
    set (f5 := upd_s _ f4).
    assert (sameFrames f f5) as Hf5.
    { apply (sameFrames_trans f f1); [done|].
      apply (sameFrames_trans f1 f2); [by apply sameFrames_upd_s|].
      apply (sameFrames_trans f2 f3); [apply sameFrames_upd_outArea|].
      apply (sameFrames_trans f3 f4); [by eapply sameFrames_configuration1|].
      by apply sameFrames_upd_s. }
    eapply Outcome_same; [exact Hf5|]. apply Outcome_pushStack.
    by rewrite (proj2 Hf5).
  - injection H as <-. eapply Outcome_same; [|apply Outcome_restoreOutImage].
    apply (sameFrames_trans f f1); [done|]. apply sameFrames_saveBestFit.
Qed.

Lemma Outcome_tryOutArea f A O cfg' :
  0 <= CAreaFitter.Depth f →
  tryOutArea f A O = Some cfg' → Outcome f cfg'.
Proof.
  unfold tryOutArea. cbv zeta. intros HD H.
  set (f1 := setRemain f A O) in *.
  assert (sameFrames f f1) as Hf1 by apply sameFrames_setRemain.
  destruct (_ || _).
  - injection H as <-. left. fcbn. split; [done|]. split; [by right|].
    unfold frameAreas. fcbn. rewrite frameAreas_alter by done.
    fold (frameAreas f1). by rewrite (proj1 Hf1).
  - set (f3 := commitFit f1 O _) in *.
    assert (sameFrames f f3) as Hf3.
    { apply (sameFrames_trans f f1); [done|]. apply sameFrames_commitFit. }
    eapply Outcome_same; [exact Hf3|].
    destruct (CheckFit.result _).
    + eapply Outcome_placeArea; [|exact H]. by rewrite (proj2 Hf3).
    + injection H as <-. apply Outcome_regionTail.
Qed.

Lemma Outcome_atRegionLoop f A O cfg' :
  0 <= CAreaFitter.Depth f →
  atRegionLoop f A O = Some cfg' → Outcome f cfg'.
Proof.
  intros HD H. destruct O as [h|].
  - unfold atRegionLoop in H.
    eapply Outcome_same; [|eapply Outcome_tryOutArea; [|exact H]]; [|done].
    by apply sameFrames_upd_s.
  - rewrite atRegionLoop_None in H.
    destruct (0 <? _); [injection H as <-; apply Outcome_afterRegionLoop|].
    destruct (_ =? _); [injection H as <-; apply Outcome_afterRegionLoop|].
    apply bind_Some in H as (f8 & Hadd & H).
    pose proof (sameFrames_addOutImage _ _ _ Hadd) as Hs.
    eapply Outcome_same; [exact Hs|].
    eapply Outcome_tryOutArea; [|exact H]. by rewrite (proj2 Hs).
Qed.

Lemma Outcome_atCodeLoc2 f A O cfg' :
  0 <= CAreaFitter.Depth f →
  atCodeLoc2 f A O = Some cfg' → Outcome f cfg'.
Proof.
  unfold atCodeLoc2. cbv zeta. intros HD H.
  set (f1 := removeNewOutAreas _ f) in *.
  assert (sameFrames f f1) as Hf1 by apply sameFrames_removeNewOutAreas.
  eapply Outcome_same; [exact Hf1|].
  destruct (_ && _).
  - apply bind_Some in H as (f2 & H2 & H).
    pose proof (sameFrames_configuration2 _ _ _ _ H2) as Hf2.
    eapply Outcome_same; [exact Hf2|].
    destruct (0 <? _)%nat; injection H as <-.
    + set (f3 := upd_s _ f2).
      apply (Outcome_same f2 f3); [by apply sameFrames_upd_s|].
      apply Outcome_pushStack. unfold f3. fcbn.
      by rewrite (proj2 Hf2), (proj2 Hf1).
    + apply Outcome_restoreOutArea.
  - injection H as <-. apply Outcome_restoreOutArea.
Qed.

Lemma Outcome_atCodeLoc3 f A O cfg' :
  atCodeLoc3 f A O = Some cfg' → Outcome f cfg'.
Proof.
  unfold atCodeLoc3. cbv zeta. intros [= <-].
  eapply Outcome_same; [apply sameFrames_removeNewOutAreas|].
  apply Outcome_restoreOutArea.
Qed.

(** *** The head of the outer loop *)

Lemma frames_leaveFrame f A O :
  let cfg' := leaveFrame f A O in
  frameAreas (Config.fitter cfg') = frameAreas f ∧
  ((CAreaFitter.Depth (Config.fitter cfg') = CAreaFitter.Depth f ∧
    Config.loc cfg' = AtReturn) ∨
   (0 < CAreaFitter.Depth f ∧
    CAreaFitter.Depth (Config.fitter cfg') = CAreaFitter.Depth f - 1)).
Proof.
  cbv zeta. unfold leaveFrame.
  destruct (Z.ltb_spec 0 (CAreaFitter.Depth f)).
  - split; [done|]. by right.
  - destruct (0 <? CAreaFitter.FitCallsLeft f); split; try done; by left.
Qed.

Lemma frames_startArea f :
  let cfg' := startArea f in
  frameAreas (Config.fitter cfg') = frameAreas f ∧
  CAreaFitter.Depth (Config.fitter cfg') = CAreaFitter.Depth f ∧
  Config.loc cfg' = AtRegionLoop.
Proof.
  cbv zeta. unfold startArea. cbv zeta. fcbn.
  set (f1 := CAreaFitter.set_FitCallsLeft _ f).
  set (f2 := upd_area _ _ f1).
  split; [|split; [|done]].
  - set (g := λ it, CFitAreaStackItem.set_OutAreasTried 0 _).
    rewrite (proj1 (sameFrames_upd_s g f2 ltac:(solve_keepsHeld))).
    unfold f2. by rewrite (proj1 (sameFrames_upd_area _ _ f1)).
  - unfold f2. by rewrite Depth_upd_area.
Qed.

Lemma frames_atCodeLoc1 f A O :
  let cfg' := atCodeLoc1 f A O in
  frameAreas (Config.fitter cfg') = frameAreas f ∧
  ((CAreaFitter.Depth (Config.fitter cfg') = CAreaFitter.Depth f ∧
    (Config.loc cfg' = AtReturn ∨ Config.loc cfg' = AtRegionLoop)) ∨
   (0 < CAreaFitter.Depth f ∧
    CAreaFitter.Depth (Config.fitter cfg') = CAreaFitter.Depth f - 1)).
Proof.
  cbv zeta.
  assert (∀ f0, frameAreas f0 = frameAreas f →
                CAreaFitter.Depth f0 = CAreaFitter.Depth f →
            frameAreas (Config.fitter (leaveFrame f0 A O)) = frameAreas f ∧
            ((CAreaFitter.Depth (Config.fitter (leaveFrame f0 A O))
              = CAreaFitter.Depth f ∧
              (Config.loc (leaveFrame f0 A O) = AtReturn ∨
               Config.loc (leaveFrame f0 A O) = AtRegionLoop)) ∨
             (0 < CAreaFitter.Depth f ∧
              CAreaFitter.Depth (Config.fitter (leaveFrame f0 A O))
              = CAreaFitter.Depth f - 1))) as Hleave.
  { intros f0 Ha Hd. destruct (frames_leaveFrame f0 A O) as [E1 E2].
    rewrite E1, Ha. split; [done|]. rewrite <- Hd.
    destruct E2 as [[? ?]|[? ?]]; [left|right]; auto. }
  assert (∀ f0, frameAreas f0 = frameAreas f →
                CAreaFitter.Depth f0 = CAreaFitter.Depth f →
            frameAreas (Config.fitter (startArea f0)) = frameAreas f ∧
            ((CAreaFitter.Depth (Config.fitter (startArea f0))
              = CAreaFitter.Depth f ∧
              (Config.loc (startArea f0) = AtReturn ∨
               Config.loc (startArea f0) = AtRegionLoop)) ∨
             (0 < CAreaFitter.Depth f ∧
              CAreaFitter.Depth (Config.fitter (startArea f0))
              = CAreaFitter.Depth f - 1))) as Hstart.
  { intros f0 Ha Hd. destruct (frames_startArea f0) as (E1 & E2 & E3).
    rewrite E1, E2, Ha, Hd. split; [done|]. left. auto. }
  unfold atCodeLoc1.
  destruct (CFitAreaStackItem.Area (s f)); [|by apply Hleave].
  destruct (worseThanBest f); [by apply Hleave|].
  destruct (CAreaFitter.FitCallsLeft f =? 0); [|by apply Hstart].
  destruct (_ || _); [by apply Hleave|].
  destruct (_ =? 0); [split; [done|]; left; auto|].
  destruct (512 <=? _); by apply Hstart.
Qed.

(** *** The areas of the suspended items *)

Lemma held_lookup f d :
  CFitAreaStackItem.Area (item f d) = default None (frameAreas f !! d).
Proof.
  unfold item, frameAreas. rewrite list_lookup_fmap.
  rewrite list_lookup_total_alt. by destruct (_ !! d).
Qed.

Lemma placedBelow_take f f' e :
  take e (frameAreas f') = take e (frameAreas f) →
  placedBelow f' e = placedBelow f e.
Proof.
  intros H. unfold placedBelow. apply list_fmap_ext.
  intros i d Hd. apply lookup_seq in Hd as [-> Hd]. cbn [Nat.add].
  rewrite !held_lookup.
  rewrite <- (lookup_take_lt (frameAreas f') e) by done.
  rewrite <- (lookup_take_lt (frameAreas f) e) by done.
  by rewrite H.
Qed.

Lemma withArea_mono A P i : P i = true → withArea A P i = true.
Proof. intros H. unfold withArea. by case_decide. Qed.

Lemma withArea_self a P : withArea (Some a) P a = true.
Proof. unfold withArea. cbn. by rewrite decide_True. Qed.

Section Held.
Context (BW BH : Z).

(** A step keeps the positions of the areas of the suspended items
    assigned. *)
Lemma placedIn_step P P' cfg cfg' :
  Inv BW BH cfg → placedIn P cfg → step cfg = Some cfg' →
  ((P' = withArea (Config.Area cfg) P ∧ Config.loc cfg = AtRegionLoop) ∨
   (P' = P ∧
    (Config.loc cfg = AtRegionLoop →
     ∀ c, step cfg = Some c →
       CAreaFitter.Depth (Config.fitter c)
       = CAreaFitter.Depth (Config.fitter cfg)))) →
  placedIn P' cfg'.
Proof.
  destruct cfg as [f A O l]. intros HI [Hbelow Htop] Hstep HP'.
  cbn [Config.fitter Config.Area Config.OutArea Config.loc] in *.
  assert (∀ i, P i = true → P' i = true) as Hmono.
  { intros i Hi. destruct HP' as [[-> _]|[-> _]]; [|done].
    by apply withArea_mono. }
  destruct (decide (l = AtReturn)) as [->|Hnr].
  { cbn in Hstep. injection Hstep as <-. split; [|done].
    intros i Hi. apply Hmono. by apply Hbelow. }
  destruct HI as (HS & HGl & [Hloc|(Gs & G & HD & Hlen & HB & HG & Htp)]);
    [done|].
  cbn [Config.fitter] in *.
  assert (depth f = length Gs) as Hd by (unfold depth; lia).
  assert (0 <= CAreaFitter.Depth f) as Hd0 by lia.
  (* the two outcomes of a step of the current item *)
  assert (Outcome f cfg' →
          P' (default 0%nat (CFitAreaStackItem.Area (item f (depth f))))
          = true ∨
          CAreaFitter.Depth (Config.fitter cfg') = CAreaFitter.Depth f →
          placedIn P' cfg') as Hout.
  { intros [(ED & Hl & Ht)|(ED & Hl & Ht)] Hnew.
    - split.
      + assert (depth (Config.fitter cfg') = depth f) as ->
          by (unfold depth; by rewrite ED).
        rewrite (placedBelow_take _ _ _ Ht). intros i Hi.
        apply Hmono. by apply Hbelow.
      + by destruct Hl as [-> | ->].
    - destruct Hnew as [Hnew|Hnew]; [|lia]. split; [|by rewrite Hl].
      assert (depth (Config.fitter cfg') = S (depth f)) as ->
        by (unfold depth; rewrite ED; lia).
      rewrite (placedBelow_take _ _ _ Ht), placedBelow_S.
      intros i [Hi|Hi]%elem_of_app.
      * apply Hmono. by apply Hbelow.
      * apply list_elem_of_singleton in Hi as ->. exact Hnew. }
  unfold step in Hstep.
  cbn [Config.fitter Config.Area Config.OutArea Config.loc] in Hstep.
  destruct l; try done.
  - (* the head of the outer loop *)
    injection Hstep as <-.
    destruct (frames_atCodeLoc1 f A O) as [Ea Hcase].
    assert (take (depth f) (frameAreas (Config.fitter (atCodeLoc1 f A O)))
            = take (depth f) (frameAreas f)) as Ht by (by rewrite Ea).
    destruct Hcase as [[ED Hl]|[Hpos ED]].
    + split.
      * assert (depth (Config.fitter (atCodeLoc1 f A O)) = depth f) as ->
          by (unfold depth; by rewrite ED).
        rewrite (placedBelow_take _ _ _ Ht). intros i Hi.
        apply Hmono. by apply Hbelow.
      * by destruct Hl as [-> | ->].
    + set (f' := Config.fitter (atCodeLoc1 f A O)) in *.
      assert (depth f = S (depth f')) as Hdd
        by (unfold depth; rewrite ED; lia).
      assert (placedBelow f (depth f)
              = placedBelow f' (depth f')
                ++ [default 0%nat
                      (CFitAreaStackItem.Area (item f' (depth f')))])
        as Hpb.
      { rewrite Hdd, placedBelow_S.
        rewrite <- (placedBelow_take f f' (depth f')) by (by rewrite Ea).
        by rewrite !held_lookup, Ea. }
      split.
      * intros i Hi. apply Hmono, Hbelow. rewrite Hpb.
        apply elem_of_app. by left.
      * assert (P' (default 0%nat
                      (CFitAreaStackItem.Area (item f' (depth f'))))
                = true) as Hp.
        { apply Hmono, Hbelow. rewrite Hpb. apply elem_of_app. right.
          by apply list_elem_of_singleton. }
        by destruct (Config.loc _).
  - (* the inner loop *)
    unfold Top in Htp.
    cbn [Config.fitter Config.loc Config.Area Config.OutArea] in Htp.
    rewrite Hd in Htp.
    destruct Htp as (a & Ua & Ub & La & Lb & -> & HFA & HV & HL & -> & Hp).
    apply Hout; [by eapply Outcome_atRegionLoop|].
    destruct HP' as [[-> _]|[-> Hsame]].
    + left. rewrite Hd, (fa_area _ _ _ _ HFA). cbn. apply withArea_self.
    + right. by apply Hsame.
  - (* [CodeLoc2] *)
    apply Hout; [by eapply Outcome_atCodeLoc2|].
    left. apply Hmono. exact Htop.
  - (* [CodeLoc3] *)
    apply Hout; [by eapply Outcome_atCodeLoc3|].
    left. apply Hmono. exact Htop.
Qed.

End Held.
